(** * Half-edge triangulation engine: a shallow embedding

    The development follows the JavaScript sources
    [topology/Triangulation.js], [topology/HalfEdgeGraphSearch.js] and
    [Geometry.js].  JavaScript numbers are idealised as exact rationals
    ([Q]): the embedding computes what the code computes wherever the
    double arithmetic of the code does not round, as on integer coordinates
    of moderate size, and statements that depend on the value of a rounded
    quantity are made for such coordinates only.  Half-edge objects live in
    an arena (the array [allHalfEdges]) and an object reference is the index
    of the object in that array. *)

From Stdlib Require Import ZArith QArith Qabs Qminmax Qround Lia Lqa Bool.
From stdpp Require Import base option list.

Local Open Scope Z_scope.

(** ** Outcomes of a JavaScript computation *)

(** A call either returns a value, throws a [TypeError] (a property of
    [undefined] was read) or is still running when the fuel that bounds the
    unfolding of its loops is used up. *)
Inductive result (A : Type) : Type :=
  | Ok (a : A)
  | TypeError
  | OutOfFuel.
Arguments Ok {A} a.
Arguments TypeError {A}.
Arguments OutOfFuel {A}.

Definition bind {A B : Type} (m : result A) (f : A -> result B) : result B :=
  match m with
  | Ok a => f a
  | TypeError => TypeError
  | OutOfFuel => OutOfFuel
  end.

Notation "'let*' x ':=' m 'in' k" := (bind m (fun x => k))
  (at level 10, x pattern, m at level 200, k at level 200, only parsing).

(** Reading a property of a possibly [undefined] reference. *)
Definition deref {A} (o : option A) : result A :=
  match o with Some a => Ok a | None => TypeError end.

(** ** Comparisons of numbers as booleans *)

Definition Qltb (a b : Q) : bool :=
  match Qcompare a b with Lt => true | _ => false end.
Definition Qleb (a b : Q) : bool := Qle_bool a b.
Definition Qeqb (a b : Q) : bool := Qeq_bool a b.

(** ** Geometry.js *)

Module Geometry.

(** [smallMetricDistance = 1.0e-6]: the double nearest to one millionth,
    4722366482869645 / 2^72. *)
Definition smallMetricDistance : Q := 4722366482869645 # 4722366482869645213696.

(** [isSameCoordinate(x, y)] without the optional tolerance argument. *)
Definition isSameCoordinate (x y : Q) : bool :=
  Qltb (Qabs (x - y)) smallMetricDistance.

Definition tripleProduct (ux uy uz vx vy vz wx wy wz : Q) : Q :=
  (ux * (vy * wz - vz * wy)
   + uy * (vz * wx - vx * wz)
   + uz * (vx * wy - vy * wx))%Q.

End Geometry.

(** ** Graph.js: half-edge records and the arena that owns them *)

Module HE.

(** One half-edge.  [zOrder], [prevZ] and [nextZ] are the transient
    fields of the Z-order ear search; [None] is [undefined]. *)
Record t : Type := mk {
  x : Q;
  y : Q;
  z : Q;
  i : Z;
  maskBits : Z;
  faceSuccessor : nat;
  facePredecessor : nat;
  edgeMate : option nat;
  steiner : bool;
  zOrder : option Z;
  prevZ : option nat;
  nextZ : option nat
}.

Definition fresh (x0 y0 z0 : Q) (i0 : Z) : t :=
  mk x0 y0 z0 i0 0 0%nat 0%nat None false None None None.

Definition set_xyzi (x0 y0 z0 : Q) (i0 : Z) (e : t) : t :=
  mk x0 y0 z0 i0 (maskBits e) (faceSuccessor e) (facePredecessor e)
     (edgeMate e) (steiner e) (zOrder e) (prevZ e) (nextZ e).
Definition set_maskBits (m : Z) (e : t) : t :=
  mk (x e) (y e) (z e) (i e) m (faceSuccessor e) (facePredecessor e)
     (edgeMate e) (steiner e) (zOrder e) (prevZ e) (nextZ e).
Definition set_faceSuccessor (n : nat) (e : t) : t :=
  mk (x e) (y e) (z e) (i e) (maskBits e) n (facePredecessor e)
     (edgeMate e) (steiner e) (zOrder e) (prevZ e) (nextZ e).
Definition set_facePredecessor (n : nat) (e : t) : t :=
  mk (x e) (y e) (z e) (i e) (maskBits e) (faceSuccessor e) n
     (edgeMate e) (steiner e) (zOrder e) (prevZ e) (nextZ e).
Definition set_edgeMate (n : option nat) (e : t) : t :=
  mk (x e) (y e) (z e) (i e) (maskBits e) (faceSuccessor e)
     (facePredecessor e) n (steiner e) (zOrder e) (prevZ e) (nextZ e).
Definition set_steiner (b : bool) (e : t) : t :=
  mk (x e) (y e) (z e) (i e) (maskBits e) (faceSuccessor e)
     (facePredecessor e) (edgeMate e) b (zOrder e) (prevZ e) (nextZ e).
Definition set_zOrder (k : option Z) (e : t) : t :=
  mk (x e) (y e) (z e) (i e) (maskBits e) (faceSuccessor e)
     (facePredecessor e) (edgeMate e) (steiner e) k (prevZ e) (nextZ e).
Definition set_prevZ (n : option nat) (e : t) : t :=
  mk (x e) (y e) (z e) (i e) (maskBits e) (faceSuccessor e)
     (facePredecessor e) (edgeMate e) (steiner e) (zOrder e) n (nextZ e).
Definition set_nextZ (n : option nat) (e : t) : t :=
  mk (x e) (y e) (z e) (i e) (maskBits e) (faceSuccessor e)
     (facePredecessor e) (edgeMate e) (steiner e) (zOrder e) (prevZ e) n.

#[global] Instance inhabited : Inhabited t := populate (fresh 0 0 0 0).

End HE.

(** The graph is its array [allHalfEdges]; a node is an index into it. *)
Abbreviation graph := (list HE.t).
Abbreviation node := nat.

(** Mask constants of [HalfEdgeMask]. *)
Definition EXTERIOR : Z := 1.
Definition BOUNDARY : Z := 2.
Definition PRIMARY_EDGE : Z := 512.
Definition VISITED : Z := 8192.
Definition TRIANGULATED_NODE_MASK : Z := 16384.
Definition NULL_MASK : Z := 0.

(** ** Reading and writing fields through a reference *)

Section Fields.
Context (g : graph).

Definition X (n : node) : Q := HE.x (g !!! n).
Definition Y (n : node) : Q := HE.y (g !!! n).
Definition Zc (n : node) : Q := HE.z (g !!! n).
Definition I (n : node) : Z := HE.i (g !!! n).
Definition maskBits (n : node) : Z := HE.maskBits (g !!! n).
Definition faceSuccessor (n : node) : node := HE.faceSuccessor (g !!! n).
Definition facePredecessor (n : node) : node := HE.facePredecessor (g !!! n).
Definition edgeMate (n : node) : option node := HE.edgeMate (g !!! n).
Definition steiner (n : node) : bool := HE.steiner (g !!! n).
Definition zOrderOf (n : node) : option Z := HE.zOrder (g !!! n).
Definition prevZ (n : node) : option node := HE.prevZ (g !!! n).
Definition nextZ (n : node) : option node := HE.nextZ (g !!! n).

(** [node.isMaskSet(mask)] *)
Definition isMaskSet (n : node) (mask : Z) : bool :=
  negb (Z.land (maskBits n) mask =? 0).

Definition write (f : HE.t -> HE.t) (n : node) : graph := alter f n g.

End Fields.

Definition setMask (g : graph) (n : node) (mask : Z) : graph :=
  write g (HE.set_maskBits (Z.lor (maskBits g n) mask)) n.
Definition clearMask (g : graph) (n : node) (mask : Z) : graph :=
  write g (HE.set_maskBits (Z.land (maskBits g n) (Z.lnot mask))) n.
Definition setFaceSuccessor (g : graph) (n v : node) : graph :=
  write g (HE.set_faceSuccessor v) n.
Definition setFacePredecessor (g : graph) (n v : node) : graph :=
  write g (HE.set_facePredecessor v) n.

(** Modelled from the spec: the class [HalfEdge] of Graph.js, which is not
    among the sources.  The spec gives the relations of a half-edge
    (face-successor, face-predecessor, edge-mate, the derived
    vertex-successor "predecessor-then-mate"), pair creation, [splitEdge],
    the mask operations around a face and [pinch], which "exchanges the
    vertex-successor links rooted at a and b": with the mates fixed, that is
    the exchange of the two face-predecessors. *)
Module HalfEdge.

Definition setFaceLinks (g : graph) (a b : node) : graph :=
  setFacePredecessor (setFaceSuccessor g a b) b a.

Definition setEdgeMates (g : graph) (a b : node) : graph :=
  write (write g (HE.set_edgeMate (Some b)) a) (HE.set_edgeMate (Some a)) b.

(** [HalfEdge.pinch(nodeA, nodeB)] *)
Definition pinch (g : graph) (a b : node) : graph :=
  if Nat.eqb a b then g
  else
    let predA := facePredecessor g a in
    let predB := facePredecessor g b in
    let g := setFacePredecessor g b predA in
    let g := setFacePredecessor g a predB in
    let g := setFaceSuccessor g predB a in
    setFaceSuccessor g predA b.

(** [node.vertexSuccessor]: predecessor, then mate. *)
Definition vertexSuccessor (g : graph) (n : node) : result node :=
  deref (edgeMate g (facePredecessor g n)).

(** The walk [do { f(node); node = node.faceSuccessor } while (node !== seed)]
    that underlies every "around the face" operation. *)
Fixpoint aroundFace (fuel : nat) (f : graph -> node -> graph)
    (g : graph) (seed cur : node) : result graph :=
  match fuel with
  | O => OutOfFuel
  | S fuel' =>
      let g := f g cur in
      let nxt := faceSuccessor g cur in
      if Nat.eqb nxt seed then Ok g else aroundFace fuel' f g seed nxt
  end.

Definition setMaskAroundFace (fuel : nat) (g : graph) (seed : node) (mask : Z)
    : result graph :=
  aroundFace fuel (fun g n => setMask g n mask) g seed seed.

Definition clearMaskAroundFace (fuel : nat) (g : graph) (seed : node) (mask : Z)
    : result graph :=
  aroundFace fuel (fun g n => clearMask g n mask) g seed seed.

(** [seed.collectAroundFace()]: the nodes of the face loop, from [seed]. *)
Fixpoint collectAroundFace (fuel : nat) (g : graph) (seed cur : node)
    : result (list node) :=
  match fuel with
  | O => OutOfFuel
  | S fuel' =>
      let nxt := faceSuccessor g cur in
      if Nat.eqb nxt seed then Ok [cur]
      else let* l := collectAroundFace fuel' g seed nxt in Ok (cur :: l)
  end.

Definition faceLoop (fuel : nat) (g : graph) (seed : node) : result (list node) :=
  collectAroundFace fuel g seed seed.

(** [node.signedFaceArea()]: half the sum of the cross products of
    consecutive corners of the face loop (positive when the loop runs
    counter-clockwise). *)
Definition signedFaceArea (fuel : nat) (g : graph) (seed : node) : result Q :=
  let* l := faceLoop fuel g seed in
  Ok ((1 # 2) * fold_right
        (fun n acc =>
           let m := faceSuccessor g n in
           X g n * Y g m - X g m * Y g n + acc) 0 l)%Q.

End HalfEdge.

(** Modelled from the spec: the class [HalfEdgeGraph] of Graph.js (pair
    allocation, [splitEdge], whole-graph [clearMask]); new half-edges are
    pushed on [allHalfEdges] in the order they are constructed. *)
Module HalfEdgeGraph.

(** [graph.createEdgeXYZXYZ]: a mated pair that is a two-node face loop;
    returns the graph and the "A" side. *)
Definition createEdgeXYZXYZ (g : graph)
    (xA yA zA : Q) (iA : Z) (xB yB zB : Q) (iB : Z) : graph * node :=
  let a := length g in
  let b := S a in
  let g := g ++ [HE.fresh xA yA zA iA; HE.fresh xB yB zB iB] in
  let g := HalfEdge.setFaceLinks g a b in
  let g := HalfEdge.setFaceLinks g b a in
  (HalfEdge.setEdgeMates g a b, a).

(** [graph.splitEdge(base, x, y, z)] with the vertex id left at its default. *)
Definition splitEdge (g : graph) (base : option node) (x y z : Q)
    : result (graph * node) :=
  let newA := length g in
  let newB := S newA in
  let g := g ++ [HE.fresh x y z 0; HE.fresh x y z 0] in
  match base with
  | None =>
      let g := HalfEdge.setFaceLinks g newA newA in
      let g := HalfEdge.setFaceLinks g newB newB in
      Ok (HalfEdge.setEdgeMates g newA newB, newA)
  | Some base =>
      let nextA := faceSuccessor g base in
      let* mateA := deref (edgeMate g base) in
      let vpredA := faceSuccessor g mateA in
      let g := HalfEdge.setFaceLinks g newA nextA in
      let g := HalfEdge.setFaceLinks g base newA in
      let g := HalfEdge.setFaceLinks g mateA newB in
      let g := HalfEdge.setFaceLinks g newB vpredA in
      let g := HalfEdge.setEdgeMates g newA mateA in
      Ok (HalfEdge.setEdgeMates g newB base, newA)
  end.

(** [graph.clearMask(mask)] *)
Definition clearMask (g : graph) (mask : Z) : graph :=
  map (fun e => HE.set_maskBits (Z.land (HE.maskBits e) (Z.lnot mask)) e) g.

End HalfEdgeGraph.

(** ** Triangulation.js *)

(** A point handed to the triangulator: [x], [y] and an optional [z]. *)
Record XAndY : Type := mkXY { px : Q; py : Q; pz : option Q }.
Definition pt (x y : Q) : XAndY := mkXY x y None.

Module Triangulator.

(** Coordinates of a node, as the [(x, y)] part the predicates below read. *)
Definition xy (g : graph) (n : node) : Q * Q := (X g n, Y g n).

(** [signedTriangleArea(p, q, r)] *)
Definition signedTriangleArea (p q r : Q * Q) : Q :=
  ((1 # 2) * ((q.2 - p.2) * (r.1 - q.1) - (q.1 - p.1) * (r.2 - q.2)))%Q.

(** [equalXAndY(p1, p2)] *)
Definition equalXAndY (p1 p2 : Q * Q) : bool :=
  Geometry.isSameCoordinate p1.1 p2.1 && Geometry.isSameCoordinate p1.2 p2.2.

(** [pointInTriangle(ax, ay, bx, by, cx, cy, px, py)] *)
Definition pointInTriangle (ax ay bx by_ cx cy px py : Q) : bool :=
  Qleb 0 ((cx - px) * (ay - py) - (ax - px) * (cy - py))
  && Qleb 0 ((ax - px) * (by_ - py) - (bx - px) * (ay - py))
  && Qleb 0 ((bx - px) * (cy - py) - (cx - px) * (by_ - py)).

(** The corner area [signedTriangleArea(p.facePredecessor, p, p.faceSuccessor)]. *)
Definition cornerArea (g : graph) (p : node) : Q :=
  signedTriangleArea (xy g (facePredecessor g p)) (xy g p) (xy g (faceSuccessor g p)).

(** [flipTriangles(a, b, c, d, e, f)] *)
Definition flipTriangles (g : graph) (a b c d e f : node) : graph :=
  let g := HalfEdge.pinch g a e in
  let g := HalfEdge.pinch g c d in
  let g := HalfEdge.pinch g f c in
  let g := HalfEdge.pinch g e b in
  let g := write g (HE.set_xyzi (X g b) (Y g b) (Zc g b) (I g b)) e in
  write g (HE.set_xyzi (X g f) (Y g f) (Zc g f) (I g f)) c.

(** [computeInCircleDeterminant(nodeA)]; [Ok None] is the result [undefined]. *)
Definition computeInCircleDeterminant (g : graph) (nodeA : node)
    : result (option Q) :=
  let nodeA1 := faceSuccessor g nodeA in
  let nodeA2 := faceSuccessor g nodeA1 in
  if negb (Nat.eqb (faceSuccessor g nodeA2) nodeA) then Ok None
  else
    let* nodeB := deref (edgeMate g nodeA) in
    let nodeB1 := faceSuccessor g nodeB in
    let nodeB2 := faceSuccessor g nodeB1 in
    if negb (Nat.eqb (faceSuccessor g nodeB2) nodeB) then Ok None
    else
      let ux := (X g nodeA1 - X g nodeA)%Q in
      let uy := (Y g nodeA1 - Y g nodeA)%Q in
      let vx := (X g nodeA2 - X g nodeA)%Q in
      let vy := (Y g nodeA2 - Y g nodeA)%Q in
      let wx := (X g nodeB2 - X g nodeA)%Q in
      let wy := (Y g nodeB2 - Y g nodeA)%Q in
      Ok (Some (Geometry.tripleProduct
                  wx wy (wx * wx + wy * wy)
                  vx vy (vx * vx + vy * vy)
                  ux uy (ux * ux + uy * uy))).

(** One turn of the [for] loop of [cleanupTriangulation] at index [i]: the
    new graph, whether [flipTriangles] was called, and the value of
    [foundNonVisited] together with the way the body was left ([true]: by a
    [continue], so the restart test at the end of the body was not run). *)
Definition cleanupBody (g : graph) (i : nat) (foundNonVisited : bool)
    : result (graph * bool * bool * bool) :=
  let node := i in
  if isMaskSet g node VISITED then Ok (g, false, foundNonVisited, true)
  else
    let g := setMask g node VISITED in
    match edgeMate g node with
    | None => Ok (g, false, foundNonVisited, true)
    | Some mate =>
        if isMaskSet g node EXTERIOR || isMaskSet g node PRIMARY_EDGE
        then Ok (g, false, foundNonVisited, true)
        else
          let* incircle := computeInCircleDeterminant g node in
          match incircle with
          | Some d =>
              if Qltb 0 d then
                let g := clearMask g (facePredecessor g node) VISITED in
                let g := clearMask g (faceSuccessor g node) VISITED in
                let g := clearMask g (facePredecessor g mate) VISITED in
                let g := clearMask g (faceSuccessor g mate) VISITED in
                Ok (flipTriangles g (faceSuccessor g mate) (facePredecessor g mate)
                      mate (faceSuccessor g node) node (facePredecessor g node),
                    true, true, false)
              else Ok (g, false, true, false)
          | None => Ok (g, false, true, false)
          end
    end.

(** The [for] loop of [cleanupTriangulation], from index [i]; the second
    component lists, in order, the nodes at which a flip was made and the
    graph each was made in. *)
Fixpoint cleanupLoop (fuel : nat) (g : graph) (i : nat) (foundNonVisited : bool)
    : result (graph * list (graph * node)) :=
  match fuel with
  | O => OutOfFuel
  | S fuel' =>
      if negb (Nat.ltb i (length g)) then Ok (g, [])
      else
        let* r := cleanupBody g i foundNonVisited in
        let '(g', flipped, found, continued) := r in
        let* r' := (if negb continued && Nat.eqb i (length g - 1) && found
              then cleanupLoop fuel' g' 0%nat false
              else cleanupLoop fuel' g' (S i) found) in
        Ok (r'.1, if flipped then (g, i) :: r'.2 else r'.2)
  end.

(** [cleanupTriangulation(graph)], with the trace of its flips. *)
Definition cleanupTriangulationTrace (fuel : nat) (g : graph)
    : result (graph * list (graph * node)) :=
  let g := HalfEdgeGraph.clearMask g VISITED in
  let* (g, flips) := cleanupLoop fuel g 0%nat false in
  Ok (HalfEdgeGraph.clearMask g VISITED, flips).

Definition cleanupTriangulation (fuel : nat) (g : graph) : result graph :=
  let* (g, _) := cleanupTriangulationTrace fuel g in Ok g.


(** *** Building a face loop from points *)

(** [interiorEdgeSplit(graph, baseNode, xy)] *)
Definition interiorEdgeSplit (g : graph) (baseNode : option node) (p : XAndY)
    : result (graph * node) :=
  let z := match pz p with Some z => z | None => 0%Q end in
  match baseNode with
  | None => HalfEdgeGraph.splitEdge g None (px p) (py p) z
  | Some base =>
      if equalXAndY (xy g base) (px p, py p) then Ok (g, base)
      else if equalXAndY (xy g (faceSuccessor g base)) (px p, py p) then Ok (g, base)
      else HalfEdgeGraph.splitEdge g (Some base) (px p) (py p) z
  end.

(** [directCreateFaceLoopFromXAndYArray(graph, data)] *)
Fixpoint directCreateFaceLoopFromXAndYArray (g : graph) (baseNode : option node)
    (data : list XAndY) : result (graph * option node) :=
  match data with
  | [] => Ok (g, baseNode)
  | p :: data' =>
      let* (g, base) := interiorEdgeSplit g baseNode p in
      directCreateFaceLoopFromXAndYArray g (Some base) data'
  end.

(** [assignMasksToNewFaceLoop(_graph, base, returnPositiveAreaLoop, markExterior)] *)
Definition assignMasksToNewFaceLoop (fuel : nat) (g : graph) (base : option node)
    (returnPositiveAreaLoop markExterior : bool) : result (graph * option node) :=
  match base with
  | None => Ok (g, None)
  | Some base =>
      let base := faceSuccessor g base in
      let* area := HalfEdge.signedFaceArea fuel g base in
      let* g1 := HalfEdge.setMaskAroundFace fuel g base (Z.lor BOUNDARY PRIMARY_EDGE) in
      let* mate := deref (edgeMate g base) in
      let* g2 := HalfEdge.setMaskAroundFace fuel g1 mate (Z.lor BOUNDARY PRIMARY_EDGE) in
      let preferredNode :=
        if Bool.eqb returnPositiveAreaLoop (Qltb area 0) then mate else base in
      let* otherNode := HalfEdge.vertexSuccessor g2 preferredNode in
      let* g3 := (if markExterior
                  then HalfEdge.setMaskAroundFace fuel g2 otherNode EXTERIOR
                  else Ok g2) in
      Ok (g3, Some preferredNode)
  end.

(** [createFaceLoopFromXAndYArray(data, returnPositiveAreaLoop, markExterior)],
    on the graph held in [Triangulator._returnGraph]. *)
Definition createFaceLoopFromXAndYArray (fuel : nat) (g : graph) (data : list XAndY)
    (returnPositiveAreaLoop markExterior : bool) : result (graph * option node) :=
  let* (g, base) := directCreateFaceLoopFromXAndYArray g None data in
  assignMasksToNewFaceLoop fuel g base returnPositiveAreaLoop markExterior.

(** *** Cutting ears *)

(** [joinNeighborsOfEar(ear)] *)
Definition joinNeighborsOfEar (fuel : nat) (g : graph) (ear : node) : result graph :=
  let p := facePredecessor g ear in
  let s := faceSuccessor g ear in
  let (g, alpha) :=
    HalfEdgeGraph.createEdgeXYZXYZ g (X g p) (Y g p) (Zc g p) (I g p)
                                     (X g s) (Y g s) (Zc g s) (I g s) in
  let* beta := deref (edgeMate g alpha) in
  let g := match prevZ g ear with
           | Some pz => write g (HE.set_nextZ (nextZ g ear)) pz
           | None => g
           end in
  let g := match nextZ g ear with
           | Some nz => write g (HE.set_prevZ (prevZ g ear)) nz
           | None => g
           end in
  let g := HalfEdge.pinch g (faceSuccessor g ear) beta in
  let g := HalfEdge.pinch g (facePredecessor g ear) alpha in
  HalfEdge.setMaskAroundFace fuel g ear TRIANGULATED_NODE_MASK.

(** The test of [filterPoints] that makes it drop [p]. *)
Definition removable (g : graph) (p : node) : bool :=
  negb (steiner g p)
  && (equalXAndY (xy g p) (xy g (faceSuccessor g p))
      || Qeqb (cornerArea g p) 0).

(** The [do ... while (again || p !== end)] loop of [filterPoints]. *)
Fixpoint filterPointsLoop (fuel : nat) (g : graph) (p end_ : node)
    : result (graph * option node) :=
  match fuel with
  | O => OutOfFuel
  | S fuel' =>
      if removable g p then
        let* g := joinNeighborsOfEar fuel g p in
        let p := facePredecessor g p in
        if Nat.eqb p (faceSuccessor g p) then Ok (g, None)
        else filterPointsLoop fuel' g p p
      else
        let p := faceSuccessor g p in
        if Nat.eqb p end_ then Ok (g, Some end_)
        else filterPointsLoop fuel' g p end_
  end.

(** [filterPoints(start, end)] *)
Definition filterPoints (fuel : nat) (g : graph) (start end_ : option node)
    : result (graph * option node) :=
  match start with
  | None => Ok (g, None)
  | Some start =>
      let end_ := match end_ with Some e => e | None => start end in
      filterPointsLoop fuel g start end_
  end.

(** One turn of the [do ... while] loop of [filterPoints] at [p]: the graph,
    [p] and [end] after the turn, and [Some r] when the turn ends the call
    with the value [r] (a [return], or the loop test failing). *)
Definition filterPointsBody (fuel : nat) (g : graph) (p end_ : node)
    : result (graph * node * node * option (option node)) :=
  if removable g p then
    let* g := joinNeighborsOfEar fuel g p in
    let p := facePredecessor g p in
    if Nat.eqb p (faceSuccessor g p) then Ok (g, p, p, Some None)
    else Ok (g, p, p, None)
  else
    let p := faceSuccessor g p in
    if Nat.eqb p end_ then Ok (g, p, end_, Some (Some end_))
    else Ok (g, p, end_, None).

(** The scan [while (p !== ear.facePredecessor)] of [isEar]. *)
Fixpoint isEarScan (fuel : nat) (g : graph) (ear p : node) : result bool :=
  match fuel with
  | O => OutOfFuel
  | S fuel' =>
      if Nat.eqb p (facePredecessor g ear) then Ok true
      else
        let a := facePredecessor g ear in
        let c := faceSuccessor g ear in
        if pointInTriangle (X g a) (Y g a) (X g ear) (Y g ear) (X g c) (Y g c)
                           (X g p) (Y g p)
           && Qleb 0 (cornerArea g p)
        then Ok false
        else isEarScan fuel' g ear (faceSuccessor g p)
  end.

(** [isEar(ear)] *)
Definition isEar (fuel : nat) (g : graph) (ear : node) : result bool :=
  if Qleb 0 (cornerArea g ear) then Ok false
  else isEarScan fuel g ear (faceSuccessor g (faceSuccessor g ear)).

(** *** Z-order acceleration *)

(** JavaScript's [ToInt32] on integers, and on a finite number. *)
Definition wrap32 (n : Z) : Z := (n + 2 ^ 31) mod 2 ^ 32 - 2 ^ 31.
Definition toInt32 (q : Q) : Z :=
  wrap32 (if Qleb 0 q then Qfloor q else Qceiling q).
Definition shl32 (a k : Z) : Z := wrap32 (Z.shiftl a k).

(** The bit-spreading part of [zOrder] for one coordinate. *)
Definition spreadBits (x : Z) : Z :=
  let x := Z.land (Z.lor x (shl32 x 8)) 16711935 in
  let x := Z.land (Z.lor x (shl32 x 4)) 252645135 in
  let x := Z.land (Z.lor x (shl32 x 2)) 858993459 in
  Z.land (Z.lor x (shl32 x 1)) 1431655765.

(** [zOrder(x, y, minX, minY, size)] *)
Definition zOrder (x y minX minY size : Q) : Z :=
  let x := toInt32 (32767 * (x - minX) / size)%Q in
  let y := toInt32 (32767 * (y - minY) / size)%Q in
  Z.lor (spreadBits x) (shl32 (spreadBits y) 1).

(** [a <= b] on two possibly [undefined] numbers. *)
Definition leU (a b : option Z) : bool :=
  match a, b with Some a, Some b => a <=? b | _, _ => false end.

(** The test applied to each node met by the scans of [isEarHashed]. *)
Definition blocksEar (g : graph) (ear p : node) : bool :=
  let a := facePredecessor g ear in
  let c := faceSuccessor g ear in
  negb (Nat.eqb p a) && negb (Nat.eqb p c)
  && pointInTriangle (X g a) (Y g a) (X g ear) (Y g ear) (X g c) (Y g c)
                     (X g p) (Y g p)
  && Qleb 0 (cornerArea g p).

(** [while (p && p.zOrder <= maxZ)], walking [nextZ]. *)
Fixpoint scanNextZ (fuel : nat) (g : graph) (ear : node) (maxZ : Z)
    (p : option node) : result bool :=
  match fuel with
  | O => OutOfFuel
  | S fuel' =>
      match p with
      | None => Ok true
      | Some p =>
          if negb (leU (zOrderOf g p) (Some maxZ)) then Ok true
          else if blocksEar g ear p then Ok false
          else scanNextZ fuel' g ear maxZ (nextZ g p)
      end
  end.

(** [while (p && p.zOrder >= minZ)], walking [prevZ]. *)
Fixpoint scanPrevZ (fuel : nat) (g : graph) (ear : node) (minZ : Z)
    (p : option node) : result bool :=
  match fuel with
  | O => OutOfFuel
  | S fuel' =>
      match p with
      | None => Ok true
      | Some p =>
          if negb (leU (Some minZ) (zOrderOf g p)) then Ok true
          else if blocksEar g ear p then Ok false
          else scanPrevZ fuel' g ear minZ (prevZ g p)
      end
  end.

Definition min3 (a b c : Q) : Q :=
  if Qltb a b then (if Qltb a c then a else c) else (if Qltb b c then b else c).
Definition max3 (a b c : Q) : Q :=
  if Qltb b a then (if Qltb c a then a else c) else (if Qltb c b then b else c).

(** [isEarHashed(ear, minX, minY, size)] *)
Definition isEarHashed (fuel : nat) (g : graph) (ear : node) (minX minY size : Q)
    : result bool :=
  let a := facePredecessor g ear in
  let c := faceSuccessor g ear in
  if Qleb 0 (cornerArea g ear) then Ok false
  else
    let minTX := min3 (X g a) (X g ear) (X g c) in
    let minTY := min3 (Y g a) (Y g ear) (Y g c) in
    let maxTX := max3 (X g a) (X g ear) (X g c) in
    let maxTY := max3 (Y g a) (Y g ear) (Y g c) in
    let minZ := zOrder minTX minTY minX minY size in
    let maxZ := zOrder maxTX maxTY minX minY size in
    let* up := scanNextZ fuel g ear maxZ (nextZ g ear) in
    if negb up then Ok false
    else scanPrevZ fuel g ear minZ (prevZ g ear).

(** The [do ... while (p !== start)] loop of [indexCurve]. *)
Fixpoint indexCurveLoop (fuel : nat) (g : graph) (start p : node)
    (minX minY size : Q) : result graph :=
  match fuel with
  | O => OutOfFuel
  | S fuel' =>
      let g := match zOrderOf g p with
               | None => write g (HE.set_zOrder
                                    (Some (zOrder (X g p) (Y g p) minX minY size))) p
               | Some _ => g
               end in
      let g := write g (HE.set_prevZ (Some (facePredecessor g p))) p in
      let g := write g (HE.set_nextZ (Some (faceSuccessor g p))) p in
      let p := faceSuccessor g p in
      if Nat.eqb p start then Ok g else indexCurveLoop fuel' g start p minX minY size
  end.

(** The [for] loop of [sortLinked] that steps [q] at most [inSize] places
    along [nextZ]; [q] is a node on entry. *)
Fixpoint sortAdvance (inSize : nat) (g : graph) (q : node) (pSize : nat)
    : option node * nat :=
  match inSize with
  | O => (Some q, pSize)
  | S k =>
      match nextZ g q with
      | None => (None, S pSize)
      | Some q' => sortAdvance k g q' (S pSize)
      end
  end.

(** The merging [while (pSize > 0 || (qSize > 0 && q))] of [sortLinked]. *)
Fixpoint sortMerge (fuel : nat) (g : graph) (p q : option node) (pSize qSize : nat)
    (list_ tail : option node)
    : result (graph * option node * option node * option node) :=
  match fuel with
  | O => OutOfFuel
  | S fuel' =>
      if negb (Nat.ltb 0 pSize || (Nat.ltb 0 qSize && bool_decide (is_Some q)))
      then Ok (g, q, list_, tail)
      else
        let* takeP :=
          (if Nat.eqb pSize 0 then Ok false
           else if Nat.eqb qSize 0 then Ok true
           else match q with
                | None => Ok true
                | Some qn =>
                    let* pn := deref p in
                    Ok (leU (zOrderOf g pn) (zOrderOf g qn))
                end) in
        let* e := deref (if takeP then p else q) in
        let p' := if takeP then nextZ g e else p in
        let q' := if takeP then q else nextZ g e in
        let pSize' := if takeP then (pSize - 1)%nat else pSize in
        let qSize' := if takeP then qSize else (qSize - 1)%nat in
        let g := match tail with
                 | Some t => write g (HE.set_nextZ (Some e)) t
                 | None => g
                 end in
        let list_ := match tail with Some _ => list_ | None => Some e end in
        let g := write g (HE.set_prevZ tail) e in
        sortMerge fuel' g p' q' pSize' qSize' list_ (Some e)
  end.

(** The [while (p)] loop of one pass of [sortLinked]. *)
Fixpoint sortPass (fuel : nat) (g : graph) (p : option node) (inSize : nat)
    (list_ tail : option node) (numMerges : nat)
    : result (graph * option node * option node * nat) :=
  match fuel with
  | O => OutOfFuel
  | S fuel' =>
      match p with
      | None => Ok (g, list_, tail, numMerges)
      | Some pn =>
          let (q, pSize) := sortAdvance inSize g pn 0 in
          let* (g, q, list_, tail) := sortMerge fuel g p q pSize inSize list_ tail in
          sortPass fuel' g q inSize list_ tail (S numMerges)
      end
  end.

(** [sortLinked(list)] *)
Fixpoint sortLinkedLoop (fuel : nat) (g : graph) (list_ : option node) (inSize : nat)
    : result (graph * option node) :=
  match fuel with
  | O => OutOfFuel
  | S fuel' =>
      let* (g, list_, tail, numMerges) := sortPass fuel g list_ inSize None None 0 in
      let* t := deref tail in
      let g := write g (HE.set_nextZ None) t in
      if Nat.ltb 1 numMerges then sortLinkedLoop fuel' g list_ (inSize * 2)
      else Ok (g, list_)
  end.

Definition sortLinked (fuel : nat) (g : graph) (list_ : option node)
    : result (graph * option node) :=
  sortLinkedLoop fuel g list_ 1.

(** [indexCurve(start, minX, minY, size)] *)
Definition indexCurve (fuel : nat) (g : graph) (start : node) (minX minY size : Q)
    : result graph :=
  let* g := indexCurveLoop fuel g start start minX minY size in
  let p := start in
  let* pz := deref (prevZ g p) in
  let g := write g (HE.set_nextZ None) pz in
  let g := write g (HE.set_prevZ None) p in
  let* (g, _) := sortLinked fuel g (Some p) in
  Ok g.

(** *** Recovery of a loop without ears *)

(** [intersects(p1, q1, p2, q2)] *)
Definition intersects (p1 q1 p2 q2 : Q * Q) : bool :=
  if (equalXAndY p1 q1 && equalXAndY p2 q2) || (equalXAndY p1 q2 && equalXAndY p2 q1)
  then true
  else
    negb (Bool.eqb (Qltb 0 (signedTriangleArea p1 q1 p2))
                   (Qltb 0 (signedTriangleArea p1 q1 q2)))
    && negb (Bool.eqb (Qltb 0 (signedTriangleArea p2 q2 p1))
                      (Qltb 0 (signedTriangleArea p2 q2 q1))).

(** [locallyInside(a, b)] *)
Definition locallyInside (g : graph) (a b : node) : bool :=
  if Qltb (cornerArea g a) 0
  then Qleb 0 (signedTriangleArea (xy g a) (xy g b) (xy g (faceSuccessor g a)))
       && Qleb 0 (signedTriangleArea (xy g a) (xy g (facePredecessor g a)) (xy g b))
  else Qltb (signedTriangleArea (xy g a) (xy g b) (xy g (facePredecessor g a))) 0
       || Qltb (signedTriangleArea (xy g a) (xy g (faceSuccessor g a)) (xy g b)) 0.

(** [intersectsPolygon(a, b)] *)
Fixpoint intersectsPolygonLoop (fuel : nat) (g : graph) (a b p : node) : result bool :=
  match fuel with
  | O => OutOfFuel
  | S fuel' =>
      let s := faceSuccessor g p in
      if negb (I g p =? I g a) && negb (I g s =? I g a)
         && negb (I g p =? I g b) && negb (I g s =? I g b)
         && intersects (xy g p) (xy g s) (xy g a) (xy g b)
      then Ok true
      else if Nat.eqb s a then Ok false
      else intersectsPolygonLoop fuel' g a b s
  end.

Definition intersectsPolygon (fuel : nat) (g : graph) (a b : node) : result bool :=
  intersectsPolygonLoop fuel g a b a.

(** [middleInside(a, b)] *)
Fixpoint middleInsideLoop (fuel : nat) (g : graph) (a p : node) (px py : Q)
    (inside : bool) : result bool :=
  match fuel with
  | O => OutOfFuel
  | S fuel' =>
      let s := faceSuccessor g p in
      let inside :=
        if negb (Bool.eqb (Qltb py (Y g p)) (Qltb py (Y g s)))
           && negb (Qeqb (Y g s) (Y g p))
           && Qltb px ((X g s - X g p) * (py - Y g p) / (Y g s - Y g p) + X g p)%Q
        then negb inside else inside in
      if Nat.eqb s a then Ok inside
      else middleInsideLoop fuel' g a s px py inside
  end.

Definition middleInside (fuel : nat) (g : graph) (a b : node) : result bool :=
  middleInsideLoop fuel g a a ((X g a + X g b) / 2)%Q ((Y g a + Y g b) / 2)%Q false.

(** [isValidDiagonal(a, b)] *)
Definition isValidDiagonal (fuel : nat) (g : graph) (a b : node) : result bool :=
  if negb (negb (I g (faceSuccessor g a) =? I g b)
           && negb (I g (facePredecessor g a) =? I g b))
  then Ok false
  else
    let* crossing := intersectsPolygon fuel g a b in
    if crossing then Ok false
    else if negb (locallyInside g a b && locallyInside g b a) then Ok false
    else middleInside fuel g a b.

(** [splitPolygon(a, b)] *)
Definition splitPolygon (g : graph) (a b : node) : graph * node :=
  let (g, a2) :=
    HalfEdgeGraph.createEdgeXYZXYZ g (X g a) (Y g a) (Zc g a) (I g a)
                                     (X g b) (Y g b) (Zc g b) (I g b) in
  let b2 := faceSuccessor g a2 in
  let g := HalfEdge.pinch g a a2 in
  (HalfEdge.pinch g b b2, a2).

(** [cureLocalIntersections(start)] *)
Fixpoint cureLocalIntersectionsLoop (fuel : nat) (g : graph) (start p : node)
    : result (graph * node) :=
  match fuel with
  | O => OutOfFuel
  | S fuel' =>
      let a := facePredecessor g p in
      let b := faceSuccessor g (faceSuccessor g p) in
      let* (g, start, p) :=
        (if negb (equalXAndY (xy g a) (xy g b))
            && intersects (xy g a) (xy g p) (xy g (faceSuccessor g p)) (xy g b)
            && locallyInside g a b && locallyInside g b a
         then
           let* g := joinNeighborsOfEar fuel g p in
           let* g := joinNeighborsOfEar fuel g (faceSuccessor g p) in
           Ok (g, b, b)
         else Ok (g, start, p)) in
      let p := faceSuccessor g p in
      if Nat.eqb p start then Ok (g, p)
      else cureLocalIntersectionsLoop fuel' g start p
  end.

Definition cureLocalIntersections (fuel : nat) (g : graph) (start : node)
    : result (graph * node) :=
  cureLocalIntersectionsLoop fuel g start start.

(** The pass argument of [earcutLinked]: [undefined], or a number. *)
Definition passArg : Type := option Z.
Definition passIs (pass : passArg) (n : Z) : bool :=
  match pass with Some k => k =? n | None => false end.
Definition passFalsy (pass : passArg) : bool :=
  match pass with Some k => k =? 0 | None => true end.

(** The size argument is truthy when it is a non-zero number. *)
Definition truthy (size : option Q) : bool :=
  match size with Some s => negb (Qeqb s 0) | None => false end.
Definition numberOr0 (q : option Q) : Q :=
  match q with Some v => v | None => 0%Q end.

Section EarcutRecursion.
(** [earcutLinked], as called back from [splitEarcut] and from itself. *)
Context (earcutLinked :
  graph -> option node -> option Q -> option Q -> option Q -> passArg -> result graph).

(** The inner [while (b !== a.facePredecessor)] of [splitEarcut]; the
    boolean tells whether a diagonal was used (the function returned). *)
Fixpoint splitEarcutInner (fuel : nat) (g : graph) (a b : node)
    (minX minY size : option Q) : result (graph * bool) :=
  match fuel with
  | O => OutOfFuel
  | S fuel' =>
      if Nat.eqb b (facePredecessor g a) then Ok (g, false)
      else
        let* valid :=
          (if negb (I g a =? I g b) then isValidDiagonal fuel g a b else Ok false) in
        if valid then
          let (g, c) := splitPolygon g a b in
          let* (g, a') := filterPoints fuel g (Some a) (Some (faceSuccessor g a)) in
          let* (g, c') := filterPoints fuel g (Some c) (Some (faceSuccessor g c)) in
          let* g := earcutLinked g a' minX minY size None in
          let* g := earcutLinked g c' minX minY size None in
          Ok (g, true)
        else splitEarcutInner fuel' g a (faceSuccessor g b) minX minY size
  end.

(** [splitEarcut(start, minX, minY, size)] *)
Fixpoint splitEarcutLoop (fuel : nat) (g : graph) (start a : node)
    (minX minY size : option Q) : result graph :=
  match fuel with
  | O => OutOfFuel
  | S fuel' =>
      let* (g, done) :=
        splitEarcutInner fuel g a (faceSuccessor g (faceSuccessor g a)) minX minY size in
      if done then Ok g
      else
        let a := faceSuccessor g a in
        if Nat.eqb a start then Ok g
        else splitEarcutLoop fuel' g start a minX minY size
  end.

Definition splitEarcut (fuel : nat) (g : graph) (start : node)
    (minX minY size : option Q) : result graph :=
  splitEarcutLoop fuel g start start minX minY size.

End EarcutRecursion.

(** *** The main ear-slicing loop *)

(** The part of [earcutLinked] before its [while] loop, handing over to
    [loop] with [stop = ear]. *)
Definition earcutLinkedFrom
    (loop : graph -> node -> node -> option Q -> option Q -> option Q -> passArg
            -> result graph)
    (fuel : nat) (g : graph) (ear : option node) (minX minY size : option Q)
    (pass : passArg) : result graph :=
  match ear with
  | None => Ok g
  | Some ear =>
      let* g := (if passFalsy pass && truthy size
                 then indexCurve fuel g ear (numberOr0 minX) (numberOr0 minY)
                                 (numberOr0 size)
                 else Ok g) in
      loop g ear ear minX minY size pass
  end.

(** The [while (!ear.isMaskSet(TRIANGULATED_NODE_MASK))] loop of
    [earcutLinked]. *)
Fixpoint earcutWhile (fuel : nat) (g : graph) (ear stop : node)
    (minX minY size : option Q) (pass : passArg) : result graph :=
  match fuel with
  | O => OutOfFuel
  | S fuel' =>
      if isMaskSet g ear TRIANGULATED_NODE_MASK then Ok g
      else
        let next := faceSuccessor g ear in
        let* anEar :=
          (if truthy size
           then isEarHashed fuel g ear (numberOr0 minX) (numberOr0 minY) (numberOr0 size)
           else isEar fuel g ear) in
        if anEar then
          let stop := faceSuccessor g next in
          if negb (Nat.eqb (faceSuccessor g (faceSuccessor g ear)) (facePredecessor g ear))
          then
            let* g := joinNeighborsOfEar fuel g ear in
            let* m := deref (edgeMate g (faceSuccessor g ear)) in
            earcutWhile fuel' g (faceSuccessor g (faceSuccessor g m)) stop
                        minX minY size pass
          else
            let g := setMask g ear TRIANGULATED_NODE_MASK in
            let g := setMask g (faceSuccessor g ear) TRIANGULATED_NODE_MASK in
            let g := setMask g (facePredecessor g ear) TRIANGULATED_NODE_MASK in
            earcutWhile fuel' g (faceSuccessor g next) stop minX minY size pass
        else
          let ear := next in
          if Nat.eqb ear stop then
            if passFalsy pass then
              let* (g, ear) := cureLocalIntersections fuel g ear in
              earcutLinkedFrom (earcutWhile fuel') fuel g (Some ear) minX minY size (Some 2)
            else if passIs pass 2 then
              splitEarcut (earcutLinkedFrom (earcutWhile fuel') fuel) fuel g ear
                          minX minY size
            else Ok g
          else earcutWhile fuel' g ear stop minX minY size pass
  end.

(** [earcutLinked(ear, minX, minY, size, pass)] *)
Definition earcutLinked (fuel : nat) (g : graph) (ear : option node)
    (minX minY size : option Q) (pass : passArg) : result graph :=
  earcutLinkedFrom (earcutWhile fuel) fuel g ear minX minY size pass.

(** The bounding box computed by [earcutSingleLoop] when [data.length > 80]. *)
Definition boundsOf (data : list XAndY) : option Q * option Q * option Q :=
  match data with
  | [] => (None, None, None)
  | p0 :: rest =>
      let step (acc : Q * Q * Q * Q) (p : XAndY) :=
        let '(minX, minY, maxX, maxY) := acc in
        let minX := if Qltb (px p) minX then px p else minX in
        let minY := if Qltb (py p) minY then py p else minY in
        let maxX := if Qltb maxX (px p) then px p else maxX in
        let maxY := if Qltb maxY (py p) then py p else maxY in
        (minX, minY, maxX, maxY) in
      let '(minX, minY, maxX, maxY) :=
        fold_left step rest (px p0, py p0, px p0, py p0) in
      let dx := (maxX - minX)%Q in
      let dy := (maxY - minY)%Q in
      (Some minX, Some minY, Some (if Qltb dx dy then dy else dx))
  end.

(** [earcutSingleLoop(data)] *)
Definition earcutSingleLoop (fuel : nat) (data : list XAndY) : result graph :=
  let* (g, startingNode) := createFaceLoopFromXAndYArray fuel [] data true true in
  match startingNode with
  | None => Ok g
  | Some _ =>
      let '(minX, minY, size) :=
        if Nat.ltb 80 (length data) then boundsOf data else (None, None, None) in
      earcutLinked fuel g startingNode minX minY size None
  end.

(** *** Splicing holes into the outer loop *)

(** [getLeftmost(start)] *)
Fixpoint getLeftmostLoop (fuel : nat) (g : graph) (start p leftmost : node)
    : result node :=
  match fuel with
  | O => OutOfFuel
  | S fuel' =>
      let leftmost := if Qltb (X g p) (X g leftmost) then p else leftmost in
      let p := faceSuccessor g p in
      if Nat.eqb p start then Ok leftmost
      else getLeftmostLoop fuel' g start p leftmost
  end.

Definition getLeftmost (fuel : nat) (g : graph) (start : option node) : result node :=
  let* start := deref start in
  getLeftmostLoop fuel g start start start.

(** The first loop of [findHoleBridge].  The variables [qx] and [m] are
    assigned together, so they are kept as one optional pair: [None] is
    [qx = -Infinity] with [m] undefined.  [inl n] is an early [return n]. *)
Fixpoint findHoleBridgeSweep (fuel : nat) (g : graph) (hx hy : Q)
    (outerNode p : node) (qm : option (Q * node))
    : result (node + option (Q * node)) :=
  match fuel with
  | O => OutOfFuel
  | S fuel' =>
      let s := faceSuccessor g p in
      let crossing :=
        if Qleb hy (Y g p) && Qleb (Y g s) hy && negb (Qeqb (Y g s) (Y g p)) then
          let x := (X g p + (hy - Y g p) * (X g s - X g p) / (Y g s - Y g p))%Q in
          if Qleb x hx && match qm with Some (qx, _) => Qltb qx x | None => true end
          then
            if Qeqb x hx && Qeqb hy (Y g p) then inl p
            else if Qeqb x hx && Qeqb hy (Y g s) then inl s
            else inr (Some (x, if Qltb (X g p) (X g s) then p else s))
          else inr qm
        else inr qm in
      match crossing with
      | inl n => Ok (inl n)
      | inr qm =>
          if Nat.eqb s outerNode then Ok (inr qm)
          else findHoleBridgeSweep fuel' g hx hy outerNode s qm
      end
  end.

(** The test that admits [p] as a bridge candidate in the second loop. *)
Definition bridgeCandidate (g : graph) (hx hy qx mx my : Q) (p : node) : bool :=
  Qleb (X g p) hx && Qleb mx (X g p) && negb (Qeqb hx (X g p))
  && pointInTriangle (if Qltb hy my then hx else qx) hy mx my
                     (if Qltb hy my then qx else hx) hy (X g p) (Y g p).

Definition bridgeTan (g : graph) (hx hy : Q) (p : node) : Q :=
  (Qabs (hy - Y g p) / (hx - X g p))%Q.

(** The second loop of [findHoleBridge]; [tanMin = None] is [Infinity]. *)
Fixpoint findHoleBridgeScan (fuel : nat) (g : graph) (hole : node)
    (hx hy qx mx my : Q) (stop p m : node) (tanMin : option Q) : result node :=
  match fuel with
  | O => OutOfFuel
  | S fuel' =>
      if Nat.eqb p stop then Ok m
      else
        let tan := bridgeTan g hx hy p in
        let better :=
          bridgeCandidate g hx hy qx mx my p
          && (match tanMin with
              | None => true
              | Some t => Qltb tan t || (Qeqb tan t && Qltb (X g m) (X g p))
              end)
          && locallyInside g p hole in
        findHoleBridgeScan fuel' g hole hx hy qx mx my stop (faceSuccessor g p)
          (if better then p else m) (if better then Some tan else tanMin)
  end.

(** [findHoleBridge(hole, outerNode)] *)
Definition findHoleBridge (fuel : nat) (g : graph) (hole : node)
    (outerNode : option node) : result (option node) :=
  match outerNode with
  | None => Ok None
  | Some outerNode =>
      let hx := X g hole in
      let hy := Y g hole in
      let* swept := findHoleBridgeSweep fuel g hx hy outerNode outerNode None in
      match swept with
      | inl n => Ok (Some n)
      | inr None => Ok None
      | inr (Some (qx, m)) =>
          if Qeqb hx qx then Ok (Some (facePredecessor g m))
          else
            let* r := findHoleBridgeScan fuel g hole hx hy qx (X g m) (Y g m)
                        m (faceSuccessor g m) m None in
            Ok (Some r)
      end
  end.

(** [eliminateHole(hole, outerNode, applyFilter)] *)
Definition eliminateHole (fuel : nat) (g : graph) (hole : node)
    (outerNode : option node) (applyFilter : bool) : result graph :=
  let* bridge := findHoleBridge fuel g hole outerNode in
  match bridge with
  | None => Ok g
  | Some outerNode =>
      let (g, b) := splitPolygon g outerNode hole in
      if applyFilter then
        let* (g, _) := filterPoints fuel g (Some b) (Some (faceSuccessor g b)) in Ok g
      else Ok g
  end.

(** [Array.prototype.sort] with [compareX], a stable sort on [x]. *)
Fixpoint insertByX (g : graph) (n : node) (l : list node) : list node :=
  match l with
  | [] => [n]
  | m :: l' => if Qleb (X g n) (X g m) then n :: l else m :: insertByX g n l'
  end.
Definition sortByX (g : graph) (l : list node) : list node :=
  fold_right (insertByX g) [] l.

(** The [for ... of] loop of [spliceLeftMostNodesOfHoles]. *)
Fixpoint spliceHolesLoop (fuel : nat) (g : graph) (outerNode : option node)
    (holes : list node) (applyFilter : bool) : result (graph * option node) :=
  match holes with
  | [] => Ok (g, outerNode)
  | holeStart :: holes' =>
      let* g := eliminateHole fuel g holeStart outerNode applyFilter in
      let* (g, outerNode) :=
        (if applyFilter
         then filterPoints fuel g outerNode
                (match outerNode with
                 | Some o => Some (faceSuccessor g o)
                 | None => None
                 end)
         else Ok (g, outerNode)) in
      spliceHolesLoop fuel g outerNode holes' applyFilter
  end.

(** [spliceLeftMostNodesOfHoles(outerNode, leftMostHoleLoopNode, applyFilter)] *)
Definition spliceLeftMostNodesOfHoles (fuel : nat) (g : graph)
    (outerNode : option node) (leftMostHoleLoopNode : list node)
    (applyFilter : bool) : result (graph * option node) :=
  spliceHolesLoop fuel g outerNode (sortByX g leftMostHoleLoopNode) applyFilter.

(** The [for] loop of [constructAndSpliceHoles] over the hole loops. *)
Fixpoint constructHoles (fuel : nat) (g : graph) (holes : list (list XAndY))
    (queue : list node) : result (graph * list node) :=
  match holes with
  | [] => Ok (g, queue)
  | hole :: holes' =>
      let* (g, list_) := createFaceLoopFromXAndYArray fuel g hole false true in
      let g := match list_ with
               | Some l => if Nat.eqb l (faceSuccessor g l)
                           then write g (HE.set_steiner true) l else g
               | None => g
               end in
      let* leftmost := getLeftmost fuel g list_ in
      constructHoles fuel g holes' (queue ++ [leftmost])
  end.

(** [constructAndSpliceHoles(loops, outerNode)] *)
Definition constructAndSpliceHoles (fuel : nat) (g : graph)
    (loops : list (list XAndY)) (outerNode : option node)
    : result (graph * option node) :=
  let* (g, queue) := constructHoles fuel g (tail loops) [] in
  spliceLeftMostNodesOfHoles fuel g outerNode queue true.

(** [earcutOuterAndInnerLoops(loops)]; the range that the source
    accumulates first is never read and is left out. *)
Definition earcutOuterAndInnerLoops (fuel : nat) (loops : list (list XAndY))
    : result graph :=
  let* outer := deref (head loops) in
  let* (g, startingNode) := createFaceLoopFromXAndYArray fuel [] outer true true in
  match startingNode with
  | None => Ok g
  | Some _ =>
      let* (g, startingNode) :=
        (if Nat.ltb 1 (length loops)
         then constructAndSpliceHoles fuel g loops startingNode
         else Ok (g, startingNode)) in
      earcutLinked fuel g startingNode None None None None
  end.

End Triangulator.

(** ** HalfEdgeGraphSearch.js *)

Module HalfEdgeGraphSearch.

(** [Number.MAX_VALUE] *)
Definition MAX_VALUE : Q := inject_Z (2 ^ 1024 - 2 ^ 971).

(** The walk of [pushAndMaskAllNodesInFace]: each node of the face gets the
    mask and is pushed on [allNodeStack] (whose top is the head of the list). *)
Fixpoint maskAndPushAround (fuel : nat) (g : graph) (seed cur : node) (mask : Z)
    (allNodeStack : list node) : result (graph * list node) :=
  match fuel with
  | O => OutOfFuel
  | S fuel' =>
      let g := setMask g cur mask in
      let stack := cur :: allNodeStack in
      let nxt := faceSuccessor g cur in
      if Nat.eqb nxt seed then Ok (g, stack)
      else maskAndPushAround fuel' g seed nxt mask stack
  end.

(** [pushAndMaskAllNodesInFace(faceSeed, mask, allNodeStack, onePerFaceStack)] *)
Definition pushAndMaskAllNodesInFace (fuel : nat) (g : graph) (faceSeed : node)
    (mask : Z) (allNodeStack onePerFaceStack : list node)
    : result (graph * list node * list node) :=
  let* (g, stack) := maskAndPushAround fuel g faceSeed faceSeed mask allNodeStack in
  Ok (g, stack, onePerFaceStack ++ [faceSeed]).

(** The [for ... of] loop of [findMinimumAreaFace]. *)
Fixpoint findMinimumAreaLoop (fuel : nat) (g : graph) (nodes : list node)
    (mostNegativeAreaNode : node) (mostNegArea : Q) : result node :=
  match nodes with
  | [] => Ok mostNegativeAreaNode
  | n :: nodes' =>
      let* area := HalfEdge.signedFaceArea fuel g n in
      if Qltb area 0 && Qltb area mostNegArea
      then findMinimumAreaLoop fuel g nodes' n area
      else findMinimumAreaLoop fuel g nodes' mostNegativeAreaNode mostNegArea
  end.

(** [findMinimumAreaFace(nodes)]; [None] is the [undefined] that
    [nodes[0]] gives on an empty array. *)
Definition findMinimumAreaFace (fuel : nat) (g : graph) (nodes : list node)
    : result (option node) :=
  match nodes with
  | [] => Ok None
  | n0 :: _ =>
      let* n := findMinimumAreaLoop fuel g nodes n0 MAX_VALUE in Ok (Some n)
  end.

(** The [while (stack.length > 0)] loop of [parityFloodFromSeed]. *)
Fixpoint parityFloodLoop (fuel : nat) (g : graph) (visitMask parityMask : Z)
    (stack faces : list node) : result (graph * list node) :=
  match fuel with
  | O => OutOfFuel
  | S fuel' =>
      match stack with
      | [] => Ok (g, faces)
      | p :: stack =>
          match edgeMate g p with
          | None => parityFloodLoop fuel' g visitMask parityMask stack faces
          | Some mate =>
              if negb (isMaskSet g mate visitMask) then
                let mateState := negb (isMaskSet g p parityMask) in
                let* (g, stack, faces) :=
                  pushAndMaskAllNodesInFace fuel g mate
                    (if mateState then Z.lor parityMask visitMask else visitMask)
                    stack faces in
                parityFloodLoop fuel' g visitMask parityMask stack faces
              else parityFloodLoop fuel' g visitMask parityMask stack faces
          end
      end
  end.

(** [parityFloodFromSeed(seedEdge, visitMask, parityMask)] *)
Definition parityFloodFromSeed (fuel : nat) (g : graph) (seedEdge : node)
    (visitMask parityMask : Z) : result (graph * list node) :=
  if isMaskSet g seedEdge visitMask then Ok (g, [])
  else
    let* (g, stack, faces) :=
      pushAndMaskAllNodesInFace fuel g seedEdge (Z.lor parityMask visitMask) [] [] in
    parityFloodLoop fuel g visitMask parityMask stack faces.

(** The toggling [for ... of] loop of [correctParityInSingleComponent]. *)
Fixpoint toggleFaces (fuel : nat) (g : graph) (mask : Z) (faces : list node)
    : result graph :=
  match faces with
  | [] => Ok g
  | faceSeed :: faces' =>
      let* g := (if isMaskSet g faceSeed mask
                 then HalfEdge.clearMaskAroundFace fuel g faceSeed mask
                 else HalfEdge.setMaskAroundFace fuel g faceSeed mask) in
      toggleFaces fuel g mask faces'
  end.

(** [correctParityInSingleComponent(_graph, mask, faces)] *)
Definition correctParityInSingleComponent (fuel : nat) (g : graph) (mask : Z)
    (faces : list node) : result graph :=
  let* found := findMinimumAreaFace fuel g faces in
  let* exteriorHalfEdge := deref found in
  if isMaskSet g exteriorHalfEdge mask then Ok g
  else toggleFaces fuel g mask faces.

(** [correctParityInComponentArrays(graph, mask, components)] *)
Fixpoint correctParityLoop (fuel : nat) (g : graph) (mask : Z)
    (components : list (list node)) : result graph :=
  match components with
  | [] => Ok g
  | facesInComponent :: components' =>
      let* g := correctParityInSingleComponent fuel g mask facesInComponent in
      correctParityLoop fuel g mask components'
  end.

Definition correctParityInComponentArrays (fuel : nat) (g : graph) (mask : Z)
    (components : list (list node)) : result graph :=
  if mask =? 0 then Ok g else correctParityLoop fuel g mask components.

(** The [for ... of graph.allHalfEdges] loop of [collectConnectedComponents]. *)
Fixpoint collectLoop (fuel : nat) (g : graph) (parityMask : Z) (seeds : list node)
    (components : list (list node)) : result (graph * list (list node)) :=
  match seeds with
  | [] => Ok (g, components)
  | faceSeed :: seeds' =>
      if negb (isMaskSet g faceSeed VISITED) then
        let* (g, newFaces) := parityFloodFromSeed fuel g faceSeed VISITED parityMask in
        collectLoop fuel g parityMask seeds' (components ++ [newFaces])
      else collectLoop fuel g parityMask seeds' components
  end.

(** [collectConnectedComponents(graph, parityMask)] *)
Definition collectConnectedComponents (fuel : nat) (g : graph) (parityMask : Z)
    : result (graph * list (list node)) :=
  let g := HalfEdgeGraph.clearMask g (Z.lor parityMask VISITED) in
  let* (g, components) := collectLoop fuel g parityMask (seq 0 (length g)) [] in
  let* g := correctParityInComponentArrays fuel g parityMask components in
  Ok (g, components).

End HalfEdgeGraphSearch.

(** * Notions used in the statements *)

Local Open Scope nat_scope.

(** ** Sample inputs *)

(** A hexagon on which the flip cleanup stops early. *)
Definition hexagon : list XAndY :=
  [pt 2 3; pt (-6) 8; pt (-4) 2; pt (-2) (-4); pt 2 (-5); pt 4 (-1)].

(** The graph of a successful run, and the empty graph otherwise. *)
Definition graphOf (r : result graph) : graph :=
  match r with Ok g => g | _ => [] end.

Definition hexagonGraph : graph := graphOf (Triangulator.earcutSingleLoop 50 hexagon).

(** The graph that holds one point only. *)
Definition onePointGraph : graph := graphOf (Triangulator.earcutSingleLoop 5 [pt 0 0]).

(** The graph of one point before any mask is assigned: what
    [directCreateFaceLoopFromXAndYArray] builds from an array of one point. *)
Definition loosePointGraph : graph :=
  match Triangulator.directCreateFaceLoopFromXAndYArray [] None [pt 0 0] with
  | Ok (g, _) => g
  | _ => []
  end.

(** ** Flips *)


(** What is known of a node [n] at which a flip was made in graph [g]. *)
Definition flipJustified (gn : graph * node) : Prop :=
  let (g, n) := gn in
  exists mate d,
    edgeMate g n = Some mate
    /\ isMaskSet g n EXTERIOR = false
    /\ isMaskSet g n PRIMARY_EDGE = false
    /\ Triangulator.computeInCircleDeterminant g n = Ok (Some d)
    /\ (0 < d)%Q.

(** ** Well-linked graphs and face loops *)

(** Every node refers to nodes of the graph, and successor and predecessor
    are inverse to each other: what the constructors of Graph.js maintain. *)
Definition linked (g : graph) : Prop :=
  forall n, n < length g ->
    faceSuccessor g n < length g
    /\ facePredecessor g n < length g
    /\ facePredecessor g (faceSuccessor g n) = n
    /\ faceSuccessor g (facePredecessor g n) = n.

Definition linkedb (g : graph) : bool :=
  forallb (fun n =>
             (faceSuccessor g n <? length g)
             && (facePredecessor g n <? length g)
             && (facePredecessor g (faceSuccessor g n) =? n)
             && (faceSuccessor g (facePredecessor g n) =? n))
          (seq 0 (length g)).

(** [walk g seed cur l]: following face-successors from [cur], the nodes met
    up to and including the one whose successor is [seed] are [l]. *)
Inductive walk (g : graph) (seed : node) : node -> list node -> Prop :=
  | walk_last cur :
      faceSuccessor g cur = seed -> walk g seed cur [cur]
  | walk_step cur l :
      faceSuccessor g cur <> seed ->
      walk g seed (faceSuccessor g cur) l -> walk g seed cur (cur :: l).

(** ** Ears *)

(** [p] lies in the closed candidate triangle at [ear]. *)
Definition inEarTriangle (g : graph) (ear p : node) : bool :=
  let a := facePredecessor g ear in
  let c := faceSuccessor g ear in
  Triangulator.pointInTriangle (X g a) (Y g a) (X g ear) (Y g ear) (X g c) (Y g c)
                               (X g p) (Y g p).

(** [p] lies strictly inside the candidate triangle at [ear]. *)
Definition strictlyInEarTriangle (g : graph) (ear p : node) : Prop :=
  let a := facePredecessor g ear in
  let c := faceSuccessor g ear in
  (0 < (X g c - X g p) * (Y g a - Y g p) - (X g a - X g p) * (Y g c - Y g p)
   /\ 0 < (X g a - X g p) * (Y g ear - Y g p) - (X g ear - X g p) * (Y g a - Y g p)
   /\ 0 < (X g ear - X g p) * (Y g c - Y g p) - (X g c - X g p) * (Y g ear - Y g p))%Q.

(** The node test made inside the scan of [isEar]. *)
Definition scanBlocks (g : graph) (ear p : node) : bool :=
  inEarTriangle g ear p && Qleb 0 (Triangulator.cornerArea g p).

(** The other vertices of the loop: all but the ear and its two neighbours. *)
Definition otherVertex (g : graph) (ear : node) (loop : list node) (p : node) : Prop :=
  p ∈ loop /\ p <> ear /\ p <> facePredecessor g ear /\ p <> faceSuccessor g ear.

(** The ear test in the words of the specification. *)
Definition earAsSpecified (g : graph) (ear : node) (loop : list node) : Prop :=
  (Triangulator.cornerArea g ear <= 0)%Q
  /\ forall p, otherVertex g ear loop p -> ~ strictlyInEarTriangle g ear p.

(** The ear test that the code makes. *)
Definition earAsCoded (g : graph) (ear : node) (loop : list node) : Prop :=
  (Triangulator.cornerArea g ear < 0)%Q
  /\ forall p, otherVertex g ear loop p ->
               ~ (inEarTriangle g ear p = true /\ (0 <= Triangulator.cornerArea g p)%Q).

(** A pentagon with a reflex vertex on the diagonal that cuts off an ear. *)
Definition dentedSquare : list XAndY := [pt 0 0; pt 4 0; pt 4 4; pt 2 2; pt 0 4].
Definition dentedSquareLoop : graph :=
  match Triangulator.createFaceLoopFromXAndYArray 10 [] dentedSquare true true with
  | Ok (g, _) => g
  | _ => []
  end.

(** ** Graphs that differ in mask bits only *)

(** The graph with every mask cleared: its links, mates and coordinates. *)
Definition geometry (g : graph) : graph := map (HE.set_maskBits 0) g.

(** Every mate is a node of the graph. *)
Definition matesInRange (g : graph) : Prop :=
  forall n m, n < length g -> edgeMate g n = Some m -> m < length g.

Definition matesInRangeb (g : graph) : bool :=
  forallb (fun n => match edgeMate g n with
                    | Some m => m <? length g
                    | None => true
                    end) (seq 0 (length g)).

(** Every face-successor is a node of the graph. *)
Definition successorsInRange (g : graph) : Prop :=
  forall n, n < length g -> faceSuccessor g n < length g.

Definition successorsInRangeb (g : graph) : bool :=
  forallb (fun n => faceSuccessor g n <? length g) (seq 0 (length g)).

(** ** Parity of a component *)

(** [e] is the face of most negative signed area among [faces]: no face of
    negative area has an area below that of [e]. *)
Definition mostNegativeFace (fuel : nat) (g : graph) (faces : list node) (e : node)
    : Prop :=
  e ∈ faces
  /\ forall f a, f ∈ faces -> HalfEdge.signedFaceArea fuel g f = Ok a -> (a < 0)%Q ->
       exists ae, HalfEdge.signedFaceArea fuel g e = Ok ae /\ (ae <= a)%Q.

(** The seeds [faces] have the face loops [loops], no two of which share a
    node. *)
Definition distinctFaces (g : graph) (faces : list node) (loops : list (list node))
    : Prop :=
  Forall2 (fun f l => walk g f f l) faces loops /\ NoDup (concat loops).

(** A square with a square hole, as two unconnected loops. *)
Definition squareWithHole : graph :=
  match Triangulator.createFaceLoopFromXAndYArray 10 []
          [pt 0 0; pt 4 0; pt 4 4; pt 0 4] true true with
  | Ok (g, _) =>
      match Triangulator.createFaceLoopFromXAndYArray 10 g
              [pt 1 1; pt 1 2; pt 2 2; pt 2 1] false true with
      | Ok (g, _) => g
      | _ => []
      end
  | _ => []
  end.

(** The state of the flood fill over the graph [g0]: [pushed] lists, in
    order, the seeds pushed so far with their face loops; the loops are
    marked visited and no two of them share a node. *)
Definition flooded (g0 g : graph) (pushed : list (node * list node)) : Prop :=
  geometry g = geometry g0
  /\ Forall (fun fl => walk g0 fl.1 fl.1 fl.2
                       /\ forall n, n ∈ fl.2 ->
                            n < length g0 /\ isMaskSet g n VISITED = true) pushed
  /\ NoDup (concat (map snd pushed)).

(** In graph [g], the component [faces] has its face of most negative area
    marked with [mask]. *)
Definition outerFaceMarked (fuel : nat) (g : graph) (mask : Z) (faces : list node)
    : Prop :=
  exists e,
    HalfEdgeGraphSearch.findMinimumAreaFace fuel g faces = Ok (Some e)
    /\ mostNegativeFace fuel g faces e
    /\ isMaskSet g e mask = true.

(** ** Removal of a loop vertex *)

(** The graph built by [joinNeighborsOfEar] before the cut-off triangle is
    marked: the new pair, the Z-order unlinking and the two pinches. *)
Definition joinLinks (g : graph) (ear : node) : graph :=
  let p := facePredecessor g ear in
  let s := faceSuccessor g ear in
  let (g, alpha) :=
    HalfEdgeGraph.createEdgeXYZXYZ g (X g p) (Y g p) (Zc g p) (I g p)
                                     (X g s) (Y g s) (Zc g s) (I g s) in
  let beta := S alpha in
  let g := match prevZ g ear with
           | Some pz => write g (HE.set_nextZ (nextZ g ear)) pz
           | None => g
           end in
  let g := match nextZ g ear with
           | Some nz => write g (HE.set_prevZ (prevZ g ear)) nz
           | None => g
           end in
  let g := HalfEdge.pinch g (faceSuccessor g ear) beta in
  HalfEdge.pinch g (facePredecessor g ear) alpha.

(** The Z-order unlinking of [joinNeighborsOfEar] writes Z-links only. *)
Definition unlinkZ (g : graph) (ear : node) : graph :=
  let g := match prevZ g ear with
           | Some pz => write g (HE.set_nextZ (nextZ g ear)) pz
           | None => g
           end in
  match nextZ g ear with
  | Some nz => write g (HE.set_prevZ (prevZ g ear)) nz
  | None => g
  end.

(** ** Sample inputs with holes *)

(** The part of [earcutOuterAndInnerLoops] that precedes the first call
    [filterPoints(outerNode, outerNode.faceSuccessor)] of
    [spliceLeftMostNodesOfHoles]: the graph and the outer node at that call. *)
Definition beforeOuterFilter (fuel : nat) (loops : list (list XAndY))
    : result (graph * option node) :=
  let* outer := deref (head loops) in
  let* (g, start) := Triangulator.createFaceLoopFromXAndYArray fuel [] outer true true in
  let* (g, queue) := Triangulator.constructHoles fuel g (tail loops) [] in
  match Triangulator.sortByX g queue with
  | [] => Ok (g, start)
  | hole :: _ =>
      let* g := Triangulator.eliminateHole fuel g hole start true in Ok (g, start)
  end.

Definition stateOf (r : result (graph * option node)) : graph :=
  match r with Ok (g, _) => g | _ => [] end.

(** A square whose first point lies on the side from the last point to the
    second, with a triangular hole. *)
Definition collinearStartLoops : list (list XAndY) :=
  [[pt 2 0; pt 4 0; pt 4 4; pt 0 4; pt 0 0]; [pt 1 2; pt 2 2; pt 1 3]].
Definition collinearStartState : graph :=
  stateOf (beforeOuterFilter 30 collinearStartLoops).

(** An outer loop of two points, and a hole that no edge of it faces. *)
Definition twoPointLoops : list (list XAndY) :=
  [[pt 0 0; pt 1 0]; [pt 5 5; pt 6 5; pt 6 6]].
Definition twoPointState : graph := stateOf (beforeOuterFilter 30 twoPointLoops).

(** The part of [earcutOuterAndInnerLoops] that precedes the call
    [filterPoints(b, b.faceSuccessor)] of [eliminateHole] for the second hole
    from the left: the first hole has been spliced in and the outer loop
    filtered, and [splitPolygon] has linked the second hole to its bridge.
    The result is the graph and the node [b] at that call. *)
Definition beforeSecondHoleFilter (fuel : nat) (loops : list (list XAndY))
    : result (graph * node) :=
  let* outer := deref (head loops) in
  let* (g, start) := Triangulator.createFaceLoopFromXAndYArray fuel [] outer true true in
  let* (g, queue) := Triangulator.constructHoles fuel g (tail loops) [] in
  match Triangulator.sortByX g queue with
  | hole1 :: hole2 :: _ =>
      let* g := Triangulator.eliminateHole fuel g hole1 start true in
      let* (g, outerNode) :=
        Triangulator.filterPoints fuel g start
          (match start with
           | Some o => Some (faceSuccessor g o)
           | None => None
           end) in
      let* bridge := Triangulator.findHoleBridge fuel g hole2 outerNode in
      let* outerNode := deref bridge in
      Ok (Triangulator.splitPolygon g outerNode hole2)
  | _ => TypeError
  end.

(** A square with two holes of one point each, which get the steiner flag. *)
Definition twoSteinerLoops : list (list XAndY) :=
  [[pt 0 0; pt 4 0; pt 4 4; pt 0 4]; [pt 1 1]; [pt 2 1]].
Definition twoSteinerState : graph :=
  match beforeSecondHoleFilter 30 twoSteinerLoops with Ok (g, _) => g | _ => [] end.

(** The graph after the first turn of [filterPoints] at that call. *)
Definition twoSteinerCut : graph :=
  match Triangulator.filterPointsBody 30 twoSteinerState 14 11 with
  | Ok (g, _, _, _) => g
  | _ => []
  end.

(** ** Bridges to holes *)

(** [chain g a l b]: the face-successors from [a] run through [l], whose
    last node has the successor [b]. *)
Inductive chain (g : graph) : node -> list node -> node -> Prop :=
  | chain_last a b : faceSuccessor g a = b -> chain g a [a] b
  | chain_step a l b : chain g (faceSuccessor g a) l b -> chain g a (a :: l) b.

(** The abscissa at which the edge from [p] to its successor crosses the
    horizontal through [hy], when [hy <= p.y], [hy >= p.faceSuccessor.y] and
    the edge is not horizontal. *)
Definition crossing (g : graph) (hy : Q) (p : node) : option Q :=
  let s := faceSuccessor g p in
  if Qleb hy (Y g p) && Qleb (Y g s) hy && negb (Qeqb (Y g s) (Y g p))
  then Some (X g p + (hy - Y g p) * (X g s - X g p) / (Y g s - Y g p))%Q
  else None.

(** The end of the edge at [p] with the lesser [x] (the successor on a tie). *)
Definition lesserEnd (g : graph) (p : node) : node :=
  if Qltb (X g p) (X g (faceSuccessor g p)) then p else faceSuccessor g p.

(** The outcome [(qx, m)] of the first loop of [findHoleBridge]: [m] is the
    lesser end of an edge of the loop that crosses the ray at [qx], and no
    edge of the loop crosses the ray between [qx] and the hole point. *)
Definition crossedEdge (g : graph) (hx hy : Q) (loop : list node) (qx : Q) (m : node)
    : Prop :=
  exists p, p ∈ loop /\ crossing g hy p = Some qx /\ (qx <= hx)%Q /\ m = lesserEnd g p
            /\ forall p' x', p' ∈ loop -> crossing g hy p' = Some x' ->
                 (x' <= hx)%Q -> (x' <= qx)%Q.

(** The vertices among which the second loop of [findHoleBridge] chooses. *)
Definition bridgeChoice (g : graph) (hole : node) (qx : Q) (m0 : node)
    (loop : list node) (p : node) : Prop :=
  p ∈ loop /\ p <> m0
  /\ Triangulator.bridgeCandidate g (X g hole) (Y g hole) qx (X g m0) (Y g m0) p = true
  /\ Triangulator.locallyInside g p hole = true.

(** [r] is the choice of [findHoleBridge]: the first end [m0] when no vertex
    qualifies, and else a qualifying vertex of least tangent and, among
    those, of greatest [x]. *)
Definition bridgeChosen (g : graph) (hole : node) (qx : Q) (m0 : node)
    (loop : list node) (r : node) : Prop :=
  (r = m0 /\ forall p, ~ bridgeChoice g hole qx m0 loop p)
  \/ (bridgeChoice g hole qx m0 loop r
      /\ forall p, bridgeChoice g hole qx m0 loop p ->
           let tan := Triangulator.bridgeTan g (X g hole) (Y g hole) in
           (tan r < tan p)%Q \/ ((tan r == tan p)%Q /\ (X g p <= X g r)%Q)).

(** The choice in the words of the specification: among the vertices of the
    loop strictly inside the triangle of the hole point, the crossing point
    and the nearer end [near] of the crossed edge, one of least tangent and
    then of greatest [x]; [near] itself when there is none. *)
Definition strictlyInTriangle (ax ay bx by_ cx cy px py : Q) : bool :=
  let d1 := ((cx - px) * (ay - py) - (ax - px) * (cy - py))%Q in
  let d2 := ((ax - px) * (by_ - py) - (bx - px) * (ay - py))%Q in
  let d3 := ((bx - px) * (cy - py) - (cx - px) * (by_ - py))%Q in
  (Qltb 0 d1 && Qltb 0 d2 && Qltb 0 d3) || (Qltb d1 0 && Qltb d2 0 && Qltb d3 0).

(** The squared distance between two nodes. *)
Definition distance2 (g : graph) (a b : node) : Q :=
  ((X g a - X g b) * (X g a - X g b) + (Y g a - Y g b) * (Y g a - Y g b))%Q.

(** The end of the edge at [p] that is nearer to [hole]. *)
Definition nearerEnd (g : graph) (hole p : node) : node :=
  if Qleb (distance2 g hole p) (distance2 g hole (faceSuccessor g p))
  then p else faceSuccessor g p.

Definition bridgeAsSpecified (g : graph) (hole : node) (qx : Q) (near : node)
    (loop : list node) (r : node) : Prop :=
  let inside p :=
    p ∈ loop
    /\ strictlyInTriangle (X g hole) (Y g hole) qx (Y g hole) (X g near) (Y g near)
                          (X g p) (Y g p) = true in
  (r = near /\ forall p, ~ inside p)
  \/ (inside r
      /\ forall p, inside p ->
           let tan := Triangulator.bridgeTan g (X g hole) (Y g hole) in
           (tan r < tan p)%Q \/ ((tan r == tan p)%Q /\ (X g p <= X g r)%Q)).

(** An outer loop and one hole, as [constructAndSpliceHoles] builds them. *)
Definition outerAndHole (outer hole : list XAndY) : graph :=
  match Triangulator.createFaceLoopFromXAndYArray 10 [] outer true true with
  | Ok (g, _) =>
      match Triangulator.createFaceLoopFromXAndYArray 10 g hole false true with
      | Ok (g, _) => g
      | _ => []
      end
  | _ => []
  end.

(** A quadrilateral whose left side slants: the ray from the hole point
    [(3, 4)] crosses the side from [(0, 5)] to [(-4, -4)]. *)
Definition slantedState : graph :=
  outerAndHole [pt (-4) (-4); pt 10 (-4); pt 10 5; pt 0 5] [pt 3 4; pt 4 3; pt 4 4].

(** A quadrilateral with the vertex [(2, 2)] on the segment from the hole
    point [(3, 1)] to the end [(0, 4)] of the crossed edge. *)
Definition notchedState : graph :=
  outerAndHole [pt 0 4; pt 2 2; pt 4 4; pt 2 (-5)] [pt 3 1; pt (7 # 2) (1 # 2); pt (7 # 2) 1].

(** A loop that does not enclose the hole point [(0, 0)]. *)
Definition detachedState : graph :=
  outerAndHole [pt (-5) (-3); pt (-3) (-5); pt (-4) (-1); pt (-5) 4]
               [pt 0 0; pt 1 (-1); pt 1 0].

(** What the first loop of [findHoleBridge] holds in [qx] and [m] after
    the nodes [seen]. *)
Definition sweepSeen (g : graph) (hx hy : Q) (seen : list node)
    (qm : option (Q * node)) : Prop :=
  match qm with
  | None => forall p x, p ∈ seen -> crossing g hy p = Some x -> ~ (x <= hx)%Q
  | Some (qx, m) => crossedEdge g hx hy seen qx m
  end.

(** The test of the second loop of [findHoleBridge] without the comparison
    of tangents. *)
Definition scanChoice (g : graph) (hole : node) (qx : Q) (m0 p : node) : bool :=
  Triangulator.bridgeCandidate g (X g hole) (Y g hole) qx (X g m0) (Y g m0) p
  && Triangulator.locallyInside g p hole.

(** What the second loop of [findHoleBridge] holds in [m] and [tanMin]
    after the nodes [seen]. *)
Definition scanSeen (g : graph) (hole : node) (qx : Q) (m0 : node)
    (seen : list node) (m : node) (tanMin : option Q) : Prop :=
  let tan := Triangulator.bridgeTan g (X g hole) (Y g hole) in
  (tanMin = None /\ m = m0 /\ forall p, p ∈ seen -> scanChoice g hole qx m0 p = false)
  \/ (tanMin = Some (tan m) /\ m ∈ seen /\ scanChoice g hole qx m0 m = true
      /\ forall p, p ∈ seen -> scanChoice g hole qx m0 p = true ->
           (tan m < tan p)%Q \/ ((tan m == tan p)%Q /\ (X g p <= X g m)%Q)).

(** ** Triangles of a result *)

(** [n] lies on an interior face loop of three nodes that all carry the
    triangulated mask. *)
Definition inTriangularFace (g : graph) (n : node) : bool :=
  let s := faceSuccessor g n in
  let t := faceSuccessor g s in
  negb (Nat.eqb s n) && negb (Nat.eqb t n) && negb (Nat.eqb t s)
  && Nat.eqb (faceSuccessor g t) n
  && isMaskSet g n TRIANGULATED_NODE_MASK && isMaskSet g s TRIANGULATED_NODE_MASK
  && isMaskSet g t TRIANGULATED_NODE_MASK
  && negb (isMaskSet g n EXTERIOR).

(** The triangular faces, each given by its node of least index. *)
Definition triangularFaces (g : graph) : list node :=
  filter (fun n => inTriangularFace g n
                   && Nat.ltb n (faceSuccessor g n)
                   && Nat.ltb n (faceSuccessor g (faceSuccessor g n)))
         (seq 0 (length g)).

(** ** Simple polygons *)

(** Twice the signed area of the triangle [p q r]. *)
Definition orient (p q r : XAndY) : Q :=
  ((px q - px p) * (py r - py p) - (py q - py p) * (px r - px p))%Q.

(** [r], known to lie on the line through [p] and [q], lies between them. *)
Definition between (p q r : XAndY) : bool :=
  Qleb (Qmin (px p) (px q)) (px r) && Qleb (px r) (Qmax (px p) (px q))
  && Qleb (Qmin (py p) (py q)) (py r) && Qleb (py r) (Qmax (py p) (py q)).

(** The closed segments [p1 q1] and [p2 q2] have a point in common. *)
Definition segmentsMeet (p1 q1 p2 q2 : XAndY) : bool :=
  let d1 := orient p2 q2 p1 in
  let d2 := orient p2 q2 q1 in
  let d3 := orient p1 q1 p2 in
  let d4 := orient p1 q1 q2 in
  ((Qltb 0 d1 && Qltb d2 0 || Qltb d1 0 && Qltb 0 d2)
   && (Qltb 0 d3 && Qltb d4 0 || Qltb d3 0 && Qltb 0 d4))
  || Qeqb d1 0 && between p2 q2 p1 || Qeqb d2 0 && between p2 q2 q1
  || Qeqb d3 0 && between p1 q1 p2 || Qeqb d4 0 && between p1 q1 q2.

(** The vertex of index [i], counted round the polygon. *)
Definition vertex (data : list XAndY) (i : nat) : XAndY :=
  nth (i mod length data) data (pt 0 0).

(** A simple polygon in the sense of the specification: at least three
    vertices, no two of them the same point (to the tolerance of
    [equalXAndY]), no three consecutive ones on a line, and no two edges
    with a point in common other than the vertex that consecutive edges
    share. *)
Definition simplePolygon (data : list XAndY) : bool :=
  let n := length data in
  let indices := seq 0 n in
  Nat.leb 3 n
  && forallb (fun i => forallb (fun j =>
       Nat.leb j i
       || negb (Triangulator.equalXAndY (px (vertex data i), py (vertex data i))
                                        (px (vertex data j), py (vertex data j))))
       indices) indices
  && forallb (fun i =>
       negb (Qeqb (orient (vertex data i) (vertex data (i + 1)) (vertex data (i + 2))) 0))
       indices
  && forallb (fun i => forallb (fun j =>
       Nat.leb j (i + 1) || (Nat.eqb i 0 && Nat.eqb j (n - 1))
       || negb (segmentsMeet (vertex data i) (vertex data (i + 1))
                             (vertex data j) (vertex data (j + 1))))
       indices) indices.

(** The triangulation with the unaccelerated ear test, in the words of the
    specification: [earcutSingleLoop] without the bounding box, so that
    [earcutLinked] tests every ear with [isEar]. *)
Definition earcutBruteForce (fuel : nat) (data : list XAndY) : result graph :=
  let* (g, startingNode) :=
    Triangulator.createFaceLoopFromXAndYArray fuel [] data true true in
  Triangulator.earcutLinked fuel g startingNode None None None None.

(** A star-shaped polygon of 81 vertices. *)
Definition star81 : list XAndY :=
  [pt 47 0; pt 86 7; pt 67 11; pt 89 21; pt 88 28; pt 72 29; pt 52 26;
   pt 74 45; pt 59 42; pt 60 50; pt 40 39; pt 36 41; pt 22 30; pt 50 79;
   pt 47 88; pt 34 80; pt 13 39; pt 25 96; pt 13 72; pt 9 96; pt 1 67;
   pt (-5) 83; pt (-9) 63; pt (-21) 97; pt (-14) 46; pt (-15) 39;
   pt (-27) 57; pt (-32) 56; pt (-49) 71; pt (-21) 26; pt (-54) 57;
   pt (-23) 21; pt (-60) 47; pt (-53) 35; pt (-26) 14; pt (-54) 24;
   pt (-30) 11; pt (-49) 14; pt (-46) 9; pt (-77) 9; pt (-61) 2;
   pt (-33) (-1); pt (-56) (-7); pt (-85) (-17); pt (-75) (-21);
   pt (-49) (-18); pt (-78) (-36); pt (-53) (-29); pt (-51) (-34);
   pt (-25) (-20); pt (-68) (-62); pt (-41) (-44); pt (-46) (-57);
   pt (-45) (-66); pt (-42) (-72); pt (-36) (-76); pt (-28) (-74);
   pt (-22) (-73); pt (-21) (-98); pt (-4) (-32); pt (-5) (-90); pt 2 (-89);
   pt 6 (-67); pt 10 (-56); pt 19 (-73); pt 29 (-86); pt 26 (-61);
   pt 19 (-35); pt 20 (-31); pt 56 (-75); pt 57 (-66); pt 42 (-41);
   pt 72 (-60); pt 72 (-52); pt 43 (-26); pt 83 (-42); pt 69 (-28);
   pt 90 (-29); pt 67 (-16); pt 69 (-11); pt 65 (-5)].

(** ** Convex polygons *)

(** Every three points of [l], taken in the order of the list, turn
    counter-clockwise: their [signedTriangleArea] is negative. *)
Definition convexLoop (l : list (Q * Q)) : Prop :=
  forall a b c, [a; b; c] `sublist_of` l ->
    (Triangulator.signedTriangleArea a b c < 0)%Q.

Definition coordinates (data : list XAndY) : list (Q * Q) :=
  map (fun p => (px p, py p)) data.

(** A convex polygon, given counter-clockwise or clockwise. *)
Definition convexPolygon (data : list XAndY) : Prop :=
  convexLoop (coordinates data) \/ convexLoop (reverse (coordinates data)).

(** The same as a test on triples. *)
Fixpoint allPairs {A} (P : A -> A -> bool) (l : list A) : bool :=
  match l with
  | [] => true
  | b :: l' => forallb (P b) l' && allPairs P l'
  end.

Fixpoint allTriples {A} (P : A -> A -> A -> bool) (l : list A) : bool :=
  match l with
  | [] => true
  | a :: l' => allPairs (P a) l' && allTriples P l'
  end.

Definition convexLoopb (l : list (Q * Q)) : bool :=
  allTriples (fun a b c => Qltb (Triangulator.signedTriangleArea a b c) 0) l.

(** ** Graphs that differ in the Z-order fields only *)

Definition forgetZ (g : graph) : graph :=
  map (fun e => HE.set_zOrder None (HE.set_prevZ None (HE.set_nextZ None e))) g.

(** The corners of the triangular faces. *)
Definition trianglesOf (g : graph) : list ((Q * Q) * (Q * Q) * (Q * Q)) :=
  map (fun n => (Triangulator.xy g n, Triangulator.xy g (faceSuccessor g n),
                 Triangulator.xy g (faceSuccessor g (faceSuccessor g n))))
      (triangularFaces g).

(** ** The Z-order list *)

(** [l] lists the nodes met from [p] along [nextZ], up to [undefined]. *)
Fixpoint nextChain (g : graph) (p : option node) (l : list node) : Prop :=
  match l with
  | [] => p = None
  | n :: l' => p = Some n /\ nextChain g (nextZ g n) l'
  end.

(** [l] lists the nodes met from [p] along [prevZ], up to [undefined]. *)
Fixpoint prevChain (g : graph) (p : option node) (l : list node) : Prop :=
  match l with
  | [] => p = None
  | n :: l' => p = Some n /\ prevChain g (prevZ g n) l'
  end.

(** A run of [sortLinked]: [p] is the first node of [l], and [nextZ] leads
    from each node of [l] to the next; where it leads from the last is left
    open. *)
Fixpoint runChain (g : graph) (p : option node) (l : list node) : Prop :=
  match l with
  | [] => True
  | n :: l' =>
      p = Some n /\ match l' with [] => True | _ :: _ => runChain g (nextZ g n) l' end
  end.

(** The part of the list that [sortLinked] has merged: [prevZ] leads back
    from each node to the one before, from the first to [prev], and [nextZ]
    leads on from each node but the last. *)
Fixpoint outLinked (g : graph) (prev : option node) (l : list node) : Prop :=
  match l with
  | [] => True
  | n :: l' =>
      prevZ g n = prev
      /\ match l' with [] => True | n' :: _ => nextZ g n = Some n' end
      /\ outLinked g (Some n) l'
  end.

(** A doubly linked Z-order list. *)
Definition zLinked (g : graph) (l : list node) : Prop :=
  NoDup l /\ outLinked g None l
  /\ match last l with Some t => nextZ g t = None | None => True end.

(** ** The loop that remains to be triangulated *)

(** The state of [earcutLinked] on a convex loop: [L] is the face loop from
    the current ear, none of its nodes is marked, its corners turn
    counter-clockwise; [zl] is the Z-order list, whose nodes all have corners
    of negative area, and a node of [L] that is not on it has no Z-order
    links. *)
Definition earLoop (g : graph) (L zl : list node) : Prop :=
  linked g
  /\ (exists e, head L = Some e /\ walk g e e L)
  /\ 3 <= length L
  /\ convexLoop (map (Triangulator.xy g) L)
  /\ (forall n, n ∈ L ->
        n < length g /\ isMaskSet g n TRIANGULATED_NODE_MASK = false)
  /\ zLinked g zl
  /\ (forall n, n ∈ zl -> n < length g /\ (Triangulator.cornerArea g n < 0)%Q)
  /\ (forall n, n ∈ L -> n ∈ zl \/ prevZ g n = None /\ nextZ g n = None).


(** ** Order along the Z-order list *)

(** [a] is not after [b] in Z-order: the test [a.zOrder <= b.zOrder] of
    [sortLinked]. *)
Definition zLe (g : graph) (a b : node) : Prop :=
  Triangulator.leU (zOrderOf g a) (zOrderOf g b) = true.

(** No node of [l] is after a later one. *)
Fixpoint zSorted (g : graph) (l : list node) : Prop :=
  match l with
  | [] => True
  | a :: l' => (forall b, b ∈ l' -> zLe g a b) /\ zSorted g l'
  end.

(** [l] is made of sorted runs of [k] nodes (the last may be shorter): the
    state of the list between two passes of [sortLinked]. *)
Definition chunksSorted (g : graph) (k : nat) (l : list node) : Prop :=
  forall i, zSorted g (take k (drop (i * k) l)).


(** ** The face loops built from a point array *)

(** The corners of the back loop, which runs through the points [pts] of
    the front loop in the opposite direction, from the first. *)
Definition backwards (pts : list (Q * Q)) : list (Q * Q) :=
  match pts with
  | [] => []
  | p :: rest => p :: reverse rest
  end.

(** The points that [directCreateFaceLoopFromXAndYArray] adds to a loop
    whose first point is [first] and whose last point is [last]: a point
    that [equalXAndY] identifies with the last point or with the first is
    passed over. *)
Fixpoint keptAfter (first last : Q * Q) (data : list XAndY) : list (Q * Q) :=
  match data with
  | [] => []
  | p :: data' =>
      let q := (px p, py p) in
      if Triangulator.equalXAndY last q || Triangulator.equalXAndY first q
      then keptAfter first last data'
      else q :: keptAfter first q data'
  end.

(** The points of the loop built from [data]. *)
Definition keptPoints (data : list XAndY) : list (Q * Q) :=
  match data with
  | [] => []
  | p :: data' => (px p, py p) :: keptAfter (px p, py p) (px p, py p) data'
  end.

(** What [directCreateFaceLoopFromXAndYArray] has built when [base] is its
    last new node: a front loop [LA] through the points [pts], which ends at
    [base], and a back loop [LB] through the same points; the mate of [base]
    opens the back loop, the mate of the first front node closes it; mates
    are the two sides of an edge, one in each loop; no mask is set and no
    Z-order field is defined. *)
Definition builtLoops (g : graph) (base : node) (pts : list (Q * Q)) : Prop :=
  linked g /\ forgetZ g = g
  /\ (forall n, maskBits g n = 0%Z)
  /\ exists LA LB first mb mf,
       walk g first first LA /\ last LA = Some base
       /\ map (Triangulator.xy g) LA = pts
       /\ walk g mb mb LB /\ last LB = Some mf
       /\ map (Triangulator.xy g) LB = backwards pts
       /\ edgeMate g base = Some mb /\ edgeMate g first = Some mf
       /\ (forall n, n < length g <-> n ∈ LA ++ LB)
       /\ (forall n, n ∈ LA -> n ∉ LB)
       /\ (forall n, n < length g ->
             exists m, edgeMate g n = Some m /\ edgeMate g m = Some n
                       /\ m < length g
                       /\ Triangulator.xy g m = Triangulator.xy g (faceSuccessor g n)
                       /\ (n ∈ LA <-> m ∈ LB)).

(** Twice the area swept by a path of points (the shoelace sum). *)
Fixpoint pathSum (l : list (Q * Q)) : Q :=
  match l with
  | [] => 0
  | p :: l' =>
      match l' with
      | [] => 0
      | q :: _ => p.1 * q.2 - q.1 * p.2 + pathSum l'
      end
  end.

(** Twice the area of the fan of triangles from [o] over a path. *)
Fixpoint fanSum (o : Q * Q) (l : list (Q * Q)) : Q :=
  match l with
  | [] => 0
  | p :: l' =>
      match l' with
      | [] => 0
      | q :: _ => - (2) * Triangulator.signedTriangleArea o p q + fanSum o l'
      end
  end.

(** The vertices (i, i^2), i = 0 .. 80, of a convex polygon. *)
Definition parabola81 : list XAndY :=
  map (fun i => pt (inject_Z (Z.of_nat i)) (inject_Z (Z.of_nat (i * i)))) (seq 0 81).

(** The face loops of a square given counter-clockwise. *)
Definition squareLoop : graph :=
  match Triangulator.createFaceLoopFromXAndYArray 10 []
          [pt 0 0; pt 4 0; pt 4 4; pt 0 4] true true with
  | Ok (g, _) => g
  | _ => []
  end.


(** The square loop as [indexCurve] hands it to [sortLinked]: every node
    carries its Z-order, and the list runs along the loop from node 0. *)
Definition squareChain : graph :=
  match Triangulator.indexCurveLoop 10 squareLoop 0 0 0 0 4 with
  | Ok g =>
      match prevZ g 0 with
      | Some pz => write (write g (HE.set_nextZ None) pz) (HE.set_prevZ None) 0
      | None => []
      end
  | _ => []
  end.

(** ** Coordinates on which the arithmetic of the code is exact *)

(** An integer of magnitude at most 2^20.  The differences, products and
    sums that the triangulator forms from such coordinates are integers or
    halves of integers below 2^53, which the double arithmetic of the code
    computes without rounding, and the quotients of [zOrder] are truncated
    to the same integers; there the rationals of this embedding give what the
    code computes. *)
Definition exactNumber (q : Q) : bool :=
  (Qden q =? 1)%positive && (Z.abs (Qnum q) <=? 2 ^ 20)%Z.

Definition exactPoint (p : Q * Q) : bool := exactNumber p.1 && exactNumber p.2.

Definition exactData (data : list XAndY) : bool :=
  forallb (fun p => exactPoint (px p, py p)) data.


(** ** Counting triangles *)

(** [n] is the node of least index of a triangular face: the test by which
    [triangularFaces] picks one node of every such face. *)
Definition firstOfTriangle (g : graph) (n : node) : bool :=
  inTriangularFace g n
  && Nat.ltb n (faceSuccessor g n)
  && Nat.ltb n (faceSuccessor g (faceSuccessor g n)).

(** * Facts about the embedding *)

(** ** Boolean comparisons *)

Lemma Qltb_lt a b : Qltb a b = true <-> (a < b)%Q.
Proof.
  unfold Qltb. rewrite Qlt_alt. destruct (Qcompare a b); split; congruence.
Qed.

Lemma Qltb_ge a b : Qltb a b = false <-> (b <= a)%Q.
Proof.
  rewrite <- not_true_iff_false, Qltb_lt. split.
  - apply Qnot_lt_le.
  - apply Qle_not_lt.
Qed.

Lemma Qleb_le a b : Qleb a b = true <-> (a <= b)%Q.
Proof. apply Qle_bool_iff. Qed.

Lemma Qleb_gt a b : Qleb a b = false <-> (b < a)%Q.
Proof.
  rewrite <- not_true_iff_false, Qleb_le. split.
  - apply Qnot_le_lt.
  - apply Qlt_not_le.
Qed.

Lemma Qeqb_eq a b : Qeqb a b = true <-> (a == b)%Q.
Proof. apply Qeq_bool_iff. Qed.


(** ** Fields of a graph after a write *)

Lemma length_write g f n : length (write g f n) = length g.
Proof. apply length_alter. Qed.

Lemma lookup_write_eq g f n : n < length g -> write g f n !!! n = f (g !!! n).
Proof. apply list_lookup_total_alter_eq. Qed.

Lemma lookup_write_ne g f n m : n <> m -> write g f n !!! m = g !!! m.
Proof. apply list_lookup_total_alter_ne. Qed.

Lemma lookup_write g f n m :
  write g f n !!! m = if decide (n = m /\ n < length g) then f (g !!! n) else g !!! m.
Proof. apply list_lookup_total_alter. Qed.

(** A write that leaves a field alone is invisible through that field. *)
Lemma lookup_write_keep {A} (proj : HE.t -> A) g f n m :
  (forall e, proj (f e) = proj e) -> proj (write g f n !!! m) = proj (g !!! m).
Proof.
  intros Hkeep. rewrite lookup_write.
  case_decide as Hnm; [|done]. destruct Hnm as [-> _]. apply Hkeep.
Qed.

(** Writing the mask bits keeps links and coordinates. *)
Section MaskWrites.
Context (g : graph) (n : node) (bits : Z).
Let g' := write g (HE.set_maskBits bits) n.

Lemma faceSuccessor_mask m : faceSuccessor g' m = faceSuccessor g m.
Proof. apply (lookup_write_keep HE.faceSuccessor). done. Qed.
Lemma facePredecessor_mask m : facePredecessor g' m = facePredecessor g m.
Proof. apply (lookup_write_keep HE.facePredecessor). done. Qed.
Lemma edgeMate_mask m : edgeMate g' m = edgeMate g m.
Proof. apply (lookup_write_keep HE.edgeMate). done. Qed.
Lemma X_mask m : X g' m = X g m.
Proof. apply (lookup_write_keep HE.x). done. Qed.
Lemma Y_mask m : Y g' m = Y g m.
Proof. apply (lookup_write_keep HE.y). done. Qed.
Lemma steiner_mask m : steiner g' m = steiner g m.
Proof. apply (lookup_write_keep HE.steiner). done. Qed.

End MaskWrites.

Create Rewrite HintDb fields.
#[export] Hint Rewrite faceSuccessor_mask facePredecessor_mask edgeMate_mask
  X_mask Y_mask steiner_mask length_write : fields.

Lemma computeInCircleDeterminant_mask g n bits a :
  Triangulator.computeInCircleDeterminant (write g (HE.set_maskBits bits) n) a
  = Triangulator.computeInCircleDeterminant g a.
Proof.
  unfold Triangulator.computeInCircleDeterminant.
  autorewrite with fields. destruct (edgeMate g a); simpl; [|done].
  now autorewrite with fields.
Qed.

(** ** The flip cleanup flips on a positive determinant only *)

Lemma isMaskSet_setMask_other g n mask mask' :
  Z.land mask mask' = 0%Z ->
  isMaskSet (setMask g n mask) n mask' = isMaskSet g n mask'.
Proof.
  intros Hdisj. unfold isMaskSet, setMask, maskBits.
  destruct (decide (n < length g)) as [Hlt|Hge].
  - rewrite lookup_write_eq by done. simpl.
    now rewrite Z.land_lor_distr_l, Hdisj, Z.lor_0_r.
  - rewrite lookup_write. case_decide as H; [lia|done].
Qed.

Lemma cleanupBody_flipped g i found g' found' continued :
  Triangulator.cleanupBody g i found = Ok (g', true, found', continued) ->
  flipJustified (g, i).
Proof.
  unfold Triangulator.cleanupBody, flipJustified.
  destruct (isMaskSet g i VISITED); [discriminate|].
  unfold setMask at 1. rewrite edgeMate_mask.
  destruct (edgeMate g i) as [mate|] eqn:Hmate; [|discriminate].
  rewrite !isMaskSet_setMask_other by done.
  destruct (isMaskSet g i EXTERIOR) eqn:Hext; [discriminate|].
  destruct (isMaskSet g i PRIMARY_EDGE) eqn:Hprim; [discriminate|]. simpl.
  unfold setMask at 1. rewrite computeInCircleDeterminant_mask.
  destruct (Triangulator.computeInCircleDeterminant g i) as [[d|]| |];
    simpl; try discriminate.
  destruct (Qltb 0 d) eqn:Hd; [|discriminate].
  intros _. exists mate, d. repeat split; try done. now apply Qltb_lt.
Qed.

Lemma cleanupLoop_flips fuel : forall g i found g' flips,
  Triangulator.cleanupLoop fuel g i found = Ok (g', flips) ->
  Forall flipJustified flips.
Proof.
  induction fuel as [|fuel IH]; intros g i found g' flips; simpl; [discriminate|].
  destruct (negb (i <? length g)).
  { intros [= <- <-]. constructor. }
  destruct (Triangulator.cleanupBody g i found)
    as [[[[g1 flipped] found1] continued]| |] eqn:Hbody; simpl; try discriminate.
  match goal with |- context [bind ?c _] => destruct c as [[g2 flips2]| |] eqn:Hrest end;
    simpl; try discriminate.
  intros [= <- <-].
  assert (Forall flipJustified flips2) as Hflips2.
  { destruct (negb continued && (i =? length g - 1) && found1); eauto. }
  destruct flipped; [|done].
  constructor; [|done]. eapply cleanupBody_flipped, Hbody.
Qed.



(** C10 (the code departs from it).  [directCreateFaceLoopFromXAndYArray]
    on an array of one point builds two mated half-edges, each alone on its
    face loop and neither exterior nor primary.  Neither face loop is a
    triangle, yet [computeInCircleDeterminant] returns the number 0 there,
    not [undefined]: its test [nodeA2.faceSuccessor !== nodeA] also passes
    when the loop has one node.  [cleanupTriangulation] does compute the
    determinant at that half-edge (the turn of its loop sets
    [foundNonVisited]), and makes no flip only because 0 is not positive. *)
Theorem determinant_is_a_number_on_one_node_loops :
  Triangulator.directCreateFaceLoopFromXAndYArray [] None [pt 0 0]
  = Ok (loosePointGraph, Some 0)
  /\ HalfEdge.faceLoop 5 loosePointGraph 0 = Ok [0]
  /\ edgeMate loosePointGraph 0 = Some 1
  /\ HalfEdge.faceLoop 5 loosePointGraph 1 = Ok [1]
  /\ isMaskSet loosePointGraph 0 EXTERIOR = false
  /\ isMaskSet loosePointGraph 0 PRIMARY_EDGE = false
  /\ Triangulator.computeInCircleDeterminant loosePointGraph 0 = Ok (Some 0%Q)
  /\ Triangulator.cleanupBody loosePointGraph 0 false
     = Ok (setMask loosePointGraph 0 VISITED, false, true, false).
Proof. vm_compute. done. Qed.

(** ** The flip cleanup can stop before its fixed point *)

(** C2 (the code departs from it).  The hexagon is triangulated into four
    triangles; [cleanupTriangulation] returns on that graph, and in the
    graph it returns the half-edge 12 has the mate 13, is neither exterior
    nor primary, lies between two three-node face loops, and has the
    strictly positive in-circle determinant 180.  The second pass makes two
    flips and then leaves the loop through the [continue] taken at the last,
    already visited, half-edge, which skips the restart test. *)
Theorem cleanup_returns_with_positive_determinant :
  let g' := graphOf (Triangulator.cleanupTriangulation 200 hexagonGraph) in
  Triangulator.earcutSingleLoop 50 hexagon = Ok hexagonGraph
  /\ Triangulator.cleanupTriangulation 200 hexagonGraph = Ok g'
  /\ edgeMate g' 12 = Some 13
  /\ isMaskSet g' 12 EXTERIOR = false
  /\ isMaskSet g' 12 PRIMARY_EDGE = false
  /\ HalfEdge.faceLoop 3 g' 12 = Ok [12; 10; 16]
  /\ HalfEdge.faceLoop 3 g' 13 = Ok [13; 4; 14]
  /\ Triangulator.computeInCircleDeterminant g' 12 = Ok (Some 180%Q).
Proof. vm_compute. repeat split. Qed.

(** ** Face loops *)

Lemma linkedb_linked g : linkedb g = true -> linked g.
Proof.
  unfold linkedb, linked. rewrite forallb_forall. intros H n Hn.
  assert (In n (seq 0 (length g))) as Hin by (apply in_seq; lia).
  apply H in Hin. rewrite !andb_true_iff in Hin.
  destruct Hin as [[[H1 H2] H3] H4].
  apply Nat.ltb_lt in H1, H2. apply Nat.eqb_eq in H3, H4. done.
Qed.

Lemma collect_walk fuel : forall g seed cur l,
  HalfEdge.collectAroundFace fuel g seed cur = Ok l ->
  walk g seed cur l /\ length l <= fuel.
Proof.
  induction fuel as [|fuel IH]; intros g seed cur l; simpl; [discriminate|].
  destruct (Nat.eqb_spec (faceSuccessor g cur) seed) as [Heq|Hne].
  - intros [= <-]. split; [by constructor|simpl; lia].
  - destruct (HalfEdge.collectAroundFace fuel g seed (faceSuccessor g cur))
      as [l'| |] eqn:Hrec; simpl; try discriminate.
    intros [= <-]. apply IH in Hrec as [Hw Hlen].
    split; [by constructor|simpl; lia].
Qed.

Lemma walk_deterministic g seed cur l1 l2 :
  walk g seed cur l1 -> walk g seed cur l2 -> l1 = l2.
Proof.
  intros H1. revert l2. induction H1 as [cur Hs|cur l Hs Hw IH]; intros l2 H2.
  - inversion H2; subst; [done|contradiction].
  - inversion H2; subst; [contradiction|]. f_equal. by apply IH.
Qed.

Lemma walk_suffix g seed cur l l1 x l2 :
  walk g seed cur l -> l = l1 ++ x :: l2 -> walk g seed x (x :: l2).
Proof.
  intros Hw. revert l1. induction Hw as [cur Hs|cur l Hs Hw IH]; intros l1 Heq.
  - destruct l1 as [|? [|]]; simplify_eq/=. by constructor.
  - destruct l1 as [|y l1]; simplify_eq/=.
    + by constructor.
    + by eapply IH.
Qed.

Lemma walk_NoDup g seed cur l : walk g seed cur l -> NoDup l.
Proof.
  intros Hw. induction Hw as [cur Hs|cur l Hs Hw IH].
  - apply NoDup_singleton.
  - constructor; [|done]. intros (l1 & l2 & Heq)%list_elem_of_split.
    pose proof (walk_suffix _ _ _ _ _ _ _ Hw Heq) as Hsuf.
    assert (cur :: l2 = cur :: l) as Hsame.
    { eapply walk_deterministic; [exact Hsuf|]. by constructor. }
    simplify_eq. apply (f_equal length) in Hsame.
    rewrite length_app in Hsame. simpl in Hsame. lia.
Qed.

Lemma walk_head g seed cur l : walk g seed cur l -> exists l', l = cur :: l'.
Proof. destruct 1; eauto. Qed.

(** After the first node, a walk does not meet its seed. *)
Lemma walk_tail_not_seed g seed cur l :
  walk g seed cur l -> forall l', l = cur :: l' -> seed ∉ l'.
Proof.
  induction 1 as [cur Hs|cur l Hs Hw IH]; intros l' [= <-].
  - apply not_elem_of_nil.
  - destruct (walk_head _ _ _ _ Hw) as [l'' ->].
    apply not_elem_of_cons. split; [done|]. by apply IH.
Qed.

Lemma linked_successorsInRange g : linked g -> successorsInRange g.
Proof. intros H n Hn. by apply H. Qed.

Lemma walk_in_range g seed cur l :
  successorsInRange g -> cur < length g -> walk g seed cur l ->
  forall p, p ∈ l -> p < length g.
Proof.
  intros Hrange Hcur Hw. induction Hw as [cur Hs|cur l Hs Hw IH]; intros p Hp.
  - apply list_elem_of_singleton in Hp as ->. done.
  - apply elem_of_cons in Hp as [->|Hp]; [done|].
    apply IH; [|done]. by apply Hrange.
Qed.

(** The nodes of a closed walk are closed under face-successor. *)
Lemma walk_successor_inside g seed cur l n :
  walk g seed cur l -> n ∈ l -> faceSuccessor g n = seed \/ faceSuccessor g n ∈ l.
Proof.
  intros Hw. induction Hw as [cur Hs|cur l Hs Hw IH]; intros Hn.
  - apply list_elem_of_singleton in Hn as ->. by left.
  - apply elem_of_cons in Hn as [->|Hn].
    + right. destruct (walk_head _ _ _ _ Hw) as [l' ->]. rewrite !elem_of_cons. auto.
    + destruct (IH Hn); [by left|right; rewrite elem_of_cons; auto].
Qed.

(** A walk that meets a set closed under face-successor ends in it. *)
Lemma walk_into_closed g seed cur l (S : node -> Prop) n :
  (forall m, S m -> S (faceSuccessor g m)) ->
  walk g seed cur l -> n ∈ l -> S n -> S seed.
Proof.
  intros Hclosed Hw. revert n. induction Hw as [cur Hs|cur l Hs Hw IH]; intros n Hn HS.
  - apply list_elem_of_singleton in Hn as ->. rewrite <- Hs. by apply Hclosed.
  - apply elem_of_cons in Hn as [->|Hn].
    + destruct (walk_head _ _ _ _ Hw) as [l' ->].
      apply (IH (faceSuccessor g cur)); [rewrite elem_of_cons; auto|by apply Hclosed].
    + by apply (IH n).
Qed.

(** Two face loops share a node only if the seed of one lies on the other. *)
Lemma loops_disjoint g f lf s ls :
  walk g f f lf -> walk g s s ls -> s ∉ lf -> forall n, n ∈ ls -> n ∉ lf.
Proof.
  intros Hf Hs Hnot n Hn Hin. apply Hnot.
  apply (walk_into_closed g s s ls (fun m => m ∈ lf) n); try done.
  intros m Hm. destruct (walk_successor_inside _ _ _ _ _ Hf Hm) as [->|]; [|done].
  destruct (walk_head _ _ _ _ Hf) as [l' ->]. rewrite elem_of_cons. auto.
Qed.

(** ** The ear test *)

Lemma signedTriangleArea_flat p q :
  (Triangulator.signedTriangleArea p q p == 0)%Q.
Proof. unfold Triangulator.signedTriangleArea. ring. Qed.

(** A corner whose two neighbours are one node is flat. *)
Lemma cornerArea_flat g n :
  facePredecessor g n = faceSuccessor g n -> Qleb 0 (Triangulator.cornerArea g n) = true.
Proof.
  intros Heq. apply Qleb_le. unfold Triangulator.cornerArea. rewrite Heq.
  rewrite signedTriangleArea_flat. apply Qle_refl.
Qed.

Lemma isEarScan_walk g ear :
  linked g -> ear < length g ->
  forall cur l, cur < length g -> walk g ear cur l ->
    exists front,
      l = front ++ [facePredecessor g ear]
      /\ forall fuel, length l <= fuel ->
           Triangulator.isEarScan fuel g ear cur
           = Ok (forallb (fun p => negb (scanBlocks g ear p)) front).
Proof.
  intros Hlinked Hear cur l Hcur Hw.
  induction Hw as [cur Hs|cur l Hs Hw IH].
  - assert (facePredecessor g ear = cur) as Hpred.
    { rewrite <- Hs. by apply Hlinked. }
    exists []. split; [by rewrite Hpred|].
    intros [|fuel] Hfuel; simpl in *; [lia|]. by rewrite Hpred, Nat.eqb_refl.
  - destruct IH as (front & -> & Hscan); [by apply Hlinked|].
    exists (cur :: front). split; [done|].
    intros [|fuel] Hfuel; simpl in Hfuel; [lia|]. simpl.
    destruct (Nat.eqb_spec cur (facePredecessor g ear)) as [Heq|Hne].
    { exfalso. apply Hs. rewrite Heq. by apply Hlinked. }
    fold (inEarTriangle g ear cur). fold (scanBlocks g ear cur).
    destruct (scanBlocks g ear cur); simpl; [done|].
    apply Hscan. lia.
Qed.

(** C3 (as amended).  On a well-linked graph, with the face loop of [ear]
    collected, [isEar] returns, and it returns [true] exactly when the signed
    area at the ear is strictly negative and no other vertex of the loop is
    both inside or on the candidate triangle and itself a corner of
    non-negative signed area. *)
Theorem isEar_characterised fuel g ear loop :
  linked g -> ear < length g ->
  HalfEdge.faceLoop fuel g ear = Ok loop ->
  exists b, Triangulator.isEar fuel g ear = Ok b
            /\ (b = true <-> earAsCoded g ear loop).
Proof.
  intros Hlinked Hear [Hw Hlen]%collect_walk.
  unfold Triangulator.isEar, earAsCoded.
  destruct (Qleb 0 (Triangulator.cornerArea g ear)) eqn:Harea.
  { exists false. split; [done|]. split; [done|].
    intros [Hneg _]. apply Qleb_le in Harea.
    exfalso. eapply Qlt_irrefl, Qle_lt_trans; eauto. }
  apply Qleb_gt in Harea.
  assert (Qleb 0 (Triangulator.cornerArea g ear) = false) as Hnotflat
    by (by apply Qleb_gt).
  destruct (Hlinked ear Hear) as (Hs & Hp & Hps & Hsp).
  inversion Hw as [? Hself|? l1 Hne1 Hw1]; subst.
  { rewrite cornerArea_flat in Hnotflat; [done|].
    rewrite <- Hself at 1. by rewrite Hps. }
  inversion Hw1 as [? Hback|? l2 Hne2 Hw2]; subst.
  { rewrite cornerArea_flat in Hnotflat; [done|].
    rewrite <- Hback at 1. apply Hlinked. done. }
  destruct (isEarScan_walk g ear Hlinked Hear _ _ (proj1 (Hlinked _ Hs)) Hw2)
    as (front & -> & Hscan).
  eexists. split; [apply Hscan; simpl in *; lia|].
  pose proof (walk_NoDup _ _ _ _ Hw) as Hnodup.
  rewrite forallb_forall. setoid_rewrite <- list_elem_of_In.
  split.
  - intros Hall. split; [done|]. intros p (Hin & Hne & Hnp & Hns) [Hin3 Hcorner].
    assert (p ∈ front) as Hfront.
    { rewrite !elem_of_cons, elem_of_app, list_elem_of_singleton in Hin.
      destruct Hin as [->|[->|[Hin| ->]]]; done. }
    specialize (Hall p Hfront). unfold scanBlocks in Hall.
    apply Qleb_le in Hcorner. by rewrite Hin3, Hcorner in Hall.
  - intros [_ Hnone] p Hfront. apply negb_true_iff.
    destruct (scanBlocks g ear p) eqn:Hb; [|done]. exfalso.
    apply andb_prop in Hb as [Hin3 Hcorner%Qleb_le].
    apply (Hnone p); [|done].
    rewrite !NoDup_cons, NoDup_app in Hnodup.
    destruct Hnodup as (Hear_notin & Hs_notin & _ & Hdisj & _).
    unfold otherVertex. repeat split.
    + rewrite !elem_of_cons, elem_of_app. auto.
    + intros ->. apply Hear_notin. rewrite elem_of_cons, elem_of_app. auto.
    + intros ->. apply (Hdisj _ Hfront). by apply list_elem_of_singleton.
    + intros ->. apply Hs_notin. rewrite elem_of_app. auto.
Qed.

(** The amended statement at the corner (4,0) of the dented square. *)
Lemma isEar_characterised_on_dented_square :
  exists b, Triangulator.isEar 10 dentedSquareLoop 2 = Ok b
            /\ (b = true <-> earAsCoded dentedSquareLoop 2 [2; 4; 6; 8; 0]).
Proof.
  apply (isEar_characterised 10 dentedSquareLoop 2 [2; 4; 6; 8; 0]).
  - apply linkedb_linked. vm_compute. reflexivity.
  - vm_compute. lia.
  - vm_compute. reflexivity.
Defined.

(** C3 (as stated) fails: at the corner (4,0) of the dented square the signed
    area is negative and no other vertex is strictly inside the candidate
    triangle, the reflex vertex (2,2) lying on its side from (0,0) to (4,4);
    yet [isEar] answers [false]. *)
Lemma isEar_rejects_specified_ear :
  HalfEdge.faceLoop 10 dentedSquareLoop 2 = Ok [2; 4; 6; 8; 0]
  /\ earAsSpecified dentedSquareLoop 2 [2; 4; 6; 8; 0]
  /\ Triangulator.isEar 10 dentedSquareLoop 2 = Ok false.
Proof.
  split; [vm_compute; reflexivity|]. split; [|vm_compute; reflexivity].
  split.
  - apply Qleb_le. vm_compute. reflexivity.
  - intros p (Hin & Hne & Hnp & Hns) (H1 & H2 & H3).
    apply Qltb_lt in H1, H2, H3.
    rewrite !elem_of_cons in Hin.
    destruct Hin as [->|[->|[->|[->|[->|Hin]]]]].
    + by destruct Hne.
    + vm_compute in Hns. by destruct Hns.
    + vm_compute in H1. discriminate.
    + vm_compute in H1. discriminate.
    + vm_compute in Hnp. by destruct Hnp.
    + by apply elem_of_nil in Hin.
Qed.

(** ** Mask writes leave the geometry alone *)

Lemma geometry_write_mask g n bits :
  geometry (write g (HE.set_maskBits bits) n) = geometry g.
Proof.
  unfold geometry, write. apply list_eq. intros k.
  rewrite !list_lookup_fmap, list_lookup_alter.
  case_decide as Hk; [subst|done]. by destruct (g !! k).
Qed.

Lemma geometry_setMask g n mask : geometry (setMask g n mask) = geometry g.
Proof. apply geometry_write_mask. Qed.

Lemma geometry_clearMask g n mask : geometry (clearMask g n mask) = geometry g.
Proof. apply geometry_write_mask. Qed.

Lemma geometry_length g g' : geometry g' = geometry g -> length g' = length g.
Proof. intros H%(f_equal length). unfold geometry in H. by rewrite !length_map in H. Qed.

Lemma geometry_lookup g n : geometry g !!! n = HE.set_maskBits 0 (g !!! n).
Proof.
  unfold geometry. rewrite !list_lookup_total_alt, list_lookup_fmap.
  by destruct (g !! n).
Qed.

Lemma geometry_field {A} (proj : HE.t -> A) g g' n :
  (forall e, proj (HE.set_maskBits 0 e) = proj e) ->
  geometry g' = geometry g -> proj (g' !!! n) = proj (g !!! n).
Proof.
  intros Hproj Hgeo.
  rewrite <- (Hproj (g' !!! n)), <- (Hproj (g !!! n)), <- !geometry_lookup.
  by rewrite Hgeo.
Qed.

Lemma geometry_faceSuccessor g g' n :
  geometry g' = geometry g -> faceSuccessor g' n = faceSuccessor g n.
Proof. apply (geometry_field HE.faceSuccessor). done. Qed.

Lemma geometry_edgeMate g g' n :
  geometry g' = geometry g -> edgeMate g' n = edgeMate g n.
Proof. apply (geometry_field HE.edgeMate). done. Qed.

Lemma geometry_X g g' n : geometry g' = geometry g -> X g' n = X g n.
Proof. apply (geometry_field HE.x). done. Qed.

Lemma geometry_Y g g' n : geometry g' = geometry g -> Y g' n = Y g n.
Proof. apply (geometry_field HE.y). done. Qed.

Lemma geometry_walk g g' seed cur l :
  geometry g' = geometry g -> walk g seed cur l -> walk g' seed cur l.
Proof.
  intros Hgeo Hw. induction Hw as [cur Hs|cur l Hs Hw IH].
  - constructor. by rewrite (geometry_faceSuccessor _ _ _ Hgeo).
  - constructor; rewrite (geometry_faceSuccessor _ _ _ Hgeo); done.
Qed.

Lemma geometry_collectAroundFace fuel : forall g g' seed cur,
  geometry g' = geometry g ->
  HalfEdge.collectAroundFace fuel g' seed cur = HalfEdge.collectAroundFace fuel g seed cur.
Proof.
  induction fuel as [|fuel IH]; intros g g' seed cur Hgeo; simpl; [done|].
  rewrite (geometry_faceSuccessor _ _ _ Hgeo).
  destruct (faceSuccessor g cur =? seed); [done|]. by rewrite (IH g g').
Qed.

Lemma geometry_signedFaceArea fuel g g' seed :
  geometry g' = geometry g ->
  HalfEdge.signedFaceArea fuel g' seed = HalfEdge.signedFaceArea fuel g seed.
Proof.
  intros Hgeo. unfold HalfEdge.signedFaceArea, HalfEdge.faceLoop.
  rewrite (geometry_collectAroundFace _ _ _ _ _ Hgeo).
  destruct (HalfEdge.collectAroundFace fuel g seed seed) as [l| |]; simpl; try done.
  do 2 f_equal. induction l as [|n l IH]; simpl; [done|].
  rewrite IH, (geometry_faceSuccessor _ _ _ Hgeo), !(geometry_X _ _ _ Hgeo),
    !(geometry_Y _ _ _ Hgeo). done.
Qed.

(** ** Masks around a face *)

Lemma aroundFace_Ok (f : graph -> node -> graph) :
  (forall g n, geometry (f g n) = geometry g) ->
  forall fuel g seed cur g',
    HalfEdge.aroundFace fuel f g seed cur = Ok g' ->
    exists l, walk g seed cur l /\ length l <= fuel /\ g' = foldl f g l.
Proof.
  intros Hf. induction fuel as [|fuel IH]; intros g seed cur g'; simpl; [discriminate|].
  rewrite (geometry_faceSuccessor _ _ _ (Hf g cur)).
  destruct (Nat.eqb_spec (faceSuccessor g cur) seed) as [Heq|Hne].
  - intros [= <-]. exists [cur]. split; [by constructor|]. split; [simpl; lia|done].
  - intros (l & Hw & Hlen & ->)%IH.
    exists (cur :: l). split; [|split; [simpl; lia|done]].
    constructor; [done|]. eapply geometry_walk; [|exact Hw]. symmetry. apply Hf.
Qed.

Lemma geometry_foldl (f : graph -> node -> graph) :
  (forall g n, geometry (f g n) = geometry g) ->
  forall l g, geometry (foldl f g l) = geometry g.
Proof.
  intros Hf l. induction l as [|n l IH]; intros g; simpl; [done|].
  by rewrite IH, Hf.
Qed.

Lemma land_lor_same b m : Z.land (Z.lor b m) m = m.
Proof.
  apply Z.bits_inj'. intros k _.
  rewrite Z.land_spec, Z.lor_spec. destruct (Z.testbit b k), (Z.testbit m k); done.
Qed.

Lemma land_land_lnot b m : Z.land (Z.land b (Z.lnot m)) m = 0%Z.
Proof.
  apply Z.bits_inj'. intros k Hk.
  rewrite !Z.land_spec, Z.lnot_spec, Z.bits_0 by done.
  destruct (Z.testbit b k), (Z.testbit m k); done.
Qed.

Lemma maskBits_write g a bits n :
  maskBits (write g (HE.set_maskBits bits) a) n
  = if decide (a = n /\ a < length g) then bits else maskBits g n.
Proof.
  unfold maskBits. rewrite lookup_write. by case_decide.
Qed.

Lemma maskBits_foldl_other (f : graph -> node -> graph) :
  (forall g a n, a <> n -> maskBits (f g a) n = maskBits g n) ->
  forall l g n, n ∉ l -> maskBits (foldl f g l) n = maskBits g n.
Proof.
  intros Hf l. induction l as [|a l IH]; intros g n Hn; simpl; [done|].
  apply not_elem_of_cons in Hn as [Hne Hn]. rewrite IH by done. by apply Hf.
Qed.

Lemma maskBits_setMask_other g a mask n :
  a <> n -> maskBits (setMask g a mask) n = maskBits g n.
Proof.
  intros Hne. unfold setMask. rewrite maskBits_write. case_decide; [lia|done].
Qed.

Lemma maskBits_clearMask_other g a mask n :
  a <> n -> maskBits (clearMask g a mask) n = maskBits g n.
Proof.
  intros Hne. unfold clearMask. rewrite maskBits_write. case_decide; [lia|done].
Qed.

Lemma isMaskSet_foldl_setMask mask : mask <> 0%Z ->
  forall l g n, n ∈ l -> n < length g ->
    isMaskSet (foldl (fun g n => setMask g n mask) g l) n mask = true.
Proof.
  intros Hmask l. induction l as [|a l IH]; intros g n Hin Hn; simpl.
  { by apply elem_of_nil in Hin. }
  destruct (decide (n ∈ l)) as [Hl|Hl].
  { apply IH; [done|]. unfold setMask. by rewrite length_write. }
  apply elem_of_cons in Hin as [->|Hin]; [|done].
  unfold isMaskSet.
  rewrite (maskBits_foldl_other _ (fun g a n => maskBits_setMask_other g a mask n)) by done.
  unfold setMask. rewrite maskBits_write. case_decide as Hc; [|lia].
  rewrite land_lor_same. by apply negb_true_iff, Z.eqb_neq.
Qed.

Lemma isMaskSet_foldl_clearMask mask :
  forall l g n, n ∈ l -> n < length g ->
    isMaskSet (foldl (fun g n => clearMask g n mask) g l) n mask = false.
Proof.
  intros l. induction l as [|a l IH]; intros g n Hin Hn; simpl.
  { by apply elem_of_nil in Hin. }
  destruct (decide (n ∈ l)) as [Hl|Hl].
  { apply IH; [done|]. unfold clearMask. by rewrite length_write. }
  apply elem_of_cons in Hin as [->|Hin]; [|done].
  unfold isMaskSet.
  rewrite (maskBits_foldl_other _ (fun g a n => maskBits_clearMask_other g a mask n))
    by done.
  unfold clearMask. rewrite maskBits_write. case_decide as Hc; [|lia].
  by rewrite land_land_lnot.
Qed.

(** The effect of [setMaskAroundFace] and [clearMaskAroundFace] when they
    return: the bit is set, or cleared, on the face loop and no other bit of
    the graph moves. *)
Lemma setMaskAroundFace_Ok fuel g seed mask g' l :
  mask <> 0%Z -> walk g seed seed l -> (forall n, n ∈ l -> n < length g) ->
  HalfEdge.setMaskAroundFace fuel g seed mask = Ok g' ->
  geometry g' = geometry g
  /\ (forall n, n ∈ l -> isMaskSet g' n mask = true)
  /\ (forall n, n ∉ l -> maskBits g' n = maskBits g n).
Proof.
  intros Hmask Hw Hrange Hrun.
  apply aroundFace_Ok in Hrun as (l' & Hw' & _ & ->);
    [|intros; apply geometry_setMask].
  rewrite (walk_deterministic _ _ _ _ _ Hw' Hw). split; [|split].
  - apply geometry_foldl. intros. apply geometry_setMask.
  - intros n Hn. apply isMaskSet_foldl_setMask; auto.
  - intros n Hn. apply maskBits_foldl_other; [|done].
    intros. by apply maskBits_setMask_other.
Qed.

Lemma clearMaskAroundFace_Ok fuel g seed mask g' l :
  walk g seed seed l -> (forall n, n ∈ l -> n < length g) ->
  HalfEdge.clearMaskAroundFace fuel g seed mask = Ok g' ->
  geometry g' = geometry g
  /\ (forall n, n ∈ l -> isMaskSet g' n mask = false)
  /\ (forall n, n ∉ l -> maskBits g' n = maskBits g n).
Proof.
  intros Hw Hrange Hrun.
  apply aroundFace_Ok in Hrun as (l' & Hw' & _ & ->);
    [|intros; apply geometry_clearMask].
  rewrite (walk_deterministic _ _ _ _ _ Hw' Hw). split; [|split].
  - apply geometry_foldl. intros. apply geometry_clearMask.
  - intros n Hn. apply isMaskSet_foldl_clearMask; auto.
  - intros n Hn. apply maskBits_foldl_other; [|done].
    intros. by apply maskBits_clearMask_other.
Qed.

Lemma isMaskSet_maskBits g g' n mask :
  maskBits g' n = maskBits g n -> isMaskSet g' n mask = isMaskSet g n mask.
Proof. unfold isMaskSet. by intros ->. Qed.

(** ** Toggling the parity of a component *)

Lemma elem_of_concat {A} (x : A) (ls : list (list A)) :
  x ∈ concat ls <-> exists l, l ∈ ls /\ x ∈ l.
Proof.
  rewrite list_elem_of_In, in_concat. setoid_rewrite list_elem_of_In.
  split; intros (l & H1 & H2); eauto.
Qed.

Lemma toggleFaces_Ok fuel mask : mask <> 0%Z ->
  forall faces loops g g',
    distinctFaces g faces loops ->
    (forall n, n ∈ concat loops -> n < length g) ->
    HalfEdgeGraphSearch.toggleFaces fuel g mask faces = Ok g' ->
    geometry g' = geometry g
    /\ Forall2 (fun f l => forall n, n ∈ l ->
                  isMaskSet g' n mask = negb (isMaskSet g f mask)) faces loops
    /\ (forall n, n ∉ concat loops -> maskBits g' n = maskBits g n).
Proof.
  intros Hmask faces. induction faces as [|f faces IH]; intros loops g g' [Hwalks Hnodup].
  { inversion Hwalks; subst. intros _ [= <-]. split; [done|]. split; [constructor|done]. }
  inversion Hwalks as [|? l ? loops' Hw Hwalks']; subst.
  simpl in Hnodup. apply NoDup_app in Hnodup as (Hnd_l & Hdisj & Hnd_rest).
  intros Hrange. simpl.
  assert (forall n, n ∈ l -> n < length g) as Hrange_l.
  { intros n Hn. apply Hrange. simpl. apply elem_of_app. auto. }
  match goal with |- context [bind ?c _] => destruct c as [g1| |] eqn:Hfirst end;
    simpl; try discriminate.
  assert (geometry g1 = geometry g
          /\ (forall n, n ∈ l -> isMaskSet g1 n mask = negb (isMaskSet g f mask))
          /\ (forall n, n ∉ l -> maskBits g1 n = maskBits g n)) as (Hgeo1 & Hon & Hoff).
  { destruct (isMaskSet g f mask).
    - by eapply clearMaskAroundFace_Ok.
    - by eapply setMaskAroundFace_Ok. }
  intros Hrest.
  apply (IH loops') in Hrest as (Hgeo & Hloops & Hother).
  - split; [congruence|]. split.
    + constructor.
      * intros n Hn. rewrite <- (Hon n Hn). apply isMaskSet_maskBits, Hother.
        intros Hin. by apply (Hdisj n).
      * apply Forall2_same_length_lookup_2; [by eapply Forall2_length|].
        intros k f' l' Hf' Hl' n Hn.
        rewrite (Forall2_lookup_lr _ _ _ _ _ _ Hloops Hf' Hl' n Hn). f_equal.
        apply isMaskSet_maskBits, Hoff. intros Hin.
        pose proof (Forall2_lookup_lr _ _ _ _ _ _ Hwalks' Hf' Hl') as Hw'.
        destruct (walk_head _ _ _ _ Hw') as [t ->].
        apply (Hdisj f' Hin). apply elem_of_concat. exists (f' :: t).
        split; [by eapply list_elem_of_lookup_2|apply elem_of_cons; auto].
    + intros n Hn. simpl in Hn. apply not_elem_of_app in Hn as [Hn1 Hn2].
      rewrite Hother by done. by apply Hoff.
  - split; [|done]. eapply Forall2_impl; [exact Hwalks'|].
    intros f' l' Hw'. eapply geometry_walk; [|exact Hw']. done.
  - intros n Hn. rewrite (geometry_length _ _ Hgeo1). apply Hrange.
    simpl. apply elem_of_app. auto.
Qed.

(** ** The face of most negative area *)

Lemma findMinimumAreaLoop_Ok fuel g : forall nodes best bestArea e,
  (0 <= bestArea)%Q
  \/ ((bestArea < 0)%Q /\ HalfEdge.signedFaceArea fuel g best = Ok bestArea) ->
  HalfEdgeGraphSearch.findMinimumAreaLoop fuel g nodes best bestArea = Ok e ->
  (e = best \/ e ∈ nodes)
  /\ (forall f a, f ∈ nodes -> HalfEdge.signedFaceArea fuel g f = Ok a -> (a < 0)%Q ->
        exists ae, HalfEdge.signedFaceArea fuel g e = Ok ae /\ (ae <= a)%Q)
  /\ ((bestArea < 0)%Q ->
        exists ae, HalfEdge.signedFaceArea fuel g e = Ok ae /\ (ae <= bestArea)%Q).
Proof.
  induction nodes as [|n nodes IH]; intros best bestArea e Hbest; simpl.
  { intros [= <-]. split; [by left|]. split.
    - intros f a Hf. by apply elem_of_nil in Hf.
    - intros Hneg. destruct Hbest as [Hpos|[_ Harea]].
      + exfalso. eapply Qlt_irrefl, Qlt_le_trans; eauto.
      + exists bestArea. split; [done|apply Qle_refl]. }
  destruct (HalfEdge.signedFaceArea fuel g n) as [a| |] eqn:Harea; simpl; try discriminate.
  destruct (Qltb a 0 && Qltb a bestArea) eqn:Htest.
  - apply andb_prop in Htest as [Hneg%Qltb_lt Hless%Qltb_lt].
    intros (Hmem & Hmin & Hbelow)%IH; [|right; done].
    destruct (Hbelow Hneg) as (ae & Hae & Hle).
    split; [destruct Hmem as [->|]; right; rewrite elem_of_cons; auto|]. split.
    + intros f a' [->|Hf]%elem_of_cons Hf' Hneg'; [|eauto].
      exists ae. split; [done|]. congruence.
    + intros _. exists ae. split; [done|]. apply Qlt_le_weak. eapply Qle_lt_trans; eauto.
  - intros (Hmem & Hmin & Hbelow)%IH; [|done].
    split; [destruct Hmem as [->|]; [by left|right; rewrite elem_of_cons; auto]|]. split.
    + intros f a' [->|Hf]%elem_of_cons Hf' Hneg'; [|eauto].
      assert (a' = a) as -> by congruence.
      apply Qltb_lt in Hneg'. rewrite Hneg' in Htest. simpl in Htest.
      apply Qltb_ge in Htest. apply Qltb_lt in Hneg'.
      destruct Hbelow as (ae & Hae & Hle); [eapply Qle_lt_trans; eauto|].
      exists ae. split; [done|]. eapply Qle_trans; eauto.
    + done.
Qed.

Lemma findMinimumAreaFace_Ok fuel g faces e :
  HalfEdgeGraphSearch.findMinimumAreaFace fuel g faces = Ok (Some e) ->
  mostNegativeFace fuel g faces e.
Proof.
  unfold HalfEdgeGraphSearch.findMinimumAreaFace. destruct faces as [|n0 faces]; [done|].
  destruct (HalfEdgeGraphSearch.findMinimumAreaLoop _ _ _ _ _) as [e'| |] eqn:Hloop;
    simpl; try discriminate.
  intros [= <-].
  apply findMinimumAreaLoop_Ok in Hloop as (Hmem & Hmin & _).
  - split; [|done]. destruct Hmem as [->|]; [rewrite elem_of_cons; auto|done].
  - left. by vm_compute.
Qed.

Lemma geometry_findMinimumAreaLoop fuel g g' :
  geometry g' = geometry g ->
  forall nodes best bestArea,
    HalfEdgeGraphSearch.findMinimumAreaLoop fuel g' nodes best bestArea
    = HalfEdgeGraphSearch.findMinimumAreaLoop fuel g nodes best bestArea.
Proof.
  intros Hgeo. induction nodes as [|n nodes IH]; intros best bestArea; simpl; [done|].
  rewrite (geometry_signedFaceArea _ _ _ _ Hgeo).
  destruct (HalfEdge.signedFaceArea fuel g n); simpl; [|done|done].
  by rewrite !IH.
Qed.

Lemma geometry_findMinimumAreaFace fuel g g' faces :
  geometry g' = geometry g ->
  HalfEdgeGraphSearch.findMinimumAreaFace fuel g' faces
  = HalfEdgeGraphSearch.findMinimumAreaFace fuel g faces.
Proof.
  intros Hgeo. unfold HalfEdgeGraphSearch.findMinimumAreaFace.
  destruct faces; [done|]. by rewrite (geometry_findMinimumAreaLoop _ _ _ Hgeo).
Qed.

Lemma geometry_mostNegativeFace fuel g g' faces e :
  geometry g' = geometry g ->
  mostNegativeFace fuel g faces e -> mostNegativeFace fuel g' faces e.
Proof.
  intros Hgeo [Hin Hmin]. split; [done|]. intros f a Hf.
  rewrite !(geometry_signedFaceArea _ _ _ _ Hgeo). by apply Hmin.
Qed.

(** What [correctParityInSingleComponent] does to a component whose faces are
    distinct loops. *)
Lemma correctParityInSingleComponent_Ok fuel g mask faces loops g' :
  mask <> 0%Z ->
  distinctFaces g faces loops ->
  (forall n, n ∈ concat loops -> n < length g) ->
  HalfEdgeGraphSearch.correctParityInSingleComponent fuel g mask faces = Ok g' ->
  exists e,
    HalfEdgeGraphSearch.findMinimumAreaFace fuel g faces = Ok (Some e)
    /\ mostNegativeFace fuel g faces e
    /\ geometry g' = geometry g
    /\ isMaskSet g' e mask = true
    /\ (isMaskSet g e mask = true -> g' = g)
    /\ (isMaskSet g e mask = false ->
          Forall2 (fun f l => forall n, n ∈ l ->
                     isMaskSet g' n mask = negb (isMaskSet g f mask)) faces loops)
    /\ (forall n, n ∉ concat loops -> maskBits g' n = maskBits g n).
Proof.
  intros Hmask Hdistinct Hrange. unfold HalfEdgeGraphSearch.correctParityInSingleComponent.
  destruct (HalfEdgeGraphSearch.findMinimumAreaFace fuel g faces) as [[e|]| |] eqn:Hfind;
    simpl; try discriminate.
  pose proof (findMinimumAreaFace_Ok _ _ _ _ Hfind) as Hmost.
  intros Hrun. exists e. split; [done|]. split; [done|].
  destruct (isMaskSet g e mask) eqn:He.
  - injection Hrun as <-. repeat split; try done.
  - apply (toggleFaces_Ok _ _ Hmask _ loops) in Hrun as (Hgeo & Hloops & Hother);
      try done.
    split; [done|]. split; [|done].
    destruct Hmost as [Hin _]. apply list_elem_of_lookup in Hin as [k Hk].
    destruct Hdistinct as [Hwalks _].
    destruct (Forall2_lookup_l _ _ _ _ _ Hwalks Hk) as (l & Hl & Hw).
    rewrite (Forall2_lookup_lr _ _ _ _ _ _ Hloops Hk Hl e), He; [done|].
    destruct (walk_head _ _ _ _ Hw) as [t ->]. rewrite elem_of_cons. auto.
Qed.

(** ** The flood fill *)

Lemma isMaskSet_setMask_kept g a mask n bit :
  isMaskSet g n bit = true -> isMaskSet (setMask g a mask) n bit = true.
Proof.
  unfold isMaskSet, setMask. rewrite maskBits_write.
  case_decide as Hc; [|done]. destruct Hc as [-> _].
  rewrite !negb_true_iff, !Z.eqb_neq, Z.land_lor_distr_l, Z.lor_eq_0_iff. tauto.
Qed.

Lemma isMaskSet_foldl_setMask_kept mask bit : forall l g n,
  isMaskSet g n bit = true ->
  isMaskSet (foldl (fun g n => setMask g n mask) g l) n bit = true.
Proof.
  induction l as [|a l IH]; intros g n Hn; simpl; [done|].
  by apply IH, isMaskSet_setMask_kept.
Qed.

Lemma isMaskSet_foldl_setMask_bit mask bit : Z.land mask bit <> 0%Z ->
  forall l g n, n ∈ l -> n < length g ->
    isMaskSet (foldl (fun g n => setMask g n mask) g l) n bit = true.
Proof.
  intros Hbit. induction l as [|a l IH]; intros g n Hin Hn; simpl.
  { by apply elem_of_nil in Hin. }
  apply elem_of_cons in Hin as [->|Hin].
  - apply isMaskSet_foldl_setMask_kept.
    unfold isMaskSet, setMask. rewrite maskBits_write. case_decide as Hc; [|lia].
    rewrite negb_true_iff, Z.eqb_neq, Z.land_lor_distr_l, Z.lor_eq_0_iff. tauto.
  - apply IH; [done|]. unfold setMask. by rewrite length_write.
Qed.

Lemma maskAndPushAround_Ok mask fuel : forall g seed cur stack g' stack',
  HalfEdgeGraphSearch.maskAndPushAround fuel g seed cur mask stack = Ok (g', stack') ->
  exists l, walk g seed cur l
            /\ g' = foldl (fun g n => setMask g n mask) g l
            /\ stack' = rev l ++ stack.
Proof.
  induction fuel as [|fuel IH]; intros g seed cur stack g' stack'; simpl; [discriminate|].
  rewrite (geometry_faceSuccessor _ _ _ (geometry_setMask g cur mask)).
  destruct (Nat.eqb_spec (faceSuccessor g cur) seed) as [Heq|Hne].
  - intros [= <- <-]. exists [cur]. split; [by constructor|done].
  - intros (l & Hw & -> & ->)%IH. exists (cur :: l). split; [|split; [done|]].
    + constructor; [done|]. eapply geometry_walk; [|exact Hw].
      symmetry. apply geometry_setMask.
    + simpl. by rewrite <- app_assoc.
Qed.

Lemma flooded_push g0 g pushed fuel s mask stack faces g1 stack1 faces1 :
  successorsInRange g0 -> Z.land mask VISITED <> 0%Z ->
  flooded g0 g pushed -> s < length g0 -> isMaskSet g s VISITED = false ->
  HalfEdgeGraphSearch.pushAndMaskAllNodesInFace fuel g s mask stack faces
  = Ok (g1, stack1, faces1) ->
  exists l, flooded g0 g1 (pushed ++ [(s, l)])
            /\ faces1 = faces ++ [s]
            /\ stack1 = rev l ++ stack
            /\ forall n, n ∈ l -> n < length g0.
Proof.
  intros Hrange Hmask (Hgeo & Hpushed & Hnodup) Hs Hunvisited.
  unfold HalfEdgeGraphSearch.pushAndMaskAllNodesInFace.
  destruct (HalfEdgeGraphSearch.maskAndPushAround _ _ _ _ _ _) as [[g2 stack2]| |] eqn:Hpush;
    simpl; try discriminate.
  intros [= <- <- <-].
  apply maskAndPushAround_Ok in Hpush as (l & Hw & -> & ->).
  assert (walk g0 s s l) as Hw0 by (by eapply geometry_walk).
  pose proof (walk_in_range _ _ _ _ Hrange Hs Hw0) as Hl.
  exists l. repeat split; try done.
  - rewrite geometry_foldl; [done|]. intros. apply geometry_setMask.
  - apply Forall_app. split.
    + eapply Forall_impl; [exact Hpushed|]. intros [f lf] [Hwf Hvis]. split; [done|].
      intros n Hn. destruct (Hvis n Hn). split; [done|].
      by apply isMaskSet_foldl_setMask_kept.
    + constructor; [|constructor]. split; [done|]. intros n Hn. split; [auto|].
      apply isMaskSet_foldl_setMask_bit; [done..|].
      rewrite (geometry_length _ _ Hgeo). auto.
  - rewrite map_app, concat_app. simpl. rewrite app_nil_r.
    apply NoDup_app. split; [done|]. split; [|by eapply walk_NoDup].
    intros n (lf & Hlf & Hn)%elem_of_concat Hnl.
    apply list_elem_of_fmap in Hlf as ([f lf'] & -> & Hin).
    rewrite Forall_forall in Hpushed.
    destruct (Hpushed _ Hin) as [Hwf Hvis]. simpl in *.
    apply (loops_disjoint g0 f lf' s l Hwf Hw0) in Hnl; [done|].
    intros Hsf. destruct (Hvis s Hsf). congruence.
Qed.

Lemma flooded_loops g0 g pushed :
  flooded g0 g pushed ->
  Forall2 (fun f l => walk g0 f f l) (map fst pushed) (map snd pushed)
  /\ forall n, n ∈ concat (map snd pushed) -> n < length g0.
Proof.
  intros (_ & Hpushed & _). split.
  - induction Hpushed as [|[f l] pushed [Hw _] _ IH]; simpl; constructor; done.
  - intros n (l & Hl & Hn)%elem_of_concat.
    apply list_elem_of_fmap in Hl as ([f l'] & -> & Hin).
    rewrite Forall_forall in Hpushed. destruct (Hpushed _ Hin) as [_ Hvis].
    by apply Hvis.
Qed.

Lemma elem_of_rev {A} (x : A) (l : list A) : x ∈ rev l <-> x ∈ l.
Proof. rewrite !list_elem_of_In. symmetry. apply in_rev. Qed.

Lemma parityFloodLoop_flooded g0 parityMask fuel :
  successorsInRange g0 -> matesInRange g0 ->
  forall g stack faces pushed g' faces',
    flooded g0 g pushed ->
    (forall p, p ∈ stack -> p < length g0) ->
    HalfEdgeGraphSearch.parityFloodLoop fuel g VISITED parityMask stack faces
    = Ok (g', faces') ->
    exists new, flooded g0 g' (pushed ++ new) /\ faces' = faces ++ map fst new.
Proof.
  intros Hsucc Hmates.
  induction fuel as [|fuel IH]; intros g stack faces pushed g' faces' Hflooded Hstack;
    simpl; [discriminate|].
  destruct stack as [|p stack].
  { intros [= <- <-]. exists []. by rewrite !app_nil_r. }
  assert (forall q, q ∈ stack -> q < length g0) as Hstack'.
  { intros q Hq. apply Hstack. rewrite elem_of_cons. auto. }
  rewrite (geometry_edgeMate _ _ _ (proj1 Hflooded)).
  destruct (edgeMate g0 p) as [mate|] eqn:Hmate; [|by apply IH].
  destruct (isMaskSet g mate VISITED) eqn:Hvisited; simpl; [by apply IH|].
  destruct (HalfEdgeGraphSearch.pushAndMaskAllNodesInFace _ _ _ _ _ _)
    as [[[g1 stack1] faces1]| |] eqn:Hpush; simpl; try discriminate.
  intros Hrest.
  eapply (flooded_push g0) in Hpush as (l & Hflooded1 & -> & -> & Hl); try done.
  - apply (IH _ _ _ _ _ _ Hflooded1) in Hrest as (new & Hflooded' & ->).
    + exists ((mate, l) :: new). rewrite <- !app_assoc in *. done.
    + intros q [Hq|Hq]%elem_of_app; [apply Hl; by apply elem_of_rev|auto].
  - destruct (negb (isMaskSet g p parityMask)).
    + rewrite land_lor_same. done.
    + done.
  - eapply Hmates; [|exact Hmate]. apply Hstack. rewrite elem_of_cons. auto.
Qed.

Lemma parityFloodFromSeed_flooded g0 parityMask fuel g seed pushed g' faces' :
  successorsInRange g0 -> matesInRange g0 ->
  flooded g0 g pushed -> seed < length g0 ->
  HalfEdgeGraphSearch.parityFloodFromSeed fuel g seed VISITED parityMask = Ok (g', faces') ->
  exists new, flooded g0 g' (pushed ++ new) /\ faces' = map fst new.
Proof.
  intros Hsucc Hmates Hflooded Hseed. unfold HalfEdgeGraphSearch.parityFloodFromSeed.
  destruct (isMaskSet g seed VISITED) eqn:Hvisited.
  { intros [= <- <-]. exists []. by rewrite app_nil_r. }
  destruct (HalfEdgeGraphSearch.pushAndMaskAllNodesInFace _ _ _ _ _ _)
    as [[[g1 stack1] faces1]| |] eqn:Hpush; simpl; try discriminate.
  intros Hrest.
  eapply (flooded_push g0) in Hpush as (l & Hflooded1 & -> & -> & Hl); try done.
  - eapply parityFloodLoop_flooded in Hrest as (new & Hflooded' & ->); try done.
    + exists ((seed, l) :: new). rewrite <- !app_assoc in *. done.
    + intros q [Hq|Hq]%elem_of_app; [apply Hl; by apply elem_of_rev|by apply elem_of_nil in Hq].
  - rewrite land_lor_same. done.
Qed.

Lemma collectLoop_flooded g0 parityMask fuel :
  successorsInRange g0 -> matesInRange g0 ->
  forall seeds g comps pushed loopss g' comps',
    flooded g0 g pushed ->
    (forall s, s ∈ seeds -> s < length g0) ->
    Forall2 (Forall2 (fun f l => walk g0 f f l)) comps loopss ->
    concat loopss = map snd pushed ->
    HalfEdgeGraphSearch.collectLoop fuel g parityMask seeds comps = Ok (g', comps') ->
    exists pushed' loopss',
      flooded g0 g' pushed'
      /\ Forall2 (Forall2 (fun f l => walk g0 f f l)) comps' loopss'
      /\ concat loopss' = map snd pushed'.
Proof.
  intros Hsucc Hmates.
  induction seeds as [|s seeds IH];
    intros g comps pushed loopss g' comps' Hflooded Hseeds Hcomps Hconcat; simpl.
  { intros [= <- <-]. eauto. }
  assert (forall q, q ∈ seeds -> q < length g0) as Hseeds'.
  { intros q Hq. apply Hseeds. rewrite elem_of_cons. auto. }
  destruct (isMaskSet g s VISITED); simpl; [by eapply IH|].
  destruct (HalfEdgeGraphSearch.parityFloodFromSeed _ _ _ _ _)
    as [[g1 newFaces]| |] eqn:Hflood; simpl; try discriminate.
  eapply parityFloodFromSeed_flooded in Hflood as (new & Hflooded1 & ->); try done;
    [|apply Hseeds; rewrite elem_of_cons; auto].
  apply (IH _ _ _ (loopss ++ [map snd new]) _ _ Hflooded1 Hseeds').
  - apply Forall2_app; [done|]. constructor; [|constructor].
    destruct Hflooded1 as (_ & Hpushed & _). apply Forall_app in Hpushed as [_ Hnew].
    clear -Hnew. induction Hnew as [|[f l] new [Hw _] _ IH]; simpl; constructor; done.
  - rewrite concat_app, map_app, Hconcat. simpl. by rewrite app_nil_r.
Qed.

Lemma geometry_graph_clearMask g mask :
  geometry (HalfEdgeGraph.clearMask g mask) = geometry g.
Proof.
  unfold geometry, HalfEdgeGraph.clearMask. rewrite map_map. apply map_ext. done.
Qed.

(** ** Correcting the parity of every component *)

Lemma correctParityLoop_Ok fuel mask : mask <> 0%Z ->
  forall comps loopss g g',
    Forall2 (Forall2 (fun f l => walk g f f l)) comps loopss ->
    NoDup (concat (concat loopss)) ->
    (forall n, n ∈ concat (concat loopss) -> n < length g) ->
    HalfEdgeGraphSearch.correctParityLoop fuel g mask comps = Ok g' ->
    geometry g' = geometry g
    /\ Forall (fun faces => exists e,
                 HalfEdgeGraphSearch.findMinimumAreaFace fuel g faces = Ok (Some e)
                 /\ mostNegativeFace fuel g faces e
                 /\ isMaskSet g' e mask = true) comps
    /\ (forall n, n ∉ concat (concat loopss) -> maskBits g' n = maskBits g n).
Proof.
  intros Hmask. induction comps as [|c comps IH]; intros loopss g g' Hwalks Hnodup Hrange.
  { inversion Hwalks; subst. intros [= <-]. split; [done|]. split; [constructor|done]. }
  inversion Hwalks as [|? ls ? lss Hc Hwalks']; subst.
  assert (concat (concat (ls :: lss)) = concat ls ++ concat (concat lss)) as Hcc
    by (simpl; apply concat_app).
  rewrite Hcc in *. clear Hcc. simpl.
  apply NoDup_app in Hnodup as (Hnd_c & Hdisj & Hnd_rest).
  destruct (HalfEdgeGraphSearch.correctParityInSingleComponent fuel g mask c)
    as [g1| |] eqn:Hfirst; simpl; try discriminate.
  apply (correctParityInSingleComponent_Ok _ _ _ _ ls) in Hfirst
    as (e & Hfind & Hmost & Hgeo1 & Hset & _ & _ & Hother1); try done.
  2: { intros n Hn. apply Hrange. rewrite elem_of_app. auto. }
  intros Hrest. apply (IH lss) in Hrest as (Hgeo & Hall & Hother); try done.
  - split; [congruence|]. split.
    + constructor.
      * exists e. split; [done|]. split; [done|].
        rewrite <- Hset. apply isMaskSet_maskBits, Hother. intros Hin.
        destruct Hmost as [He _]. apply list_elem_of_lookup in He as [k Hk].
        destruct (Forall2_lookup_l _ _ _ _ _ Hc Hk) as (l & Hl & Hw).
        apply (Hdisj e); [|done]. apply elem_of_concat. exists l.
        split; [by eapply list_elem_of_lookup_2|].
        destruct (walk_head _ _ _ _ Hw) as [t ->]. rewrite elem_of_cons. auto.
      * eapply Forall_impl; [exact Hall|]. intros faces (e' & Hfind' & Hmost' & Hset').
        exists e'. rewrite <- (geometry_findMinimumAreaFace _ _ _ _ Hgeo1).
        split; [done|]. split; [|done].
        eapply geometry_mostNegativeFace; [|exact Hmost']. done.
    + intros n [Hn1 Hn2]%not_elem_of_app. rewrite Hother by done. by apply Hother1.
  - eapply Forall2_impl; [exact Hwalks'|]. intros faces loops Hfl.
    eapply Forall2_impl; [exact Hfl|]. intros f l Hw.
    eapply geometry_walk; [|exact Hw]. done.
  - intros n Hn. rewrite (geometry_length _ _ Hgeo1). apply Hrange.
    rewrite elem_of_app. auto.
Qed.

Lemma successorsInRangeb_ok g : successorsInRangeb g = true -> successorsInRange g.
Proof.
  unfold successorsInRangeb. rewrite forallb_forall. intros H n Hn.
  apply Nat.ltb_lt, H, in_seq. lia.
Qed.

Lemma matesInRangeb_ok g : matesInRangeb g = true -> matesInRange g.
Proof.
  unfold matesInRangeb. rewrite forallb_forall. intros H n m Hn Hmate.
  specialize (H n). rewrite Hmate in H. apply Nat.ltb_lt, H, in_seq. lia.
Qed.

(** ** Links after the graph primitives *)

Lemma faceSuccessor_setFaceSuccessor g n v m :
  faceSuccessor (setFaceSuccessor g n v) m
  = if decide (n = m /\ n < length g) then v else faceSuccessor g m.
Proof.
  unfold faceSuccessor, setFaceSuccessor. rewrite lookup_write. by case_decide.
Qed.

Lemma facePredecessor_setFacePredecessor g n v m :
  facePredecessor (setFacePredecessor g n v) m
  = if decide (n = m /\ n < length g) then v else facePredecessor g m.
Proof.
  unfold facePredecessor, setFacePredecessor. rewrite lookup_write. by case_decide.
Qed.

Lemma facePredecessor_setFaceSuccessor g n v m :
  facePredecessor (setFaceSuccessor g n v) m = facePredecessor g m.
Proof. apply (lookup_write_keep HE.facePredecessor). done. Qed.

Lemma faceSuccessor_setFacePredecessor g n v m :
  faceSuccessor (setFacePredecessor g n v) m = faceSuccessor g m.
Proof. apply (lookup_write_keep HE.faceSuccessor). done. Qed.

Lemma length_setFaceSuccessor g n v : length (setFaceSuccessor g n v) = length g.
Proof. apply length_write. Qed.

Lemma length_setFacePredecessor g n v : length (setFacePredecessor g n v) = length g.
Proof. apply length_write. Qed.

Lemma length_pinch g a b : length (HalfEdge.pinch g a b) = length g.
Proof.
  unfold HalfEdge.pinch. destruct (a =? b); [done|].
  by rewrite !length_setFaceSuccessor, !length_setFacePredecessor.
Qed.

Lemma faceSuccessor_pinch g a b n :
  facePredecessor g a < length g -> facePredecessor g b < length g ->
  faceSuccessor (HalfEdge.pinch g a b) n
  = if decide (a = b) then faceSuccessor g n
    else if decide (n = facePredecessor g a) then b
    else if decide (n = facePredecessor g b) then a
    else faceSuccessor g n.
Proof.
  intros Ha Hb. unfold HalfEdge.pinch.
  destruct (Nat.eqb_spec a b) as [->|Hne]; [by rewrite decide_True|].
  rewrite decide_False by done.
  rewrite !faceSuccessor_setFaceSuccessor, !faceSuccessor_setFacePredecessor,
    !length_setFaceSuccessor, !length_setFacePredecessor.
  repeat case_decide; try done; lia.
Qed.

Lemma facePredecessor_pinch g a b n :
  a < length g -> b < length g ->
  facePredecessor (HalfEdge.pinch g a b) n
  = if decide (a = b) then facePredecessor g n
    else if decide (n = a) then facePredecessor g b
    else if decide (n = b) then facePredecessor g a
    else facePredecessor g n.
Proof.
  intros Ha Hb. unfold HalfEdge.pinch.
  destruct (Nat.eqb_spec a b) as [->|Hne]; [by rewrite decide_True|].
  rewrite decide_False by done.
  rewrite !facePredecessor_setFaceSuccessor, !facePredecessor_setFacePredecessor,
    !length_setFacePredecessor.
  repeat case_decide; try done; lia.
Qed.

(** [pinch] writes links only. *)
Lemma field_pinch {A} (proj : HE.t -> A) g a b n :
  (forall v e, proj (HE.set_faceSuccessor v e) = proj e) ->
  (forall v e, proj (HE.set_facePredecessor v e) = proj e) ->
  proj (HalfEdge.pinch g a b !!! n) = proj (g !!! n).
Proof.
  intros Hs Hp. unfold HalfEdge.pinch. destruct (a =? b); [done|].
  unfold setFaceSuccessor, setFacePredecessor.
  rewrite !(lookup_write_keep proj) by auto. done.
Qed.

Lemma linked_pinch g a b :
  linked g -> a < length g -> b < length g -> linked (HalfEdge.pinch g a b).
Proof.
  intros Hlinked Ha Hb n Hn. rewrite length_pinch in *.
  destruct (Hlinked a Ha) as (Hsa & Hpa & Hpsa & Hspa).
  destruct (Hlinked b Hb) as (Hsb & Hpb & Hpsb & Hspb).
  destruct (Hlinked n Hn) as (Hsn & Hpn & Hpsn & Hspn).
  rewrite !faceSuccessor_pinch, !facePredecessor_pinch by done.
  destruct (decide (a = b)) as [|Hab]; [done|].
  repeat split.
  - repeat case_decide; done.
  - repeat case_decide; done.
  - repeat case_decide; subst; try done; try congruence.
  - repeat case_decide; subst; try done; try congruence.
Qed.

Lemma alter_app_first {A} (f : A -> A) (g l : list A) :
  alter f (length g) (g ++ l) = g ++ alter f 0 l.
Proof. rewrite <- (Nat.add_0_r (length g)) at 1. apply alter_app_r. Qed.

Lemma alter_app_second {A} (f : A -> A) (g l : list A) :
  alter f (S (length g)) (g ++ l) = g ++ alter f 1 l.
Proof. rewrite <- (Nat.add_1_r (length g)). apply alter_app_r. Qed.

(** The graph after [createEdgeXYZXYZ], written out. *)
Lemma createEdgeXYZXYZ_eq g xA yA zA iA xB yB zB iB :
  HalfEdgeGraph.createEdgeXYZXYZ g xA yA zA iA xB yB zB iB
  = (g ++ [HE.mk xA yA zA iA 0 (S (length g)) (S (length g)) (Some (S (length g)))
                 false None None None;
           HE.mk xB yB zB iB 0 (length g) (length g) (Some (length g))
                 false None None None],
     length g).
Proof.
  unfold HalfEdgeGraph.createEdgeXYZXYZ, HalfEdge.setFaceLinks, HalfEdge.setEdgeMates,
    setFaceSuccessor, setFacePredecessor, write. f_equal.
  repeat (rewrite ?alter_app_first, ?alter_app_second; simpl). done.
Qed.

Lemma lookup_total_app_old (g : graph) l n : n < length g -> (g ++ l) !!! n = g !!! n.
Proof. intros. by apply lookup_total_app_l. Qed.

Lemma lookup_total_app_first (g : graph) a l : (g ++ a :: l) !!! length g = a.
Proof. by rewrite list_lookup_total_middle. Qed.

Lemma lookup_total_app_second (g : graph) a b l : (g ++ a :: b :: l) !!! S (length g) = b.
Proof.
  rewrite (lookup_total_app_r g) by lia.
  replace (S (length g) - length g) with 1 by lia. done.
Qed.

Lemma linked_createEdge g xA yA zA iA xB yB zB iB :
  linked g -> linked (HalfEdgeGraph.createEdgeXYZXYZ g xA yA zA iA xB yB zB iB).1.
Proof.
  intros Hlinked. rewrite createEdgeXYZXYZ_eq. simpl. intros n Hn.
  rewrite length_app in *. simpl in *.
  unfold faceSuccessor, facePredecessor.
  destruct (decide (n < length g)) as [Hold|Hnew].
  - destruct (Hlinked n Hold) as (Hs & Hp & Hps & Hsp).
    unfold faceSuccessor, facePredecessor in *.
    rewrite (lookup_total_app_old _ _ n) by done.
    rewrite !lookup_total_app_old by done. repeat split; try done; lia.
  - assert (n = length g \/ n = S (length g)) as [->| ->] by lia.
    + rewrite lookup_total_app_first. simpl.
      rewrite lookup_total_app_second. simpl. repeat split; lia.
    + rewrite lookup_total_app_second. simpl.
      rewrite lookup_total_app_first. simpl. repeat split; lia.
Qed.

(** Links are all that [linked] reads. *)
Lemma linked_same_links g g' :
  length g' = length g ->
  (forall n, faceSuccessor g' n = faceSuccessor g n) ->
  (forall n, facePredecessor g' n = facePredecessor g n) ->
  linked g -> linked g'.
Proof.
  intros Hlen Hs Hp Hlinked n Hn. rewrite Hlen in *. rewrite !Hs, !Hp. by apply Hlinked.
Qed.

Lemma geometry_facePredecessor g g' n :
  geometry g' = geometry g -> facePredecessor g' n = facePredecessor g n.
Proof. apply (geometry_field HE.facePredecessor). done. Qed.

Lemma geometry_steiner g g' n :
  geometry g' = geometry g -> steiner g' n = steiner g n.
Proof. apply (geometry_field HE.steiner). done. Qed.

Lemma linked_geometry g g' : geometry g' = geometry g -> linked g -> linked g'.
Proof.
  intros Hgeo. apply linked_same_links.
  - by apply geometry_length.
  - intros n. by apply geometry_faceSuccessor.
  - intros n. by apply geometry_facePredecessor.
Qed.

(** ** [joinNeighborsOfEar] on a well-linked graph *)

Lemma joinNeighborsOfEar_unfold fuel g ear :
  Triangulator.joinNeighborsOfEar fuel g ear
  = HalfEdge.setMaskAroundFace fuel (joinLinks g ear) ear TRIANGULATED_NODE_MASK.
Proof.
  unfold Triangulator.joinNeighborsOfEar, joinLinks.
  rewrite createEdgeXYZXYZ_eq.
  unfold edgeMate at 1. rewrite lookup_total_app_first.
  cbv beta iota. simpl HE.edgeMate. unfold deref, bind. reflexivity.
Qed.

Lemma field_unlinkZ {A} (proj : HE.t -> A) g ear n :
  (forall v e, proj (HE.set_nextZ v e) = proj e) ->
  (forall v e, proj (HE.set_prevZ v e) = proj e) ->
  proj (unlinkZ g ear !!! n) = proj (g !!! n).
Proof.
  intros Hn Hp. unfold unlinkZ.
  destruct (prevZ g ear); destruct (nextZ _ ear);
    rewrite ?(lookup_write_keep proj) by auto; done.
Qed.

Lemma length_unlinkZ g ear : length (unlinkZ g ear) = length g.
Proof.
  unfold unlinkZ. destruct (prevZ g ear); destruct (nextZ _ ear);
    rewrite ?length_write; done.
Qed.

Section JoinLinks.
Context (g : graph) (ear : node).
Hypothesis Hlinked : linked g.
Hypothesis Hear : ear < length g.

Let P := facePredecessor g ear.
Let S' := faceSuccessor g ear.
Let alpha := length g.
Let beta := S (length g).
Let g1 := (HalfEdgeGraph.createEdgeXYZXYZ g (X g P) (Y g P) (Zc g P) (I g P)
                                            (X g S') (Y g S') (Zc g S') (I g S')).1.
Let g2 := unlinkZ g1 ear.
Let g3 := HalfEdge.pinch g2 (faceSuccessor g2 ear) beta.
Let g4 := HalfEdge.pinch g3 (facePredecessor g3 ear) alpha.

Lemma joinLinks_eq : joinLinks g ear = g4.
Proof.
  unfold joinLinks, g4, g3, g2, g1, unlinkZ, alpha, beta, P, S'.
  rewrite createEdgeXYZXYZ_eq. reflexivity.
Qed.

Lemma g1_old n : n < length g -> g1 !!! n = g !!! n.
Proof.
  intros Hn. unfold g1. rewrite createEdgeXYZXYZ_eq. simpl.
  by apply lookup_total_app_old.
Qed.

Lemma g1_alpha :
  g1 !!! alpha = HE.mk (X g P) (Y g P) (Zc g P) (I g P) 0 beta beta (Some beta)
                       false None None None.
Proof. unfold g1. rewrite createEdgeXYZXYZ_eq. simpl. apply lookup_total_app_first. Qed.

Lemma g1_beta :
  g1 !!! beta = HE.mk (X g S') (Y g S') (Zc g S') (I g S') 0 alpha alpha (Some alpha)
                      false None None None.
Proof. unfold g1. rewrite createEdgeXYZXYZ_eq. simpl. apply lookup_total_app_second. Qed.

Lemma length_g1 : length g1 = S (S (length g)).
Proof.
  unfold g1. rewrite createEdgeXYZXYZ_eq. simpl. rewrite length_app. simpl. lia.
Qed.

Lemma g2_succ n : faceSuccessor g2 n = faceSuccessor g1 n.
Proof. apply (field_unlinkZ HE.faceSuccessor); done. Qed.

Lemma g2_pred n : facePredecessor g2 n = facePredecessor g1 n.
Proof. apply (field_unlinkZ HE.facePredecessor); done. Qed.

Lemma length_g2 : length g2 = S (S (length g)).
Proof. unfold g2. by rewrite length_unlinkZ, length_g1. Qed.

Lemma g2_succ_old n : n < length g -> faceSuccessor g2 n = faceSuccessor g n.
Proof. intros. rewrite g2_succ. unfold faceSuccessor. by rewrite g1_old. Qed.

Lemma g2_pred_old n : n < length g -> facePredecessor g2 n = facePredecessor g n.
Proof. intros. rewrite g2_pred. unfold facePredecessor. by rewrite g1_old. Qed.

Lemma g2_succ_alpha : faceSuccessor g2 alpha = beta.
Proof. rewrite g2_succ. unfold faceSuccessor. by rewrite g1_alpha. Qed.

Lemma g2_pred_alpha : facePredecessor g2 alpha = beta.
Proof. rewrite g2_pred. unfold facePredecessor. by rewrite g1_alpha. Qed.

Lemma g2_succ_beta : faceSuccessor g2 beta = alpha.
Proof. rewrite g2_succ. unfold faceSuccessor. by rewrite g1_beta. Qed.

Lemma g2_pred_beta : facePredecessor g2 beta = alpha.
Proof. rewrite g2_pred. unfold facePredecessor. by rewrite g1_beta. Qed.

Lemma linked_g2 : linked g2.
Proof.
  apply (linked_same_links g1).
  - by rewrite length_g2, length_g1.
  - apply g2_succ.
  - apply g2_pred.
  - by apply linked_createEdge.
Qed.

Lemma linked_joinLinks : linked (joinLinks g ear).
Proof.
  rewrite joinLinks_eq. unfold g4, g3.
  pose proof linked_g2 as H2. pose proof length_g2 as Hlen.
  destruct (Hlinked ear Hear) as (Hs & Hp & _).
  assert (linked (HalfEdge.pinch g2 (faceSuccessor g2 ear) beta)) as H3.
  { apply linked_pinch; [done| |unfold beta; lia].
    rewrite g2_succ_old by done. lia. }
  apply linked_pinch; [done| |rewrite length_pinch; unfold alpha; lia].
  destruct (H3 ear) as (_ & Hp3 & _); [rewrite length_pinch; lia|done].
Qed.

Lemma length_joinLinks : length (joinLinks g ear) = S (S (length g)).
Proof. rewrite joinLinks_eq. unfold g4, g3. by rewrite !length_pinch, length_g2. Qed.


Lemma g3_succ n :
  faceSuccessor g3 n
  = if decide (n = ear) then beta
    else if decide (n = alpha) then S' else faceSuccessor g2 n.
Proof.
  destruct (Hlinked ear Hear) as (Hs & Hp & Hps & Hsp).
  unfold g3. rewrite g2_succ_old by done.
  rewrite faceSuccessor_pinch.
  - rewrite g2_pred_beta, g2_pred_old by done. unfold S', alpha, beta.
    rewrite Hps. repeat case_decide; try done; lia.
  - rewrite g2_pred_old, length_g2 by done. rewrite Hps. lia.
  - rewrite g2_pred_beta, length_g2. unfold alpha. lia.
Qed.

Lemma g3_pred n :
  facePredecessor g3 n
  = if decide (n = S') then alpha
    else if decide (n = beta) then ear else facePredecessor g2 n.
Proof.
  destruct (Hlinked ear Hear) as (Hs & Hp & Hps & Hsp).
  unfold g3. rewrite g2_succ_old by done.
  rewrite facePredecessor_pinch.
  - rewrite g2_pred_beta, (g2_pred_old (faceSuccessor g ear)) by done.
    unfold S', alpha, beta. rewrite Hps. repeat case_decide; try done; lia.
  - rewrite length_g2. lia.
  - rewrite length_g2. unfold beta. lia.
Qed.

Lemma length_g3 : length g3 = S (S (length g)).
Proof. unfold g3. by rewrite length_pinch, length_g2. Qed.

(** After the removal, the successor of [ear] is the new node [beta]. *)
Lemma joinLinks_succ_ear : faceSuccessor (joinLinks g ear) ear = beta.
Proof.
  destruct (Hlinked ear Hear) as (Hs & Hp & Hps & Hsp).
  destruct (Hlinked _ Hp) as (HsP & HpP & HpsP & HspP).
  rewrite joinLinks_eq. unfold g4. rewrite g3_pred.
  destruct (decide (ear = S')) as [Heq|Hne].
  { unfold HalfEdge.pinch. rewrite Nat.eqb_refl, g3_succ. by rewrite decide_True. }
  rewrite decide_False by (unfold beta; lia). rewrite g2_pred_old by done.
  rewrite faceSuccessor_pinch; rewrite ?length_g3, ?g3_pred, ?g3_succ.
  - rewrite g2_pred_alpha, (g2_pred_old (facePredecessor g ear)) by done.
    unfold alpha, beta, S' in *.
    repeat case_decide; subst; try done; try lia; congruence.
  - rewrite (g2_pred_old (facePredecessor g ear)) by done. unfold alpha, beta.
    repeat case_decide; lia.
  - rewrite g2_pred_alpha. unfold alpha, beta, S'. repeat case_decide; lia.
Qed.

(** After the removal, the predecessor of [ear] is its old predecessor, or
    the new node [alpha] when [ear] was alone in its loop. *)
Lemma joinLinks_pred_ear :
  facePredecessor (joinLinks g ear) ear = if decide (ear = S') then alpha else P.
Proof.
  destruct (Hlinked ear Hear) as (Hs & Hp & Hps & Hsp).
  destruct (Hlinked _ Hp) as (HsP & HpP & HpsP & HspP).
  rewrite joinLinks_eq. unfold g4. rewrite g3_pred.
  destruct (decide (ear = S')) as [Heq|Hne].
  { unfold HalfEdge.pinch. rewrite Nat.eqb_refl, g3_pred. by rewrite decide_True. }
  rewrite decide_False by (unfold beta; lia). rewrite g2_pred_old by done.
  rewrite facePredecessor_pinch; rewrite ?length_g3, ?g3_pred; unfold alpha, beta; try lia.
  rewrite (g2_pred_old ear) by done. unfold P, S' in *.
  repeat case_decide; subst; try done; try lia; congruence.
Qed.

Lemma joinLinks_pred_ear_ne : facePredecessor (joinLinks g ear) ear <> ear.
Proof.
  destruct (Hlinked ear Hear) as (Hs & Hp & Hps & Hsp).
  rewrite joinLinks_pred_ear. unfold P, S', alpha in *.
  case_decide; [lia|congruence].
Qed.

(** The two pinches and the Z-order unlinking leave every other field as the
    new pair was created. *)
Lemma joinLinks_field {A} (proj : HE.t -> A) n :
  (forall v e, proj (HE.set_faceSuccessor v e) = proj e) ->
  (forall v e, proj (HE.set_facePredecessor v e) = proj e) ->
  (forall v e, proj (HE.set_nextZ v e) = proj e) ->
  (forall v e, proj (HE.set_prevZ v e) = proj e) ->
  proj (joinLinks g ear !!! n) = proj (g1 !!! n).
Proof.
  intros H1 H2 H3 H4. rewrite joinLinks_eq. unfold g4, g3, g2.
  rewrite !(field_pinch proj) by done. by apply field_unlinkZ.
Qed.

Lemma joinLinks_xy_old n : n < length g -> Triangulator.xy (joinLinks g ear) n = Triangulator.xy g n.
Proof.
  intros Hn. unfold Triangulator.xy, X, Y.
  rewrite (joinLinks_field HE.x), (joinLinks_field HE.y) by done. by rewrite g1_old.
Qed.

Lemma joinLinks_xy_alpha : Triangulator.xy (joinLinks g ear) alpha = Triangulator.xy g P.
Proof.
  unfold Triangulator.xy, X, Y.
  rewrite (joinLinks_field HE.x), (joinLinks_field HE.y) by done. by rewrite g1_alpha.
Qed.

Lemma joinLinks_xy_beta : Triangulator.xy (joinLinks g ear) beta = Triangulator.xy g S'.
Proof.
  unfold Triangulator.xy, X, Y.
  rewrite (joinLinks_field HE.x), (joinLinks_field HE.y) by done. by rewrite g1_beta.
Qed.

Lemma joinLinks_steiner_old n : n < length g -> steiner (joinLinks g ear) n = steiner g n.
Proof.
  intros Hn. unfold steiner. rewrite (joinLinks_field HE.steiner) by done.
  by rewrite g1_old.
Qed.

(** The vertex just removed qualifies for removal again. *)
Lemma joinLinks_removable :
  Triangulator.removable g ear = true ->
  Triangulator.removable (joinLinks g ear) ear = true.
Proof.
  destruct (Hlinked ear Hear) as (Hs & Hp & Hps & Hsp).
  unfold Triangulator.removable, Triangulator.cornerArea.
  rewrite joinLinks_succ_ear, joinLinks_pred_ear, joinLinks_steiner_old,
    joinLinks_xy_beta, (joinLinks_xy_old ear) by done.
  assert (Triangulator.xy (joinLinks g ear) (if decide (ear = S') then alpha else P)
          = Triangulator.xy g P) as ->; [|done].
  case_decide; [apply joinLinks_xy_alpha|by apply joinLinks_xy_old].
Qed.


(** The links after the removal, when the loop of [ear] has three nodes or
    more. *)
Lemma joinLinks_succ n :
  ear <> S' -> P <> S' ->
  faceSuccessor (joinLinks g ear) n
  = if decide (n = facePredecessor g P) then alpha
    else if decide (n = beta) then P
    else if decide (n = ear) then beta
    else if decide (n = alpha) then S'
    else faceSuccessor g2 n.
Proof.
  intros Hne1 Hne2.
  destruct (Hlinked ear Hear) as (Hs & Hp & Hps & Hsp).
  destruct (Hlinked _ Hp) as (HsP & HpP & HpsP & HspP).
  fold P in Hp, HpP, Hsp, HspP, HpsP.
  assert (facePredecessor g3 ear = P) as HpE.
  { rewrite g3_pred, g2_pred_old by done.
    rewrite decide_False by done. rewrite decide_False; [done|]. unfold beta. lia. }
  assert (facePredecessor g3 P = facePredecessor g P) as HpP3.
  { rewrite g3_pred, (g2_pred_old P) by done.
    rewrite decide_False by done. rewrite decide_False; [done|]. unfold beta. lia. }
  assert (facePredecessor g3 alpha = beta) as HpA.
  { rewrite g3_pred, g2_pred_alpha.
    rewrite decide_False by (unfold alpha, S'; lia).
    rewrite decide_False; [done|]. unfold alpha, beta. lia. }
  rewrite joinLinks_eq. unfold g4. rewrite HpE.
  rewrite faceSuccessor_pinch.
  - rewrite HpP3, HpA, g3_succ. rewrite decide_False by (unfold alpha; lia). done.
  - rewrite HpP3, length_g3. lia.
  - rewrite HpA, length_g3. unfold beta. lia.
Qed.

Lemma joinLinks_pred n :
  ear <> S' -> P <> S' ->
  facePredecessor (joinLinks g ear) n
  = if decide (n = P) then beta
    else if decide (n = alpha) then facePredecessor g P
    else if decide (n = S') then alpha
    else if decide (n = beta) then ear
    else facePredecessor g2 n.
Proof.
  intros Hne1 Hne2.
  destruct (Hlinked ear Hear) as (Hs & Hp & Hps & Hsp).
  destruct (Hlinked _ Hp) as (HsP & HpP & HpsP & HspP).
  fold P in Hp, HpP, Hsp, HspP, HpsP.
  assert (facePredecessor g3 ear = P) as HpE.
  { rewrite g3_pred, g2_pred_old by done.
    rewrite decide_False by done. rewrite decide_False; [done|]. unfold beta. lia. }
  assert (facePredecessor g3 P = facePredecessor g P) as HpP3.
  { rewrite g3_pred, (g2_pred_old P) by done.
    rewrite decide_False by done. rewrite decide_False; [done|]. unfold beta. lia. }
  assert (facePredecessor g3 alpha = beta) as HpA.
  { rewrite g3_pred, g2_pred_alpha.
    rewrite decide_False by (unfold alpha, S'; lia).
    rewrite decide_False; [done|]. unfold alpha, beta. lia. }
  rewrite joinLinks_eq. unfold g4. rewrite HpE.
  rewrite facePredecessor_pinch.
  - rewrite HpP3, HpA, g3_pred. rewrite decide_False by (unfold alpha; lia). done.
  - rewrite length_g3. lia.
  - rewrite length_g3. unfold alpha. lia.
Qed.

(** The two pinches leave the Z-order fields as the unlinking made them. *)
Lemma joinLinks_zfield {A} (proj : HE.t -> A) n :
  (forall v e, proj (HE.set_faceSuccessor v e) = proj e) ->
  (forall v e, proj (HE.set_facePredecessor v e) = proj e) ->
  proj (joinLinks g ear !!! n) = proj (g2 !!! n).
Proof.
  intros H1 H2. rewrite joinLinks_eq. unfold g4, g3.
  by rewrite !(field_pinch proj).
Qed.

Lemma joinLinks_unlinkZ :
  g2 = unlinkZ (g ++ [HE.mk (X g P) (Y g P) (Zc g P) (I g P) 0 beta beta (Some beta)
                            false None None None;
                      HE.mk (X g S') (Y g S') (Zc g S') (I g S') 0 alpha alpha (Some alpha)
                            false None None None]) ear.
Proof. unfold g2, g1. by rewrite createEdgeXYZXYZ_eq. Qed.

Lemma joinLinks_old {A} (proj : HE.t -> A) n :
  (forall v e, proj (HE.set_faceSuccessor v e) = proj e) ->
  (forall v e, proj (HE.set_facePredecessor v e) = proj e) ->
  (forall v e, proj (HE.set_nextZ v e) = proj e) ->
  (forall v e, proj (HE.set_prevZ v e) = proj e) ->
  n < length g -> proj (joinLinks g ear !!! n) = proj (g !!! n).
Proof. intros. rewrite joinLinks_field by done. by rewrite g1_old. Qed.

Lemma joinLinks_mate_beta : edgeMate (joinLinks g ear) beta = Some alpha.
Proof. unfold edgeMate. rewrite (joinLinks_field HE.edgeMate) by done. by rewrite g1_beta. Qed.

Lemma joinLinks_maskBits_new :
  maskBits (joinLinks g ear) alpha = 0%Z /\ maskBits (joinLinks g ear) beta = 0%Z.
Proof.
  unfold maskBits. rewrite !(joinLinks_field HE.maskBits) by done.
  by rewrite g1_alpha, g1_beta.
Qed.


Lemma joinLinks_succ_old n :
  ear <> S' -> P <> S' -> n < length g -> n <> ear -> n <> facePredecessor g P ->
  faceSuccessor (joinLinks g ear) n = faceSuccessor g n.
Proof.
  intros H1 H2 Hn Hne Hnz. rewrite joinLinks_succ by done.
  rewrite decide_False by done. rewrite decide_False by (unfold beta; lia).
  rewrite decide_False by done. rewrite decide_False by (unfold alpha; lia).
  by apply g2_succ_old.
Qed.

Lemma joinLinks_succ_before :
  ear <> S' -> P <> S' -> faceSuccessor (joinLinks g ear) (facePredecessor g P) = alpha.
Proof. intros H1 H2. rewrite joinLinks_succ by done. by rewrite decide_True. Qed.

Lemma joinLinks_succ_alpha :
  ear <> S' -> P <> S' -> faceSuccessor (joinLinks g ear) alpha = S'.
Proof.
  intros H1 H2.
  destruct (Hlinked ear Hear) as (Hs & Hp & Hps & Hsp).
  destruct (Hlinked _ Hp) as (HsP & HpP & HpsP & HspP).
  rewrite joinLinks_succ by done.
  rewrite decide_False by (unfold alpha, P; lia).
  rewrite decide_False by (unfold alpha, beta; lia).
  rewrite decide_False by (unfold alpha; lia). by rewrite decide_True.
Qed.

Lemma joinLinks_succ_beta :
  ear <> S' -> P <> S' -> faceSuccessor (joinLinks g ear) beta = P.
Proof.
  intros H1 H2.
  destruct (Hlinked ear Hear) as (Hs & Hp & Hps & Hsp).
  destruct (Hlinked _ Hp) as (HsP & HpP & HpsP & HspP).
  rewrite joinLinks_succ by done.
  rewrite decide_False by (unfold beta, P; lia). by rewrite decide_True.
Qed.

Lemma joinLinks_pred_old n :
  ear <> S' -> P <> S' -> n < length g -> n <> P -> n <> S' ->
  facePredecessor (joinLinks g ear) n = facePredecessor g n.
Proof.
  intros H1 H2 Hn HnP HnS. rewrite joinLinks_pred by done.
  rewrite decide_False by done. rewrite decide_False by (unfold alpha; lia).
  rewrite decide_False by done. rewrite decide_False by (unfold beta; lia).
  by apply g2_pred_old.
Qed.

Lemma joinLinks_pred_before :
  ear <> S' -> P <> S' -> facePredecessor (joinLinks g ear) P = beta.
Proof. intros H1 H2. rewrite joinLinks_pred by done. by rewrite decide_True. Qed.

End JoinLinks.

(** ** [filterPoints] returns only if it removes nothing *)

Lemma aroundFace_not_TypeError f fuel : forall g seed cur,
  HalfEdge.aroundFace fuel f g seed cur <> TypeError.
Proof.
  induction fuel as [|fuel IH]; intros g seed cur; simpl; [done|].
  destruct (_ =? _); [done|apply IH].
Qed.

Lemma joinNeighborsOfEar_Ok fuel g ear g' :
  Triangulator.joinNeighborsOfEar fuel g ear = Ok g' ->
  geometry g' = geometry (joinLinks g ear).
Proof.
  rewrite joinNeighborsOfEar_unfold. unfold HalfEdge.setMaskAroundFace.
  intros (l & _ & _ & ->)%aroundFace_Ok; [|intros; apply geometry_setMask].
  apply geometry_foldl. intros. apply geometry_setMask.
Qed.

Lemma joinNeighborsOfEar_not_TypeError fuel g ear :
  Triangulator.joinNeighborsOfEar fuel g ear <> TypeError.
Proof. rewrite joinNeighborsOfEar_unfold. apply aroundFace_not_TypeError. Qed.

Lemma geometry_xy g g' n :
  geometry g' = geometry g -> Triangulator.xy g' n = Triangulator.xy g n.
Proof.
  intros Hgeo. unfold Triangulator.xy.
  by rewrite (geometry_X _ _ _ Hgeo), (geometry_Y _ _ _ Hgeo).
Qed.

Lemma geometry_removable g g' n :
  geometry g' = geometry g -> Triangulator.removable g' n = Triangulator.removable g n.
Proof.
  intros Hgeo. unfold Triangulator.removable, Triangulator.cornerArea.
  by rewrite (geometry_steiner _ _ _ Hgeo), (geometry_faceSuccessor _ _ _ Hgeo),
    (geometry_facePredecessor _ _ _ Hgeo), !(geometry_xy _ _ _ Hgeo).
Qed.

(** Once the loop of [filterPoints] stands at a vertex that qualifies for
    removal, or one step before such a vertex that is not the end, it runs
    for ever: each removal leaves the removed vertex, still qualifying, as the
    successor of the vertex the loop continues from. *)
Lemma filterPointsLoop_runs_on fuel : forall g p end_,
  linked g -> p < length g ->
  Triangulator.removable g p = true
  \/ (faceSuccessor g p <> end_
      /\ Triangulator.removable g (faceSuccessor g p) = true) ->
  Triangulator.filterPointsLoop fuel g p end_ = OutOfFuel.
Proof.
  induction fuel as [|fuel IH]; intros g p end_ Hlinked Hp Hcase; simpl; [done|].
  destruct (Triangulator.removable g p) eqn:Hremovable.
  - destruct (Triangulator.joinNeighborsOfEar (S fuel) g p) as [g'| |] eqn:Hjoin; simpl.
    + pose proof (joinNeighborsOfEar_Ok _ _ _ _ Hjoin) as Hgeo.
      pose proof (linked_joinLinks g p Hlinked Hp) as Hlinked'.
      pose proof (length_joinLinks g p) as Hlen.
      assert (p < length (joinLinks g p)) as Hp' by lia.
      destruct (Hlinked' p Hp') as (_ & Hpred & _ & Hsp).
      rewrite (geometry_facePredecessor _ _ _ Hgeo), (geometry_faceSuccessor _ _ _ Hgeo), Hsp.
      destruct (Nat.eqb_spec (facePredecessor (joinLinks g p) p) p) as [Heq|Hne].
      { by apply joinLinks_pred_ear_ne in Heq. }
      apply IH.
      * by apply (linked_geometry (joinLinks g p)).
      * by rewrite (geometry_length _ _ Hgeo).
      * right. rewrite (geometry_faceSuccessor _ _ _ Hgeo), Hsp.
        split; [done|]. rewrite (geometry_removable _ _ _ Hgeo).
        by apply joinLinks_removable.
    + by apply joinNeighborsOfEar_not_TypeError in Hjoin.
    + done.
  - destruct Hcase as [|[Hne Hnext]]; [done|].
    destruct (Nat.eqb_spec (faceSuccessor g p) end_) as [|_]; [done|].
    apply IH; [done|by apply Hlinked|by left].
Qed.

(** Whenever the loop of [filterPoints] returns, it has removed nothing. *)
Lemma filterPointsLoop_Ok fuel : forall g p end_ g' r,
  linked g -> p < length g ->
  Triangulator.filterPointsLoop fuel g p end_ = Ok (g', r) ->
  g' = g /\ r = Some end_.
Proof.
  induction fuel as [|fuel IH]; intros g p end_ g' r Hlinked Hp; simpl; [done|].
  destruct (Triangulator.removable g p) eqn:Hremovable.
  - intros Hrun. exfalso.
    assert (Triangulator.filterPointsLoop (S fuel) g p end_ = OutOfFuel) as Hdiv
      by (apply filterPointsLoop_runs_on; auto).
    simpl in Hdiv. rewrite Hremovable in Hdiv. congruence.
  - destruct (Nat.eqb_spec (faceSuccessor g p) end_) as [|_].
    + by intros [= <- <-].
    + apply IH; [done|by apply Hlinked].
Qed.

(** ** [filterPoints] in the specification's terms *)

Lemma filterPoints_never_returns_after_removal fuel g start end_ :
  linked g -> start < length g -> Triangulator.removable g start = true ->
  Triangulator.filterPoints fuel g (Some start) end_ = OutOfFuel.
Proof.
  intros Hlinked Hstart Hremovable. unfold Triangulator.filterPoints.
  apply filterPointsLoop_runs_on; auto.
Qed.

Lemma filterPoints_Ok fuel g start end_ g' r :
  linked g -> start < length g ->
  Triangulator.filterPoints fuel g (Some start) end_ = Ok (g', r) ->
  g' = g.
Proof.
  intros Hlinked Hstart Hrun. unfold Triangulator.filterPoints in Hrun.
  by apply filterPointsLoop_Ok in Hrun as [-> _].
Qed.

(** C7 (the code departs from it).  In [earcutOuterAndInnerLoops] on the
    square whose first point lies on a side, the outer node handed to
    [filterPoints] qualifies for removal; from that graph [filterPoints]
    returns for no amount of fuel, neither a loop node nor [undefined], and
    so the triangulation does not return either: after
    [joinNeighborsOfEar(p)] the node [p.facePredecessor] lies on the cut-off
    triangle, where [p] is met again with the same neighbouring
    coordinates. *)
Theorem filterPoints_runs_for_ever_after_removal :
  beforeOuterFilter 30 collinearStartLoops = Ok (collinearStartState, Some 0)
  /\ Triangulator.removable collinearStartState 0 = true
  /\ (forall fuel,
        Triangulator.filterPoints fuel collinearStartState (Some 0)
          (Some (faceSuccessor collinearStartState 0)) = OutOfFuel)
  /\ Triangulator.earcutOuterAndInnerLoops 100 collinearStartLoops = OutOfFuel.
Proof.
  split; [vm_compute; reflexivity|]. split; [vm_compute; reflexivity|].
  split; [|vm_compute; reflexivity].
  intros fuel. apply filterPoints_never_returns_after_removal.
  - apply linkedb_linked. vm_compute. reflexivity.
  - vm_compute. lia.
  - vm_compute. reflexivity.
Qed.

(** ** Degenerate input *)

Lemma eliminateHole_skips_failed_bridge fuel g hole outerNode applyFilter :
  Triangulator.findHoleBridge fuel g hole outerNode = Ok None ->
  Triangulator.eliminateHole fuel g hole outerNode applyFilter = Ok g.
Proof. unfold Triangulator.eliminateHole. by intros ->. Qed.

Lemma earcutSingleLoop_empty fuel : Triangulator.earcutSingleLoop fuel [] = Ok [].
Proof. done. Qed.

(** C8 (the code departs from it).  With an outer loop of one point and an
    empty hole loop, [earcutOuterAndInnerLoops] throws: [getLeftmost] reads
    [x] of the [undefined] that loop construction gave for the hole.  With
    an outer loop of two points and a hole whose bridge search fails, the
    splice is skipped, but the [filterPoints] call that follows returns for no
    amount of fuel, so no graph is returned. *)
Theorem triangulation_of_degenerate_loops_fails :
  Triangulator.earcutOuterAndInnerLoops 20 [[pt 0 0]; []] = TypeError
  /\ beforeOuterFilter 30 twoPointLoops = Ok (twoPointState, Some 0)
  /\ length twoPointState = 10
  /\ Triangulator.findHoleBridge 30 twoPointState 5 (Some 0) = Ok None
  /\ (forall fuel,
        Triangulator.filterPoints fuel twoPointState (Some 0)
          (Some (faceSuccessor twoPointState 0)) = OutOfFuel)
  /\ Triangulator.earcutOuterAndInnerLoops 100 twoPointLoops = OutOfFuel.
Proof.
  split; [vm_compute; reflexivity|]. split; [vm_compute; reflexivity|].
  split; [vm_compute; reflexivity|]. split; [vm_compute; reflexivity|].
  split; [|vm_compute; reflexivity].
  intros fuel. apply filterPoints_never_returns_after_removal.
  - apply linkedb_linked. vm_compute. reflexivity.
  - vm_compute. lia.
  - vm_compute. reflexivity.
Qed.

(** ** Steiner points *)

Lemma filterPointsLoop_body fuel g p end_ :
  Triangulator.filterPointsLoop (S fuel) g p end_
  = let* (g', p', end', r) := Triangulator.filterPointsBody (S fuel) g p end_ in
    match r with
    | Some v => Ok (g', v)
    | None => Triangulator.filterPointsLoop fuel g' p' end'
    end.
Proof.
  unfold Triangulator.filterPointsBody. cbn [Triangulator.filterPointsLoop].
  destruct (Triangulator.removable g p).
  - destruct (Triangulator.joinNeighborsOfEar (S fuel) g p) as [g'| |]; simpl; try done.
    by destruct (Nat.eqb _ _).
  - simpl. by destruct (Nat.eqb _ _).
Qed.

(** C9 (the code departs from it).  In [earcutOuterAndInnerLoops] on a
    square with two one-point holes, [eliminateHole] for the second hole
    calls [filterPoints(b, b.faceSuccessor)] with [b] = 14 on a face loop
    that holds the steiner node 9 of the first hole.  Node 9 itself does not
    qualify for removal, but its successor 14, which has the same
    coordinates, does: the first turn of the loop cuts 14 off with
    [joinNeighborsOfEar] and goes on from [p.facePredecessor], which is 9.
    After that turn the steiner node 9 is on the cut-off triangle
    [9; 14; 17], marked as triangulated, and no longer on the loop of the
    polygon, where the new node 16, which has no steiner flag, has taken its
    place.  From there [filterPoints] returns for no amount of fuel, and so
    does the triangulation. *)
Theorem filterPoints_cuts_out_a_steiner_node :
  beforeSecondHoleFilter 30 twoSteinerLoops = Ok (twoSteinerState, 14)
  /\ faceSuccessor twoSteinerState 14 = 11
  /\ HalfEdge.faceLoop 30 twoSteinerState 14 = Ok [14; 11; 15; 13; 0; 2; 4; 6; 12; 9]
  /\ steiner twoSteinerState 9 = true
  /\ Triangulator.removable twoSteinerState 9 = false
  /\ Triangulator.removable twoSteinerState 14 = true
  /\ (forall fuel,
        Triangulator.filterPoints (S fuel) twoSteinerState (Some 14) (Some 11)
        = let* (g', p', end', r) :=
            Triangulator.filterPointsBody (S fuel) twoSteinerState 14 11 in
          match r with
          | Some v => Ok (g', v)
          | None => Triangulator.filterPointsLoop fuel g' p' end'
          end)
  /\ Triangulator.filterPointsBody 30 twoSteinerState 14 11
     = Ok (twoSteinerCut, 9, 9, None)
  /\ HalfEdge.faceLoop 30 twoSteinerCut 9 = Ok [9; 14; 17]
  /\ isMaskSet twoSteinerCut 9 TRIANGULATED_NODE_MASK = true
  /\ HalfEdge.faceLoop 30 twoSteinerCut 16 = Ok [16; 11; 15; 13; 0; 2; 4; 6; 12]
  /\ Triangulator.xy twoSteinerCut 16 = Triangulator.xy twoSteinerCut 9
  /\ steiner twoSteinerCut 16 = false
  /\ (forall fuel,
        Triangulator.filterPoints fuel twoSteinerState (Some 14) (Some 11) = OutOfFuel)
  /\ Triangulator.earcutOuterAndInnerLoops 100 twoSteinerLoops = OutOfFuel.
Proof.
  split; [vm_compute; reflexivity|]. split; [vm_compute; reflexivity|].
  split; [vm_compute; reflexivity|]. split; [vm_compute; reflexivity|].
  split; [vm_compute; reflexivity|]. split; [vm_compute; reflexivity|].
  split; [intros fuel; apply filterPointsLoop_body|].
  split; [vm_compute; reflexivity|]. split; [vm_compute; reflexivity|].
  split; [vm_compute; reflexivity|]. split; [vm_compute; reflexivity|].
  split; [vm_compute; reflexivity|]. split; [vm_compute; reflexivity|].
  split; [|vm_compute; reflexivity].
  intros fuel. apply filterPoints_never_returns_after_removal.
  - apply linkedb_linked. vm_compute. reflexivity.
  - vm_compute. lia.
  - vm_compute. reflexivity.
Qed.

(** ** Bridges to holes *)

(** Moving the seed of a closed walk one node on. *)
Lemma walk_reseed g s x cur l :
  walk g s cur l -> faceSuccessor g s = x -> s <> x ->
  (forall l', l = cur :: l' -> x ∉ l') -> walk g x cur (l ++ [s]).
Proof.
  intros Hw Hsx Hne. induction Hw as [cur Hs|cur l Hs Hw IH]; intros Hx; simpl.
  - apply walk_step; [congruence|]. rewrite Hs. by apply walk_last.
  - destruct (walk_head _ _ _ _ Hw) as [l'' Hl]. specialize (Hx l eq_refl).
    apply walk_step.
    + intros Heq. apply Hx. rewrite Hl, Heq. by left.
    + apply IH. intros l' Hl'. intros Hin. apply Hx. rewrite Hl'. by right.
Qed.

(** A closed walk can be started at any of its nodes. *)
Lemma walk_rotate g : forall l1 m l2 s,
  walk g s s (l1 ++ m :: l2) -> walk g m m (m :: l2 ++ l1).
Proof.
  induction l1 as [|a l1 IH]; intros m l2 s Hw.
  - simpl in Hw. destruct (walk_head _ _ _ _ Hw) as [l' [= -> ->]].
    by rewrite app_nil_r.
  - destruct (walk_head _ _ _ _ Hw) as [l' [= -> <-]].
    inversion Hw as [? Hs Hcur Hl|? ? Hs Hw' Hcur Hl]; subst.
    { by destruct l1. }
    assert (walk g (faceSuccessor g s) (faceSuccessor g s) ((l1 ++ m :: l2) ++ [s]))
      as Hrot.
    { apply walk_reseed; [done|done|congruence|].
      intros l' Hl'. pose proof (walk_NoDup _ _ _ _ Hw') as Hnd.
      rewrite Hl' in Hnd. by apply NoDup_cons in Hnd as [? _]. }
    rewrite <- app_assoc in Hrot. simpl in Hrot.
    apply IH in Hrot. by rewrite <- app_assoc in Hrot.
Qed.

Lemma walk_from g s l m :
  walk g s s l -> m ∈ l ->
  exists l', walk g m m (m :: l') /\ length (m :: l') = length l
             /\ forall p, p ∈ m :: l' <-> p ∈ l.
Proof.
  intros Hw (l1 & l2 & ->)%list_elem_of_split. exists (l2 ++ l1).
  split; [by eapply walk_rotate|]. split.
  - simpl. rewrite !length_app. simpl. lia.
  - intros p. rewrite !elem_of_cons, !elem_of_app, elem_of_cons. tauto.
Qed.

Lemma walk_closed_successor g s l n :
  walk g s s l -> n ∈ l -> faceSuccessor g n ∈ l.
Proof.
  intros Hw Hn. destruct (walk_successor_inside _ _ _ _ _ Hw Hn) as [->|]; [|done].
  destruct (walk_head _ _ _ _ Hw) as [l' ->]. by left.
Qed.

(** *** The first loop *)

Lemma findHoleBridgeSweep_step fuel g hx hy outerNode p qm :
  Triangulator.findHoleBridgeSweep (S fuel) g hx hy outerNode p qm =
  let s := faceSuccessor g p in
  let continue qm :=
    if Nat.eqb s outerNode then Ok (inr qm)
    else Triangulator.findHoleBridgeSweep fuel g hx hy outerNode s qm in
  match crossing g hy p with
  | Some x =>
      if Qleb x hx && match qm with Some (qx, _) => Qltb qx x | None => true end
      then
        if Qeqb x hx && Qeqb hy (Y g p) then Ok (inl p)
        else if Qeqb x hx && Qeqb hy (Y g s) then Ok (inl s)
        else continue (Some (x, lesserEnd g p))
      else continue qm
  | None => continue qm
  end.
Proof.
  simpl. unfold crossing, lesserEnd.
  repeat match goal with |- context [if ?b then _ else _] => destruct b end;
    reflexivity.
Qed.

Lemma sweepSeen_next g hx hy seen p qm :
  sweepSeen g hx hy seen qm ->
  sweepSeen g hx hy (seen ++ [p])
    (match crossing g hy p with
     | Some x =>
         if Qleb x hx && match qm with Some (qx, _) => Qltb qx x | None => true end
         then Some (x, lesserEnd g p) else qm
     | None => qm
     end).
Proof.
  intros Hseen.
  assert (forall q, q ∈ seen ++ [p] <-> q ∈ seen \/ q = p) as Hin.
  { intros q. rewrite elem_of_app, list_elem_of_singleton. tauto. }
  destruct (crossing g hy p) as [x|] eqn:Hx.
  - destruct (Qleb x hx) eqn:Hle; simpl.
    + apply Qleb_le in Hle. destruct qm as [[qx m]|]; simpl.
      * destruct (Qltb qx x) eqn:Hlt.
        -- apply Qltb_lt in Hlt. exists p. rewrite Hin.
           split; [by right|]. split; [done|]. split; [done|]. split; [done|].
           intros p' x' [Hp'| ->]%Hin Hx' Hle'.
           ++ destruct Hseen as (p0 & _ & _ & _ & _ & Hmax).
              apply Qle_trans with qx; [by eapply Hmax|by apply Qlt_le_weak].
           ++ rewrite Hx in Hx'. injection Hx' as <-. apply Qle_refl.
        -- apply Qltb_ge in Hlt. destruct Hseen as (p0 & Hp0 & Hc & Hq & Hm & Hmax).
           exists p0. rewrite Hin. split; [by left|]. do 3 (split; [done|]).
           intros p' x' [Hp'| ->]%Hin Hx' Hle'; [by eapply Hmax|].
           rewrite Hx in Hx'. by injection Hx' as <-.
      * exists p. rewrite Hin. split; [by right|]. do 3 (split; [done|]).
        intros p' x' [Hp'| ->]%Hin Hx' Hle'.
        -- by destruct (Hseen p' x').
        -- rewrite Hx in Hx'. injection Hx' as <-. apply Qle_refl.
    + apply Qleb_gt in Hle. destruct qm as [[qx m]|]; simpl.
      * destruct Hseen as (p0 & Hp0 & Hc & Hq & Hm & Hmax).
        exists p0. rewrite Hin. split; [by left|]. do 3 (split; [done|]).
        intros p' x' [Hp'| ->]%Hin Hx' Hle'; [by eapply Hmax|].
        rewrite Hx in Hx'. injection Hx' as <-.
        by apply Qle_not_lt in Hle'.
      * intros p' x' [Hp'| ->]%Hin Hx'; [by apply (Hseen p' x')|].
        rewrite Hx in Hx'. injection Hx' as <-. by apply Qlt_not_le.
  - destruct qm as [[qx m]|]; simpl.
    + destruct Hseen as (p0 & Hp0 & Hc & Hq & Hm & Hmax).
      exists p0. rewrite Hin. split; [by left|]. do 3 (split; [done|]).
      intros p' x' [Hp'| ->]%Hin Hx' Hle'; [by eapply Hmax|]. congruence.
    + intros p' x' [Hp'| ->]%Hin Hx'; [by apply (Hseen p' x')|]. congruence.
Qed.

Lemma findHoleBridgeSweep_Ok g hx hy outerNode cur l :
  walk g outerNode cur l ->
  forall fuel seen qm, length l <= fuel -> sweepSeen g hx hy seen qm ->
  exists swept,
    Triangulator.findHoleBridgeSweep fuel g hx hy outerNode cur qm = Ok swept
    /\ forall qm', swept = inr qm' -> sweepSeen g hx hy (seen ++ l) qm'.
Proof.
  induction 1 as [cur Hs|cur l Hs Hw IH]; intros fuel seen qm Hfuel Hseen;
    (destruct fuel as [|fuel]; [simpl in Hfuel; lia|]);
    rewrite findHoleBridgeSweep_step; cbv zeta;
    pose proof (sweepSeen_next g hx hy seen cur qm Hseen) as Hnext.
  - rewrite Hs, Nat.eqb_refl.
    destruct (crossing g hy cur) as [x|].
    2:{ eexists. split; [reflexivity|]. by intros ? [= <-]. }
    destruct (Qleb x hx && match qm with Some (qx, _) => Qltb qx x | None => true end).
    2:{ eexists. split; [reflexivity|]. by intros ? [= <-]. }
    destruct (Qeqb x hx && Qeqb hy (Y g cur)).
    { eexists. split; [reflexivity|]. intros ? [=]. }
    destruct (Qeqb x hx && Qeqb hy (Y g outerNode)).
    { eexists. split; [reflexivity|]. intros ? [=]. }
    eexists. split; [reflexivity|]. by intros ? [= <-].
  - apply Nat.eqb_neq in Hs. rewrite Hs. simpl in Hfuel.
    assert (forall qm0, sweepSeen g hx hy (seen ++ [cur]) qm0 ->
      exists swept,
        Triangulator.findHoleBridgeSweep fuel g hx hy outerNode
          (faceSuccessor g cur) qm0 = Ok swept
        /\ forall qm', swept = inr qm' -> sweepSeen g hx hy (seen ++ cur :: l) qm')
      as Hrest.
    { intros qm0 H0. destruct (IH fuel (seen ++ [cur]) qm0) as (sw & Hsw & Hq);
        [lia|done|]. exists sw. split; [done|].
      intros qm' ->. specialize (Hq qm' eq_refl).
      by rewrite <- app_assoc in Hq. }
    destruct (crossing g hy cur) as [x|]; [|by apply Hrest].
    destruct (Qleb x hx && match qm with Some (qx, _) => Qltb qx x | None => true end);
      [|by apply Hrest].
    destruct (Qeqb x hx && Qeqb hy (Y g cur)).
    { eexists. split; [reflexivity|]. intros ? [=]. }
    destruct (Qeqb x hx && Qeqb hy (Y g (faceSuccessor g cur))).
    { eexists. split; [reflexivity|]. intros ? [=]. }
    by apply Hrest.
Qed.

(** *** The second loop *)

Lemma scanSeen_next g hole qx m0 seen m tanMin p :
  let hx := X g hole in
  let hy := Y g hole in
  let tan := Triangulator.bridgeTan g hx hy in
  scanSeen g hole qx m0 seen m tanMin ->
  let better :=
    Triangulator.bridgeCandidate g hx hy qx (X g m0) (Y g m0) p
    && (match tanMin with
        | None => true
        | Some t => Qltb (tan p) t || (Qeqb (tan p) t && Qltb (X g m) (X g p))
        end)
    && Triangulator.locallyInside g p hole in
  scanSeen g hole qx m0 (seen ++ [p]) (if better then p else m)
    (if better then Some (tan p) else tanMin).
Proof.
  intros hx hy tan Hseen. unfold scanSeen in *. fold hx hy tan in Hseen |- *.
  fold (scanChoice g hole qx m0) in Hseen |- *.
  assert (forall q, q ∈ seen ++ [p] <-> q ∈ seen \/ q = p) as Hin.
  { intros q. rewrite elem_of_app, list_elem_of_singleton. tauto. }
  cbv zeta. destruct Hseen as [(-> & -> & Hnone)|(-> & Hm & Hcm & Hbest)].
  - rewrite andb_true_r. change (Triangulator.bridgeCandidate g hx hy qx (X g m0) (Y g m0) p
      && Triangulator.locallyInside g p hole) with (scanChoice g hole qx m0 p).
    destruct (scanChoice g hole qx m0 p) eqn:Hp.
    + right. split; [done|]. rewrite Hin. split; [by right|]. split; [done|].
      intros q [Hq| ->]%Hin Hcq.
      * rewrite Hnone in Hcq by done. discriminate.
      * right. split; [reflexivity|apply Qle_refl].
    + left. do 2 (split; [done|]). intros q [Hq| ->]%Hin; auto.
  - destruct (Triangulator.bridgeCandidate g hx hy qx (X g m0) (Y g m0) p) eqn:Hcand;
      simpl.
    2:{ right. split; [done|]. rewrite Hin. split; [by left|]. split; [done|].
        intros q [Hq| ->]%Hin Hcq; [by apply Hbest|].
        unfold scanChoice in Hcq. fold hx hy in Hcq. rewrite Hcand in Hcq. discriminate. }
    destruct (Triangulator.locallyInside g p hole) eqn:Hloc; rewrite ?andb_false_r.
    2:{ right. split; [done|]. rewrite Hin. split; [by left|]. split; [done|].
        intros q [Hq| ->]%Hin Hcq; [by apply Hbest|].
        unfold scanChoice in Hcq. fold hx hy in Hcq. rewrite Hcand, Hloc in Hcq.
        discriminate. }
    rewrite andb_true_r.
    assert (scanChoice g hole qx m0 p = true) as Hcp.
    { unfold scanChoice. fold hx hy. by rewrite Hcand, Hloc. }
    destruct (Qltb (tan p) (tan m)) eqn:Hlt; simpl.
    { apply Qltb_lt in Hlt. right. split; [done|]. rewrite Hin.
      split; [by right|]. split; [done|].
      intros q [Hq| ->]%Hin Hcq.
      - left. destruct (Hbest q Hq Hcq) as [H1|[H1 _]].
        + by apply Qlt_trans with (tan m).
        + by rewrite <- H1.
      - right. split; [reflexivity|apply Qle_refl]. }
    apply Qltb_ge in Hlt.
    destruct (Qeqb (tan p) (tan m)) eqn:Heq; simpl.
    + apply Qeqb_eq in Heq. destruct (Qltb (X g m) (X g p)) eqn:Hx.
      * apply Qltb_lt in Hx. right. split; [done|]. rewrite Hin.
        split; [by right|]. split; [done|].
        intros q [Hq| ->]%Hin Hcq.
        -- destruct (Hbest q Hq Hcq) as [H1|[H1 H2]].
           ++ left. by rewrite Heq.
           ++ right. split; [by rewrite Heq|].
              apply Qle_trans with (X g m); [done|by apply Qlt_le_weak].
        -- right. split; [reflexivity|apply Qle_refl].
      * apply Qltb_ge in Hx. right. split; [done|]. rewrite Hin.
        split; [by left|]. split; [done|].
        intros q [Hq| ->]%Hin Hcq; [by apply Hbest|].
        right. split; [by symmetry|done].
    + right. split; [done|]. rewrite Hin. split; [by left|]. split; [done|].
      intros q [Hq| ->]%Hin Hcq; [by apply Hbest|].
      left. apply Qle_lt_or_eq in Hlt as [Hlt|Heq']; [done|].
      symmetry in Heq'. apply Qeqb_eq in Heq'. congruence.
Qed.

Lemma findHoleBridgeScan_Ok g hole qx m0 cur l :
  walk g m0 cur l -> m0 ∉ l ->
  forall fuel seen m tanMin,
  length l < fuel -> scanSeen g hole qx m0 seen m tanMin ->
  exists r t,
    Triangulator.findHoleBridgeScan fuel g hole (X g hole) (Y g hole) qx
      (X g m0) (Y g m0) m0 cur m tanMin = Ok r
    /\ scanSeen g hole qx m0 (seen ++ l) r t.
Proof.
  induction 1 as [cur Hs|cur l Hs Hw IH]; intros Hnot fuel seen m tanMin Hfuel Hseen;
    (destruct fuel as [|fuel]; [simpl in Hfuel; lia|]); simpl;
    pose proof (scanSeen_next g hole qx m0 seen m tanMin cur Hseen) as Hnext;
    cbv zeta in Hnext;
    (destruct (Nat.eqb_spec cur m0) as [->|_]; [exfalso; apply Hnot; by left|]).
  - destruct fuel as [|fuel]; [simpl in Hfuel; lia|]. simpl.
    rewrite Hs, Nat.eqb_refl. eauto.
  - destruct (IH (fun H => Hnot (list_elem_of_further _ _ _ H)) fuel (seen ++ [cur]) _ _
                 ltac:(simpl in Hfuel; lia) Hnext) as (r & t & Hr & Hseen').
    exists r, t. split; [exact Hr|]. by rewrite <- app_assoc in Hseen'.
Qed.


(** C4.  Let the outer loop be closed.  Then the first loop of
    [findHoleBridge] ends; and when it leaves a crossing [qx] other than the
    hole's [x] with the node [m0], then [m0] is the end of lesser [x] of an
    edge that crosses the leftward ray at [qx], no edge crosses the ray
    between [qx] and the hole point, and [findHoleBridge] returns: [m0]
    itself when no other vertex [p] of the loop passes the test of the second
    loop ([m0.x <= p.x < hx], inside or on the triangle of the hole point,
    the crossing point and [m0], and [locallyInside(p, hole)]), and else such
    a vertex of least tangent and, among those, of greatest [x]. *)
Theorem findHoleBridge_selects fuel g hole outerNode loop :
  HalfEdge.faceLoop fuel g outerNode = Ok loop ->
  (exists swept,
     Triangulator.findHoleBridgeSweep fuel g (X g hole) (Y g hole)
       outerNode outerNode None = Ok swept)
  /\ forall qx m0,
       Triangulator.findHoleBridgeSweep fuel g (X g hole) (Y g hole)
         outerNode outerNode None = Ok (inr (Some (qx, m0))) ->
       ~ (X g hole == qx)%Q ->
       crossedEdge g (X g hole) (Y g hole) loop qx m0
       /\ exists r,
            Triangulator.findHoleBridge fuel g hole (Some outerNode) = Ok (Some r)
            /\ bridgeChosen g hole qx m0 loop r.
Proof.
  intros Hloop. apply collect_walk in Hloop as [Hwalk Hfuel].
  destruct (findHoleBridgeSweep_Ok g (X g hole) (Y g hole) outerNode outerNode loop
              Hwalk fuel [] None Hfuel) as (swept & Hswept & Hseen).
  { intros p x Hp. by apply elem_of_nil in Hp. }
  split; [by exists swept|].
  intros qx m0 Hrun Hne. rewrite Hrun in Hswept. injection Hswept as <-.
  specialize (Hseen _ eq_refl). simpl in Hseen. split; [done|].
  assert (m0 ∈ loop) as Hm0.
  { destruct Hseen as (p & Hp & _ & _ & -> & _). unfold lesserEnd.
    destruct (Qltb _ _); [done|by eapply walk_closed_successor]. }
  destruct (walk_from _ _ _ _ Hwalk Hm0) as (l' & Hwalk' & Hlen & Hsame).
  unfold Triangulator.findHoleBridge. rewrite Hrun. unfold bind.
  assert (Qeqb (X g hole) qx = false) as ->.
  { apply not_true_iff_false. by rewrite Qeqb_eq. }
  simpl in Hlen.
  inversion Hwalk' as [? Hs Hcur Hl|? ? Hs Hw Hcur Hl]; subst.
  - destruct fuel as [|fuel]; [lia|]. simpl. rewrite Hs, Nat.eqb_refl.
    exists m0. split; [done|]. left. split; [done|].
    intros p (Hp & Hpne & _). apply Hsame in Hp.
    by apply list_elem_of_singleton in Hp.
  - pose proof (walk_tail_not_seed _ _ _ _ Hwalk' _ eq_refl) as Hnot.
    destruct (findHoleBridgeScan_Ok g hole qx m0 _ _ Hw Hnot fuel [] m0 None)
      as (r & t & Hr & Hscan); [lia| |].
    { left. do 2 (split; [done|]). intros p Hp. by apply elem_of_nil in Hp. }
    rewrite Hr. exists r. split; [done|]. simpl in Hscan.
    assert (forall p, bridgeChoice g hole qx m0 loop p
                      <-> p ∈ l' /\ scanChoice g hole qx m0 p = true) as Hchoice.
    { intros p. unfold bridgeChoice, scanChoice.
      rewrite andb_true_iff, <- Hsame, elem_of_cons. split.
      - intros ([?|?] & ? & ? & ?); [done|auto].
      - intros (Hp & ? & ?). split; [by right|]. split; [|done].
        intros ->. by apply Hnot. }
    destruct Hscan as [(_ & -> & Hnone)|(_ & Hin & Hcr & Hbest)].
    + left. split; [done|]. intros p [Hp Hc]%Hchoice.
      rewrite Hnone in Hc by done. discriminate.
    + right. split; [by apply Hchoice|].
      intros p [Hp Hc]%Hchoice. by apply Hbest.
Qed.

(** On the notched quadrilateral the ray from the hole point [(3, 1)]
    crosses the side from [(0, 4)] to [(2, -5)], and the bridge goes to the
    vertex [(2, 2)]. *)
Lemma findHoleBridge_selects_on_notch :
  HalfEdge.faceLoop 20 notchedState 1 = Ok [1; 7; 5; 3]
  /\ Triangulator.findHoleBridgeSweep 20 notchedState (X notchedState 9)
       (Y notchedState 9) 1 1 None = Ok (inr (Some (6 # 9, 1)))
  /\ ~ (X notchedState 9 == 6 # 9)%Q
  /\ crossedEdge notchedState (X notchedState 9) (Y notchedState 9) [1; 7; 5; 3]
       (6 # 9) 1
  /\ exists r,
       Triangulator.findHoleBridge 20 notchedState 9 (Some 1) = Ok (Some r)
       /\ bridgeChosen notchedState 9 (6 # 9) 1 [1; 7; 5; 3] r.
Proof.
  assert (HalfEdge.faceLoop 20 notchedState 1 = Ok [1; 7; 5; 3]) as Hloop
    by (vm_compute; reflexivity).
  assert (Triangulator.findHoleBridgeSweep 20 notchedState (X notchedState 9)
            (Y notchedState 9) 1 1 None = Ok (inr (Some (6 # 9, 1)))) as Hsweep
    by (vm_compute; reflexivity).
  assert (~ (X notchedState 9 == 6 # 9)%Q) as Hne
    by (vm_compute; discriminate).
  split; [exact Hloop|]. split; [exact Hsweep|]. split; [exact Hne|].
  exact (proj2 (findHoleBridge_selects 20 notchedState 9 1 [1; 7; 5; 3] Hloop)
           (6 # 9) 1 Hsweep Hne).
Defined.

(** Three hole points where [findHoleBridge] does not return what the
    specification describes.  On the slanted quadrilateral no vertex is in
    the triangle and the bridge is the far end [(-4, -4)] of the crossed
    edge, of lesser [x], not its near end [(0, 5)].  On the notched
    quadrilateral the vertex [(2, 2)], on the border of the triangle, is
    chosen.  On the detached loop the vertex [(-4, -1)] strictly inside the
    triangle fails [locallyInside] and the end [(-5, -3)] is kept. *)
Lemma findHoleBridge_not_as_specified :
  (let g := slantedState in
   Triangulator.findHoleBridgeSweep 20 g (X g 9) (Y g 9) 0 0 None
     = Ok (inr (Some (-4 # 9, 0)))
   /\ crossing g (Y g 9) 6 = Some (-4 # 9)
   /\ nearerEnd g 9 6 = 6 /\ lesserEnd g 6 = 0
   /\ Triangulator.findHoleBridge 20 g 9 (Some 0) = Ok (Some 0)
   /\ ~ bridgeAsSpecified g 9 (-4 # 9) (nearerEnd g 9 6) [0; 2; 4; 6] 0)
  /\ (let g := notchedState in
      Triangulator.findHoleBridgeSweep 20 g (X g 9) (Y g 9) 1 1 None
        = Ok (inr (Some (6 # 9, 1)))
      /\ crossing g (Y g 9) 1 = Some (6 # 9)
      /\ nearerEnd g 9 1 = 1 /\ lesserEnd g 1 = 1
      /\ Triangulator.findHoleBridge 20 g 9 (Some 1) = Ok (Some 3)
      /\ ~ bridgeAsSpecified g 9 (6 # 9) (nearerEnd g 9 1) [1; 7; 5; 3] 3)
  /\ (let g := detachedState in
      Triangulator.findHoleBridgeSweep 20 g (X g 9) (Y g 9) 0 0 None
        = Ok (inr (Some (-35 # 7, 0)))
      /\ crossing g (Y g 9) 6 = Some (-35 # 7)
      /\ nearerEnd g 9 6 = 0 /\ lesserEnd g 6 = 0
      /\ Triangulator.locallyInside g 4 9 = false
      /\ Triangulator.findHoleBridge 20 g 9 (Some 0) = Ok (Some 0)
      /\ ~ bridgeAsSpecified g 9 (-35 # 7) (nearerEnd g 9 6) [0; 2; 4; 6] 0).
Proof.
  split; [|split]; cbv zeta.
  - do 5 (split; [vm_compute; reflexivity|]).
    intros [[Hr _]|[[_ Hin] _]].
    + vm_compute in Hr. discriminate.
    + vm_compute in Hin. discriminate.
  - do 5 (split; [vm_compute; reflexivity|]).
    intros [[Hr _]|[[_ Hin] _]].
    + vm_compute in Hr. discriminate.
    + vm_compute in Hin. discriminate.
  - do 6 (split; [vm_compute; reflexivity|]).
    intros [[_ Hnone]|[[_ Hin] _]].
    + apply (Hnone 4). split.
      * rewrite !elem_of_cons. auto.
      * vm_compute. reflexivity.
    + vm_compute in Hin. discriminate.
Qed.

(** ** The number of triangles *)

Lemma triangles_of_run (r : result graph) (k : nat) :
  match r with Ok g => length (triangularFaces g) | _ => 0 end = S k ->
  exists g, r = Ok g /\ length (triangularFaces g) = S k.
Proof. destruct r as [g| |]; [eauto|discriminate..]. Qed.

(** C1.  [star81] is a simple polygon of 81 vertices with integer
    coordinates.  [earcutSingleLoop], which tests its ears with
    [isEarHashed] because there are more than 80 points, returns a graph
    with 78 triangular faces, not 79; the same loop triangulated with
    [isEar] has 79. *)
Theorem earcutSingleLoop_loses_a_triangle :
  length star81 = 81
  /\ simplePolygon star81 = true
  /\ (exists g, Triangulator.earcutSingleLoop 1000 star81 = Ok g
                /\ length (triangularFaces g) = 78)
  /\ (exists g, earcutBruteForce 1000 star81 = Ok g
                /\ length (triangularFaces g) = 79).
Proof.
  split; [reflexivity|]. split; [vm_compute; reflexivity|].
  split; apply triangles_of_run; vm_compute; reflexivity.
Qed.

(** ** The Z-order list and its sorting *)

Ltac in_list :=
  repeat match goal with
         | H : context [_ ∈ _ :: _] |- _ => rewrite elem_of_cons in H
         | H : context [_ ∈ _ ++ _] |- _ => rewrite elem_of_app in H
         | H : context [_ ∈ []] |- _ => rewrite elem_of_nil in H
         end;
  repeat (rewrite elem_of_cons || rewrite elem_of_app || rewrite elem_of_nil);
  intuition (subst; auto).

Lemma nextZ_write_nextZ g v t n :
  nextZ (write g (HE.set_nextZ v) t) n
  = if decide (t = n /\ t < length g) then v else nextZ g n.
Proof. unfold nextZ. rewrite lookup_write. by case_decide. Qed.

Lemma prevZ_write_prevZ g v t n :
  prevZ (write g (HE.set_prevZ v) t) n
  = if decide (t = n /\ t < length g) then v else prevZ g n.
Proof. unfold prevZ. rewrite lookup_write. by case_decide. Qed.

Lemma nextZ_write_prevZ g v t n : nextZ (write g (HE.set_prevZ v) t) n = nextZ g n.
Proof. by apply (lookup_write_keep HE.nextZ). Qed.

Lemma prevZ_write_nextZ g v t n : prevZ (write g (HE.set_nextZ v) t) n = prevZ g n.
Proof. by apply (lookup_write_keep HE.prevZ). Qed.

Lemma forgetZ_write g f n :
  (forall e, HE.set_zOrder None (HE.set_prevZ None (HE.set_nextZ None (f e)))
             = HE.set_zOrder None (HE.set_prevZ None (HE.set_nextZ None e))) ->
  forgetZ (write g f n) = forgetZ g.
Proof.
  intros Hf. unfold forgetZ, write. apply list_eq. intros k.
  rewrite !list_lookup_fmap, list_lookup_alter.
  case_decide as Hk; [subst|done]. destruct (g !! k); simpl; [|done]. by rewrite Hf.
Qed.

Lemma forgetZ_write_nextZ g v n : forgetZ (write g (HE.set_nextZ v) n) = forgetZ g.
Proof. by apply forgetZ_write. Qed.

Lemma forgetZ_write_prevZ g v n : forgetZ (write g (HE.set_prevZ v) n) = forgetZ g.
Proof. by apply forgetZ_write. Qed.

Lemma forgetZ_write_zOrder g v n : forgetZ (write g (HE.set_zOrder v) n) = forgetZ g.
Proof. by apply forgetZ_write. Qed.

Lemma length_forgetZ g : length (forgetZ g) = length g.
Proof. apply length_map. Qed.

Lemma nextChain_frame g g' : forall l p,
  (forall n, n ∈ l -> nextZ g' n = nextZ g n) -> nextChain g p l -> nextChain g' p l.
Proof.
  induction l as [|n l IH]; intros p Hsame; simpl; [done|].
  intros [-> Hl]. split; [done|]. rewrite Hsame by (by left).
  apply IH; [|done]. intros m Hm. apply Hsame. by right.
Qed.

Lemma runChain_frame g g' : forall l p,
  (forall n, n ∈ l -> nextZ g' n = nextZ g n) -> runChain g p l -> runChain g' p l.
Proof.
  induction l as [|n l IH]; intros p Hsame; simpl; [done|].
  intros [-> Hl]. split; [done|]. destruct l as [|n' l]; [done|].
  rewrite Hsame by (by left). apply IH; [|done]. intros m Hm. apply Hsame. by right.
Qed.

Lemma nextChain_runChain g : forall l p k,
  nextChain g p l -> runChain g p (take k l).
Proof.
  induction l as [|n l IH]; intros p k; [by rewrite take_nil|].
  destruct k as [|k]; [done|]. simpl. intros [-> Hl]. split; [done|].
  destruct (take k l) as [|n' l'] eqn:Htake; [done|]. rewrite <- Htake. by apply IH.
Qed.

Lemma nextChain_drop g : forall l p, nextChain g p l -> nextChain g p (drop 0 l).
Proof. intros. by rewrite drop_0. Qed.

Lemma nextChain_inj g : forall l1 l2 p,
  nextChain g p l1 -> nextChain g p l2 -> l1 = l2.
Proof.
  induction l1 as [|n l1 IH]; intros [|m l2] p; simpl; try done.
  - intros -> [? _]. done.
  - intros [-> _] ?. done.
  - intros [-> H1] [[= <-] H2]. f_equal. by eapply IH.
Qed.

(** The last node, or [prev] when there is none. *)
Lemma last_cons_or {A} (n : A) l : last (n :: l) = Some (default n (last l)).
Proof.
  revert n. induction l as [|m l IH]; intros n; [done|].
  change (last (n :: m :: l)) with (last (m :: l)). rewrite IH.
  simpl. by destruct (last l).
Qed.

Lemma outLinked_frame g g' : forall l prev,
  (forall n, n ∈ l -> nextZ g' n = nextZ g n /\ prevZ g' n = prevZ g n) ->
  outLinked g prev l -> outLinked g' prev l.
Proof.
  induction l as [|n l IH]; intros prev Hsame; simpl; [done|].
  intros (Hp & Hn & Hl). destruct (Hsame n) as [Hsn Hsp]; [by left|].
  rewrite Hsp. split; [done|]. split.
  - destruct l; [done|]. by rewrite Hsn.
  - apply IH; [|done]. intros m Hm. apply Hsame. by right.
Qed.

Lemma outLinked_snoc g e : forall O prev,
  NoDup (O ++ [e]) -> (forall n, n ∈ O ++ [e] -> n < length g) ->
  outLinked g prev O ->
  let tail := match last O with Some t => Some t | None => prev end in
  outLinked
    (write (match tail with
            | Some t => write g (HE.set_nextZ (Some e)) t
            | None => g
            end) (HE.set_prevZ tail) e)
    prev (O ++ [e]).
Proof.
  induction O as [|n O IH]; intros prev Hnd Hrange Hout; cbv zeta.
  - simpl. rewrite prevZ_write_prevZ. rewrite decide_True; [done|].
    split; [done|]. destruct prev; rewrite ?length_write; apply Hrange; by left.
  - simpl in Hout. destruct Hout as (Hp & Hn & Hout).
    assert (match last (n :: O) with Some t => Some t | None => prev end
            = match last O with Some t => Some t | None => Some n end) as Htail.
    { rewrite last_cons_or. by destruct (last O). }
    rewrite Htail.
    apply NoDup_cons in Hnd as [Hnotin Hnd].
    specialize (IH (Some n) Hnd (fun m Hm => Hrange m (list_elem_of_further _ _ _ Hm)) Hout).
    cbv zeta in IH. simpl. split; [|split; [|exact IH]].
    + rewrite prevZ_write_prevZ. rewrite decide_False.
      2:{ intros [-> _]. apply Hnotin. rewrite elem_of_app, list_elem_of_singleton. auto. }
      destruct (last O); by rewrite prevZ_write_nextZ.
    + destruct O as [|n' O]; simpl.
      * rewrite nextZ_write_prevZ, nextZ_write_nextZ. rewrite decide_True; [done|].
        split; [done|]. apply Hrange. by left.
      * rewrite nextZ_write_prevZ. rewrite last_cons_or, nextZ_write_nextZ.
        rewrite decide_False; [done|].
        intros [Heq _]. apply Hnotin. change (n ∈ (n' :: O) ++ [e]).
        rewrite elem_of_app. left. rewrite <- Heq.
        destruct (last O) as [t|] eqn:Hlast; simpl.
        -- right. by apply last_Some_elem_of.
        -- by left.
Qed.

Lemma sortAdvance_spec g : forall s R q c,
  nextChain g (Some q) R ->
  exists q', Triangulator.sortAdvance s g q c = (q', c + min s (length R))
             /\ nextChain g q' (drop (min s (length R)) R).
Proof.
  induction s as [|s IH]; intros R q c HR.
  - exists (Some q). simpl. rewrite Nat.add_0_r. done.
  - destruct R as [|n R]; [simpl in HR; discriminate|].
    simpl in HR. destruct HR as [[= <-] HR].
    simpl. destruct (nextZ g q) as [q1|] eqn:Hnext.
    + destruct (IH R q1 (S c) HR) as (q' & Hrun & Hq'). exists q'.
      rewrite Hrun. split; [f_equal; lia|done].
    + destruct R as [|? ?]; [|simpl in HR; by destruct HR]. exists None. simpl.
      rewrite Nat.min_0_r. split; [f_equal; lia|done].
Qed.

Lemma head_snoc_app {A} (O : list A) e M : head ((O ++ [e]) ++ M) = head (O ++ e :: M).
Proof. by rewrite <- app_assoc. Qed.


Lemma zOrderOf_write_nextZ g v t n :
  zOrderOf (write g (HE.set_nextZ v) t) n = zOrderOf g n.
Proof. unfold zOrderOf. by apply (lookup_write_keep HE.zOrder). Qed.

Lemma zOrderOf_write_prevZ g v t n :
  zOrderOf (write g (HE.set_prevZ v) t) n = zOrderOf g n.
Proof. unfold zOrderOf. by apply (lookup_write_keep HE.zOrder). Qed.

Lemma zLe_trans g a b c : zLe g a b -> zLe g b c -> zLe g a c.
Proof.
  unfold zLe, Triangulator.leU.
  destruct (zOrderOf g a), (zOrderOf g b), (zOrderOf g c); try done.
  rewrite !Z.leb_le. lia.
Qed.

Lemma zLe_total g a b :
  is_Some (zOrderOf g a) -> is_Some (zOrderOf g b) ->
  Triangulator.leU (zOrderOf g a) (zOrderOf g b) = false -> zLe g b a.
Proof.
  unfold zLe, Triangulator.leU. intros [x ->] [y ->].
  rewrite Z.leb_le, Z.leb_gt. lia.
Qed.

Lemma zSorted_same g g' l :
  (forall n, zOrderOf g' n = zOrderOf g n) -> zSorted g l -> zSorted g' l.
Proof.
  intros Hsame. induction l as [|a l IH]; [done|]. simpl.
  intros [Ha Hl]. split; [|by apply IH].
  intros b Hb. unfold zLe. rewrite !Hsame. by apply Ha.
Qed.

Lemma zSorted_cons g a M l :
  (forall b, b ∈ l -> zLe g a b) -> M ≡ₚ l -> zSorted g M -> zSorted g (a :: M).
Proof.
  intros Ha Hperm HM. split; [|done]. intros b Hb. apply Ha. by rewrite <- Hperm.
Qed.

Lemma sortMerge_spec : forall fuel g P Qr p q qSize O,
  NoDup (O ++ P ++ Qr) -> (forall n, n ∈ O ++ P ++ Qr -> n < length g) ->
  runChain g p P -> nextChain g q Qr -> outLinked g None O ->
  length P + min qSize (length Qr) < fuel ->
  exists g' M q',
    Triangulator.sortMerge fuel g p q (length P) qSize (head O) (last O)
    = Ok (g', q', head (O ++ M), last (O ++ M))
    /\ M ≡ₚ P ++ take qSize Qr
    /\ nextChain g' q' (drop qSize Qr)
    /\ outLinked g' None (O ++ M)
    /\ forgetZ g' = forgetZ g /\ length g' = length g
    /\ (forall n, zOrderOf g' n = zOrderOf g n)
    /\ ((forall n, n ∈ P ++ take qSize Qr -> is_Some (zOrderOf g n)) ->
        zSorted g P -> zSorted g (take qSize Qr) -> zSorted g M).
Proof.
  induction fuel as [|fuel IH]; intros g P Qr p q qSize O Hnd Hrange HP HQ HO Hfuel;
    [lia|].
  assert (forall e O', O' = O ++ [e] ->
            e ∈ P ++ Qr ->
            let tail := last O in
            let g1 := write (match tail with
                             | Some t => write g (HE.set_nextZ (Some e)) t
                             | None => g
                             end) (HE.set_prevZ tail) e in
            outLinked g1 None O'
            /\ (forall n, n ∈ P ++ Qr -> n <> e -> nextZ g1 n = nextZ g n)
            /\ forgetZ g1 = forgetZ g /\ length g1 = length g
            /\ match tail with Some _ => head O | None => Some e end = head O'
            /\ Some e = last O'
            /\ (forall n, zOrderOf g1 n = zOrderOf g n)) as Hstep.
  { intros e O' -> He. cbv zeta.
    assert (NoDup (O ++ [e])) as Hnd'.
    { apply NoDup_app. apply NoDup_app in Hnd as (HndO & Hdisj & HndPQ).
      split; [done|]. split; [|apply NoDup_singleton].
      intros n Hn ->%list_elem_of_singleton. by apply (Hdisj e). }
    assert (forall n, n ∈ O ++ [e] -> n < length g) as Hrange'.
    { intros n [Hn| ->%list_elem_of_singleton]%elem_of_app; apply Hrange;
        rewrite elem_of_app; auto. }
    pose proof (outLinked_snoc g e O None Hnd' Hrange' HO) as Hout. cbv zeta in Hout.
    assert (match last O with Some t => Some t | None => None end = last O) as Htail
      by (by destruct (last O)).
    rewrite Htail in Hout. split; [exact Hout|].
    split; [|split; [|split; [|split; [|split]]]].
    - intros n Hn Hne. rewrite nextZ_write_prevZ.
      destruct (last O) as [t|] eqn:Hlast; [|done].
      rewrite nextZ_write_nextZ, decide_False; [done|].
      intros [-> _]. apply NoDup_app in Hnd as (_ & Hdisj & _).
      apply (Hdisj n); [by apply last_Some_elem_of|done].
    - rewrite forgetZ_write_prevZ. destruct (last O); [|done].
      by rewrite forgetZ_write_nextZ.
    - rewrite length_write. destruct (last O); [|done]. by rewrite length_write.
    - destruct O as [|n O]; [done|]. by rewrite last_cons_or.
    - by rewrite last_snoc.
    - intros n. rewrite zOrderOf_write_prevZ. destruct (last O); [|done].
      by rewrite zOrderOf_write_nextZ. }
  simpl.
  destruct P as [|p1 P].
  - (* the run of [p] is used up *)
    simpl length. simpl Nat.ltb.
    destruct (decide (qSize = 0 \/ Qr = [])) as [Hstop|Hgo].
    + assert ((0 <? qSize) && bool_decide (is_Some q) = false) as ->.
      { destruct Hstop as [-> | ->]; [done|]. simpl in HQ. subst q.
        rewrite andb_false_iff. right. apply bool_decide_eq_false. by intros [? ?]. }
      simpl. exists g, [], q. rewrite app_nil_r. split; [done|]. split.
      { destruct Hstop as [-> | ->]; [by rewrite take_0|by rewrite take_nil]. }
      split.
      { destruct Hstop as [-> | ->]; [by rewrite drop_0|].
        rewrite drop_nil. done. }
      done.
    + destruct qSize as [|qSize]; [by destruct Hgo; left|].
      destruct Qr as [|q1 Qr]; [by destruct Hgo; right|].
      simpl in HQ. destruct HQ as [-> HQ].
      assert (bool_decide (is_Some (Some q1)) = true) as ->
        by (by apply bool_decide_eq_true).
      simpl. unfold bind.
      destruct (Hstep q1 (O ++ [q1]) eq_refl) as (Hout & Hnext & Hforget & Hlen & Hhead & Hlast & Hzo);
        [by left|]. cbv zeta in Hout, Hnext, Hforget, Hlen, Hzo.
      rewrite Nat.sub_0_r.
      set (g1 := write _ _ q1) in *.
      destruct (IH g1 [] Qr p (nextZ g q1) qSize (O ++ [q1]))
        as (g' & M & q' & Hrun & Hperm & Hq' & Hout' & Hforget' & Hlen' & Hzo' & Hsorted').
      { rewrite <- app_assoc. simpl in *. done. }
      { intros n Hn. rewrite Hlen. apply Hrange. by rewrite <- app_assoc in Hn. }
      { done. }
      { apply (nextChain_frame g); [|done]. intros n Hn. apply Hnext; [by right|].
        intros ->. apply NoDup_app in Hnd as (_ & _ & Hnd). simpl in Hnd.
        by apply NoDup_cons in Hnd as [? _]. }
      { done. }
      { simpl in *. lia. }
      simpl length in Hrun. rewrite Hhead, Hlast, Hrun.
      exists g', (q1 :: M), q'. rewrite <- !app_assoc in *. simpl in *.
      split; [done|]. split; [by constructor|]. split; [done|]. split; [done|].
      split; [congruence|]. split; [congruence|].
      split; [intros n; by rewrite Hzo', Hzo|].
      intros Hkeys _ [Hq1 HsQ]. apply (zSorted_cons g q1 M (take qSize Qr)); [done|done|].
      apply (zSorted_same g1); [done|]. apply Hsorted'; [|done|].
      * intros n Hn. rewrite Hzo. apply Hkeys. by right.
      * by apply (zSorted_same g).
  - (* the run of [p] has a node *)
    simpl in HP. destruct HP as [-> HP]. simpl length. simpl Nat.ltb. simpl orb.
    cbv iota. simpl negb. cbv iota.
    set (takeP := if qSize =? 0 then Ok true
                  else match q with
                       | None => Ok true
                       | Some qn =>
                           bind (deref (Some p1))
                             (fun pn => Ok (Triangulator.leU (zOrderOf g pn) (zOrderOf g qn)))
                       end).
    assert (takeP = Ok true
              /\ (take qSize Qr = []
                  \/ exists q1 Qr', Qr = q1 :: Qr' /\ zLe g p1 q1)
            \/ takeP = Ok false /\ exists q1 Qr' k, q = Some q1 /\ Qr = q1 :: Qr'
                                                  /\ qSize = S k
                                   /\ Triangulator.leU (zOrderOf g p1) (zOrderOf g q1)
                                      = false) as Htake.
    { unfold takeP. destruct qSize as [|k]; [left; split; [done|by left]|]. simpl.
      destruct q as [q1|].
      2:{ left. split; [done|]. left. destruct Qr; [done|]. simpl in HQ. by destruct HQ. }
      simpl. destruct Qr as [|q1' Qr']; [done|]. simpl in HQ. destruct HQ as [[= <-] _].
      destruct (Triangulator.leU _ _) eqn:Hle.
      - left. split; [done|]. right. by exists q1, Qr'.
      - right. split; [done|]. by exists q1, Qr', k. }
    change (Triangulator.sortMerge (S fuel) g (Some p1) q (S (length P)) qSize
              (head O) (last O)) with
      (bind takeP (fun takeP =>
         bind (deref (if takeP then Some p1 else q)) (fun e =>
           let p' := if takeP then nextZ g e else Some p1 in
           let q' := if takeP then q else nextZ g e in
           let pSize' := if takeP then (S (length P) - 1) else S (length P) in
           let qSize' := if takeP then qSize else (qSize - 1) in
           let g1 := match last O with
                     | Some t => write g (HE.set_nextZ (Some e)) t
                     | None => g
                     end in
           let list_ := match last O with Some _ => head O | None => Some e end in
           let g2 := write g1 (HE.set_prevZ (last O)) e in
           Triangulator.sortMerge fuel g2 p' q' pSize' qSize' list_ (Some e)))).
    destruct Htake as [[-> Hwhy]|(-> & q1 & Qr' & k & -> & -> & -> & Hgt)];
      simpl bind; cbv zeta.
    + destruct (Hstep p1 (O ++ [p1]) eq_refl) as (Hout & Hnext & Hforget & Hlen & Hhead & Hlast & Hzo);
        [by left|]. cbv zeta in Hout, Hnext, Hforget, Hlen, Hzo.
      set (g1 := write _ _ p1) in *.
      destruct (IH g1 P Qr (nextZ g p1) q qSize (O ++ [p1]))
        as (g' & M & q' & Hrun & Hperm & Hq' & Hout' & Hforget' & Hlen' & Hzo' & Hsorted').
      { by rewrite <- app_assoc. }
      { intros n Hn. rewrite Hlen. apply Hrange. by rewrite <- app_assoc in Hn. }
      { destruct P as [|p2 P]; [done|].
        apply (runChain_frame g); [|done]. intros n Hn. apply Hnext.
        - rewrite elem_of_app. left. by right.
        - intros ->. apply NoDup_app in Hnd as (_ & _ & Hnd). simpl in Hnd.
          apply NoDup_cons in Hnd as [Hnotin _]. apply Hnotin. in_list. }
      { apply (nextChain_frame g); [|done]. intros n Hn. apply Hnext.
        - rewrite elem_of_app. by right.
        - intros ->. apply NoDup_app in Hnd as (_ & _ & Hnd). simpl in Hnd.
          apply NoDup_cons in Hnd as [Hnotin _]. apply Hnotin. in_list. }
      { done. }
      { simpl in *. lia. }
      rewrite Nat.sub_0_r, Hhead, Hlast, Hrun.
      exists g', (p1 :: M), q'. rewrite <- !app_assoc in *. simpl in *.
      split; [done|]. split; [by constructor|]. split; [done|]. split; [done|].
      split; [congruence|]. split; [congruence|].
      split; [intros n; by rewrite Hzo', Hzo|].
      intros Hkeys [Hp1 HsP] HsQ.
      apply (zSorted_cons g p1 M (P ++ take qSize Qr)); [|done|].
      * intros b [Hb|Hb]%elem_of_app; [by apply Hp1|].
        destruct Hwhy as [Hnil|(q1 & Qr' & -> & Hle)]; [rewrite Hnil in Hb; by apply elem_of_nil in Hb|].
        destruct qSize as [|k]; [rewrite take_0 in Hb; by apply elem_of_nil in Hb|].
        simpl in Hb, HsQ. apply elem_of_cons in Hb as [->|Hb]; [done|].
        apply (zLe_trans g p1 q1 b); [done|]. by apply HsQ.
      * apply (zSorted_same g1); [done|]. apply Hsorted'.
        -- intros n Hn. rewrite Hzo. apply Hkeys. by right.
        -- by apply (zSorted_same g).
        -- by apply (zSorted_same g).
    + simpl in HQ. destruct HQ as [_ HQ].
      destruct (Hstep q1 (O ++ [q1]) eq_refl)
        as (Hout & Hnext & Hforget & Hlen & Hhead & Hlast & Hzo); [in_list|].
      cbv zeta in Hout, Hnext, Hforget, Hlen, Hzo.
      set (g1 := write _ _ q1) in *.
      assert ((q1 ∉ P) /\ q1 <> p1 /\ (q1 ∉ Qr')) as (HqP & Hqp & HqQ).
      { apply NoDup_app in Hnd as (_ & _ & Hnd). simpl in Hnd.
        apply NoDup_cons in Hnd as [Hp1 Hnd].
        apply NoDup_app in Hnd as (_ & Hdisj & Hnd').
        apply NoDup_cons in Hnd' as [Hq1 _].
        split; [|split; [|done]].
        - intros Hin. apply (Hdisj q1 Hin). by left.
        - intros ->. apply Hp1. in_list. }
      destruct (IH g1 (p1 :: P) Qr' (Some p1) (nextZ g q1) k (O ++ [q1]))
        as (g' & M & q' & Hrun & Hperm & Hq' & Hout' & Hforget' & Hlen' & Hzo' & Hsorted').
      { rewrite <- app_assoc.
        rewrite <- (Permutation_middle (p1 :: P) Qr' q1) in Hnd. exact Hnd. }
      { intros n Hn. rewrite Hlen. apply Hrange. in_list. }
      { simpl. split; [done|]. destruct P as [|p2 P]; [done|].
        rewrite Hnext.
        - apply (runChain_frame g); [|done]. intros n Hn. apply Hnext.
          + in_list.
          + intros ->. by apply HqP.
        - in_list.
        - done. }
      { apply (nextChain_frame g); [|done]. intros n Hn. apply Hnext.
        - in_list.
        - intros ->. by apply HqQ. }
      { done. }
      { simpl in *. lia. }
      rewrite Nat.sub_0_r, Hhead, Hlast. simpl length in Hrun. rewrite Hrun.
      exists g', (q1 :: M), q'. rewrite <- !app_assoc in *. simpl in *.
      split; [done|]. split.
      { rewrite Hperm. apply (Permutation_middle (p1 :: P)). }
      split; [done|]. split; [done|]. split; [congruence|]. split; [congruence|].
      split; [intros n; by rewrite Hzo', Hzo|].
      intros Hkeys [Hp1 HsP] [Hq1 HsQ].
      assert (zLe g q1 p1) as Hqp1.
      { apply zLe_total; [apply Hkeys; by left|apply Hkeys; in_list|done]. }
      apply (zSorted_cons g q1 M (p1 :: P ++ take k Qr')); [|done|].
      * intros b Hb. apply elem_of_cons in Hb as [->|Hb]; [done|].
        apply elem_of_app in Hb as [Hb|Hb]; [|by apply Hq1].
        apply (zLe_trans g q1 p1 b); [done|]. by apply Hp1.
      * apply (zSorted_same g1); [done|]. apply Hsorted'.
        -- intros n Hn. rewrite Hzo. apply Hkeys. revert Hn. in_list.
        -- change (zSorted g1 (p1 :: P)). apply (zSorted_same g); [done|]. by split.
        -- by apply (zSorted_same g).
Qed.

Lemma zSorted_take g k : forall l, zSorted g l -> zSorted g (take k l).
Proof.
  induction k as [|k IH]; intros [|a l]; simpl; try done.
  intros [Ha Hl]. split; [|by apply IH].
  intros b Hb. apply Ha. by apply (subseteq_take k l).
Qed.

Lemma chunksSorted_same g g' k l :
  (forall n, zOrderOf g' n = zOrderOf g n) -> chunksSorted g k l -> chunksSorted g' k l.
Proof. intros Hsame H i. by apply (zSorted_same g). Qed.

Lemma chunksSorted_1 g l : chunksSorted g 1 l.
Proof.
  intros i. destruct (drop (i * 1) l) as [|a [|b l']]; simpl; [done| |].
  - split; [|done]. intros b Hb. by apply elem_of_nil in Hb.
  - split; [|done]. intros c Hc. destruct l'; by apply elem_of_nil in Hc.
Qed.

Lemma chunksSorted_whole g k l : length l <= k -> chunksSorted g k l -> zSorted g l.
Proof.
  intros Hlen H. specialize (H 0). change (0 * k) with 0 in H.
  by rewrite drop_0, take_ge in H.
Qed.

Lemma chunksSorted_drop g k l : chunksSorted g k l -> chunksSorted g k (drop (2 * k) l).
Proof.
  intros H i. rewrite drop_drop.
  replace (2 * k + i * k) with ((2 + i) * k) by lia. apply H.
Qed.

Lemma chunksSorted_app g k M1 M2 :
  zSorted g M1 -> length M1 <= k -> (length M1 = k \/ M2 = []) ->
  chunksSorted g k M2 -> chunksSorted g k (M1 ++ M2).
Proof.
  intros H1 Hle Hfull H2 i. destruct Hfull as [Hk| ->].
  - destruct i as [|i].
    + change (0 * k) with 0. rewrite drop_0, take_app_le by lia. by apply zSorted_take.
    + replace (S i * k) with (length M1 + i * k) by lia.
      rewrite <- drop_drop, drop_app_length. apply H2.
  - rewrite app_nil_r. destruct i as [|i].
    + change (0 * k) with 0. rewrite drop_0. by apply zSorted_take.
    + rewrite drop_ge by (simpl; lia). by rewrite take_nil.
Qed.


Lemma sortPass_spec inSize : 1 <= inSize -> forall fuel g R p O numMerges,
  NoDup (O ++ R) -> (forall n, n ∈ O ++ R -> n < length g) ->
  nextChain g p R -> outLinked g None O -> length R < fuel ->
  exists g' M numMerges',
    Triangulator.sortPass fuel g p inSize (head O) (last O) numMerges
    = Ok (g', head (O ++ M), last (O ++ M), numMerges')
    /\ M ≡ₚ R /\ outLinked g' None (O ++ M)
    /\ forgetZ g' = forgetZ g /\ length g' = length g
    /\ (R = [] -> numMerges' = numMerges)
    /\ (R <> [] -> numMerges < numMerges')
    /\ (length R <= 2 * inSize -> numMerges' <= S numMerges)
    /\ (2 * inSize < length R -> S numMerges < numMerges')
    /\ (forall n, zOrderOf g' n = zOrderOf g n)
    /\ ((forall n, n ∈ R -> is_Some (zOrderOf g n)) ->
        chunksSorted g inSize R -> chunksSorted g (2 * inSize) M).
Proof.
  intros Hsize.
  induction fuel as [|fuel IH]; intros g R p O numMerges Hnd Hrange HR HO Hfuel; [lia|].
  destruct R as [|pn R'].
  { simpl in HR. subst p. simpl. exists g, [], numMerges. rewrite app_nil_r.
    split; [done|]. split; [done|]. split; [done|]. split; [done|]. split; [done|].
    split; [done|]. split; [done|]. split; [lia|]. split; [simpl; lia|].
    split; [done|]. intros _ _ i. by rewrite drop_nil, take_nil. }
  set (R := pn :: R') in *.
  assert (p = Some pn) as -> by (by destruct HR).
  destruct (sortAdvance_spec g inSize R pn 0 HR) as (q & Hadv & Hq).
  change (0 + min inSize (length R)) with (min inSize (length R)) in Hadv.
  cbn [Triangulator.sortPass]. rewrite Hadv.
  set (k := min inSize (length R)) in *.
  assert (1 <= k <= length R) as Hk by (unfold k, R; simpl; lia).
  assert (length (take k R) = k) as Htake by (rewrite length_take; lia).
  destruct (sortMerge_spec (S fuel) g (take k R) (drop k R) (Some pn) q inSize O)
    as (g1 & M1 & q' & Hrun & Hperm1 & Hq' & Hout1 & Hforget1 & Hlen1 & Hzo1 & Hsorted1).
  { by rewrite take_drop. }
  { intros n Hn. apply Hrange. by rewrite take_drop in Hn. }
  { by apply nextChain_runChain. }
  { done. }
  { done. }
  { rewrite Htake, length_drop. unfold R in *. simpl in *. lia. }
  rewrite Htake in Hrun. rewrite Hrun. unfold bind.
  assert (M1 ++ drop inSize (drop k R) ≡ₚ R) as Hall.
  { rewrite Hperm1, <- app_assoc, take_drop, take_drop. done. }
  destruct (IH g1 (drop inSize (drop k R)) q' (O ++ M1) (S numMerges))
    as (g' & M2 & numMerges' & Hrun' & Hperm2 & Hout' & Hforget' & Hlen' & Hnone & Hsome
        & Hfew & Hmany & Hzo' & Hchunks').
  { rewrite <- app_assoc. by rewrite Hall. }
  { intros n Hn. rewrite Hlen1. apply Hrange. rewrite <- app_assoc, Hall in Hn. done. }
  { done. }
  { done. }
  { rewrite !length_drop. unfold R in *. simpl in *. lia. }
  rewrite Hrun'. exists g', (M1 ++ M2), numMerges'. rewrite !app_assoc.
  split; [done|]. split; [by rewrite <- Hall, Hperm2|].
  split; [done|]. split; [congruence|]. split; [congruence|].
  split; [done|]. split.
  - intros _. destruct (decide (drop inSize (drop k R) = [])) as [He|Hne].
    + rewrite (Hnone He). lia.
    + specialize (Hsome Hne). lia.
  - split.
    { intros Hshort. rewrite Hnone; [done|].
      apply length_zero_iff_nil. rewrite !length_drop. unfold k. lia. }
    split.
    { intros Hlong. assert (drop inSize (drop k R) <> []) as Hne; [|specialize (Hsome Hne); lia].
      intros He%(f_equal length). rewrite !length_drop in He. unfold k in He.
      change (length []) with 0 in He. lia. }
    split; [intros n; by rewrite Hzo', Hzo1|].
    intros Hkeys Hchunks.
    assert (take k R = take inSize R /\ drop k R = drop inSize R) as [Htk Hdk].
    { unfold k. destruct (decide (inSize <= length R)) as [Hle|Hgt].
      - by rewrite Nat.min_l by lia.
      - rewrite Nat.min_r by lia. by rewrite !take_ge, !drop_ge by lia. }
    assert (zSorted g M1) as HsM1.
    { apply Hsorted1.
      - intros n Hn. apply Hkeys. apply elem_of_app in Hn as [Hn|Hn].
        + by apply (subseteq_take k R).
        + apply (subseteq_drop k R). by apply (subseteq_take inSize).
      - rewrite Htk. apply (Hchunks 0).
      - rewrite Hdk. specialize (Hchunks 1). by rewrite Nat.mul_1_l in Hchunks. }
    assert (length M1 = k + min inSize (length R - k)) as HlenM1.
    { rewrite (Permutation_length Hperm1), length_app, Htake, length_take, length_drop. lia. }
    apply chunksSorted_app.
    + done.
    + unfold k in *. lia.
    + destruct (decide (2 * inSize <= length R)) as [Hle|Hgt].
      * left. unfold k in *. lia.
      * right. assert (drop inSize (drop k R) = []) as He.
        { apply length_zero_iff_nil. rewrite !length_drop. unfold k. lia. }
        rewrite He in Hperm2. by apply Permutation_nil_r in Hperm2.
    + apply (chunksSorted_same g1); [done|]. apply Hchunks'.
      * intros n Hn. rewrite Hzo1. apply Hkeys.
        apply (subseteq_drop k R), (subseteq_drop inSize). done.
      * apply (chunksSorted_same g); [done|]. rewrite Hdk, drop_drop.
        replace (inSize + inSize) with (2 * inSize) by lia.
        by apply chunksSorted_drop.
Qed.

Lemma outLinked_nextChain g : forall l prev,
  outLinked g prev l ->
  match last l with Some t => nextZ g t = None | None => True end ->
  nextChain g (head l) l.
Proof.
  induction l as [|n l IH]; intros prev; [done|].
  simpl. intros (_ & Hn & Hl) Hlast. split; [done|].
  destruct l as [|n' l].
  - simpl in *. by rewrite Hlast.
  - rewrite Hn. apply (IH (Some n)); [done|]. exact Hlast.
Qed.

Lemma sortLinkedLoop_spec : forall fuel g l list_ inSize,
  1 <= inSize -> l <> [] -> NoDup l -> (forall n, n ∈ l -> n < length g) ->
  nextChain g list_ l ->
  length l + (length l - inSize) < fuel ->
  exists g' l' list',
    Triangulator.sortLinkedLoop fuel g list_ inSize = Ok (g', list')
    /\ l' ≡ₚ l /\ zLinked g' l'
    /\ forgetZ g' = forgetZ g /\ length g' = length g
    /\ (forall n, zOrderOf g' n = zOrderOf g n)
    /\ ((forall n, n ∈ l -> is_Some (zOrderOf g n)) ->
        chunksSorted g inSize l -> zSorted g' l')
    /\ list' = head l'.
Proof.
  induction fuel as [|fuel IH]; intros g l list_ inSize Hsize Hne Hnd Hrange Hl Hfuel;
    [lia|].
  destruct (sortPass_spec inSize Hsize (S fuel) g l list_ [] 0)
    as (g1 & M & numMerges & Hrun & Hperm & Hout & Hforget & Hlen & _ & Hsome & Hfew
        & Hmany & Hzo1 & Hchunks1);
    try done.
  { lia. }
  cbn [head last app] in Hrun, Hout. cbn [Triangulator.sortLinkedLoop]. rewrite Hrun. unfold bind.
  assert (M <> []) as HneM.
  { intros ->. apply Permutation_nil_l in Hperm. done. }
  destruct (last M) as [t|] eqn:Hlast; [|by apply last_None in Hlast].
  simpl deref. cbv iota beta.
  set (g2 := write g1 (HE.set_nextZ None) t).
  assert (NoDup M) as HndM by (by rewrite Hperm).
  assert (forall n, n ∈ M -> n < length g1) as HrangeM.
  { intros n Hn. rewrite Hlen. apply Hrange. by rewrite <- Hperm. }
  assert (outLinked g2 None M) as Hout2.
  { assert (forall l0 prev, t ∉ removelast l0 -> outLinked g1 prev l0 ->
              outLinked g2 prev l0) as Hgen.
    { induction l0 as [|n l0 IHl]; intros prev Hnot; simpl; [done|].
      intros (Hp & Hn & Hl0). unfold g2. rewrite prevZ_write_nextZ.
      split; [done|]. destruct l0 as [|n' l0]; [done|].
      split.
      - rewrite nextZ_write_nextZ, decide_False; [done|].
        intros [-> _]. apply Hnot. by left.
      - apply IHl; [|done]. intros Hin. apply Hnot. by right. }
    apply Hgen; [|done].
    destruct (exists_last HneM) as (M0 & t0 & ->).
    rewrite last_snoc in Hlast. injection Hlast as ->.
    rewrite removelast_last.
    apply NoDup_app in HndM as (_ & Hdisj & _). intros Hin.
    apply (Hdisj t Hin). by left. }
  assert (nextZ g2 t = None) as Ht.
  { unfold g2. rewrite nextZ_write_nextZ, decide_True; [done|].
    split; [done|]. apply HrangeM. by apply last_Some_elem_of. }
  assert (forgetZ g2 = forgetZ g) as Hforget2.
  { unfold g2. by rewrite forgetZ_write_nextZ. }
  assert (length g2 = length g) as Hlen2 by (unfold g2; by rewrite length_write).
  assert (forall n, zOrderOf g2 n = zOrderOf g n) as Hzo2.
  { intros n. unfold g2. by rewrite zOrderOf_write_nextZ. }
  destruct (1 <? numMerges) eqn:Hmore.
  - apply Nat.ltb_lt in Hmore.
    assert (2 * inSize < length l) as Hlong by lia.
    destruct (IH g2 M (head M) (inSize * 2))
      as (g' & l' & list' & Hrun' & Hperm' & Hz & Hf & Hle & Hzo' & Hsorted' & Hhead').
    + lia.
    + done.
    + done.
    + intros n Hn. rewrite Hlen2. apply Hrange. by rewrite <- Hperm.
    + apply (outLinked_nextChain g2 M None); [done|]. by rewrite Hlast.
    + rewrite Hperm. lia.
    + exists g', l', list'. split; [done|]. split; [by rewrite Hperm'|].
      split; [done|]. split; [congruence|]. split; [congruence|].
      split; [intros n; by rewrite Hzo', Hzo2|].
      split; [|done].
      intros Hkeys Hchunks. apply Hsorted'.
      * intros n Hn. rewrite Hzo2. apply Hkeys. by rewrite <- Hperm.
      * apply (chunksSorted_same g); [done|]. rewrite Nat.mul_comm. by apply Hchunks1.
  - exists g2, M, (head M). split; [done|]. split; [done|].
    split; [split; [done|]; split; [done|]; by rewrite Hlast|].
    split; [done|]. split; [done|]. split; [done|]. split; [|done].
    intros Hkeys Hchunks. apply (zSorted_same g); [done|].
    apply (chunksSorted_whole g (2 * inSize)); [|by apply Hchunks1].
    rewrite (Permutation_length Hperm). apply Nat.ltb_ge in Hmore.
    destruct (decide (2 * inSize < length l)) as [Hlong|]; [|lia].
    specialize (Hmany Hlong). lia.
Qed.

(** *** Fields that the Z-order bookkeeping leaves alone *)

Lemma forgetZ_lookup g n :
  forgetZ g !!! n = HE.set_zOrder None (HE.set_prevZ None (HE.set_nextZ None (g !!! n))).
Proof.
  unfold forgetZ. rewrite !list_lookup_total_alt, list_lookup_fmap.
  by destruct (g !! n).
Qed.

Lemma forgetZ_field {A} (proj : HE.t -> A) g g' n :
  (forall e, proj (HE.set_zOrder None (HE.set_prevZ None (HE.set_nextZ None e))) = proj e) ->
  forgetZ g' = forgetZ g -> proj (g' !!! n) = proj (g !!! n).
Proof.
  intros Hproj Hsame.
  rewrite <- (Hproj (g' !!! n)), <- (Hproj (g !!! n)), <- !forgetZ_lookup.
  by rewrite Hsame.
Qed.

Lemma forgetZ_idemp g : forgetZ (forgetZ g) = forgetZ g.
Proof.
  unfold forgetZ. rewrite <- list_fmap_compose. apply list_fmap_ext.
  intros _ e _. done.
Qed.

Lemma forgetZ_faceSuccessor g g' n :
  forgetZ g' = forgetZ g -> faceSuccessor g' n = faceSuccessor g n.
Proof. by apply (forgetZ_field HE.faceSuccessor). Qed.

Lemma forgetZ_facePredecessor g g' n :
  forgetZ g' = forgetZ g -> facePredecessor g' n = facePredecessor g n.
Proof. by apply (forgetZ_field HE.facePredecessor). Qed.

Lemma forgetZ_edgeMate g g' n : forgetZ g' = forgetZ g -> edgeMate g' n = edgeMate g n.
Proof. by apply (forgetZ_field HE.edgeMate). Qed.

Lemma forgetZ_maskBits g g' n : forgetZ g' = forgetZ g -> maskBits g' n = maskBits g n.
Proof. by apply (forgetZ_field HE.maskBits). Qed.

Lemma forgetZ_isMaskSet g g' n mask :
  forgetZ g' = forgetZ g -> isMaskSet g' n mask = isMaskSet g n mask.
Proof. intros H. unfold isMaskSet. by rewrite (forgetZ_maskBits _ _ _ H). Qed.

Lemma forgetZ_xy g g' n :
  forgetZ g' = forgetZ g -> Triangulator.xy g' n = Triangulator.xy g n.
Proof.
  intros H. unfold Triangulator.xy, X, Y.
  by rewrite (forgetZ_field HE.x _ _ _ (fun _ => eq_refl) H),
    (forgetZ_field HE.y _ _ _ (fun _ => eq_refl) H).
Qed.

Lemma forgetZ_X g g' n : forgetZ g' = forgetZ g -> X g' n = X g n.
Proof. by apply (forgetZ_field HE.x). Qed.

Lemma forgetZ_Y g g' n : forgetZ g' = forgetZ g -> Y g' n = Y g n.
Proof. by apply (forgetZ_field HE.y). Qed.

Lemma forgetZ_Zc g g' n : forgetZ g' = forgetZ g -> Zc g' n = Zc g n.
Proof. by apply (forgetZ_field HE.z). Qed.

Lemma forgetZ_I g g' n : forgetZ g' = forgetZ g -> I g' n = I g n.
Proof. by apply (forgetZ_field HE.i). Qed.

Lemma forgetZ_cornerArea g g' n :
  forgetZ g' = forgetZ g -> Triangulator.cornerArea g' n = Triangulator.cornerArea g n.
Proof.
  intros H. unfold Triangulator.cornerArea.
  by rewrite (forgetZ_faceSuccessor _ _ _ H), (forgetZ_facePredecessor _ _ _ H),
    !(forgetZ_xy _ _ _ H).
Qed.

Lemma forgetZ_length g g' : forgetZ g' = forgetZ g -> length g' = length g.
Proof. intros H%(f_equal length). by rewrite !length_forgetZ in H. Qed.

Lemma forgetZ_walk g g' seed cur l :
  forgetZ g' = forgetZ g -> walk g seed cur l -> walk g' seed cur l.
Proof.
  intros Hsame Hw. induction Hw as [cur Hs|cur l Hs Hw IH].
  - constructor. by rewrite (forgetZ_faceSuccessor _ _ _ Hsame).
  - constructor; rewrite (forgetZ_faceSuccessor _ _ _ Hsame); done.
Qed.

Lemma forgetZ_linked g g' : forgetZ g' = forgetZ g -> linked g -> linked g'.
Proof.
  intros Hsame. apply linked_same_links.
  - by apply forgetZ_length.
  - intros n. by apply forgetZ_faceSuccessor.
  - intros n. by apply forgetZ_facePredecessor.
Qed.

(** *** [indexCurve] *)

Lemma zOrderOf_write_zOrder g v t n :
  zOrderOf (write g (HE.set_zOrder v) t) n
  = if decide (t = n /\ t < length g) then v else zOrderOf g n.
Proof. unfold zOrderOf. rewrite lookup_write. by case_decide. Qed.

Lemma indexCurveLoop_spec g0 start minX minY size cur l :
  walk g0 start cur l -> (forall n, n ∈ l -> n < length g0) ->
  forall fuel g, forgetZ g = forgetZ g0 -> length l <= fuel ->
  exists g',
    Triangulator.indexCurveLoop fuel g start cur minX minY size = Ok g'
    /\ forgetZ g' = forgetZ g0
    /\ (forall n, n ∈ l ->
          nextZ g' n = Some (faceSuccessor g0 n)
          /\ prevZ g' n = Some (facePredecessor g0 n))
    /\ (forall n, n ∉ l -> nextZ g' n = nextZ g n /\ prevZ g' n = prevZ g n)
    /\ (forall n, n ∈ l ->
          zOrderOf g' n
          = Some (match zOrderOf g n with
                  | Some z => z
                  | None => Triangulator.zOrder (X g0 n) (Y g0 n) minX minY size
                  end))
    /\ (forall n, n ∉ l -> zOrderOf g' n = zOrderOf g n).
Proof.
  intros Hw. pose proof (walk_NoDup _ _ _ _ Hw) as Hnd.
  induction Hw as [cur Hs|cur l Hs Hw IH]; intros Hrange fuel g Hsame Hfuel;
    (destruct fuel as [|fuel]; [simpl in Hfuel; lia|]);
    cbn [Triangulator.indexCurveLoop];
    set (ga := match zOrderOf g cur with
               | Some _ => g
               | None => write g (HE.set_zOrder
                            (Some (Triangulator.zOrder (X g cur) (Y g cur) minX minY size)))
                           cur
               end);
    assert (forgetZ ga = forgetZ g0) as Ha
      by (unfold ga; destruct (zOrderOf g cur); by rewrite ?forgetZ_write_zOrder);
    set (gb := write ga (HE.set_prevZ (Some (facePredecessor ga cur))) cur);
    assert (forgetZ gb = forgetZ g0) as Hb by (unfold gb; by rewrite forgetZ_write_prevZ);
    set (gc := write gb (HE.set_nextZ (Some (faceSuccessor gb cur))) cur);
    assert (forgetZ gc = forgetZ g0) as Hc by (unfold gc; by rewrite forgetZ_write_nextZ);
    assert (cur < length gb /\ cur < length ga) as [Hcurb Hcura]
      by (rewrite (forgetZ_length _ _ Hb), (forgetZ_length _ _ Ha); split; apply Hrange;
          by left);
    assert (zOrderOf gc cur
            = Some (match zOrderOf g cur with
                    | Some z => z
                    | None => Triangulator.zOrder (X g0 cur) (Y g0 cur) minX minY size
                    end)
            /\ forall n, n <> cur -> zOrderOf gc n = zOrderOf g n) as [Hzc Hzother]
      by (unfold gc, gb; split; [|intros n Hn];
          rewrite zOrderOf_write_nextZ, zOrderOf_write_prevZ; unfold ga;
          destruct (zOrderOf g cur) eqn:Hz; try done;
          rewrite zOrderOf_write_zOrder;
          [rewrite decide_True
             by (split; [done|]; rewrite (forgetZ_length _ _ Hsame); apply Hrange; by left);
           by rewrite (forgetZ_X _ _ _ Hsame), (forgetZ_Y _ _ _ Hsame)
          |by rewrite decide_False by (intros [? _]; congruence)]);
    assert (nextZ gc cur = Some (faceSuccessor g0 cur)
            /\ prevZ gc cur = Some (facePredecessor g0 cur)) as [Hnc Hpc]
      by (unfold gc; rewrite nextZ_write_nextZ, prevZ_write_nextZ, decide_True by done;
          unfold gb at 2; rewrite prevZ_write_prevZ, decide_True by done;
          by rewrite (forgetZ_faceSuccessor _ _ _ Hb), (forgetZ_facePredecessor _ _ _ Ha));
    assert (forall n, n <> cur -> nextZ gc n = nextZ g n /\ prevZ gc n = prevZ g n) as Hother
      by (intros n Hn; unfold gc, gb;
          rewrite nextZ_write_nextZ, prevZ_write_nextZ, nextZ_write_prevZ, prevZ_write_prevZ;
          rewrite !decide_False by (intros [? _]; congruence);
          unfold ga; destruct (zOrderOf g cur); [done|];
          split; [by apply (lookup_write_keep HE.nextZ)|by apply (lookup_write_keep HE.prevZ)]);
    rewrite (forgetZ_faceSuccessor _ _ _ Hc).
  - rewrite Hs, Nat.eqb_refl. exists gc. split; [done|]. split; [done|].
    split; [|split; [|split]].
    + intros n ->%list_elem_of_singleton. done.
    + intros n Hn. apply Hother. intros ->. apply Hn. by left.
    + intros n ->%list_elem_of_singleton. done.
    + intros n Hn. apply Hzother. intros ->. apply Hn. by left.
  - apply Nat.eqb_neq in Hs. rewrite Hs.
    apply NoDup_cons in Hnd as [Hnotin Hnd].
    destruct (IH Hnd (fun n Hn => Hrange n (list_elem_of_further _ _ _ Hn)) fuel gc Hc)
      as (g' & Hrun & Hsame' & Hin & Hout & Hzin & Hzout); [simpl in Hfuel; lia|].
    exists g'. split; [done|]. split; [done|]. split; [|split; [|split]].
    + intros n [->|Hn]%elem_of_cons; [|by apply Hin].
      destruct (Hout cur Hnotin) as [-> ->]. done.
    + intros n Hn. apply not_elem_of_cons in Hn as [Hne Hn].
      destruct (Hout n Hn) as [-> ->]. by apply Hother.
    + intros n [->|Hn]%elem_of_cons; [by rewrite (Hzout cur Hnotin)|].
      rewrite (Hzin n Hn), Hzother; [done|]. by intros ->.
    + intros n Hn. apply not_elem_of_cons in Hn as [Hne Hn].
      rewrite (Hzout n Hn). by apply Hzother.
Qed.

Lemma walk_nextChain g g' start : linked g -> forall cur l,
  walk g start cur l -> cur < length g ->
  (forall n, n ∈ l ->
     nextZ g' n = if decide (n = facePredecessor g start) then None
                  else Some (faceSuccessor g n)) ->
  nextChain g' (Some cur) l.
Proof.
  intros Hlinked cur l Hw. induction Hw as [cur Hs|cur l Hs Hw IH]; intros Hcur Hnext.
  - simpl. split; [done|]. rewrite Hnext by (by left). rewrite decide_True; [done|].
    rewrite <- Hs. symmetry. by apply Hlinked.
  - simpl. split; [done|]. rewrite Hnext by (by left). rewrite decide_False.
    + apply IH; [by apply Hlinked|]. intros n Hn. apply Hnext. by right.
    + intros ->. apply Hs. apply Hlinked.
      destruct (walk_head _ _ _ _ Hw) as [l' ->].
      assert (start < length g) as Hstart.
      { apply (walk_into_closed g start (faceSuccessor g (facePredecessor g start))
                 (faceSuccessor g (facePredecessor g start) :: l')
                 (fun m => m < length g) (faceSuccessor g (facePredecessor g start)));
          [intros m Hm; by apply Hlinked|done|by left|by apply Hlinked]. }
      done.
Qed.

Lemma indexCurve_spec fuel g start minX minY size l :
  linked g -> start < length g -> walk g start start l ->
  2 * length l <= fuel ->
  exists g' zl,
    Triangulator.indexCurve fuel g start minX minY size = Ok g'
    /\ zl ≡ₚ l /\ zLinked g' zl /\ forgetZ g' = forgetZ g
    /\ zSorted g' zl
    /\ (forall n, n ∈ l ->
          zOrderOf g' n
          = Some (match zOrderOf g n with
                  | Some z => z
                  | None => Triangulator.zOrder (X g n) (Y g n) minX minY size
                  end))
    /\ (forall n, n ∉ l -> zOrderOf g' n = zOrderOf g n).
Proof.
  intros Hlinked Hstart Hw Hfuel.
  assert (forall n, n ∈ l -> n < length g) as Hrange.
  { by apply (walk_in_range g start start l (linked_successorsInRange g Hlinked)). }
  assert (l <> []) as Hne by (destruct (walk_head _ _ _ _ Hw) as [l' ->]; done).
  assert (1 <= length l) as Hlen by (destruct l; [done|simpl; lia]).
  destruct (indexCurveLoop_spec g start minX minY size start l Hw Hrange fuel g eq_refl)
    as (g1 & Hrun & Hsame & Hin & Hout1 & Hzin & Hzout); [lia|].
  assert (start ∈ l) as Hsl by (destruct (walk_head _ _ _ _ Hw) as [l' ->]; by left).
  unfold Triangulator.indexCurve. rewrite Hrun. unfold bind.
  destruct (Hin start Hsl) as [_ Hprev]. rewrite Hprev. simpl deref. cbv iota beta.
  set (t := facePredecessor g start).
  assert (t < length g) as Ht by (by apply Hlinked).
  set (g2 := write g1 (HE.set_nextZ None) t).
  set (g3 := write g2 (HE.set_prevZ None) start).
  assert (length g1 = length g) as Hlen1 by (by apply forgetZ_length).
  assert (forgetZ g3 = forgetZ g) as Hsame3.
  { unfold g3, g2. by rewrite forgetZ_write_prevZ, forgetZ_write_nextZ. }
  assert (nextChain g3 (Some start) l) as Hchain.
  { apply (walk_nextChain g g3 start Hlinked start l Hw Hstart).
    intros n Hn. unfold g3, g2. rewrite nextZ_write_prevZ, nextZ_write_nextZ.
    fold t. destruct (decide (n = t)) as [->|Hnt].
    - rewrite decide_True; [done|]. split; [done|]. by rewrite Hlen1.
    - rewrite decide_False by (intros [? _]; congruence). by apply Hin. }
  assert (forall n, zOrderOf g3 n = zOrderOf g1 n) as Hzo3.
  { intros n. unfold g3, g2. by rewrite zOrderOf_write_prevZ, zOrderOf_write_nextZ. }
  destruct (sortLinkedLoop_spec fuel g3 l (Some start) 1)
    as (g' & zl & list' & Hsort & Hperm & Hz & Hsame' & _ & Hzo' & Hsorted & _); try done.
  { by eapply walk_NoDup. }
  { intros n Hn. rewrite (forgetZ_length _ _ Hsame3). by apply Hrange. }
  { lia. }
  unfold Triangulator.sortLinked. rewrite Hsort. exists g', zl.
  split; [done|]. split; [done|]. split; [done|]. split; [congruence|].
  split; [|split].
  - apply Hsorted; [|apply chunksSorted_1].
    intros n Hn. rewrite Hzo3, (Hzin n Hn). done.
  - intros n Hn. by rewrite Hzo', Hzo3, (Hzin n Hn).
  - intros n Hn. by rewrite Hzo', Hzo3, (Hzout n Hn).
Qed.

(** *** Unlinking a node of the Z-order list *)

Lemma outLinked_loose g g' : forall l prev,
  (forall n, n ∈ l -> prevZ g' n = prevZ g n) ->
  (forall n, n ∈ removelast l -> nextZ g' n = nextZ g n) ->
  outLinked g prev l -> outLinked g' prev l.
Proof.
  induction l as [|n l IH]; intros prev Hp Hn; simpl; [done|].
  intros (Hpn & Hnn & Hl). rewrite Hp by (by left). split; [done|].
  destruct l as [|n' l]; [done|]. split.
  - rewrite Hn; [done|]. by left.
  - apply IH; [|intros m Hm; apply Hn; by right|done].
    intros m Hm. apply Hp. by right.
Qed.

Lemma outLinked_app g : forall l1 l2 prev,
  outLinked g prev (l1 ++ l2)
  <-> outLinked g prev l1
      /\ outLinked g (match last l1 with Some t => Some t | None => prev end) l2
      /\ match last l1, l2 with
         | Some t, n :: _ => nextZ g t = Some n
         | _, _ => True
         end.
Proof.
  induction l1 as [|a l1 IH]; intros l2 prev.
  - simpl. tauto.
  - change ((a :: l1) ++ l2) with (a :: (l1 ++ l2)).
    cbn [outLinked]. rewrite (IH l2 (Some a)). rewrite last_cons_or.
    destruct l1 as [|b l1]; simpl.
    + destruct l2; tauto.
    + rewrite last_cons_or. destruct (last l1); simpl; tauto.
Qed.

Lemma unlinkZ_zLinked g l1 e l2 :
  zLinked g (l1 ++ e :: l2) -> (forall n, n ∈ l1 ++ e :: l2 -> n < length g) ->
  zLinked (unlinkZ g e) (l1 ++ l2)
  /\ forall n, n ∉ l1 ++ l2 ->
       prevZ (unlinkZ g e) n = prevZ g n /\ nextZ (unlinkZ g e) n = nextZ g n.
Proof.
  intros (Hnd & Hout & Hlast) Hrange.
  apply outLinked_app in Hout as (H1 & H2 & HJ).
  cbn [outLinked] in H2. destruct H2 as (Hpe & Hne & H2).
  assert (match last l1 with Some t => Some t | None => None end = last l1) as Hl1
    by (by destruct (last l1)).
  rewrite Hl1 in Hpe.
  assert (nextZ g e = head l2) as Hnext.
  { destruct l2 as [|b l2]; [|done]. rewrite last_snoc in Hlast. done. }
  assert (NoDup (l1 ++ l2) /\ (e ∉ l1) /\ (e ∉ l2)) as (Hnd' & He1 & He2).
  { apply NoDup_app in Hnd as (Hn1 & Hdisj & Hn2).
    apply NoDup_cons in Hn2 as [He2 Hn2]. split; [|split; [|done]].
    - apply NoDup_app. split; [done|]. split; [|done].
      intros n Hn Hn'. apply (Hdisj n Hn). by right.
    - intros Hin. apply (Hdisj e Hin). by left. }
  assert (forall t, last l1 = Some t -> t ∈ l1) as Hlast_in
    by (intros t; apply last_Some_elem_of).
  assert (forall b, head l2 = Some b -> b ∈ l2) as Hhead_in
    by (intros b Hb; destruct l2; [done|]; injection Hb as ->; by left).
  (* the fields of the new graph *)
  assert (forall n, prevZ (unlinkZ g e) n
                    = if decide (head l2 = Some n) then last l1 else prevZ g n) as Hprev.
  { intros n. unfold unlinkZ. rewrite Hpe.
    assert (forall g0, nextZ g0 e = head l2 -> prevZ g0 e = last l1 ->
              length g0 = length g -> (forall m, prevZ g0 m = prevZ g m) ->
              prevZ match nextZ g0 e with
                    | Some nz => write g0 (HE.set_prevZ (prevZ g0 e)) nz
                    | None => g0
                    end n
              = if decide (head l2 = Some n) then last l1 else prevZ g n) as Hgen.
    { intros g0 Hn0 Hp0 Hlen0 Hsame0. rewrite Hn0.
      destruct (head l2) as [b|] eqn:Hb.
      - rewrite prevZ_write_prevZ, Hp0, Hlen0.
        destruct (decide (b = n)) as [->|Hbn].
        + rewrite !decide_True; [done|done|]. split; [done|]. apply Hrange.
          rewrite elem_of_app. right. right. by apply Hhead_in.
        + rewrite !decide_False; [by rewrite Hsame0|congruence|by intros []].
      - rewrite decide_False by done. apply Hsame0. }
    destruct (last l1) as [t|] eqn:Ht.
    - apply Hgen.
      + rewrite nextZ_write_nextZ, decide_False; [done|].
        intros [-> _]. apply He1. by apply Hlast_in.
      + by rewrite prevZ_write_nextZ.
      + by rewrite length_write.
      + intros m. by rewrite prevZ_write_nextZ.
    - by apply Hgen. }
  assert (forall n, nextZ (unlinkZ g e) n
                    = if decide (last l1 = Some n) then head l2 else nextZ g n) as Hnxt.
  { intros n. unfold unlinkZ. rewrite Hpe.
    assert (forall g0, nextZ (match nextZ g0 e with
                              | Some nz => write g0 (HE.set_prevZ (prevZ g0 e)) nz
                              | None => g0
                              end) n = nextZ g0 n) as Hgen.
    { intros g0. destruct (nextZ g0 e); [|done]. by rewrite nextZ_write_prevZ. }
    rewrite Hgen. destruct (last l1) as [t|] eqn:Ht.
    - rewrite nextZ_write_nextZ, Hnext. destruct (decide (t = n)) as [->|Htn].
      + rewrite !decide_True; [done|done|]. split; [done|]. apply Hrange.
        rewrite elem_of_app. left. by apply Hlast_in.
      + rewrite !decide_False; [done|congruence|by intros []].
    - by rewrite decide_False. }
  split.
  - split; [done|]. split.
    + apply outLinked_app. split; [|split].
      * apply (outLinked_loose g); [| |done].
        -- intros n Hn. rewrite Hprev, decide_False; [done|].
           intros Hh%Hhead_in. apply NoDup_app in Hnd' as (_ & Hdisj & _).
           by apply (Hdisj n).
        -- intros n Hn. rewrite Hnxt, decide_False; [done|].
           intros Hl. destruct (exists_last (l := l1)) as (l0 & t & ->).
           { intros ->. by apply elem_of_nil in Hn. }
           rewrite last_snoc in Hl. injection Hl as ->.
           rewrite removelast_last in Hn.
           apply NoDup_app in Hnd' as (Hn1 & _ & _).
           apply NoDup_app in Hn1 as (_ & Hdisj & _).
           apply (Hdisj n Hn). by left.
      * rewrite Hl1. destruct l2 as [|b l2]; [done|].
        cbn [outLinked] in H2 |- *. destruct H2 as (Hpb & Hnb & H2).
        rewrite Hprev, decide_True by done. split; [done|]. split.
        -- destruct l2 as [|b' l2]; [done|]. rewrite Hnxt, decide_False; [done|].
           intros Hl%Hlast_in. apply NoDup_app in Hnd' as (_ & Hdisj & _).
           apply (Hdisj b Hl). by left.
        -- apply (outLinked_frame g); [|done]. intros n Hn.
           apply NoDup_app in Hnd' as (_ & Hdisj & Hn2).
           apply NoDup_cons in Hn2 as [Hb _].
           rewrite Hprev, Hnxt.
           destruct (decide (last l1 = Some n)) as [Hl%Hlast_in|_].
           { exfalso. apply (Hdisj n Hl). by right. }
           destruct (decide (head (b :: l2) = Some n)) as [[= ->]|_]; done.
      * destruct (last l1) as [t|] eqn:Ht; [|done]. destruct l2 as [|b l2]; [done|].
        rewrite Hnxt, decide_True by done. done.
    + rewrite last_app. destruct (last l2) as [t2|] eqn:Ht2.
      * rewrite Hnxt, decide_False.
        -- replace (l1 ++ e :: l2) with ((l1 ++ [e]) ++ l2) in Hlast
             by (by rewrite <- app_assoc).
           rewrite last_app, Ht2 in Hlast. done.
        -- intros Hl%Hlast_in. apply NoDup_app in Hnd' as (_ & Hdisj & _).
           apply (Hdisj t2 Hl). by apply last_Some_elem_of.
      * destruct (last l1) as [t|] eqn:Ht; [|done].
        rewrite Hnxt, decide_True by done.
        apply last_None in Ht2. subst l2. done.
  - intros n Hn. rewrite Hprev, Hnxt.
    destruct (decide (last l1 = Some n)) as [Hl%Hlast_in|_].
    { exfalso. apply Hn. rewrite elem_of_app. by left. }
    destruct (decide (head l2 = Some n)) as [Hh%Hhead_in|_]; [|done].
    exfalso. apply Hn. rewrite elem_of_app. by right.
Qed.

Lemma unlinkZ_unlinked g e : prevZ g e = None -> nextZ g e = None -> unlinkZ g e = g.
Proof. intros Hp Hn. unfold unlinkZ. by rewrite Hp, Hn. Qed.

Lemma zLinked_same g g' l :
  (forall n, n ∈ l -> nextZ g' n = nextZ g n /\ prevZ g' n = prevZ g n) ->
  zLinked g l -> zLinked g' l.
Proof.
  intros Hsame (Hnd & Hout & Hlast). split; [done|]. split.
  - by apply (outLinked_frame g).
  - destruct (last l) as [t|] eqn:Ht; [|done].
    destruct (Hsame t) as [-> _]; [by apply last_Some_elem_of|done].
Qed.

(** *** The scans of [isEarHashed] *)

Lemma scanNextZ_true g ear maxZ : forall l fuel p,
  nextChain g p l -> (forall n, n ∈ l -> Triangulator.blocksEar g ear n = false) ->
  length l < fuel ->
  Triangulator.scanNextZ fuel g ear maxZ p = Ok true.
Proof.
  induction l as [|n l IH]; intros fuel p Hp Hfree Hfuel;
    (destruct fuel as [|fuel]; [simpl in Hfuel; lia|]); simpl in Hp.
  - by subst p.
  - destruct Hp as [-> Hp]. simpl. destruct (negb _); [done|].
    rewrite Hfree by (by left). apply IH; [done| |simpl in Hfuel; lia].
    intros m Hm. apply Hfree. by right.
Qed.

Lemma scanPrevZ_true g ear minZ : forall l fuel p,
  prevChain g p l -> (forall n, n ∈ l -> Triangulator.blocksEar g ear n = false) ->
  length l < fuel ->
  Triangulator.scanPrevZ fuel g ear minZ p = Ok true.
Proof.
  induction l as [|n l IH]; intros fuel p Hp Hfree Hfuel;
    (destruct fuel as [|fuel]; [simpl in Hfuel; lia|]); simpl in Hp.
  - by subst p.
  - destruct Hp as [-> Hp]. simpl. destruct (negb _); [done|].
    rewrite Hfree by (by left). apply IH; [done| |simpl in Hfuel; lia].
    intros m Hm. apply Hfree. by right.
Qed.

Lemma outLinked_prevChain g : forall l,
  outLinked g None l -> prevChain g (last l) (rev l).
Proof.
  induction l as [|t l IH] using rev_ind; [done|].
  intros (H1 & H2 & _)%outLinked_app. simpl in H2. destruct H2 as (Hp & _).
  rewrite last_snoc, rev_unit. simpl. split; [done|]. rewrite Hp.
  replace (match last l with Some t0 => Some t0 | None => None end) with (last l)
    by (by destruct (last l)).
  by apply IH.
Qed.

Lemma zLinked_chains g l1 e l2 :
  zLinked g (l1 ++ e :: l2) ->
  nextChain g (nextZ g e) l2 /\ prevChain g (prevZ g e) (rev l1).
Proof.
  intros (Hnd & Hout & Hlast).
  apply outLinked_app in Hout as (H1 & H2 & HJ).
  cbn [outLinked] in H2. destruct H2 as (Hpe & Hne & H2). split.
  - destruct l2 as [|b l2].
    + rewrite last_snoc in Hlast. by rewrite Hlast.
    + rewrite Hne. apply (outLinked_nextChain g (b :: l2) (Some e)); [done|].
      replace (l1 ++ e :: b :: l2) with ((l1 ++ [e]) ++ b :: l2) in Hlast
        by (by rewrite <- app_assoc).
      rewrite last_app in Hlast. rewrite last_cons_or in *. done.
  - rewrite Hpe.
    replace (match last l1 with Some t0 => Some t0 | None => None end) with (last l1)
      by (by destruct (last l1)).
    by apply outLinked_prevChain.
Qed.

(** ** Face loops as chains of successors *)

Lemma chain_head g a l b : chain g a l b -> exists l', l = a :: l'.
Proof. destruct 1; eauto. Qed.

Lemma walk_chain g s cur l : walk g s cur l -> chain g cur l s.
Proof. induction 1; by constructor. Qed.

Lemma chain_walk g cur l s :
  chain g cur l s -> (forall l', l = cur :: l' -> s ∉ l') -> walk g s cur l.
Proof.
  induction 1 as [a b Hs|a l b Hc IH]; intros Hnot.
  - by constructor.
  - destruct (chain_head _ _ _ _ Hc) as [l' ->]. specialize (Hnot _ eq_refl).
    constructor.
    + intros Heq. apply Hnot. rewrite Heq. by left.
    + apply IH. intros l'' [= <-]. intros Hin. apply Hnot. by right.
Qed.

Lemma chain_app g a l1 b l2 c :
  chain g a l1 b -> chain g b l2 c -> chain g a (l1 ++ l2) c.
Proof.
  induction 1 as [a b Hs|a l b Hc IH]; intros H2; simpl.
  - constructor. by rewrite Hs.
  - constructor. by apply IH.
Qed.

Lemma chain_frame g g' a l b :
  (forall n, n ∈ l -> faceSuccessor g' n = faceSuccessor g n) ->
  chain g a l b -> chain g' a l b.
Proof.
  intros Hsame Hc. induction Hc as [a b Hs|a l b Hc IH].
  - constructor. rewrite Hsame; [done|by left].
  - constructor. rewrite Hsame by (by left). apply IH.
    intros n Hn. apply Hsame. by right.
Qed.

Lemma chain_snoc_inv g : forall l a z b,
  chain g a (l ++ [z]) b ->
  faceSuccessor g z = b /\ (l = [] /\ a = z \/ chain g a l z).
Proof.
  induction l as [|x l IH]; intros a z b Hc.
  - inversion Hc as [? ? Hs|? ? ? Hc']; subst; [by auto|]. inversion Hc'.
  - inversion Hc as [? ? Hs Ha Hl|? ? ? Hc' Ha Hl]; subst.
    { by destruct l. }
    destruct (IH _ _ _ Hc') as [Hz [[-> Hx]|Hl]].
    + split; [done|]. right. by constructor.
    + split; [done|]. right. by constructor.
Qed.

Lemma chain_snoc g l a z b :
  l = [] /\ a = z \/ chain g a l z -> faceSuccessor g z = b -> chain g a (l ++ [z]) b.
Proof.
  intros [[-> ->]|Hc] Hs.
  - by constructor.
  - apply (chain_app g a l z [z] b); [done|by constructor].
Qed.

Lemma chain_cons_inv g a x l b :
  chain g a (a :: x :: l) b -> faceSuccessor g a = x /\ chain g x (x :: l) b.
Proof.
  inversion 1 as [|? ? ? Hc]; subst.
  destruct (chain_head _ _ _ _ Hc) as [l' [= Hx _]]. rewrite <- Hx in *. done.
Qed.

Lemma chain_last_succ g a l b t : chain g a l b -> last l = Some t -> faceSuccessor g t = b.
Proof.
  induction 1 as [a b Hs|a l b Hc IH]; intros Hl.
  - by injection Hl as <-.
  - destruct (chain_head _ _ _ _ Hc) as [l' ->]. apply IH. exact Hl.
Qed.

(** ** Convexity *)

Lemma signedTriangleArea_cyclic a b c :
  (Triangulator.signedTriangleArea b c a == Triangulator.signedTriangleArea a b c)%Q.
Proof. unfold Triangulator.signedTriangleArea. ring. Qed.

Lemma convexLoop_sublist l l' : l' `sublist_of` l -> convexLoop l -> convexLoop l'.
Proof. intros Hsub Hl a b c Habc. apply Hl. by etrans. Qed.

Lemma convexLoop_rotate x l : convexLoop (x :: l) -> convexLoop (l ++ [x]).
Proof.
  intros Hl a b c Habc.
  apply sublist_app_r in Habc as (k1 & k2 & Heq & H1 & H2).
  apply sublist_cons_r in H2 as [H2|(k' & -> & H2)].
  - apply sublist_nil_r in H2 as ->. rewrite app_nil_r in Heq. subst k1.
    apply Hl. by apply sublist_cons.
  - apply sublist_nil_r in H2 as ->.
    destruct k1 as [|a' [|b' [|p l0]]]; simplify_eq/=; [|by destruct l0].
    rewrite (signedTriangleArea_cyclic x a' b'). apply Hl. by apply sublist_skip.
Qed.

Lemma convexLoop_rotate_app l1 : forall l2, convexLoop (l1 ++ l2) -> convexLoop (l2 ++ l1).
Proof.
  induction l1 as [|x l1 IH]; intros l2 H; [by rewrite app_nil_r|].
  replace (l2 ++ x :: l1) with ((l2 ++ [x]) ++ l1) by (by rewrite <- app_assoc).
  apply IH. rewrite app_assoc. by apply convexLoop_rotate.
Qed.

Lemma convexLoop_corner a e c l :
  convexLoop (e :: c :: l ++ [a]) -> (Triangulator.signedTriangleArea a e c < 0)%Q.
Proof.
  intros H. rewrite <- signedTriangleArea_cyclic. apply H.
  do 2 apply sublist_skip. apply sublist_inserts_l. done.
Qed.

Lemma allPairs_sublist {A} (P : A -> A -> bool) : forall l b c,
  allPairs P l = true -> [b; c] `sublist_of` l -> P b c = true.
Proof.
  induction l as [|x l IH]; intros b c Hall Hsub.
  - by apply sublist_nil_r in Hsub.
  - simpl in Hall. apply andb_true_iff in Hall as [Hx Hall].
    apply sublist_cons_r in Hsub as [Hsub|(k & [= -> <-] & Hsub)]; [by apply IH|].
    rewrite forallb_forall in Hx. apply Hx.
    apply list_elem_of_In. apply (elem_of_sublist [c]); [by left|done].
Qed.

Lemma allTriples_sublist {A} (P : A -> A -> A -> bool) : forall l a b c,
  allTriples P l = true -> [a; b; c] `sublist_of` l -> P a b c = true.
Proof.
  induction l as [|x l IH]; intros a b c Hall Hsub.
  - by apply sublist_nil_r in Hsub.
  - simpl in Hall. apply andb_true_iff in Hall as [Hx Hall].
    apply sublist_cons_r in Hsub as [Hsub|(k & [= -> <-] & Hsub)]; [by apply IH|].
    by apply (allPairs_sublist _ l).
Qed.

Lemma convexLoopb_convexLoop l : convexLoopb l = true -> convexLoop l.
Proof.
  intros H a b c Hsub. apply Qltb_lt.
  by apply (allTriples_sublist
              (fun a b c => Qltb (Triangulator.signedTriangleArea a b c) 0) l).
Qed.

(** ** Operations that do not read the Z-order fields *)

Lemma forgetZ_self g : forgetZ (forgetZ g) = forgetZ g.
Proof. apply forgetZ_idemp. Qed.

Lemma forgetZ_write_comm g f n :
  (forall e, HE.set_zOrder None (HE.set_prevZ None (HE.set_nextZ None (f e)))
             = f (HE.set_zOrder None (HE.set_prevZ None (HE.set_nextZ None e)))) ->
  forgetZ (write g f n) = write (forgetZ g) f n.
Proof.
  intros Hf. unfold forgetZ, write. apply list_eq. intros k.
  rewrite list_lookup_fmap, !list_lookup_alter.
  case_decide as Hk.
  - subst. rewrite (list_lookup_fmap _ g k). destruct (g !! k); simpl; [|done].
    by rewrite Hf.
  - by rewrite (list_lookup_fmap _ g k).
Qed.

Lemma forgetZ_setMask g n mask : forgetZ (setMask g n mask) = setMask (forgetZ g) n mask.
Proof.
  unfold setMask. rewrite forgetZ_write_comm by done.
  by rewrite (forgetZ_maskBits g (forgetZ g) n (forgetZ_idemp g)).
Qed.

Lemma forgetZ_pinch g a b : forgetZ (HalfEdge.pinch g a b) = HalfEdge.pinch (forgetZ g) a b.
Proof.
  unfold HalfEdge.pinch. destruct (a =? b); [done|].
  unfold setFaceSuccessor, setFacePredecessor.
  rewrite !forgetZ_write_comm by done.
  by rewrite !(forgetZ_facePredecessor g (forgetZ g) _ (forgetZ_idemp g)).
Qed.

Lemma forgetZ_app g l : forgetZ (g ++ l) = forgetZ g ++ forgetZ l.
Proof. apply fmap_app. Qed.

Lemma forgetZ_unlinkZ g e : forgetZ (unlinkZ g e) = forgetZ g.
Proof.
  unfold unlinkZ. destruct (prevZ g e); destruct (nextZ _ e);
    by rewrite ?forgetZ_write_prevZ, ?forgetZ_write_nextZ.
Qed.

Lemma unlinkZ_forgetZ g l e : unlinkZ (forgetZ g ++ forgetZ l) e = forgetZ g ++ forgetZ l.
Proof.
  rewrite <- forgetZ_app. apply unlinkZ_unlinked.
  - unfold prevZ. by rewrite forgetZ_lookup.
  - unfold nextZ. by rewrite forgetZ_lookup.
Qed.

Lemma forgetZ_joinLinks g e : forgetZ (joinLinks g e) = joinLinks (forgetZ g) e.
Proof.
  pose proof (forgetZ_idemp g) as Hz.
  rewrite !joinLinks_eq, !createEdgeXYZXYZ_eq. cbn [fst].
  rewrite !forgetZ_pinch, forgetZ_unlinkZ, forgetZ_app, length_forgetZ.
  rewrite !(forgetZ_facePredecessor g (forgetZ g) _ Hz),
    !(forgetZ_faceSuccessor g (forgetZ g) _ Hz),
    !(forgetZ_X g (forgetZ g) _ Hz), !(forgetZ_Y g (forgetZ g) _ Hz),
    !(forgetZ_Zc g (forgetZ g) _ Hz), !(forgetZ_I g (forgetZ g) _ Hz).
  set (new := [HE.mk _ _ _ _ _ _ _ _ _ _ _ _; HE.mk _ _ _ _ _ _ _ _ _ _ _ _]).
  change (forgetZ new) with new.
  assert (unlinkZ (forgetZ g ++ new) e = forgetZ g ++ new) as Hun.
  { apply (unlinkZ_forgetZ g new). }
  rewrite Hun.
  set (g2 := unlinkZ (g ++ new) e).
  assert (forgetZ g2 = forgetZ (g ++ new)) as H2 by apply forgetZ_unlinkZ.
  rewrite forgetZ_app in H2. change (forgetZ new) with new in H2.
  assert (forgetZ (forgetZ g ++ new) = forgetZ g ++ new) as Hid.
  { rewrite forgetZ_app, forgetZ_idemp. done. }
  assert (forgetZ g2 = forgetZ (forgetZ g ++ new)) as H2' by (by rewrite Hid).
  rewrite (forgetZ_faceSuccessor _ _ e H2').
  set (g3 := HalfEdge.pinch g2 _ _).
  set (g3' := HalfEdge.pinch (forgetZ g ++ new) _ _).
  assert (forgetZ g3 = forgetZ g3') as H3.
  { unfold g3, g3'. rewrite !forgetZ_pinch. by rewrite H2'. }
  rewrite (forgetZ_facePredecessor _ _ e H3). done.
Qed.

Lemma forgetZ_aroundFace (f : graph -> node -> graph) :
  (forall g n, forgetZ (f g n) = f (forgetZ g) n) ->
  forall fuel g seed cur g',
    HalfEdge.aroundFace fuel f g seed cur = Ok g' ->
    HalfEdge.aroundFace fuel f (forgetZ g) seed cur = Ok (forgetZ g').
Proof.
  intros Hf. induction fuel as [|fuel IH]; intros g seed cur g'; simpl; [done|].
  rewrite <- Hf.
  rewrite (forgetZ_faceSuccessor (f g cur) (forgetZ (f g cur)) cur (forgetZ_idemp _)).
  destruct (_ =? _); [by intros [= <-]|]. apply IH.
Qed.

Lemma forgetZ_joinNeighborsOfEar fuel g e g' :
  Triangulator.joinNeighborsOfEar fuel g e = Ok g' ->
  Triangulator.joinNeighborsOfEar fuel (forgetZ g) e = Ok (forgetZ g').
Proof.
  rewrite !joinNeighborsOfEar_unfold. rewrite <- forgetZ_joinLinks.
  unfold HalfEdge.setMaskAroundFace. apply forgetZ_aroundFace.
  intros g0 n. apply forgetZ_setMask.
Qed.

Lemma forgetZ_isEarScan g g' ear : forgetZ g' = forgetZ g -> forall fuel p,
  Triangulator.isEarScan fuel g' ear p = Triangulator.isEarScan fuel g ear p.
Proof.
  intros H. induction fuel as [|fuel IH]; intros p; simpl; [done|].
  rewrite !(forgetZ_facePredecessor _ _ _ H), !(forgetZ_faceSuccessor _ _ _ H),
    !(forgetZ_X _ _ _ H), !(forgetZ_Y _ _ _ H), (forgetZ_cornerArea _ _ _ H).
  by rewrite IH.
Qed.

Lemma forgetZ_isEar g g' ear fuel :
  forgetZ g' = forgetZ g -> Triangulator.isEar fuel g' ear = Triangulator.isEar fuel g ear.
Proof.
  intros H. unfold Triangulator.isEar.
  rewrite (forgetZ_cornerArea _ _ _ H), !(forgetZ_faceSuccessor _ _ _ H).
  by rewrite (forgetZ_isEarScan _ _ _ H).
Qed.

(** ** Ears of a convex loop *)

Lemma walk_head_links g e c l a :
  linked g -> e < length g -> walk g e e (e :: c :: l ++ [a]) ->
  faceSuccessor g e = c /\ facePredecessor g e = a.
Proof.
  intros Hlinked He Hw.
  assert (a < length g) as Ha.
  { apply (walk_in_range g e e _ (linked_successorsInRange g Hlinked) He Hw). in_list. }
  apply walk_chain in Hw. apply chain_cons_inv in Hw as [Hs Hw]. split; [done|].
  assert (faceSuccessor g a = e) as <-.
  { apply (chain_last_succ g c (c :: l ++ [a]) e a Hw).
    change (c :: l ++ [a]) with ((c :: l) ++ [a]). by rewrite last_snoc. }
  by apply Hlinked.
Qed.

Lemma three_or_more {A} (L : list A) :
  3 <= length L -> exists e c l a, L = e :: c :: l ++ [a].
Proof.
  intros Hlen. destruct L as [|e [|c L]]; simpl in Hlen; try lia.
  destruct (exists_last (l := L)) as (l & a & ->).
  { intros ->. simpl in Hlen. lia. }
  by exists e, c, l, a.
Qed.

Lemma earLoop_corner g L zl n :
  earLoop g L zl -> n ∈ L -> (Triangulator.cornerArea g n < 0)%Q.
Proof.
  intros (Hlinked & (e & He & Hw) & Hlen & Hconvex & Hnodes & _) Hn.
  apply list_elem_of_split in Hn as (l1 & l2 & ->).
  pose proof (walk_rotate g l1 n l2 e Hw) as Hw'.
  assert (convexLoop (map (Triangulator.xy g) (n :: l2 ++ l1))) as Hc.
  { change (n :: l2 ++ l1) with ((n :: l2) ++ l1). rewrite map_app.
    apply convexLoop_rotate_app. by rewrite <- map_app. }
  destruct (three_or_more (n :: l2 ++ l1)) as (e' & c & l & a & Heq).
  { rewrite length_app in Hlen. simpl in *. rewrite length_app. lia. }
  injection Heq as <- Heq. rewrite Heq in Hw', Hc.
  destruct (walk_head_links g n c l a Hlinked) as [Hs Hp]; [|done|].
  { apply Hnodes. in_list. }
  unfold Triangulator.cornerArea. rewrite Hs, Hp.
  simpl in Hc. rewrite map_app in Hc. simpl in Hc.
  by apply (convexLoop_corner _ _ _ (map (Triangulator.xy g) l)).
Qed.

Lemma earLoop_isEar g L zl e fuel :
  earLoop g L zl -> head L = Some e -> length L <= fuel ->
  Triangulator.isEar fuel g e = Ok true.
Proof.
  intros Hloop He Hfuel.
  pose proof (earLoop_corner g L zl e Hloop) as Hcorner.
  assert (forall n, n ∈ L -> (Triangulator.cornerArea g n < 0)%Q) as Hcorners
    by (intros n; by apply earLoop_corner with zl).
  destruct Hloop as (Hlinked & (e' & He' & Hw) & Hlen & Hconvex & Hnodes & _).
  rewrite He in He'. injection He' as <-.
  destruct (three_or_more L Hlen) as (e' & c & l & a & ->).
  injection He as ->.
  destruct (walk_head_links g e c l a Hlinked) as [Hs Hp]; [apply Hnodes; in_list|done|].
  unfold Triangulator.isEar.
  assert (Qleb 0 (Triangulator.cornerArea g e) = false) as ->.
  { apply Qleb_gt. apply Hcorner. by left. }
  assert (walk g e (faceSuccessor g c) (l ++ [a])) as Hsuf.
  { inversion Hw as [|? ? Hs1 Hw1]; subst.
    inversion Hw1 as [? Hs2 Hl|? ? Hs2 Hw2]; subst.
    { by destruct l. }
    done. }
  destruct (isEarScan_walk g e Hlinked) with (cur := faceSuccessor g c) (l := l ++ [a])
    as (front & Hfront & Hscan); [apply Hnodes; in_list| |done|].
  { apply Hlinked. apply Hnodes. in_list. }
  rewrite Hs, Hscan by (simpl in Hfuel; rewrite length_app in *; simpl in *; lia).
  f_equal. apply forallb_forall. intros p Hp'. apply list_elem_of_In in Hp'.
  unfold scanBlocks.
  assert (Qleb 0 (Triangulator.cornerArea g p) = false) as ->;
    [|by rewrite andb_false_r].
  apply Qleb_gt. apply Hcorners.
  do 2 right. rewrite Hfront. rewrite elem_of_app. by left.
Qed.

Lemma blocksEar_negative g ear p :
  (Triangulator.cornerArea g p < 0)%Q -> Triangulator.blocksEar g ear p = false.
Proof.
  intros H%Qleb_gt. unfold Triangulator.blocksEar. rewrite H. by rewrite andb_false_r.
Qed.

Lemma earLoop_isEarHashed g L zl e fuel minX minY size :
  earLoop g L zl -> head L = Some e -> length zl < fuel ->
  Triangulator.isEarHashed fuel g e minX minY size = Ok true.
Proof.
  intros Hloop He Hfuel.
  pose proof (earLoop_corner g L zl e Hloop) as Hcorner.
  destruct Hloop as (Hlinked & _ & Hlen & _ & _ & Hz & Hzl & Hlinks).
  assert (e ∈ L) as HeL by (destruct L; [done|]; injection He as ->; by left).
  unfold Triangulator.isEarHashed.
  assert (Qleb 0 (Triangulator.cornerArea g e) = false) as ->
    by (by apply Qleb_gt, Hcorner).
  destruct (Hlinks e HeL) as [Hin|[Hp Hn]].
  - apply list_elem_of_split in Hin as (l1 & l2 & ->).
    destruct (zLinked_chains g l1 e l2 Hz) as [Hnext Hprev].
    rewrite (scanNextZ_true g e _ l2 fuel); [| done | |].
    + simpl. apply (scanPrevZ_true g e _ (rev l1)); [done| |].
      * intros n Hn. apply blocksEar_negative. rewrite elem_of_rev in Hn.
        apply Hzl. in_list.
      * rewrite length_rev. rewrite length_app in Hfuel. lia.
    + intros n Hn. apply blocksEar_negative. apply Hzl. in_list.
    + rewrite length_app in Hfuel. simpl in Hfuel. lia.
  - rewrite Hp, Hn. destruct fuel as [|fuel]; [lia|]. done.
Qed.

(** ** Cutting an ear off a convex loop *)

Lemma aroundFace_runs (f : graph -> node -> graph) :
  (forall g n, geometry (f g n) = geometry g) ->
  forall g seed cur l, walk g seed cur l ->
  forall fuel g0, geometry g0 = geometry g -> length l <= fuel ->
  exists g', HalfEdge.aroundFace fuel f g0 seed cur = Ok g'.
Proof.
  intros Hf g seed cur l Hw.
  induction Hw as [cur Hs|cur l Hs Hw IH]; intros fuel g0 Hgeo Hfuel;
    (destruct fuel as [|fuel]; [simpl in Hfuel; lia|]); simpl;
    rewrite (geometry_faceSuccessor _ _ _ (Hf g0 cur)),
      (geometry_faceSuccessor _ _ _ Hgeo).
  - rewrite Hs, Nat.eqb_refl. eauto.
  - apply Nat.eqb_neq in Hs. rewrite Hs. apply IH; [|simpl in Hfuel; lia].
    by rewrite Hf.
Qed.

Lemma join_links g e c d M a :
  linked g -> walk g e e (e :: c :: d :: M ++ [a]) -> e < length g ->
  let J := joinLinks g e in
  let alpha := length g in
  let beta := S (length g) in
  walk J d d (d :: M ++ [alpha; c])
  /\ walk J e e [e; beta; a]
  /\ facePredecessor J a = beta
  /\ (forall n, n < length g -> n ∉ e :: c :: d :: M ++ [a] ->
        faceSuccessor J n = faceSuccessor g n /\ facePredecessor J n = facePredecessor g n)
  /\ faceSuccessor g e = c /\ facePredecessor g e = a
  /\ faceSuccessor J e = beta /\ faceSuccessor J alpha = c
  /\ faceSuccessor J c = d /\ faceSuccessor J a = e /\ faceSuccessor g c = d.
Proof.
  intros Hlinked Hw He J alpha beta.
  pose proof (walk_NoDup _ _ _ _ Hw) as Hnd.
  assert (forall n, n ∈ e :: c :: d :: M ++ [a] -> n < length g) as Hrange
    by (by apply (walk_in_range g e e _ (linked_successorsInRange g Hlinked))).
  destruct (walk_head_links g e c (d :: M) a Hlinked He Hw) as [Hsc Hpa].
  assert (e <> c /\ a <> c /\ a <> e /\ d <> c /\ d <> e /\ a <> d) as
    (Hec & Hac & Hae & Hdc & Hde & Had).
  { apply NoDup_cons in Hnd as [H1 Hnd]. apply NoDup_cons in Hnd as [H2 Hnd].
    apply NoDup_cons in Hnd as [H3 Hnd].
    repeat split; intros ->; (apply H1 || apply H2 || apply H3); in_list. }
  assert (e <> faceSuccessor g e) as Hne1 by (by rewrite Hsc).
  assert (facePredecessor g e <> faceSuccessor g e) as Hne2 by (by rewrite Hsc, Hpa).
  pose proof (walk_chain _ _ _ _ Hw) as Hc.
  apply chain_cons_inv in Hc as [_ Hc]. apply chain_cons_inv in Hc as [Hsd Hc].
  change (d :: M ++ [a]) with ((d :: M) ++ [a]) in Hc.
  apply chain_snoc_inv in Hc as [Hsa [[? _]|Hc]]; [done|].
  destruct (exists_last (l := d :: M)) as (M0 & z & HM0); [done|].
  assert (facePredecessor g a = z) as Hz.
  { rewrite <- (chain_last_succ g d (d :: M) a z Hc) by (by rewrite HM0, last_snoc).
    apply Hlinked. apply Hrange. do 2 right.
    change (z ∈ (d :: M) ++ [a]). rewrite HM0. in_list. }
  assert (z ∈ d :: M) as HzM by (rewrite HM0; in_list).
  assert (forall n, n ∈ d :: M -> n <> e /\ n <> c /\ n <> a /\ n < length g) as HM.
  { intros n Hn. apply NoDup_cons in Hnd as [H1 Hnd]. apply NoDup_cons in Hnd as [H2 Hnd].
    change (d :: M ++ [a]) with ((d :: M) ++ [a]) in Hnd.
    apply NoDup_app in Hnd as (_ & Hdisj & _).
    repeat split.
    - intros ->. apply H1. right. change (e ∈ (d :: M) ++ [a]). in_list.
    - intros ->. apply H2. change (c ∈ (d :: M) ++ [a]). in_list.
    - intros ->. apply (Hdisj a Hn). by left.
    - apply Hrange. do 2 right. change (n ∈ (d :: M) ++ [a]). in_list. }
  assert (NoDup (d :: M)) as HndM.
  { apply NoDup_cons in Hnd as [_ Hnd]. apply NoDup_cons in Hnd as [_ Hnd].
    change (d :: M ++ [a]) with ((d :: M) ++ [a]) in Hnd.
    by apply NoDup_app in Hnd as (? & _ & _). }
  (* successors in the new graph *)
  assert (faceSuccessor J z = alpha) as HJz.
  { unfold J. rewrite <- Hz, <- Hpa. by apply joinLinks_succ_before. }
  assert (faceSuccessor J alpha = c) as HJalpha.
  { unfold J, alpha. rewrite <- Hsc. by apply joinLinks_succ_alpha. }
  assert (faceSuccessor J beta = a) as HJbeta.
  { unfold J, beta. rewrite <- Hpa. by apply joinLinks_succ_beta. }
  assert (faceSuccessor J e = beta) as HJe by (by apply joinLinks_succ_ear).
  assert (forall n, n < length g -> n <> e -> n <> z ->
            faceSuccessor J n = faceSuccessor g n) as HJold.
  { intros n Hn H1 H2. apply joinLinks_succ_old; try done. by rewrite Hpa, Hz. }
  assert (forall n, n < length g -> n <> a -> n <> c ->
            facePredecessor J n = facePredecessor g n) as HJpold.
  { intros n Hn H1 H2. apply joinLinks_pred_old; try done; by rewrite ?Hpa, ?Hsc. }
  assert (a <> z /\ c <> z /\ e <> z) as (Hza & Hzc & Hze).
  { destruct (HM z HzM) as (? & ? & ? & _). done. }
  split; [|split; [|split; [|split; [|split; [|split; [|split; [|split; [|split; [|split]]]]]]]]];
    [| | | |done|done|done|done| | |done].
  - apply chain_walk.
    + change (d :: M ++ [alpha; c]) with ((d :: M) ++ [alpha; c]).
      apply (chain_app J d (d :: M) alpha); [|constructor; rewrite HJalpha; constructor].
      * rewrite HM0 in *. apply chain_snoc; [|done].
        apply chain_snoc_inv in Hc as [_ [[-> ->]|Hc]]; [by left|right].
        apply (chain_frame g); [|done]. intros n Hn. apply HJold.
        -- apply HM. in_list.
        -- apply (HM n). in_list.
        -- intros ->. apply NoDup_app in HndM as (_ & Hdisj & _).
           apply (Hdisj z Hn). by left.
      * rewrite (HJold c); [done|apply Hrange; in_list|done|done].
    + intros l' [= <-]. intros Hin. apply elem_of_app in Hin as [Hin|Hin].
      * by apply NoDup_cons in HndM as [? _].
      * destruct (HM d) as (_ & Hd1 & _ & Hlt); [by left|].
        apply elem_of_cons in Hin as [Hin|Hin]; [unfold alpha in Hin; lia|].
        apply elem_of_cons in Hin as [Hin|Hin]; [done|by apply elem_of_nil in Hin].
  - constructor; [rewrite HJe; unfold beta; lia|]. rewrite HJe.
    constructor; [by rewrite HJbeta|]. rewrite HJbeta. constructor.
    rewrite HJold; [done|apply Hrange; in_list|done|done].
  - unfold J, beta. rewrite <- Hpa. by apply joinLinks_pred_before.
  - intros n Hn Hnot. split.
    + apply HJold; [done| |]; intros ->; apply Hnot; [by left|].
      do 2 right. change (z ∈ (d :: M) ++ [a]). in_list.
    + apply HJpold; [done| |]; intros ->; apply Hnot; in_list.
  - rewrite (HJold c); [done|apply Hrange; in_list|done|done].
  - rewrite (HJold a); [done|apply Hrange; in_list|done|done].
Qed.

(** The Z-order list after [joinNeighborsOfEar]: the ear has left it, and
    the new nodes are not on it. *)
Lemma joinLinks_zLinked g e zl :
  zLinked g zl -> (forall n, n ∈ zl -> n < length g) ->
  e ∈ zl \/ prevZ g e = None /\ nextZ g e = None ->
  exists zl',
    zLinked (joinLinks g e) zl' /\ length zl' <= length zl
    /\ (forall n, n ∈ zl' <-> n ∈ zl /\ n <> e)
    /\ (forall n, n ∉ zl' -> n < length g ->
          prevZ (joinLinks g e) n = prevZ g n /\ nextZ (joinLinks g e) n = nextZ g n)
    /\ prevZ (joinLinks g e) (length g) = None
    /\ nextZ (joinLinks g e) (length g) = None.
Proof.
  intros Hz Hrange He.
  set (G := g ++ [HE.mk (X g (facePredecessor g e)) (Y g (facePredecessor g e))
                        (Zc g (facePredecessor g e)) (I g (facePredecessor g e)) 0
                        (S (length g)) (S (length g)) (Some (S (length g)))
                        false None None None;
                  HE.mk (X g (faceSuccessor g e)) (Y g (faceSuccessor g e))
                        (Zc g (faceSuccessor g e)) (I g (faceSuccessor g e)) 0
                        (length g) (length g) (Some (length g))
                        false None None None]).
  assert (forall n, prevZ (joinLinks g e) n = prevZ (unlinkZ G e) n
                    /\ nextZ (joinLinks g e) n = nextZ (unlinkZ G e) n) as HJ.
  { intros n. unfold prevZ, nextZ.
    rewrite !(joinLinks_zfield g e _ n) by done. by rewrite joinLinks_unlinkZ. }
  assert (forall n, n < length g -> prevZ G n = prevZ g n /\ nextZ G n = nextZ g n) as HG.
  { intros n Hn. unfold prevZ, nextZ, G. by rewrite lookup_total_app_old. }
  assert (prevZ G (length g) = None /\ nextZ G (length g) = None) as Hnew.
  { unfold prevZ, nextZ, G. by rewrite lookup_total_app_first. }
  assert (zLinked G zl) as HzG.
  { apply (zLinked_same g); [|done]. intros n Hn.
    destruct (HG n (Hrange n Hn)). done. }
  assert (length G = S (S (length g))) as HlenG
    by (unfold G; rewrite length_app; simpl; lia).
  destruct (decide (e ∈ zl)) as [Hin|Hout].
  - apply list_elem_of_split in Hin as (l1 & l2 & ->).
    destruct (unlinkZ_zLinked G l1 e l2 HzG) as [Hz' Hkeep].
    { intros n Hn. rewrite HlenG. specialize (Hrange n Hn). lia. }
    exists (l1 ++ l2). split; [|split; [|split; [|split]]].
    + apply (zLinked_same (unlinkZ G e)); [|done]. intros n _.
      destruct (HJ n). done.
    + rewrite !length_app. simpl. lia.
    + intros n. destruct Hz as (Hnd & _).
      apply NoDup_app in Hnd as (_ & Hd1 & Hnd2). apply NoDup_cons in Hnd2 as [Hd2 _].
      rewrite !elem_of_app, elem_of_cons. split.
      * intros [H|H]; (split; [tauto|]); intros ->; [|done].
        apply (Hd1 e H). by left.
      * tauto.
    + intros n Hn Hlt. destruct (HJ n) as [-> ->].
      destruct (Hkeep n Hn) as [-> ->]. by apply HG.
    + destruct (HJ (length g)) as [-> ->].
      destruct (Hkeep (length g)) as [-> ->]; [|done].
      intros Hn. assert (length g ∈ l1 ++ e :: l2) as Hn' by (revert Hn; in_list).
      specialize (Hrange _ Hn'). lia.
  - destruct He as [He|[Hp Hn]]; [done|].
    assert (unlinkZ G e = G) as HU.
    { destruct (decide (e < length g)) as [Hlt|Hge].
      - destruct (HG e Hlt) as [Hp' Hn']. apply unlinkZ_unlinked; congruence.
      - apply unlinkZ_unlinked.
        + unfold prevZ, G. destruct (decide (e = length g)) as [->|];
            [by rewrite lookup_total_app_first|].
          destruct (decide (e = S (length g))) as [->|];
            [by rewrite lookup_total_app_second|].
          unfold prevZ in Hp. rewrite !list_lookup_total_alt in *.
          rewrite lookup_ge_None_2 by (rewrite length_app; simpl; lia).
          rewrite lookup_ge_None_2 in Hp by lia. done.
        + unfold nextZ, G. destruct (decide (e = length g)) as [->|];
            [by rewrite lookup_total_app_first|].
          destruct (decide (e = S (length g))) as [->|];
            [by rewrite lookup_total_app_second|].
          unfold nextZ in Hn. rewrite !list_lookup_total_alt in *.
          rewrite lookup_ge_None_2 by (rewrite length_app; simpl; lia).
          rewrite lookup_ge_None_2 in Hn by lia. done. }
    rewrite HU in HJ.
    exists zl. split; [|split; [|split; [|split]]].
    + apply (zLinked_same G); [|done]. intros n _. destruct (HJ n). done.
    + done.
    + intros n. split; [|tauto]. intros H. split; [done|]. by intros ->.
    + intros n _ Hlt. destruct (HJ n) as [-> ->]. by apply HG.
    + destruct (HJ (length g)) as [-> ->]. done.
Qed.

Lemma loop_corner g L e n :
  linked g -> walk g e e L -> 3 <= length L ->
  convexLoop (map (Triangulator.xy g) L) -> (forall n, n ∈ L -> n < length g) ->
  n ∈ L -> (Triangulator.cornerArea g n < 0)%Q.
Proof.
  intros Hlinked Hw Hlen Hconvex Hnodes Hn.
  apply list_elem_of_split in Hn as (l1 & l2 & ->).
  pose proof (walk_rotate g l1 n l2 e Hw) as Hw'.
  assert (convexLoop (map (Triangulator.xy g) (n :: l2 ++ l1))) as Hc.
  { change (n :: l2 ++ l1) with ((n :: l2) ++ l1). rewrite map_app.
    apply convexLoop_rotate_app. by rewrite <- map_app. }
  destruct (three_or_more (n :: l2 ++ l1)) as (e' & c & l & a & Heq).
  { rewrite length_app in Hlen. simpl in *. rewrite length_app. lia. }
  injection Heq as <- Heq. rewrite Heq in Hw', Hc.
  destruct (walk_head_links g n c l a Hlinked) as [Hs Hp]; [|done|].
  { apply Hnodes. in_list. }
  unfold Triangulator.cornerArea. rewrite Hs, Hp.
  simpl in Hc. rewrite map_app in Hc. simpl in Hc.
  by apply (convexLoop_corner _ _ _ (map (Triangulator.xy g) l)).
Qed.

Lemma isMaskSet_zero g n mask : maskBits g n = 0%Z -> isMaskSet g n mask = false.
Proof. unfold isMaskSet. by intros ->. Qed.

(** [joinNeighborsOfEar] at the first node of a convex loop of four nodes or
    more leaves a convex loop with a node less. *)
Lemma join_step g e c d M a zl fuel :
  earLoop g (e :: c :: d :: M ++ [a]) zl -> 3 <= fuel ->
  exists g' zl',
    Triangulator.joinNeighborsOfEar fuel g e = Ok g'
    /\ earLoop g' (d :: M ++ [length g; c]) zl'
    /\ length zl' <= length zl
    /\ faceSuccessor g' e = S (length g)
    /\ edgeMate g' (S (length g)) = Some (length g)
    /\ faceSuccessor g' (length g) = c
    /\ faceSuccessor g' c = d
    /\ faceSuccessor g e = c /\ faceSuccessor g c = d /\ facePredecessor g e = a
    /\ d <> a.
Proof.
  intros Hloop Hfuel.
  pose proof (earLoop_corner _ _ _ e Hloop ltac:(by left)) as Hcorner.
  destruct Hloop as (Hlinked & (e' & He' & Hw) & Hlen & Hconvex & Hnodes & Hz & Hzl & Hlinks).
  injection He' as <-.
  assert (e < length g) as He by (apply Hnodes; by left).
  assert (a < length g) as Ha by (apply Hnodes; in_list).
  pose proof (walk_NoDup _ _ _ _ Hw) as Hnd.
  destruct (join_links g e c d M a Hlinked Hw He)
    as (HwJ & HwT & HpJ & Hframe & Hsc & Hpa & HJe & HJalpha & HJc & HJa & Hsd).
  destruct (joinLinks_zLinked g e zl Hz) as (zl' & HzJ & Hlen' & Hmem & Hkeep & Hnp & Hnn).
  { intros n Hn. by apply Hzl. }
  { apply Hlinks. by left. }
  set (J := joinLinks g e) in *.
  assert (length J = S (S (length g))) as HlenJ by (by apply length_joinLinks).
  assert (forall n, n ∈ e :: c :: d :: M ++ [a] -> n < length g) as Hrange
    by (intros n Hn; by apply Hnodes).
  destruct (aroundFace_runs (fun g n => setMask g n TRIANGULATED_NODE_MASK)
              ltac:(intros; apply geometry_setMask) J e e _ HwT fuel J eq_refl)
    as [g' Hrun]; [simpl; lia|].
  destruct (setMaskAroundFace_Ok fuel J e TRIANGULATED_NODE_MASK g' _ ltac:(done) HwT)
    as (Hgeo & Hset & Hother); [|exact Hrun|].
  { intros n Hn. rewrite HlenJ.
    apply elem_of_cons in Hn as [->|Hn]; [lia|].
    apply elem_of_cons in Hn as [->|Hn]; [lia|].
    apply elem_of_cons in Hn as [->|Hn]; [|by apply elem_of_nil in Hn].
    assert (a < length g); [|lia]. apply Hrange. in_list. }
  assert (forall n, faceSuccessor g' n = faceSuccessor J n) as Hs'
    by (intros; by apply geometry_faceSuccessor).
  assert (forall n, facePredecessor g' n = facePredecessor J n) as Hp'
    by (intros; by apply geometry_facePredecessor).
  assert (forall n, Triangulator.xy g' n = Triangulator.xy J n) as Hxy'
    by (intros; by apply geometry_xy).
  assert (forall n, n < length g -> Triangulator.xy g' n = Triangulator.xy g n) as Hxyold.
  { intros n Hn. rewrite Hxy'. by apply joinLinks_xy_old. }
  assert (Triangulator.xy g' (length g) = Triangulator.xy g a) as Hxyalpha.
  { rewrite Hxy', <- Hpa. by apply joinLinks_xy_alpha. }
  assert (Triangulator.xy g' (S (length g)) = Triangulator.xy g c) as Hxybeta.
  { rewrite Hxy', <- Hsc. by apply joinLinks_xy_beta. }
  assert (forall n, prevZ g' n = prevZ J n /\ nextZ g' n = nextZ J n) as HZ'.
  { intros n. unfold prevZ, nextZ. by rewrite !(geometry_field _ J g' n). }
  assert (length g' = S (S (length g))) as Hlen'g
    by (by rewrite (geometry_length _ _ Hgeo)).
  assert (linked g') as Hlinked'.
  { apply (linked_geometry J); [done|]. by apply linked_joinLinks. }
  assert (walk g' d d (d :: M ++ [length g; c])) as Hw'
    by (by apply (geometry_walk J)).
  assert (forall n, n ∈ d :: M ++ [length g; c] ->
            n = length g \/ n ∈ c :: d :: M /\ n <> e /\ n <> a /\ n < length g) as HL'.
  { intros n Hn. change (n ∈ (d :: M) ++ [length g; c]) in Hn.
    apply NoDup_cons in Hnd as [H1 Hnd]. 
    assert (NoDup ((c :: d :: M) ++ [a])) as Hnd' by done.
    apply NoDup_app in Hnd' as (_ & Hdisj & _).
    apply elem_of_app in Hn as [Hn|Hn].
    - right. split; [by right|]. split; [|split].
      + intros ->. apply H1. right. change (e ∈ (d :: M) ++ [a]). in_list.
      + intros ->. apply (Hdisj a); [by right|by left].
      + apply Hrange. do 2 right. change (n ∈ (d :: M) ++ [a]). in_list.
    - apply elem_of_cons in Hn as [->|Hn]; [by left|].
      apply elem_of_cons in Hn as [->|Hn]; [|by apply elem_of_nil in Hn].
      right. split; [by left|]. split; [|split].
      + intros ->. apply H1. by left.
      + intros ->. apply (Hdisj a); by left.
      + apply Hrange. in_list. }
  assert (convexLoop (map (Triangulator.xy g') (d :: M ++ [length g; c]))) as Hconvex'.
  { assert (map (Triangulator.xy g') (d :: M ++ [length g; c])
            = (map (Triangulator.xy g) (d :: M) ++ [Triangulator.xy g a])
                ++ [Triangulator.xy g c]) as ->.
    { change (d :: M ++ [length g; c]) with ((d :: M) ++ [length g; c]).
      rewrite map_app, <- app_assoc. f_equal.
      - apply map_ext_in. intros n Hn%list_elem_of_In. apply Hxyold.
        apply Hrange. do 2 right. change (n ∈ (d :: M) ++ [a]). in_list.
      - simpl. rewrite Hxyalpha, Hxyold; [done|]. apply Hrange. in_list. }
    apply (convexLoop_rotate (Triangulator.xy g c)).
    refine (convexLoop_sublist _ _ _ Hconvex).
    simpl. rewrite map_app. simpl. apply sublist_cons. reflexivity. }
  exists g', zl'. split; [by rewrite joinNeighborsOfEar_unfold|].
  split; [|rewrite !Hs', HJe, HJalpha, HJc; repeat split; try done].
  - split; [done|]. split; [by exists d|]. split; [simpl; rewrite length_app; simpl; lia|].
    split; [done|]. split; [|split; [|split]].
    + intros n Hn. destruct (HL' n Hn) as [->|(Hin & Hne & Hna & Hlt)].
      * split; [lia|]. apply isMaskSet_zero. rewrite Hother.
        -- by destruct (joinLinks_maskBits_new g e).
        -- intros H. repeat (apply elem_of_cons in H as [H|H]; [lia|]).
           by apply elem_of_nil in H.
      * split; [lia|]. rewrite (isMaskSet_maskBits J g').
        -- rewrite (isMaskSet_maskBits g J); [apply Hnodes; right; change (n ∈ (c :: d :: M) ++ [a]); in_list|].
           unfold maskBits. by apply joinLinks_old.
        -- apply Hother. intros H.
           repeat (apply elem_of_cons in H as [H|H]; [done || lia|]).
           by apply elem_of_nil in H.
    + apply (zLinked_same J); [|done]. intros n _. destruct (HZ' n). done.
    + intros n Hn. apply Hmem in Hn as [Hn Hne]. destruct (Hzl n Hn) as [Hlt Harea].
      split; [lia|].
      destruct (decide (n ∈ d :: M ++ [length g; c])) as [HnL|HnL].
      { apply (loop_corner g' (d :: M ++ [length g; c]) d); try done.
        - simpl. rewrite length_app. simpl. lia.
        - intros m Hm. destruct (HL' m Hm) as [->|(_ & _ & _ & ?)]; lia. }
      destruct (decide (n = a)) as [->|Hna].
      { unfold Triangulator.cornerArea. rewrite Hs', Hp', HJa, HpJ, Hxybeta.
        rewrite !Hxyold by done.
        rewrite <- (signedTriangleArea_cyclic (Triangulator.xy g c)).
        unfold Triangulator.cornerArea in Hcorner. by rewrite Hsc, Hpa in Hcorner. }
      assert (n ∉ e :: c :: d :: M ++ [a]) as Hnot.
      { intros H. apply HnL. change (n ∈ (d :: M) ++ [length g; c]).
        change (n ∈ e :: c :: ((d :: M) ++ [a])) in H. revert H. in_list. }
      destruct (Hframe n Hlt Hnot) as [HsJ HpJ'].
      unfold Triangulator.cornerArea. rewrite Hs', Hp', HsJ, HpJ'.
      destruct (Hlinked n Hlt) as (? & ? & _).
      rewrite !Hxyold by done. exact Harea.
    + intros n Hn. destruct (HL' n Hn) as [->|(Hin & Hne & Hna & Hlt)].
      * right. destruct (HZ' (length g)) as [-> ->]. done.
      * destruct (decide (n ∈ zl)) as [Hzn|Hzn]; [left; by apply Hmem|].
        destruct (Hlinks n) as [?|[Hpn Hnn']];
          [right; change (n ∈ (c :: d :: M) ++ [a]); in_list|done|].
        right. destruct (HZ' n) as [-> ->].
        destruct (Hkeep n) as [-> ->]; [|done|done].
        by intros [? _]%Hmem.
  - rewrite (geometry_edgeMate _ _ _ Hgeo). apply joinLinks_mate_beta.
  - intros ->. apply NoDup_cons in Hnd as [_ Hnd]. apply NoDup_cons in Hnd as [_ Hnd].
    apply NoDup_cons in Hnd as [Hnd _]. apply Hnd. in_list.
Qed.

(** ** The ear-cutting loop on a convex loop *)

Lemma fz_succ g n : faceSuccessor (forgetZ g) n = faceSuccessor g n.
Proof. apply forgetZ_faceSuccessor, forgetZ_idemp. Qed.
Lemma fz_pred g n : facePredecessor (forgetZ g) n = facePredecessor g n.
Proof. apply forgetZ_facePredecessor, forgetZ_idemp. Qed.
Lemma fz_mate g n : edgeMate (forgetZ g) n = edgeMate g n.
Proof. apply forgetZ_edgeMate, forgetZ_idemp. Qed.
Lemma fz_mask g n mask : isMaskSet (forgetZ g) n mask = isMaskSet g n mask.
Proof. apply forgetZ_isMaskSet, forgetZ_idemp. Qed.
Lemma fz_isEar g n fuel :
  Triangulator.isEar fuel (forgetZ g) n = Triangulator.isEar fuel g n.
Proof. apply forgetZ_isEar, forgetZ_idemp. Qed.

Lemma earcutWhile_S fuel g ear stop minX minY size pass :
  Triangulator.earcutWhile (S fuel) g ear stop minX minY size pass
  = if isMaskSet g ear TRIANGULATED_NODE_MASK then Ok g
    else
      let next := faceSuccessor g ear in
      let* anEar :=
        (if Triangulator.truthy size
         then Triangulator.isEarHashed (S fuel) g ear (Triangulator.numberOr0 minX)
                (Triangulator.numberOr0 minY) (Triangulator.numberOr0 size)
         else Triangulator.isEar (S fuel) g ear) in
      if anEar then
        let stop := faceSuccessor g next in
        if negb (Nat.eqb (faceSuccessor g (faceSuccessor g ear)) (facePredecessor g ear))
        then
          let* g := Triangulator.joinNeighborsOfEar (S fuel) g ear in
          let* m := deref (edgeMate g (faceSuccessor g ear)) in
          Triangulator.earcutWhile fuel g (faceSuccessor g (faceSuccessor g m)) stop
                      minX minY size pass
        else
          let g := setMask g ear TRIANGULATED_NODE_MASK in
          let g := setMask g (faceSuccessor g ear) TRIANGULATED_NODE_MASK in
          let g := setMask g (facePredecessor g ear) TRIANGULATED_NODE_MASK in
          Triangulator.earcutWhile fuel g (faceSuccessor g next) stop minX minY size pass
      else
        let ear := next in
        if Nat.eqb ear stop then
          if Triangulator.passFalsy pass then
            let* (g, ear) := Triangulator.cureLocalIntersections (S fuel) g ear in
            Triangulator.earcutLinkedFrom (Triangulator.earcutWhile fuel) (S fuel) g
              (Some ear) minX minY size (Some 2%Z)
          else if Triangulator.passIs pass 2 then
            Triangulator.splitEarcut
              (Triangulator.earcutLinkedFrom (Triangulator.earcutWhile fuel) (S fuel))
              (S fuel) g ear minX minY size
          else Ok g
        else Triangulator.earcutWhile fuel g ear stop minX minY size pass.
Proof. reflexivity. Qed.

Lemma succ_setMask g n mask m : faceSuccessor (setMask g n mask) m = faceSuccessor g m.
Proof. apply geometry_faceSuccessor, geometry_setMask. Qed.
Lemma pred_setMask g n mask m : facePredecessor (setMask g n mask) m = facePredecessor g m.
Proof. apply geometry_facePredecessor, geometry_setMask. Qed.
Lemma length_setMask g n mask : length (setMask g n mask) = length g.
Proof. apply geometry_length, geometry_setMask. Qed.
Lemma isMaskSet_setMask g n mask :
  mask <> 0%Z -> n < length g -> isMaskSet (setMask g n mask) n mask = true.
Proof.
  intros Hm Hn.
  apply (isMaskSet_foldl_setMask mask Hm [n] g n); [by left|done].
Qed.

(** The last triangle. *)
Lemma earcutWhile_triangle g e c a zl stop minX minY size fuel :
  earLoop g [e; c; a] zl -> 5 + length zl <= fuel ->
  exists g',
    Triangulator.earcutWhile fuel g e stop minX minY size None = Ok g'
    /\ Triangulator.earcutWhile fuel (forgetZ g) e stop None None None None
       = Ok (forgetZ g').
Proof.
  intros Hloop Hfuel.
  pose proof (earLoop_isEarHashed g _ zl e fuel (Triangulator.numberOr0 minX)
                (Triangulator.numberOr0 minY) (Triangulator.numberOr0 size)
                Hloop eq_refl ltac:(lia)) as Hhashed.
  pose proof (earLoop_isEar g _ zl e fuel Hloop eq_refl ltac:(simpl; lia)) as Hbrute.
  destruct Hloop as (Hlinked & (e' & He' & Hw) & _ & _ & Hnodes & _).
  injection He' as <-.
  destruct (walk_head_links g e c [] a Hlinked) as [Hsc Hpa]; [apply Hnodes; by left|done|].
  assert (faceSuccessor g c = a) as Hsa.
  { apply walk_chain in Hw. apply chain_cons_inv in Hw as [_ Hw].
    by apply chain_cons_inv in Hw as [? _]. }
  destruct (Hnodes e) as [He Hme]; [by left|].
  destruct (Hnodes a) as [Ha _]; [in_list|].
  destruct fuel as [|[|fuel]]; [lia|lia|].
  eexists. split.
  - rewrite earcutWhile_S, Hme, Hhashed, Hbrute.
    replace (if Triangulator.truthy size then Ok true else Ok true)
      with (@Ok bool true) by (by destruct (Triangulator.truthy size)).
    cbn [bind]. rewrite Hsc, Hsa, Hpa, Nat.eqb_refl. cbn [negb].
    cbv zeta. rewrite !succ_setMask, !pred_setMask, Hsc, Hpa, Hsa.
    rewrite earcutWhile_S.
    rewrite isMaskSet_setMask; [reflexivity|done|by rewrite !length_setMask].
  - rewrite earcutWhile_S, fz_mask, Hme. cbn [Triangulator.truthy].
    rewrite fz_isEar, Hbrute. cbn [bind].
    rewrite !fz_succ, fz_pred, Hsc, Hsa, Hpa, Nat.eqb_refl. cbn [negb].
    cbv zeta. rewrite !succ_setMask, !pred_setMask, !fz_succ, !fz_pred, Hsc, Hpa, Hsa.
    rewrite earcutWhile_S.
    rewrite isMaskSet_setMask;
      [|done|by rewrite !length_setMask, length_forgetZ].
    by rewrite !forgetZ_setMask.
Qed.

(** The loop cuts the ears of a convex loop one after the other, with and
    without the Z-order index. *)
Lemma earcutWhile_convex : forall n g L zl e stop minX minY size fuel,
  earLoop g L zl -> head L = Some e -> length L = 3 + n ->
  length L + length zl + 2 <= fuel ->
  exists g',
    Triangulator.earcutWhile fuel g e stop minX minY size None = Ok g'
    /\ Triangulator.earcutWhile fuel (forgetZ g) e stop None None None None
       = Ok (forgetZ g').
Proof.
  induction n as [|n IH]; intros g L zl e stop minX minY size fuel Hloop He Hlen Hfuel.
  - destruct L as [|e' [|c [|a [|]]]]; try done. injection He as ->.
    apply (earcutWhile_triangle g e c a zl); [done|simpl in Hfuel; lia].
  - destruct (three_or_more L) as (e' & c & l & a & ->); [lia|].
    injection He as ->.
    destruct l as [|d M]; [simpl in Hlen; lia|].
    pose proof (earLoop_isEarHashed g _ zl e fuel (Triangulator.numberOr0 minX)
                  (Triangulator.numberOr0 minY) (Triangulator.numberOr0 size)
                  Hloop eq_refl ltac:(lia)) as Hhashed.
    pose proof (earLoop_isEar g _ zl e fuel Hloop eq_refl ltac:(lia)) as Hbrute.
    destruct (join_step g e c d M a zl fuel Hloop)
      as (g' & zl' & Hjoin & Hloop' & Hlen' & Hse & Hmate & Hsalpha & Hsc' & Hsc & Hsd & Hpa & Hda);
      [simpl in Hfuel; lia|].
    assert (isMaskSet g e TRIANGULATED_NODE_MASK = false) as Hme.
    { destruct Hloop as (_ & _ & _ & _ & Hnodes & _). apply Hnodes. by left. }
    destruct fuel as [|fuel]; [lia|].
    destruct (IH g' (d :: M ++ [length g; c]) zl' d d minX minY size fuel)
      as (g'' & Hrun & Hrun'); [done|done| | |].
    { simpl in *. rewrite length_app in *. simpl in *. lia. }
    { simpl in *. rewrite length_app in *. simpl in *. lia. }
    exists g''. split.
    + rewrite earcutWhile_S, Hme, Hhashed, Hbrute.
      replace (if Triangulator.truthy size then Ok true else Ok true)
        with (@Ok bool true) by (by destruct (Triangulator.truthy size)).
      cbn [bind]. rewrite Hsc, Hsd, Hpa. replace (d =? a) with false by (symmetry; by apply Nat.eqb_neq).
      cbn [negb]. rewrite Hjoin. cbn [bind].
      rewrite Hse, Hmate. cbn [deref bind]. by rewrite Hsalpha, Hsc'.
    + rewrite earcutWhile_S, fz_mask, Hme. cbn [Triangulator.truthy].
      rewrite fz_isEar, Hbrute. cbn [bind].
      rewrite !fz_succ, fz_pred, Hsc, Hsd, Hpa.
      replace (d =? a) with false by (symmetry; by apply Nat.eqb_neq).
      cbn [negb]. rewrite (forgetZ_joinNeighborsOfEar _ _ _ _ Hjoin). cbn [bind].
      rewrite !fz_succ, fz_mate, Hse, Hmate. cbn [deref bind].
      by rewrite !fz_succ, Hsalpha, Hsc'.
Qed.

(** ** Loops of one or two nodes *)

Lemma isEar_flat g n fuel :
  facePredecessor g n = faceSuccessor g n -> Triangulator.isEar fuel g n = Ok false.
Proof. intros H. unfold Triangulator.isEar. by rewrite cornerArea_flat. Qed.

Lemma isEarHashed_flat g n fuel minX minY size :
  facePredecessor g n = faceSuccessor g n ->
  Triangulator.isEarHashed fuel g n minX minY size = Ok false.
Proof. intros H. unfold Triangulator.isEarHashed. by rewrite cornerArea_flat. Qed.

Lemma intersects_flat u v :
  negb (Triangulator.equalXAndY u v) && Triangulator.intersects u v u v = false.
Proof.
  unfold Triangulator.intersects.
  destruct (Triangulator.equalXAndY u v); [done|]. cbn [negb andb orb].
  assert (Qltb 0 (Triangulator.signedTriangleArea u v u) = false) as ->.
  { apply Qltb_ge. rewrite signedTriangleArea_flat. apply Qle_refl. }
  assert (Qltb 0 (Triangulator.signedTriangleArea u v v) = false) as ->; [|done].
  apply Qltb_ge. unfold Triangulator.signedTriangleArea.
  apply Qle_lteq. right. ring.
Qed.

Section SmallLoops.
Context (g : graph) (p q : node).
Hypothesis Hpq : faceSuccessor g p = q.
Hypothesis Hqp : faceSuccessor g q = p.
Hypothesis Hpq' : facePredecessor g p = q.
Hypothesis Hqp' : facePredecessor g q = p.
Hypothesis Hmp : isMaskSet g p TRIANGULATED_NODE_MASK = false.
Hypothesis Hmq : isMaskSet g q TRIANGULATED_NODE_MASK = false.

Lemma notEar_small fuel n (b : bool) minX minY size :
  n = p \/ n = q ->
  (if b
   then Triangulator.isEarHashed fuel g n minX minY size
   else Triangulator.isEar fuel g n) = Ok false.
Proof.
  intros Hn.
  assert (facePredecessor g n = faceSuccessor g n) as H
    by (destruct Hn as [-> | ->]; congruence).
  rewrite isEar_flat, isEarHashed_flat by done. by destruct b.
Qed.

Lemma cureLocalIntersectionsLoop_small fuel n :
  n = p \/ n = q ->
  Triangulator.cureLocalIntersectionsLoop (S fuel) g p n
  = if Nat.eqb (faceSuccessor g n) p then Ok (g, faceSuccessor g n)
    else Triangulator.cureLocalIntersectionsLoop fuel g p (faceSuccessor g n).
Proof.
  intros Hn. cbn [Triangulator.cureLocalIntersectionsLoop].
  assert (facePredecessor g n = faceSuccessor g n
          /\ faceSuccessor g (faceSuccessor g n) = n) as [-> ->]
    by (destruct Hn as [-> | ->]; split; congruence).
  rewrite intersects_flat. reflexivity.
Qed.

Lemma cureLocalIntersections_small fuel :
  Triangulator.cureLocalIntersections (S (S fuel)) g p = Ok (g, p).
Proof.
  unfold Triangulator.cureLocalIntersections.
  rewrite cureLocalIntersectionsLoop_small, Hpq by auto.
  destruct (Nat.eqb_spec q p) as [Heq|Hne]; [by rewrite Heq|].
  rewrite cureLocalIntersectionsLoop_small, Hqp by auto.
  by rewrite Nat.eqb_refl.
Qed.

Lemma splitEarcutInner_small loop fuel a minX minY size :
  a = p \/ a = q ->
  Triangulator.splitEarcutInner loop (S (S fuel)) g a a minX minY size = Ok (g, false).
Proof.
  intros Ha.
  assert (facePredecessor g a = faceSuccessor g a) as Hflat
    by (destruct Ha as [-> | ->]; congruence).
  cbn [Triangulator.splitEarcutInner].
  rewrite Z.eqb_refl, Hflat, Nat.eqb_refl. cbn [negb bind].
  by destruct (a =? faceSuccessor g a).
Qed.

Lemma splitEarcutLoop_small loop fuel a minX minY size :
  a = p \/ a = q ->
  Triangulator.splitEarcutLoop loop (S (S fuel)) g p a minX minY size
  = if Nat.eqb (faceSuccessor g a) p then Ok g
    else Triangulator.splitEarcutLoop loop (S fuel) g p (faceSuccessor g a)
           minX minY size.
Proof.
  intros Ha.
  assert (faceSuccessor g (faceSuccessor g a) = a) as Hback
    by (destruct Ha as [-> | ->]; congruence).
  change (Triangulator.splitEarcutLoop loop (S (S fuel)) g p a minX minY size)
    with (let* (g', done) :=
            Triangulator.splitEarcutInner loop (S (S fuel)) g a
              (faceSuccessor g (faceSuccessor g a)) minX minY size in
          if (done : bool) then Ok g'
          else
            if Nat.eqb (faceSuccessor g' a) p then Ok g'
            else Triangulator.splitEarcutLoop loop (S fuel) g' p (faceSuccessor g' a)
                   minX minY size).
  by rewrite Hback, splitEarcutInner_small.
Qed.

Lemma splitEarcut_small loop fuel minX minY size :
  Triangulator.splitEarcut loop (S (S (S fuel))) g p minX minY size = Ok g.
Proof.
  unfold Triangulator.splitEarcut.
  rewrite splitEarcutLoop_small, Hpq by auto.
  destruct (Nat.eqb_spec q p) as [Heq|Hne]; [done|].
  rewrite splitEarcutLoop_small, Hqp by auto.
  by rewrite Nat.eqb_refl.
Qed.

(** Nothing is cut from a loop of one or two nodes. *)
Lemma earcutWhile_small fuel minX minY size :
  6 <= fuel ->
  Triangulator.earcutWhile fuel g p p minX minY size None = Ok g.
Proof.
  intros Hfuel.
  do 6 (destruct fuel as [|fuel]; [lia|]). clear Hfuel.
  assert (forall f, Triangulator.earcutWhile (S (S (S (S f)))) g p p minX minY size
                           (Some 2%Z) = Ok g) as Hsecond.
  { intros f. rewrite earcutWhile_S, Hmp, notEar_small by auto. cbn [bind].
    cbv zeta. rewrite Hpq.
    destruct (Nat.eqb_spec q p) as [Heq|Hne].
    - cbn [Triangulator.passFalsy Triangulator.passIs Z.eqb Pos.eqb].
      rewrite Heq. apply splitEarcut_small.
    - rewrite earcutWhile_S, Hmq, notEar_small by auto. cbn [bind].
      cbv zeta. rewrite Hqp, Nat.eqb_refl.
      cbn [Triangulator.passFalsy Triangulator.passIs Z.eqb Pos.eqb].
      apply splitEarcut_small. }
  rewrite earcutWhile_S, Hmp, notEar_small by auto. cbn [bind].
  cbv zeta. rewrite Hpq.
  destruct (Nat.eqb_spec q p) as [Heq|Hne].
  - cbn [Triangulator.passFalsy]. rewrite Heq, cureLocalIntersections_small.
    cbn [bind Triangulator.earcutLinkedFrom Triangulator.passFalsy Z.eqb andb].
    apply Hsecond.
  - rewrite earcutWhile_S, Hmq, notEar_small by auto. cbn [bind].
    cbv zeta. rewrite Hqp, Nat.eqb_refl.
    cbn [Triangulator.passFalsy]. rewrite cureLocalIntersections_small.
    cbn [bind Triangulator.earcutLinkedFrom Triangulator.passFalsy Z.eqb andb].
    apply Hsecond.
Qed.

End SmallLoops.

(** ** Building the face loops *)

Lemma edgeMate_write_mate g v n m :
  edgeMate (write g (HE.set_edgeMate v) n) m
  = if decide (n = m /\ n < length g) then v else edgeMate g m.
Proof. unfold edgeMate. rewrite lookup_write. by case_decide. Qed.

(** The links and mates after [splitEdge] at a node. *)
Lemma splitEdge_links g base mateA x y z g' a :
  linked g -> base < length g -> edgeMate g base = Some mateA -> mateA < length g ->
  HalfEdgeGraph.splitEdge g (Some base) x y z = Ok (g', a) ->
  a = length g /\ length g' = S (S (length g))
  /\ (forall n, n < S (S (length g)) ->
        faceSuccessor g' n
        = if decide (n = S (length g)) then faceSuccessor g mateA
          else if decide (n = mateA) then S (length g)
          else if decide (n = base) then length g
          else if decide (n = length g) then faceSuccessor g base
          else faceSuccessor g n)
  /\ (forall n, n < S (S (length g)) ->
        facePredecessor g' n
        = if decide (n = faceSuccessor g mateA) then S (length g)
          else if decide (n = S (length g)) then mateA
          else if decide (n = length g) then base
          else if decide (n = faceSuccessor g base) then length g
          else facePredecessor g n)
  /\ (forall n, n < S (S (length g)) ->
        edgeMate g' n
        = if decide (n = base) then Some (S (length g))
          else if decide (n = S (length g)) then Some base
          else if decide (n = mateA) then Some (length g)
          else if decide (n = length g) then Some mateA
          else edgeMate g n)
  /\ (forall n, Triangulator.xy g' n
        = if decide (n = length g \/ n = S (length g)) then (x, y)
          else Triangulator.xy g n)
  /\ (forall n, maskBits g' n = maskBits g n)
  /\ (forgetZ g = g -> forgetZ g' = g').
Proof.
  intros Hlinked Hb Hm HmA. unfold HalfEdgeGraph.splitEdge.
  set (G := g ++ [HE.fresh x y z 0; HE.fresh x y z 0]).
  assert (length G = S (S (length g))) as HlenG
    by (unfold G; rewrite length_app; simpl; lia).
  assert (forall n, n < length g -> G !!! n = g !!! n) as Hold
    by (intros n Hn; unfold G; by rewrite lookup_total_app_old).
  assert (G !!! length g = HE.fresh x y z 0) as HnewA
    by (unfold G; by rewrite lookup_total_app_first).
  assert (G !!! S (length g) = HE.fresh x y z 0) as HnewB
    by (unfold G; by rewrite lookup_total_app_second).
  cbv zeta. fold G.
  assert (edgeMate G base = Some mateA) as -> by (unfold edgeMate; by rewrite Hold).
  cbn [deref bind].
  assert (faceSuccessor G base = faceSuccessor g base) as ->
    by (unfold faceSuccessor; by rewrite Hold).
  assert (faceSuccessor G mateA = faceSuccessor g mateA) as ->
    by (unfold faceSuccessor; by rewrite Hold).
  intros [= <- <-].
  split; [done|]. split.
  { unfold HalfEdge.setEdgeMates, HalfEdge.setFaceLinks, setFacePredecessor,
      setFaceSuccessor. by rewrite !length_write. }
  split; [|split; [|split; [|split; [|split]]]].
  - intros n Hn. unfold HalfEdge.setEdgeMates. unfold faceSuccessor at 1.
    rewrite !(lookup_write_keep HE.faceSuccessor) by done.
    fold (faceSuccessor (HalfEdge.setFaceLinks
      (HalfEdge.setFaceLinks (HalfEdge.setFaceLinks (HalfEdge.setFaceLinks G
         (length g) (faceSuccessor g base)) base (length g)) mateA (S (length g)))
      (S (length g)) (faceSuccessor g mateA)) n).
    unfold HalfEdge.setFaceLinks.
    repeat rewrite ?faceSuccessor_setFacePredecessor, ?faceSuccessor_setFaceSuccessor,
      ?length_setFacePredecessor, ?length_setFaceSuccessor, ?HlenG.
    repeat case_decide; try lia; try done.
    unfold faceSuccessor. by rewrite Hold by lia.
  - intros n Hn. unfold HalfEdge.setEdgeMates. unfold facePredecessor at 1.
    rewrite !(lookup_write_keep HE.facePredecessor) by done.
    fold (facePredecessor (HalfEdge.setFaceLinks
      (HalfEdge.setFaceLinks (HalfEdge.setFaceLinks (HalfEdge.setFaceLinks G
         (length g) (faceSuccessor g base)) base (length g)) mateA (S (length g)))
      (S (length g)) (faceSuccessor g mateA)) n).
    unfold HalfEdge.setFaceLinks.
    repeat rewrite ?facePredecessor_setFacePredecessor, ?facePredecessor_setFaceSuccessor,
      ?length_setFacePredecessor, ?length_setFaceSuccessor, ?HlenG.
    destruct (Hlinked base Hb) as (? & _). destruct (Hlinked mateA HmA) as (? & _).
    repeat case_decide; try lia; try done.
    unfold facePredecessor. by rewrite Hold by lia.
  - intros n Hn. unfold HalfEdge.setEdgeMates.
    rewrite !edgeMate_write_mate, !length_write.
    unfold HalfEdge.setFaceLinks, setFacePredecessor, setFaceSuccessor.
    rewrite !length_write, HlenG.
    unfold edgeMate at 1. rewrite !(lookup_write_keep HE.edgeMate) by done.
    repeat case_decide; try lia; try done.
    unfold edgeMate. by rewrite Hold by lia.
  - intros n. unfold HalfEdge.setEdgeMates, HalfEdge.setFaceLinks, setFacePredecessor,
      setFaceSuccessor, Triangulator.xy, X, Y.
    rewrite !(lookup_write_keep HE.x), !(lookup_write_keep HE.y) by done.
    case_decide as Hc.
    + destruct Hc as [-> | ->]; by rewrite ?HnewA, ?HnewB.
    + destruct (decide (n < length g)); [by rewrite Hold|].
      unfold G. rewrite !list_lookup_total_alt.
      rewrite !lookup_ge_None_2; [done|lia|rewrite length_app; simpl; lia].
  - intros n. unfold HalfEdge.setEdgeMates, HalfEdge.setFaceLinks, setFacePredecessor,
      setFaceSuccessor, maskBits.
    rewrite !(lookup_write_keep HE.maskBits) by done.
    destruct (decide (n < length g)); [by rewrite Hold|].
    destruct (decide (n = length g)) as [->|].
    { rewrite HnewA. rewrite list_lookup_total_alt, lookup_ge_None_2; [done|lia]. }
    destruct (decide (n = S (length g))) as [->|].
    { rewrite HnewB. rewrite list_lookup_total_alt, lookup_ge_None_2; [done|lia]. }
    unfold G. rewrite !list_lookup_total_alt.
    rewrite !lookup_ge_None_2; [done|lia|rewrite length_app; simpl; lia].
  - intros Hfz. unfold HalfEdge.setEdgeMates, HalfEdge.setFaceLinks, setFacePredecessor,
      setFaceSuccessor.
    rewrite !forgetZ_write_comm by done. unfold G. by rewrite forgetZ_app, Hfz.
Qed.

Lemma sublist_reverse {A} (l1 l2 : list A) :
  l1 `sublist_of` l2 -> reverse l1 `sublist_of` reverse l2.
Proof.
  induction 1 as [|x l1 l2 H IH|x l1 l2 H IH]; [done| |].
  - rewrite !reverse_cons. by apply sublist_app.
  - rewrite reverse_cons. by apply sublist_inserts_r.
Qed.

(** *** The shoelace sum *)

Lemma pathSum_cons p q l :
  (pathSum (p :: q :: l) == p.1 * q.2 - q.1 * p.2 + pathSum (q :: l))%Q.
Proof. reflexivity. Qed.

Lemma fanSum_cons o p q l :
  (fanSum o (p :: q :: l)
   == - (2) * Triangulator.signedTriangleArea o p q + fanSum o (q :: l))%Q.
Proof. reflexivity. Qed.

(** A closed path sweeps the fan of triangles from its first point. *)
Lemma pathSum_fan o : forall l, (pathSum (o :: l ++ [o]) == fanSum o l)%Q.
Proof.
  assert (forall q l, (pathSum (o :: (q :: l) ++ [o]) - o.1 * q.2 + q.1 * o.2
                       == pathSum ((q :: l) ++ [o]))%Q) as Hhead.
  { intros q l. simpl app. rewrite pathSum_cons. ring. }
  induction l as [|q l IH].
  - simpl. ring.
  - destruct l as [|q' l].
    + simpl. ring.
    + rewrite fanSum_cons, <- IH.
      change (o :: (q :: q' :: l) ++ [o]) with (o :: q :: (q' :: l) ++ [o]).
      rewrite pathSum_cons.
      change (q :: (q' :: l) ++ [o]) with (q :: q' :: l ++ [o]).
      rewrite pathSum_cons.
      change (o :: (q' :: l) ++ [o]) with (o :: q' :: l ++ [o]).
      rewrite pathSum_cons.
      unfold Triangulator.signedTriangleArea. ring.
Qed.

Lemma signedTriangleArea_reverse a b c :
  (Triangulator.signedTriangleArea c b a == - Triangulator.signedTriangleArea a b c)%Q.
Proof. unfold Triangulator.signedTriangleArea. ring. Qed.

Lemma fanSum_positive o : forall l,
  2 <= length l ->
  (forall p q, [p; q] `sublist_of` l -> (Triangulator.signedTriangleArea o p q < 0)%Q) ->
  (0 < fanSum o l)%Q.
Proof.
  induction l as [|p l IH]; intros Hlen Hneg; [simpl in Hlen; lia|].
  destruct l as [|q l]; [simpl in Hlen; lia|].
  rewrite fanSum_cons.
  assert (Triangulator.signedTriangleArea o p q < 0)%Q as H1.
  { apply Hneg. apply sublist_skip, sublist_skip, sublist_nil_l. }
  destruct l as [|r l].
  - simpl. lra.
  - assert (0 < fanSum o (q :: r :: l))%Q; [|lra].
    apply IH; [simpl; lia|]. intros p' q' Hsub. apply Hneg. by apply sublist_cons.
Qed.

Lemma fanSum_negative o : forall l,
  2 <= length l ->
  (forall p q, [p; q] `sublist_of` l -> (0 < Triangulator.signedTriangleArea o p q)%Q) ->
  (fanSum o l < 0)%Q.
Proof.
  induction l as [|p l IH]; intros Hlen Hneg; [simpl in Hlen; lia|].
  destruct l as [|q l]; [simpl in Hlen; lia|].
  rewrite fanSum_cons.
  assert (0 < Triangulator.signedTriangleArea o p q)%Q as H1.
  { apply Hneg. apply sublist_skip, sublist_skip, sublist_nil_l. }
  destruct l as [|r l].
  - simpl. lra.
  - assert (fanSum o (q :: r :: l) < 0)%Q; [|lra].
    apply IH; [simpl; lia|]. intros p' q' Hsub. apply Hneg. by apply sublist_cons.
Qed.

(** The shoelace sum of a counter-clockwise convex loop is positive, that
    of a clockwise one negative, that of one or two points zero. *)
Lemma pathSum_convex l o :
  head l = Some o -> 3 <= length l -> convexLoop l -> (0 < pathSum (l ++ [o]))%Q.
Proof.
  destruct l as [|o' l]; [done|]. intros [= ->] Hlen Hconvex.
  change ((o :: l) ++ [o]) with (o :: l ++ [o]). rewrite pathSum_fan.
  apply fanSum_positive; [simpl in Hlen; lia|].
  intros p q Hsub. apply Hconvex. by apply sublist_skip.
Qed.

Lemma pathSum_clockwise l o :
  head l = Some o -> 3 <= length l -> convexLoop (reverse l) ->
  (pathSum (l ++ [o]) < 0)%Q.
Proof.
  destruct l as [|o' l]; [done|]. intros [= ->] Hlen Hconvex.
  change ((o :: l) ++ [o]) with (o :: l ++ [o]). rewrite pathSum_fan.
  apply fanSum_negative; [simpl in Hlen; lia|].
  intros p q Hsub.
  assert (Triangulator.signedTriangleArea q p o < 0)%Q as H.
  { apply Hconvex. change [q; p; o] with (reverse [o; p; q]).
    apply sublist_reverse. by apply sublist_skip. }
  rewrite signedTriangleArea_reverse in H. lra.
Qed.

Lemma pathSum_small l o :
  head l = Some o -> length l <= 2 -> (pathSum (l ++ [o]) == 0)%Q.
Proof.
  destruct l as [|o' [|q [|]]]; try done; intros [= ->] Hlen; simpl; try ring.
  simpl in Hlen. lia.
Qed.

(** [signedFaceArea] is half the shoelace sum of the corners of the loop. *)
Lemma areaSum_chain g : forall l a b,
  chain g a l b ->
  (fold_right (fun n acc => X g n * Y g (faceSuccessor g n)
                            - X g (faceSuccessor g n) * Y g n + acc) 0 l
   == pathSum (map (Triangulator.xy g) l ++ [Triangulator.xy g b]))%Q.
Proof.
  induction 1 as [a b Hs|a l b Hc IH].
  - simpl. rewrite Hs. ring.
  - destruct (chain_head _ _ _ _ Hc) as [l' ->].
    cbn [fold_right map app]. rewrite IH.
    cbn [map app]. rewrite pathSum_cons. simpl. ring.
Qed.

(** *** The loops after one more point *)

Lemma splitEdge_runs g base mateA x y z :
  base < length g -> edgeMate g base = Some mateA ->
  exists g', HalfEdgeGraph.splitEdge g (Some base) x y z = Ok (g', length g).
Proof.
  intros Hb Hm. unfold HalfEdgeGraph.splitEdge. cbv zeta.
  assert (edgeMate (g ++ [HE.fresh x y z 0; HE.fresh x y z 0]) base = Some mateA) as ->.
  { unfold edgeMate. by rewrite lookup_total_app_old. }
  cbn [deref bind]. eauto.
Qed.

Lemma length_backwards pts : length (backwards pts) = length pts.
Proof. destruct pts; [done|]. simpl. by rewrite length_reverse. Qed.

Lemma builtLoops_split g base pts x y z :
  builtLoops g base pts ->
  exists g',
    HalfEdgeGraph.splitEdge g (Some base) x y z = Ok (g', length g)
    /\ builtLoops g' (length g) (pts ++ [(x, y)]).
Proof.
  intros (Hlinked & Hfz & Hmask & LA & LB & first & mb & mf
          & HwA & HlastA & HxyA & HwB & HlastB & HxyB & Hmb & Hmf & Hall & Hdisj & Hmates).
  assert (base ∈ LA) as HbaseA by (by apply last_Some_elem_of).
  assert (base < length g) as Hbase by (apply Hall; in_list).
  destruct (walk_head _ _ _ _ HwA) as [LAt HLA].
  destruct (walk_head _ _ _ _ HwB) as [LB' HLB].
  assert (first ∈ LA) as HfirstA by (rewrite HLA; by left).
  assert (mb ∈ LB) as HmbB by (rewrite HLB; by left).
  assert (mb < length g) as Hmbr by (apply Hall; in_list).
  assert (first < length g) as Hfirstr by (apply Hall; in_list).
  destruct (splitEdge_runs g base mb x y z Hbase Hmb) as [g' Hsplit].
  exists g'. split; [done|].
  destruct (splitEdge_links g base mb x y z g' _ Hlinked Hbase Hmb Hmbr Hsplit)
    as (_ & Hlen' & Hs' & Hp' & Hm' & Hxy' & Hmask' & Hfz').
  pose proof (walk_NoDup _ _ _ _ HwA) as HndA.
  pose proof (walk_NoDup _ _ _ _ HwB) as HndB.
  assert (faceSuccessor g base = first) as HsBase.
  { apply (chain_last_succ g first LA first base); [by apply walk_chain|done]. }
  assert (faceSuccessor g mb ∈ LB) as HvB by (by apply (walk_closed_successor g mb)).
  assert (base <> mb) as Hbm by (intros ->; by apply (Hdisj mb)).
  assert (first <> faceSuccessor g mb) as Hfv by (intros Heq; apply (Hdisj first); congruence).
  assert (faceSuccessor g mb < length g) as Hvr by (apply Hall; in_list).
  rewrite HsBase in Hs', Hp'.
  set (newA := length g) in *. set (newB := S (length g)) in *.
  set (v := faceSuccessor g mb) in *.
  assert (forall n, n < length g -> n <> base -> n <> mb ->
            faceSuccessor g' n = faceSuccessor g n) as HsOld.
  { intros n Hn H1 H2. rewrite Hs' by (unfold newA; lia).
    repeat case_decide; try done; unfold newA, newB in *; lia. }
  assert (faceSuccessor g' newB = v) as HsNewB.
  { rewrite Hs' by (unfold newB; lia). by rewrite decide_True. }
  assert (faceSuccessor g' mb = newB) as HsMb.
  { rewrite Hs' by lia. repeat case_decide; try done; unfold newB in *; lia. }
  assert (faceSuccessor g' base = newA) as HsBase'.
  { rewrite Hs' by lia. repeat case_decide; try done; unfold newB in *; lia. }
  assert (faceSuccessor g' newA = first) as HsNewA.
  { rewrite Hs' by (unfold newA; lia).
    repeat case_decide; try done; unfold newA, newB in *; lia. }
  assert (forall n, n < length g -> Triangulator.xy g' n = Triangulator.xy g n) as HxyOld.
  { intros n Hn. rewrite Hxy'. case_decide; [unfold newA, newB in *; lia|done]. }
  assert (Triangulator.xy g' newA = (x, y) /\ Triangulator.xy g' newB = (x, y)) as [HxyA' HxyB'].
  { rewrite !Hxy'. split; apply decide_True; auto. }
  assert (forall n, n < length g -> n <> v -> n <> first ->
            facePredecessor g' n = facePredecessor g n) as HpOld.
  { intros n Hn H1 H2. rewrite Hp' by (unfold newA; lia).
    repeat case_decide; try done; unfold newA, newB in *; lia. }
  assert (facePredecessor g' v = newB) as HpV.
  { rewrite Hp' by lia. by rewrite decide_True. }
  assert (facePredecessor g' newB = mb) as HpNewB.
  { rewrite Hp' by (unfold newB; lia).
    repeat case_decide; try done; unfold newA, newB in *; lia. }
  assert (facePredecessor g' newA = base) as HpNewA.
  { rewrite Hp' by (unfold newA; lia).
    repeat case_decide; try done; unfold newA, newB in *; lia. }
  assert (facePredecessor g' first = newA) as HpFirst.
  { rewrite Hp' by lia.
    repeat case_decide; try done; unfold newA, newB in *; lia. }
  assert (linked g') as Hlinked'.
  { intros n Hn. rewrite Hlen' in *. fold newB in Hn |- *.
    assert (n = newB \/ n = newA \/ n < length g) as Hcase by (unfold newA, newB in *; lia).
    split; [|split; [|split]].
    - destruct Hcase as [->|[->|Hold]]; [rewrite HsNewB|rewrite HsNewA|]; try lia.
      destruct (decide (n = base)) as [->|]; [rewrite HsBase'; unfold newA, newB; lia|].
      destruct (decide (n = mb)) as [->|]; [rewrite HsMb; lia|].
      rewrite HsOld by done. destruct (Hlinked n Hold) as (? & _). lia.
    - destruct Hcase as [->|[->|Hold]]; [rewrite HpNewB|rewrite HpNewA|]; try lia.
      destruct (decide (n = v)) as [->|]; [rewrite HpV; lia|].
      destruct (decide (n = first)) as [->|]; [rewrite HpFirst; unfold newA, newB; lia|].
      rewrite HpOld by done. destruct (Hlinked n Hold) as (_ & ? & _). lia.
    - destruct Hcase as [->|[->|Hold]]; [by rewrite HsNewB|by rewrite HsNewA|].
      destruct (decide (n = base)) as [->|]; [by rewrite HsBase'|].
      destruct (decide (n = mb)) as [->|]; [by rewrite HsMb|].
      rewrite HsOld by done. destruct (Hlinked n Hold) as (? & _ & Hps & _).
      rewrite HpOld; [done|done| |].
      + intros Heq. destruct (Hlinked mb Hmbr) as (_ & _ & Hps' & _).
        unfold v in Heq. congruence.
      + intros Heq. destruct (Hlinked base Hbase) as (_ & _ & Hps' & _). congruence.
    - destruct Hcase as [->|[->|Hold]]; [by rewrite HpNewB|by rewrite HpNewA|].
      destruct (decide (n = v)) as [->|]; [by rewrite HpV|].
      destruct (decide (n = first)) as [->|]; [by rewrite HpFirst|].
      rewrite HpOld by done. destruct (Hlinked n Hold) as (_ & ? & _ & Hsp).
      rewrite HsOld; [done|done| |].
      + intros Heq. rewrite Heq in Hsp. congruence.
      + intros Heq. rewrite Heq in Hsp. unfold v in *. congruence. }
  split; [done|]. split; [by apply Hfz'|]. split; [intros n; by rewrite Hmask'|].
  assert (edgeMate g' base = Some newB) as HmBase.
  { rewrite Hm' by lia. by rewrite decide_True. }
  assert (edgeMate g' newB = Some base) as HmNewB.
  { rewrite Hm' by (unfold newB; lia).
    repeat case_decide; try done; unfold newA, newB in *; lia. }
  assert (edgeMate g' mb = Some newA) as HmMb.
  { rewrite Hm' by lia. repeat case_decide; try done; unfold newA, newB in *; lia. }
  assert (edgeMate g' newA = Some mb) as HmNewA.
  { rewrite Hm' by (unfold newA; lia).
    repeat case_decide; try done; unfold newA, newB in *; lia. }
  assert (forall n, n < length g -> n <> base -> n <> mb ->
            edgeMate g' n = edgeMate g n) as HmOld.
  { intros n Hn H1 H2. rewrite Hm' by lia.
    repeat case_decide; try done; unfold newA, newB in *; lia. }
  assert (edgeMate g mb = Some base /\ Triangulator.xy g mb = Triangulator.xy g first
          /\ Triangulator.xy g base = Triangulator.xy g v) as (HmbBase & HxyMb & HxyBase).
  { destruct (Hmates base Hbase) as (m1 & Hm1 & Hm1' & _ & Hxy1 & _).
    rewrite Hmb in Hm1. injection Hm1 as <-. rewrite HsBase in Hxy1.
    split; [done|]. split; [done|].
    destruct (Hmates mb Hmbr) as (m0 & Hm0 & _ & _ & Hxy0 & _).
    rewrite HmbBase in Hm0 || rewrite Hm1' in Hm0. by injection Hm0 as <-. }
  destruct (proj1 (last_Some LA base) HlastA) as [LA0 HLA0].
  assert (length LA = length LB) as Hlens.
  { by rewrite <- (length_map (Triangulator.xy g) LA),
      <- (length_map (Triangulator.xy g) LB), HxyA, HxyB, length_backwards. }
  assert (forall n, n ∈ LA -> n < length g) as HrA by (intros; apply Hall; in_list).
  assert (forall n, n ∈ LB -> n < length g) as HrB by (intros; apply Hall; in_list).
  pose proof (walk_chain _ _ _ _ HwB) as HcB. rewrite HLB in HcB.
  exists (LA ++ [newA]), (mb :: newB :: LB'), first, mb,
    (match LB' with [] => newB | _ :: _ => mf end).
  split; [|split; [|split; [|split; [|split; [|split; [|split; [|split; [|split; [|split]]]]]]]]].
  - apply chain_walk.
    + apply (chain_app g' first LA newA [newA] first); [|by constructor].
      pose proof (walk_chain _ _ _ _ HwA) as Hc. rewrite HLA0 in Hc |- *.
      apply chain_snoc; [|done].
      apply chain_snoc_inv in Hc as [_ [[-> ->]|Hc]]; [by left|right].
      apply (chain_frame g); [|done]. intros n Hn. apply HsOld.
      * apply HrA. rewrite HLA0. in_list.
      * intros ->. rewrite HLA0 in HndA. apply NoDup_app in HndA as (_ & Hd & _).
        apply (Hd base Hn). by left.
      * intros ->. apply (Hdisj mb); [rewrite HLA0; in_list|done].
    + intros l' Heq. rewrite HLA in Heq. injection Heq as <-.
      intros Hin. apply elem_of_app in Hin as [Hin|Hin].
      * rewrite HLA in HndA. by apply NoDup_cons in HndA as [? _].
      * apply list_elem_of_singleton in Hin. unfold newA in Hin. lia.
  - apply last_snoc.
  - rewrite map_app. simpl. rewrite HxyA'. f_equal. rewrite <- HxyA.
    apply map_ext_in. intros n Hn%list_elem_of_In. by apply HxyOld, HrA.
  - apply chain_walk.
    + constructor. rewrite HsMb. destruct LB' as [|w r].
      * constructor. rewrite HsNewB. unfold v.
        by apply (chain_snoc_inv g [] mb mb mb) in HcB as [? _].
      * apply chain_cons_inv in HcB as [Hw HcB].
        constructor. rewrite HsNewB. unfold v. rewrite Hw.
        apply (chain_frame g); [|done]. intros n Hn. apply HsOld.
        -- apply HrB. rewrite HLB. by right.
        -- intros ->. apply (Hdisj base HbaseA). rewrite HLB. by right.
        -- intros ->. rewrite HLB in HndB. by apply NoDup_cons in HndB as [? _].
    + intros l' [= <-]. intros Hin. apply elem_of_cons in Hin as [Hin|Hin].
      * unfold newB in Hin. lia.
      * rewrite HLB in HndB. by apply NoDup_cons in HndB as [? _].
  - destruct LB' as [|w r]; [done|].
    rewrite HLB in HlastB. by rewrite !last_cons_cons in *.
  - assert (exists p0 rest, pts = p0 :: rest) as (p0 & rest & ->).
    { rewrite <- HxyA, HLA. simpl. eauto. }
    simpl. rewrite reverse_snoc. simpl in HxyB. rewrite HLB in HxyB.
    injection HxyB as H1 H2. rewrite HxyB', !HxyOld, H1 by done. f_equal. f_equal.
    rewrite <- H2. apply map_ext_in. intros n Hn%list_elem_of_In.
    apply HxyOld, HrB. rewrite HLB. by right.
  - rewrite Hm' by (unfold newA; lia).
    repeat case_decide; try done; unfold newA, newB in *; lia.
  - rewrite Hm' by lia. destruct LB' as [|w r].
    + assert (LA0 = []) as ->.
      { rewrite HLB, HLA0, length_app in Hlens. simpl in Hlens.
        destruct LA0; [done|simpl in Hlens; lia]. }
      rewrite HLA in HLA0. injection HLA0 as -> _. by rewrite decide_True.
    + assert (first <> base) as Hfb.
      { intros ->. rewrite HLA in HLA0. destruct LA0 as [|f0 LA0].
        - rewrite HLA, HLB in Hlens. injection HLA0 as ->. simpl in Hlens. lia.
        - injection HLA0 as <- ->. rewrite HLA in HndA.
          apply NoDup_cons in HndA as [Hnot _]. apply Hnot. in_list. }
      assert (first <> mb) by (intros Heq; apply (Hdisj first HfirstA); by rewrite Heq).
      repeat case_decide; try done; try (unfold newA, newB in *; lia).
  - intros n. rewrite Hlen'. rewrite elem_of_app, elem_of_app, !elem_of_cons, elem_of_nil.
    specialize (Hall n). rewrite elem_of_app, HLB, elem_of_cons in Hall.
    unfold newA, newB. split.
    + intros Hn. destruct (decide (n < length g)) as [Hlt|]; [|lia].
      apply Hall in Hlt. tauto.
    + intros [[H| [->|[]]]|[H|[->|H]]]; try lia;
        (assert (n < length g) by (apply Hall; tauto)); lia.
  - intros n Hn Hin. apply elem_of_app in Hn as [Hn|Hn].
    + apply elem_of_cons in Hin as [->|Hin]; [by apply (Hdisj mb)|].
      apply elem_of_cons in Hin as [->|Hin].
      * specialize (HrA _ Hn). unfold newB in HrA. lia.
      * apply (Hdisj n Hn). rewrite HLB. by right.
    + apply list_elem_of_singleton in Hn as ->.
      apply elem_of_cons in Hin as [Hin|Hin]; [unfold newA in Hin; lia|].
      apply elem_of_cons in Hin as [Hin|Hin]; [unfold newA, newB in Hin; lia|].
      assert (newA < length g); [|unfold newA in *; lia].
      apply HrB. rewrite HLB. by right.
  - intros n Hn. rewrite Hlen' in Hn.
    assert (forall k, k ∈ LA ++ [newA] <-> k ∈ LA \/ k = newA) as HinA.
    { intros k. rewrite elem_of_app, elem_of_cons, elem_of_nil. tauto. }
    assert (forall k, k ∈ mb :: newB :: LB' <-> k ∈ LB \/ k = newB) as HinB.
    { intros k. rewrite HLB, !elem_of_cons. tauto. }
    assert (forall k, k ∈ LA -> k <> newA /\ k <> newB) as HoldA.
    { intros k Hk%HrA. unfold newA, newB. lia. }
    assert (forall k, k ∈ LB -> k <> newA /\ k <> newB) as HoldB.
    { intros k Hk%HrB. unfold newA, newB. lia. }
    destruct (decide (n = base)) as [->|Hnb].
    { exists newB. rewrite HsBase', HxyA', HxyB', HinA, HinB.
      split; [done|]. split; [done|]. split; [unfold newB; lia|]. split; [done|]. tauto. }
    destruct (decide (n = newB)) as [->|HnB].
    { exists base. rewrite HsNewB, !HxyOld, HinA, HinB by done.
      split; [done|]. split; [done|]. split; [lia|]. split; [done|].
      split.
      - intros [H|H]; [apply HoldA in H; lia|unfold newA, newB in H; lia].
      - intros [H|H]; [by destruct (Hdisj base)|unfold newB in H; lia]. }
    destruct (decide (n = mb)) as [->|Hnm].
    { exists newA. rewrite HsMb, HxyA', HxyB', HinA, HinB.
      split; [done|]. split; [done|]. split; [unfold newA; lia|]. split; [done|].
      split.
      - intros [H|H]; [by destruct (Hdisj mb)|unfold newA in H; lia].
      - intros [H|H]; [apply HoldB in H; lia|unfold newA, newB in H; lia]. }
    destruct (decide (n = newA)) as [->|HnA].
    { exists mb. rewrite HsNewA, !HxyOld, HinA, HinB by done.
      split; [done|]. split; [done|]. split; [lia|]. split; [done|]. tauto. }
    assert (n < length g) as Hold by (unfold newA, newB in *; lia).
    destruct (Hmates n Hold) as (m & Hm1 & Hm2 & Hmr & Hxym & Hiff).
    assert (m <> base) as Hmb1 by (intros ->; congruence).
    assert (m <> mb) as Hmb2 by (intros ->; congruence).
    exists m. rewrite !HmOld, HsOld, !HxyOld, HinA, HinB by
      (try done; by destruct (Hlinked n Hold) as (? & _)).
    split; [done|]. split; [done|]. split; [lia|]. split; [done|].
    unfold newA, newB in *. split; intros [H|H]; try lia; left; by apply Hiff.
Qed.

Lemma builtLoops_first x y z :
  exists g,
    HalfEdgeGraph.splitEdge [] None x y z = Ok (g, 0)
    /\ builtLoops g 0 [(x, y)].
Proof.
  eexists. split; [reflexivity|].
  split; [|split; [reflexivity|split]].
  - intros [|[|n]] Hn; [by vm_compute|by vm_compute|simpl in Hn; lia].
  - by intros [|[|n]].
  - exists [0], [1], 0, 1, 1.
    split; [by constructor|]. split; [done|]. split; [done|].
    split; [by constructor|]. split; [done|]. split; [done|]. split; [done|].
    split; [done|]. split; [|split].
    + intros n. change (n < 2 <-> n ∈ [0; 1]).
      rewrite !elem_of_cons, elem_of_nil. lia.
    + intros n Hn Hin. apply list_elem_of_singleton in Hn, Hin. lia.
    + intros [|[|n]] Hn; [exists 1|exists 0|simpl in Hn; lia];
        (split; [done|]); (split; [done|]); (split; [simpl; lia|]); (split; [done|]);
        rewrite !list_elem_of_singleton; lia.
Qed.

Lemma keptAfter_sublist first : forall data last,
  keptAfter first last data `sublist_of` coordinates data.
Proof.
  induction data as [|p data IH]; intros last; simpl; [done|].
  destruct (_ || _); [by apply sublist_cons|by apply sublist_skip].
Qed.

Lemma keptPoints_sublist data : keptPoints data `sublist_of` coordinates data.
Proof. destruct data as [|p data]; [done|]. apply sublist_skip, keptAfter_sublist. Qed.

Lemma builtLoops_ends g base pts :
  builtLoops g base pts ->
  head pts = Some (Triangulator.xy g (faceSuccessor g base))
  /\ last pts = Some (Triangulator.xy g base).
Proof.
  intros (Hlinked & _ & _ & LA & LB & first & mb & mf
          & HwA & HlastA & HxyA & _).
  assert (faceSuccessor g base = first) as ->.
  { apply (chain_last_succ g first LA first base); [by apply walk_chain|done]. }
  destruct (walk_head _ _ _ _ HwA) as [LAt HLA]. rewrite <- HxyA. split.
  - by rewrite HLA.
  - apply last_Some in HlastA as [LA0 ->]. rewrite map_app. simpl. apply last_snoc.
Qed.

(** [directCreateFaceLoopFromXAndYArray] adds the points kept by
    [keptAfter] and builds the two loops through them. *)
Lemma directCreate_built : forall data g base pts,
  builtLoops g base pts ->
  exists g' base',
    Triangulator.directCreateFaceLoopFromXAndYArray g (Some base) data
    = Ok (g', Some base')
    /\ builtLoops g' base'
         (pts ++ keptAfter (Triangulator.xy g (faceSuccessor g base))
                           (Triangulator.xy g base) data).
Proof.
  induction data as [|p data IH]; intros g base pts Hbuilt.
  - exists g, base. by rewrite app_nil_r.
  - cbn [Triangulator.directCreateFaceLoopFromXAndYArray keptAfter].
    unfold Triangulator.interiorEdgeSplit.
    destruct (Triangulator.equalXAndY (Triangulator.xy g base) _).
    { cbn [bind orb]. by apply IH. }
    destruct (Triangulator.equalXAndY (Triangulator.xy g (faceSuccessor g base)) _).
    { cbn [bind orb]. by apply IH. }
    cbn [orb].
    destruct (builtLoops_split g base pts (px p) (py p)
                (match pz p with Some z => z | None => 0%Q end) Hbuilt)
      as (g1 & -> & Hb1).
    cbn [bind].
    destruct (IH g1 (length g) _ Hb1) as (g' & base' & Hrun & Hb).
    exists g', base'. split; [done|].
    destruct (builtLoops_ends _ _ _ Hbuilt) as [Hh _].
    destruct (builtLoops_ends _ _ _ Hb1) as [Hh1 Hl1].
    rewrite last_snoc in Hl1.
    assert (Triangulator.xy g1 (length g) = (px p, py p)) as Hl by congruence.
    assert (head (pts ++ [(px p, py p)]) = head pts) as Hhd.
    { destruct pts; [done|done]. }
    rewrite Hhd, Hh in Hh1.
    assert (Triangulator.xy g1 (faceSuccessor g1 (length g))
            = Triangulator.xy g (faceSuccessor g base)) as Hf by congruence.
    rewrite Hl, Hf, <- app_assoc in Hb. exact Hb.
Qed.

Lemma directCreate_first p data :
  exists g base,
    Triangulator.directCreateFaceLoopFromXAndYArray [] None (p :: data)
    = Ok (g, Some base)
    /\ builtLoops g base (keptPoints (p :: data)).
Proof.
  cbn [Triangulator.directCreateFaceLoopFromXAndYArray].
  unfold Triangulator.interiorEdgeSplit.
  destruct (builtLoops_first (px p) (py p) (match pz p with Some z => z | None => 0%Q end))
    as (g1 & Hsplit & Hb1).
  rewrite Hsplit. cbn [bind].
  destruct (directCreate_built data g1 0 [(px p, py p)] Hb1) as (g & base & Hrun & Hb).
  exists g, base. split; [done|].
  destruct (builtLoops_ends _ _ _ Hb1) as [Hh Hl]. simpl in Hh, Hl.
  assert (Triangulator.xy g1 (faceSuccessor g1 0) = (px p, py p)) as Hf by congruence.
  assert (Triangulator.xy g1 0 = (px p, py p)) as Hl' by congruence.
  rewrite Hf, Hl' in Hb. exact Hb.
Qed.

(** *** Marking the new loops *)

Lemma walk_collect g seed : forall cur l,
  walk g seed cur l -> forall fuel, length l <= fuel ->
  HalfEdge.collectAroundFace fuel g seed cur = Ok l.
Proof.
  induction 1 as [cur Hs|cur l Hs Hw IH]; intros [|fuel] Hlen; simpl in *; try lia.
  - by rewrite Hs, Nat.eqb_refl.
  - apply Nat.eqb_neq in Hs as ->. by rewrite IH by lia.
Qed.

Lemma setMaskAroundFace_other_bit fuel g seed mask g' bit :
  Z.land mask bit = 0%Z -> HalfEdge.setMaskAroundFace fuel g seed mask = Ok g' ->
  forall n, isMaskSet g' n bit = isMaskSet g n bit.
Proof.
  intros Hd (l & _ & _ & ->)%aroundFace_Ok; [|intros; apply geometry_setMask].
  revert g. induction l as [|a l IH]; intros g n; simpl; [done|].
  rewrite IH. destruct (decide (a = n)) as [->|Hne].
  - by apply isMaskSet_setMask_other.
  - by apply isMaskSet_maskBits, maskBits_setMask_other.
Qed.

Lemma maskBits_setMask g n mask :
  n < length g -> maskBits (setMask g n mask) n = Z.lor (maskBits g n) mask.
Proof. intros Hn. unfold setMask. rewrite maskBits_write. by rewrite decide_True. Qed.

Lemma maskBits_foldl_setMask mask : forall l g n,
  n ∈ l -> n < length g ->
  maskBits (foldl (fun g n => setMask g n mask) g l) n = Z.lor (maskBits g n) mask.
Proof.
  induction l as [|a l IH]; intros g n Hin Hn; [by apply elem_of_nil in Hin|].
  simpl. destruct (decide (n ∈ l)) as [Hl|Hl].
  - rewrite IH by (by rewrite ?length_setMask).
    destruct (decide (a = n)) as [->|Hne].
    + rewrite maskBits_setMask by done. by rewrite <- Z.lor_assoc, Z.lor_diag.
    + by rewrite maskBits_setMask_other.
  - apply elem_of_cons in Hin as [->|Hin]; [|done].
    rewrite maskBits_foldl_other; [by apply maskBits_setMask| |done].
    intros. by apply maskBits_setMask_other.
Qed.

Lemma mask_face fuel g g1 s l mask :
  geometry g1 = geometry g -> walk g s s l -> length l <= fuel -> forgetZ g1 = g1 ->
  (forall n, n ∈ l -> n < length g) ->
  exists g2,
    HalfEdge.setMaskAroundFace fuel g1 s mask = Ok g2
    /\ geometry g2 = geometry g /\ forgetZ g2 = g2
    /\ (forall bit n, Z.land mask bit = 0%Z -> isMaskSet g2 n bit = isMaskSet g1 n bit)
    /\ (forall n, n ∈ l -> maskBits g2 n = Z.lor (maskBits g1 n) mask)
    /\ (forall n, n ∉ l -> maskBits g2 n = maskBits g1 n).
Proof.
  intros Hgeo Hw Hlen Hfz Hrange.
  destruct (aroundFace_runs (fun g n => setMask g n mask)
              ltac:(intros; apply geometry_setMask) g s s l Hw fuel g1 Hgeo Hlen)
    as [g2 Hrun].
  assert (walk g1 s s l) as Hw1 by (by apply (geometry_walk g)).
  pose proof Hrun as (l' & Hw' & _ & Heq)%aroundFace_Ok; [|intros; apply geometry_setMask].
  rewrite (walk_deterministic _ _ _ _ _ Hw' Hw1) in Heq.
  exists g2. split; [done|]. split; [|split; [|split; [|split]]].
  - rewrite Heq, <- Hgeo. apply geometry_foldl. intros. apply geometry_setMask.
  - pose proof (forgetZ_aroundFace (fun g n => setMask g n mask)
                  ltac:(intros; apply forgetZ_setMask) _ _ _ _ _ Hrun) as Hrun'.
    rewrite Hfz in Hrun'. congruence.
  - intros bit n Hd. by apply (setMaskAroundFace_other_bit fuel g1 s mask).
  - intros n Hn. rewrite Heq. apply maskBits_foldl_setMask; [done|].
    rewrite (geometry_length _ _ Hgeo). by apply Hrange.
  - intros n Hn. rewrite Heq. apply maskBits_foldl_other; [|done].
    intros. by apply maskBits_setMask_other.
Qed.

(** *** The area of a loop *)

Lemma pathSum_snoc : forall l r q,
  (pathSum ((l ++ [r]) ++ [q]) == pathSum (l ++ [r]) + (r.1 * q.2 - q.1 * r.2))%Q.
Proof.
  induction l as [|p l IH]; intros r q.
  - simpl. ring.
  - destruct l as [|p' l].
    + simpl. ring.
    + change (((p :: p' :: l) ++ [r]) ++ [q]) with (p :: p' :: (l ++ [r]) ++ [q]).
      change ((p :: p' :: l) ++ [r]) with (p :: p' :: l ++ [r]).
      rewrite !pathSum_cons.
      change (p' :: (l ++ [r]) ++ [q]) with (((p' :: l) ++ [r]) ++ [q]).
      rewrite IH. simpl app. ring.
Qed.

Lemma pathSum_reverse : forall l, (pathSum (reverse l) == - pathSum l)%Q.
Proof.
  induction l as [|p l IH]; [simpl; ring|].
  destruct l as [|p' l]; [simpl; ring|].
  rewrite pathSum_cons, reverse_cons. rewrite reverse_cons in IH |- *.
  rewrite pathSum_snoc, IH. ring.
Qed.

Lemma areaSum_app g l1 l2 :
  (fold_right (fun n acc => X g n * Y g (faceSuccessor g n)
                            - X g (faceSuccessor g n) * Y g n + acc) 0 (l1 ++ l2)
   == fold_right (fun n acc => X g n * Y g (faceSuccessor g n)
                               - X g (faceSuccessor g n) * Y g n + acc) 0 l1
      + fold_right (fun n acc => X g n * Y g (faceSuccessor g n)
                                 - X g (faceSuccessor g n) * Y g n + acc) 0 l2)%Q.
Proof. induction l1 as [|a l1 IH]; simpl; [ring|]. rewrite IH. ring. Qed.

Lemma signedFaceArea_walk g s l fuel :
  walk g s s l -> length l <= fuel ->
  HalfEdge.signedFaceArea fuel g s
  = Ok ((1 # 2) * fold_right (fun n acc => X g n * Y g (faceSuccessor g n)
                                           - X g (faceSuccessor g n) * Y g n + acc) 0 l)%Q.
Proof.
  intros Hw Hlen. unfold HalfEdge.signedFaceArea, HalfEdge.faceLoop.
  by rewrite (walk_collect g s s l Hw fuel Hlen).
Qed.

(** [assignMasksToNewFaceLoop] returns the loop of the two whose area is
    not negative, marks both loops as boundary and the other one as
    exterior. *)
Lemma assignMasks_built fuel g base pts :
  builtLoops g base pts -> length pts <= fuel ->
  exists g3 start L area,
    Triangulator.assignMasksToNewFaceLoop fuel g (Some base) true true
    = Ok (g3, Some start)
    /\ forgetZ g3 = g3 /\ linked g3 /\ length g3 = length g
    /\ walk g3 start start L /\ length L = length pts
    /\ (forall n, n ∈ L -> n < length g3)
    /\ HalfEdge.signedFaceArea fuel g3 start = Ok area /\ (0 <= area)%Q
    /\ ((0 <= pathSum (pts ++ take 1 pts))%Q -> map (Triangulator.xy g3) L = pts)
    /\ ((pathSum (pts ++ take 1 pts) < 0)%Q ->
        map (Triangulator.xy g3) L = reverse (drop 2 pts ++ take 2 pts))
    /\ (forall n, n ∈ L -> maskBits g3 n = Z.lor BOUNDARY PRIMARY_EDGE)
    /\ (forall n, n < length g3 -> n ∉ L ->
          maskBits g3 n = Z.lor (Z.lor BOUNDARY PRIMARY_EDGE) EXTERIOR)
    /\ (forall n, n < length g3 ->
          exists m, edgeMate g3 n = Some m /\ edgeMate g3 m = Some n
                    /\ Triangulator.xy g3 m = Triangulator.xy g3 (faceSuccessor g3 n)
                    /\ (n ∈ L <-> m ∉ L)).
Proof.
  intros (Hlinked & Hfz & Hmask & LA & LB & first & mb & mf
          & HwA & HlastA & HxyA & HwB & HlastB & HxyB & Hmb & Hmf & Hall & Hdisj & Hmates)
         Hfuel.
  assert (length LA = length pts) as HlenA
    by (by rewrite <- (length_map (Triangulator.xy g) LA), HxyA).
  assert (length LB = length pts) as HlenB
    by (by rewrite <- (length_map (Triangulator.xy g) LB), HxyB, length_backwards).
  assert (faceSuccessor g base = first) as HsBase.
  { apply (chain_last_succ g first LA first base); [by apply walk_chain|done]. }
  destruct (walk_head _ _ _ _ HwA) as [LAt HLA].
  destruct (walk_head _ _ _ _ HwB) as [LBt HLB].
  destruct (proj1 (last_Some LB mf) HlastB) as [LB0 HLB0].
  assert (walk g mf mf (mf :: LB0)) as HwB'.
  { rewrite HLB0 in HwB. apply (walk_rotate g LB0 mf [] mb) in HwB.
    by rewrite app_nil_l in HwB. }
  assert (forall n, n ∈ mf :: LB0 <-> n ∈ LB) as HLB0in.
  { intros n. rewrite HLB0, elem_of_cons, elem_of_app, list_elem_of_singleton. tauto. }
  assert (forall n, n ∈ LA -> n < length g) as HrA by (intros; apply Hall; in_list).
  assert (forall n, n ∈ LB -> n < length g) as HrB by (intros; apply Hall; in_list).
  assert (base ∈ LA) as HbaseA by (by apply last_Some_elem_of).
  assert (first ∈ LA) as HfirstA by (rewrite HLA; by left).
  assert (mb ∈ LB) as HmbB by (rewrite HLB; by left).
  assert (mf ∈ LB) as HmfB by (by apply last_Some_elem_of).
  unfold Triangulator.assignMasksToNewFaceLoop. rewrite HsBase.
  rewrite (signedFaceArea_walk g first LA fuel HwA) by lia. cbn [bind].
  destruct (mask_face fuel g g first LA (Z.lor BOUNDARY PRIMARY_EDGE))
    as (g1 & -> & Hgeo1 & Hfz1 & Hb1 & Hin1 & Hout1); [done|done|lia|done|done|].
  cbn [bind]. rewrite Hmf. cbn [deref bind].
  destruct (mask_face fuel g g1 mf (mf :: LB0) (Z.lor BOUNDARY PRIMARY_EDGE))
    as (g2 & -> & Hgeo2 & Hfz2 & Hb2 & Hin2 & Hout2); [done|done| |done| |].
  { rewrite HLB0, length_app in HlenB. simpl in *. lia. }
  { intros n Hn. by apply HrB, HLB0in. }
  cbn [bind].
  set (area := ((1 # 2) * fold_right _ 0 LA)%Q).
  assert (head pts = Some (Triangulator.xy g first)) as Hhead
    by (by rewrite <- HxyA, HLA).
  assert (take 1 pts = [Triangulator.xy g first]) as Htake.
  { destruct pts as [|p0 rest]; [done|]. injection Hhead as ->. done. }
  assert (area == (1 # 2) * pathSum (pts ++ take 1 pts))%Q as Harea.
  { unfold area. rewrite (areaSum_chain g LA first first) by (by apply walk_chain).
    by rewrite HxyA, Htake. }
  set (preferred := if Bool.eqb true (Qltb area 0) then mf else first).
  assert (preferred ∈ LA ++ LB) as Hpref.
  { unfold preferred. destruct (Bool.eqb _ _); in_list. }
  assert (preferred < length g) as Hprefr by (by apply Hall).
  destruct (Hlinked preferred Hprefr) as (_ & Hpr & _ & Hsp).
  destruct (Hmates _ Hpr) as (other & Hother & _ & Hor & _ & Hcross).
  unfold HalfEdge.vertexSuccessor.
  rewrite (geometry_facePredecessor _ _ _ Hgeo2), (geometry_edgeMate _ _ _ Hgeo2), Hother.
  cbn [deref bind].
  (* the loop of the returned node and the other loop *)
  assert (exists L Lo,
            walk g preferred preferred L /\ walk g other other Lo
            /\ length L = length pts /\ length Lo = length pts
            /\ ((forall n, n ∈ L <-> n ∈ LA) /\ (forall n, n ∈ Lo <-> n ∈ LB)
                \/ (forall n, n ∈ L <-> n ∈ LB) /\ (forall n, n ∈ Lo <-> n ∈ LA))
            /\ (Qltb area 0 = false -> L = LA)
            /\ (Qltb area 0 = true -> L = mf :: LB0))
    as (L & Lo & HwL & HwLo & HlenL & HlenLo & Hsides & HLfalse & HLtrue).
  { assert (facePredecessor g preferred ∈ LA <-> preferred ∈ LA) as HpredA.
    { split; intros H.
      - rewrite <- Hsp. by apply (walk_closed_successor g first).
      - destruct (decide (facePredecessor g preferred ∈ LA)) as [|Hnot]; [done|].
        assert (facePredecessor g preferred ∈ LB) as HB.
        { apply Hall in Hpr. apply elem_of_app in Hpr as [|]; done. }
        apply (walk_closed_successor g mb) in HB; [|done]. rewrite Hsp in HB.
        by destruct (Hdisj preferred). }
    unfold preferred in *. destruct (Qltb area 0); cbn [Bool.eqb] in *.
    - assert (other ∈ LA) as HoA.
      { destruct (decide (other ∈ LA)) as [|Hnot]; [done|].
        assert (other ∈ LB) as HB.
        { apply Hall in Hor. apply elem_of_app in Hor as [|]; done. }
        apply Hcross, HpredA in HB. by destruct (Hdisj mf). }
      destruct (walk_from g first LA other HwA HoA) as (l' & Hw' & Hl' & Hin').
      exists (mf :: LB0), (other :: l'). split; [done|]. split; [done|].
      split; [rewrite HLB0, length_app in HlenB; simpl in *; lia|]. split; [lia|].
      split; [right; by split|]. by split.
    - assert (other ∈ LB) as HoB by (by apply Hcross, HpredA).
      destruct (walk_from g mb LB other HwB HoB) as (l' & Hw' & Hl' & Hin').
      exists LA, (other :: l'). split; [done|]. split; [done|].
      split; [done|]. split; [lia|]. split; [left; by split|]. by split. }
  destruct (mask_face fuel g g2 other Lo EXTERIOR)
    as (g3 & -> & Hgeo3 & Hfz3 & Hb3 & Hin3 & Hout3); [done|done|lia|done| |].
  { intros n Hn. apply Hall. destruct Hsides as [[_ H]|[_ H]]; apply H in Hn; in_list. }
  cbn [bind].
  assert (forall n, Triangulator.xy g3 n = Triangulator.xy g n) as Hxy3
    by (intros; by apply geometry_xy).
  assert (forall l, map (Triangulator.xy g3) l = map (Triangulator.xy g) l) as Hmap
    by (intros l; apply map_ext; intros; apply Hxy3).
  assert (length g3 = length g) as Hlen3 by (by apply geometry_length).
  assert (linked g3) as Hlinked3 by (by apply (linked_geometry g)).
  assert (forall n, n ∈ L -> n < length g) as HrL.
  { intros n Hn. apply Hall. destruct Hsides as [[H _]|[H _]]; apply H in Hn; in_list. }
  assert (forall n, n < length g -> n ∈ L \/ n ∈ Lo) as Hcover.
  { intros n Hn%Hall. apply elem_of_app in Hn.
    destruct Hsides as [[H1 H2]|[H1 H2]]; rewrite H1, H2; tauto. }
  assert (forall n, n ∈ L -> n ∉ Lo) as HdisjL.
  { intros n Hn Hn'. destruct Hsides as [[H1 H2]|[H1 H2]];
      apply H1 in Hn; apply H2 in Hn'; by destruct (Hdisj n). }
  assert (forall n, n ∈ LA ++ LB -> maskBits g2 n = Z.lor BOUNDARY PRIMARY_EDGE) as Hbits2.
  { intros n Hn. apply elem_of_app in Hn as [Hn|Hn].
    - rewrite Hout2 by (intros H%HLB0in; by destruct (Hdisj n)).
      by rewrite Hin1, Hmask.
    - rewrite Hin2 by (by apply HLB0in).
      rewrite Hout1 by (intros H; by destruct (Hdisj n)). by rewrite Hmask. }
  exists g3, preferred, L.
  exists (if Qltb area 0
          then (1 # 2) * fold_right (fun n acc => X g n * Y g (faceSuccessor g n)
                                      - X g (faceSuccessor g n) * Y g n + acc) 0 (mf :: LB0)
          else area)%Q.
  split; [done|]. split; [done|]. split; [done|]. split; [done|].
  split; [by apply (geometry_walk g)|]. split; [done|].
  split; [intros n Hn; rewrite Hlen3; by apply HrL|].
  split; [|split; [|split; [|split; [|split; [|split]]]]].
  - rewrite (geometry_signedFaceArea _ _ _ _ Hgeo3).
    destruct (Qltb area 0) eqn:Hsign.
    + rewrite (HLtrue eq_refl) in HwL. unfold preferred in HwL. cbn [Bool.eqb] in HwL.
      fold preferred. unfold preferred. cbn [Bool.eqb].
      by rewrite (signedFaceArea_walk g mf (mf :: LB0) fuel HwL)
        by (rewrite HLB0, length_app in HlenB; simpl in *; lia).
    + rewrite (HLfalse eq_refl) in HwL. unfold preferred in HwL |- *. cbn [Bool.eqb] in *.
      by rewrite (signedFaceArea_walk g first LA fuel HwA) by lia.
  - destruct (Qltb area 0) eqn:Hsign; [|by apply Qltb_ge in Hsign].
    apply Qltb_lt in Hsign.
    change (mf :: LB0) with ([mf] ++ LB0). rewrite areaSum_app.
    assert (fold_right (fun n acc => X g n * Y g (faceSuccessor g n)
                          - X g (faceSuccessor g n) * Y g n + acc) 0 LB
            == - pathSum (pts ++ take 1 pts))%Q as Hback.
    { rewrite (areaSum_chain g LB mb mb) by (by apply walk_chain).
      rewrite HxyB. destruct pts as [|p0 rest]; [by rewrite HLA in HxyA|].
      assert (Triangulator.xy g mb = p0) as ->.
      { rewrite HLB in HxyB. simpl in HxyB. by injection HxyB. }
      change (take 1 (p0 :: rest)) with [p0].
      rewrite <- pathSum_reverse. cbn [backwards].
      change ((p0 :: rest) ++ [p0]) with (p0 :: rest ++ [p0]).
      by rewrite reverse_cons, reverse_snoc. }
    rewrite HLB0, areaSum_app in Hback. rewrite Harea in Hsign. lra.
  - intros Hpos. rewrite Hmap, HLfalse, HxyA; [done|]. apply Qltb_ge. rewrite Harea. lra.
  - intros Hneg. rewrite Hmap, HLtrue by (apply Qltb_lt; rewrite Harea; lra).
    destruct pts as [|p0 [|r1 rest]].
    + by rewrite HLA in HxyA.
    + simpl in HxyB. rewrite HLB0 in HxyB. destruct LB0 as [|? [|]]; done.
    + unfold backwards in HxyB. rewrite reverse_cons, HLB0, map_app in HxyB.
      change (p0 :: reverse rest ++ [r1]) with ((p0 :: reverse rest) ++ [r1]) in HxyB.
      apply app_inj_tail in HxyB as [H1 H2].
      cbn [map drop take]. rewrite H1, H2, reverse_app. done.
  - intros n Hn. rewrite Hout3 by (by apply HdisjL). apply Hbits2, Hall. by apply HrL.
  - intros n Hn Hnot. rewrite Hlen3 in Hn.
    destruct (Hcover n Hn) as [|HLo]; [done|].
    rewrite Hin3 by done. by rewrite Hbits2 by (by apply Hall).
  - intros n Hn. rewrite Hlen3 in Hn.
    destruct (Hmates n Hn) as (m & Hm1 & Hm2 & Hmr & Hxym & Hiff).
    exists m. rewrite !(geometry_edgeMate _ _ _ Hgeo3), !Hxy3,
      (geometry_faceSuccessor _ _ _ Hgeo3).
    split; [done|]. split; [done|]. split; [done|].
    assert (m ∈ LA <-> m ∉ LB) as HmAB.
    { split; [apply Hdisj|]. intros Hnot. apply Hall, elem_of_app in Hmr. tauto. }
    assert (n ∈ LA <-> n ∉ LB) as HnAB.
    { split; [apply Hdisj|]. intros Hnot. apply Hall, elem_of_app in Hn. tauto. }
    destruct (decide (n ∈ LA)), (decide (n ∈ LB)), (decide (m ∈ LA)), (decide (m ∈ LB));
      destruct Hsides as [[H1 _]|[H1 _]]; rewrite !H1; tauto.
Qed.

(** ** The two triangulations of a convex polygon *)

Lemma trianglesOf_forgetZ g g' : forgetZ g' = forgetZ g -> trianglesOf g' = trianglesOf g.
Proof.
  intros H. unfold trianglesOf, triangularFaces. rewrite (forgetZ_length _ _ H).
  induction (seq 0 (length g)) as [|n l IH]; [done|].
  rewrite !filter_cons.
  assert (inTriangularFace g' n = inTriangularFace g n) as ->.
  { unfold inTriangularFace.
    by rewrite !(forgetZ_faceSuccessor _ _ _ H), !(forgetZ_isMaskSet _ _ _ _ H). }
  rewrite !(forgetZ_faceSuccessor _ _ _ H).
  destruct (decide _); [|done]. cbn [map].
  by rewrite IH, !(forgetZ_xy _ _ _ H), !(forgetZ_faceSuccessor _ _ _ H).
Qed.

Lemma earcutLinked_convex g start L fuel minX minY size :
  forgetZ g = g -> linked g -> walk g start start L ->
  (forall n, n ∈ L -> n < length g) ->
  (forall n, n ∈ L -> isMaskSet g n TRIANGULATED_NODE_MASK = false) ->
  (3 <= length L -> convexLoop (map (Triangulator.xy g) L)) ->
  2 * length L + 6 <= fuel ->
  exists gh gb,
    Triangulator.earcutLinked fuel g (Some start) minX minY size None = Ok gh
    /\ Triangulator.earcutLinked fuel g (Some start) None None None None = Ok gb
    /\ forgetZ gh = forgetZ gb.
Proof.
  intros Hfz Hlinked Hw Hrange Hmasks Hconvex Hfuel.
  destruct (walk_head _ _ _ _ Hw) as [Lt HL].
  assert (start < length g) as Hstart by (apply Hrange; rewrite HL; by left).
  unfold Triangulator.earcutLinked, Triangulator.earcutLinkedFrom.
  cbn [Triangulator.passFalsy Triangulator.truthy andb bind].
  (* the graph handed to the loop by the accelerated run *)
  assert (exists g1 zl,
            (if Triangulator.truthy size
             then Triangulator.indexCurve fuel g start (Triangulator.numberOr0 minX)
                    (Triangulator.numberOr0 minY) (Triangulator.numberOr0 size)
             else Ok g) = Ok g1
            /\ forgetZ g1 = g /\ zLinked g1 zl /\ length zl <= length L
            /\ (forall n, n ∈ zl -> n ∈ L)
            /\ (forall n, n ∈ L -> n ∈ zl \/ prevZ g1 n = None /\ nextZ g1 n = None))
    as (g1 & zl & -> & Hfz1 & Hz & Hlenz & HzL & HLz).
  { destruct (Triangulator.truthy size).
    - destruct (indexCurve_spec fuel g start (Triangulator.numberOr0 minX)
                  (Triangulator.numberOr0 minY) (Triangulator.numberOr0 size) L)
        as (g1 & zl & Hrun & Hperm & Hz & Hfz1 & _); [done|done|done|lia|].
      exists g1, zl. split; [done|]. split; [congruence|]. split; [done|].
      split; [by rewrite (Permutation_length Hperm)|]. split.
      + intros n Hn. by rewrite <- Hperm.
      + intros n Hn. left. by rewrite Hperm.
    - exists g, []. split; [done|]. split; [done|]. split.
      { split; [constructor|done]. }
      split; [simpl; lia|]. split; [intros n Hn; by apply elem_of_nil in Hn|].
      intros n _. right. unfold prevZ, nextZ. rewrite <- Hfz, forgetZ_lookup. done. }
  cbn [bind].
  assert (forgetZ g1 = forgetZ g) as Hfz1' by congruence.
  assert (linked g1) as Hlinked1 by (by apply (forgetZ_linked g)).
  assert (walk g1 start start L) as Hw1 by (by apply (forgetZ_walk g)).
  destruct (decide (3 <= length L)) as [Hbig|Hsmall].
  - assert (earLoop g1 L zl) as Hloop.
    { split; [done|]. split; [exists start; split; [by rewrite HL|done]|]. split; [done|].
      assert (convexLoop (map (Triangulator.xy g1) L)) as Hconvex1.
      { replace (map (Triangulator.xy g1) L) with (map (Triangulator.xy g) L);
          [by apply Hconvex|].
        apply map_ext. intros n. symmetry. by apply forgetZ_xy. }
      assert (forall n, n ∈ L -> n < length g1) as Hrange1.
      { intros n Hn. rewrite (forgetZ_length _ _ Hfz1'). by apply Hrange. }
      split; [done|]. split.
      { intros n Hn. split; [by apply Hrange1|].
        rewrite (forgetZ_isMaskSet _ _ _ _ Hfz1'). by apply Hmasks. }
      split; [done|]. split; [|done].
      intros n Hn. split; [by apply Hrange1, HzL|].
      apply (loop_corner g1 L start); try done. by apply HzL. }
    destruct (earcutWhile_convex (length L - 3) g1 L zl start start minX minY size fuel)
      as (g' & Hrun & Hrun'); [done|by rewrite HL|lia|lia|].
    exists g', (forgetZ g'). split; [done|]. rewrite Hfz1 in Hrun'.
    split; [done|]. by rewrite forgetZ_idemp.
  - set (q := faceSuccessor g start).
    assert (faceSuccessor g q = start /\ facePredecessor g start = q
            /\ facePredecessor g q = start) as (Hqs & Hps & Hpq).
    { destruct (Hlinked start Hstart) as (Hqr & _ & Hps & _). fold q in Hqr, Hps.
      assert (faceSuccessor g q = start) as Hqs.
      { rewrite HL in Hw. destruct Lt as [|q' [|]]; [| |simpl in Hsmall; rewrite HL in Hsmall; simpl in Hsmall; lia].
        - apply walk_chain in Hw. apply (chain_snoc_inv g [] start start start) in Hw as [Hs _].
          unfold q. by rewrite Hs.
        - apply walk_chain in Hw. apply chain_cons_inv in Hw as [Hs Hw].
          apply (chain_snoc_inv g [] q' q' start) in Hw as [Hs' _].
          unfold q. by rewrite Hs. }
      split; [done|]. split; [|done].
      destruct (Hlinked q Hqr) as (_ & _ & Hps' & _). by rewrite Hqs in Hps'. }
    assert (start ∈ L) as HsL by (rewrite HL; by left).
    assert (q ∈ L) as HqL by (by apply (walk_closed_successor g start)).
    exists g1, g. split; [|split; [|done]].
    + apply (earcutWhile_small g1 start q); [| | | | | |lia];
        rewrite ?(forgetZ_faceSuccessor _ _ _ Hfz1'), ?(forgetZ_facePredecessor _ _ _ Hfz1'),
          ?(forgetZ_isMaskSet _ _ _ _ Hfz1'); auto.
    + apply (earcutWhile_small g start q); auto. lia.
Qed.

(** What [createFaceLoopFromXAndYArray(data, true, true)] returns on the
    empty graph. *)
Lemma createFaceLoop_built data fuel :
  data <> [] -> length data <= fuel ->
  exists g start L area,
    Triangulator.createFaceLoopFromXAndYArray fuel [] data true true
    = Ok (g, Some start)
    /\ forgetZ g = g /\ linked g
    /\ walk g start start L /\ length L = length (keptPoints data)
    /\ (forall n, n ∈ L -> n < length g)
    /\ HalfEdge.signedFaceArea fuel g start = Ok area /\ (0 <= area)%Q
    /\ ((0 <= pathSum (keptPoints data ++ take 1 (keptPoints data)))%Q ->
        map (Triangulator.xy g) L = keptPoints data)
    /\ ((pathSum (keptPoints data ++ take 1 (keptPoints data)) < 0)%Q ->
        map (Triangulator.xy g) L
        = reverse (drop 2 (keptPoints data) ++ take 2 (keptPoints data)))
    /\ (forall n, n ∈ L -> maskBits g n = Z.lor BOUNDARY PRIMARY_EDGE)
    /\ (forall n, n < length g -> n ∉ L ->
          maskBits g n = Z.lor (Z.lor BOUNDARY PRIMARY_EDGE) EXTERIOR)
    /\ (forall n, n < length g ->
          exists m, edgeMate g n = Some m /\ edgeMate g m = Some n
                    /\ Triangulator.xy g m = Triangulator.xy g (faceSuccessor g n)
                    /\ (n ∈ L <-> m ∉ L))
    /\ length g = 2 * length (keptPoints data).
Proof.
  intros Hdata Hfuel. destruct data as [|p data]; [done|].
  destruct (directCreate_first p data) as (g & base & Hcreate & Hbuilt).
  pose proof (keptPoints_sublist (p :: data)) as Hpts.
  assert (length (keptPoints (p :: data)) <= length (p :: data)) as Hlenp.
  { apply sublist_length in Hpts. unfold coordinates in Hpts.
    by rewrite length_map in Hpts. }
  assert (length g = 2 * length (keptPoints (p :: data))) as Hsize.
  { destruct Hbuilt as (_ & _ & _ & LA & LB & first & mb & mf
          & HwA & _ & HxyA & HwB & _ & HxyB & _ & _ & Hall & Hdisj & _).
    assert (NoDup (LA ++ LB)) as Hnd.
    { apply NoDup_app. split; [by apply (walk_NoDup g first first)|].
      split; [done|by apply (walk_NoDup g mb mb)]. }
    assert (LA ++ LB ≡ₚ seq 0 (length g)) as Hperm.
    { apply NoDup_Permutation; [done|apply NoDup_seq|].
      intros n. rewrite <- Hall, elem_of_seq. lia. }
    apply Permutation_length in Hperm. rewrite length_app, length_seq in Hperm.
    rewrite <- (length_map (Triangulator.xy g) LA), <- (length_map (Triangulator.xy g) LB),
      HxyA, HxyB, length_backwards in Hperm. lia. }
  destruct (assignMasks_built fuel g base _ Hbuilt ltac:(lia))
    as (g3 & start & L & area & Hassign & Hfz & Hlinked & Hlen3 & Hw & HlenL & Hrange
        & Harea & Hpos & Hccw & Hcw & Hbits & Hext & Hmates).
  exists g3, start, L, area.
  unfold Triangulator.createFaceLoopFromXAndYArray. rewrite Hcreate. cbn [bind].
  rewrite <- Hlen3 in Hsize. repeat (split; [done|]). done.
Qed.

(** ** Every face loop of a well-linked graph closes *)

Lemma linked_iter_range g seed : linked g -> seed < length g ->
  forall i, Nat.iter i (faceSuccessor g) seed < length g.
Proof.
  intros Hlinked Hseed. induction i as [|i IH]; simpl; [done|]. by apply Hlinked.
Qed.

Lemma linked_successor_inj g a b : linked g -> a < length g -> b < length g ->
  faceSuccessor g a = faceSuccessor g b -> a = b.
Proof.
  intros Hlinked Ha Hb Heq.
  destruct (Hlinked a Ha) as (_ & _ & <- & _).
  destruct (Hlinked b Hb) as (_ & _ & <- & _). by rewrite Heq.
Qed.

Lemma bounded_NoDup_length N (l : list nat) :
  NoDup l -> (forall n, n ∈ l -> n < N) -> length l <= N.
Proof.
  intros Hnd Hrange. rewrite <- (length_seq N 0).
  apply submseteq_length, NoDup_submseteq; [done|].
  intros n Hn. apply list_elem_of_In, in_seq. specialize (Hrange n Hn). lia.
Qed.

Lemma iter_collision N (f : nat -> nat) : (forall i, f i < N) ->
  exists i j, i < j <= N /\ f i = f j.
Proof.
  intros Hrange.
  assert (forall m, (exists i j, i < j < m /\ f i = f j) \/ NoDup (map f (seq 0 m)))
    as Hall.
  { induction m as [|m [(i & j & Hij & Heq)|Hnd]].
    - right. apply NoDup_nil_2.
    - left. exists i, j. split; [lia|done].
    - destruct (decide (f m ∈ map f (seq 0 m))) as [Hin|Hout].
      + left. apply list_elem_of_fmap in Hin as (i & Heq & Hi).
        apply list_elem_of_In, in_seq in Hi. exists i, m. split; [lia|done].
      + right. rewrite seq_S, map_app. simpl. apply NoDup_app.
        split; [done|]. split; [|apply NoDup_singleton].
        intros x Hx Hx'. apply list_elem_of_singleton in Hx' as ->. done. }
  destruct (Hall (S N)) as [(i & j & Hij & Heq)|Hnd].
  - exists i, j. split; [lia|done].
  - apply (bounded_NoDup_length N) in Hnd.
    + rewrite length_map, length_seq in Hnd. lia.
    + intros n (i & -> & _)%list_elem_of_fmap. apply Hrange.
Qed.

Lemma walk_of_iter g seed : forall d cur,
  Nat.iter (S d) (faceSuccessor g) cur = seed ->
  exists l, walk g seed cur l /\ length l <= S d.
Proof.
  induction d as [|d IH]; intros cur Hiter.
  - exists [cur]. split; [by constructor|simpl; lia].
  - destruct (decide (faceSuccessor g cur = seed)) as [Heq|Hne].
    + exists [cur]. split; [by constructor|simpl; lia].
    + rewrite Nat.iter_succ_r in Hiter. destruct (IH _ Hiter) as (l & Hw & Hlen).
      exists (cur :: l). split; [by constructor|simpl; lia].
Qed.

(** On a well-linked graph the face loop of every node closes, within as
    many steps as the graph has nodes. *)
Lemma linked_walk g n : linked g -> n < length g ->
  exists l, walk g n n l /\ length l <= length g.
Proof.
  intros Hlinked Hn.
  pose proof (linked_iter_range g n Hlinked Hn) as Hrange.
  destruct (iter_collision (length g) (fun i => Nat.iter i (faceSuccessor g) n) Hrange)
    as (i & j & Hij & Heq).
  assert (forall i j, i < j ->
            Nat.iter i (faceSuccessor g) n = Nat.iter j (faceSuccessor g) n ->
            Nat.iter (j - i) (faceSuccessor g) n = n) as Hback.
  { clear i j Hij Heq. induction i as [|i IH]; intros j Hij Heq.
    - rewrite Nat.sub_0_r. done.
    - destruct j as [|j]; [lia|]. simpl in Heq.
      apply linked_successor_inj in Heq; [|done|apply Hrange..].
      change (S j - S i) with (j - i). apply IH; [lia|done]. }
  specialize (Hback i j ltac:(lia) Heq).
  destruct (j - i) as [|d] eqn:Hd; [lia|].
  destruct (walk_of_iter g n d n Hback) as (l & Hw & Hlen).
  exists l. split; [done|lia].
Qed.

(** ** The parity search returns *)

Lemma maskAndPushAround_runs mask g seed cur l : walk g seed cur l ->
  forall fuel g0 stack, geometry g0 = geometry g -> length l <= fuel ->
  exists r, HalfEdgeGraphSearch.maskAndPushAround fuel g0 seed cur mask stack = Ok r.
Proof.
  induction 1 as [cur Hs|cur l Hs Hw IH]; intros fuel g0 stack Hgeo Hfuel;
    (destruct fuel as [|fuel]; [simpl in Hfuel; lia|]); simpl;
    rewrite (geometry_faceSuccessor _ _ _ (geometry_setMask g0 cur mask)),
      (geometry_faceSuccessor _ _ _ Hgeo).
  - rewrite Hs, Nat.eqb_refl. eauto.
  - apply Nat.eqb_neq in Hs. rewrite Hs. apply IH; [|simpl in Hfuel; lia].
    by rewrite geometry_setMask.
Qed.

Lemma flooded_count g0 g pushed :
  flooded g0 g pushed -> length (concat (map snd pushed)) <= length g0.
Proof.
  intros Hflooded. apply bounded_NoDup_length.
  - by destruct Hflooded as (_ & _ & Hnd).
  - by destruct (flooded_loops _ _ _ Hflooded).
Qed.

Lemma pushAndMask_runs g0 g pushed fuel s mask stack faces :
  linked g0 -> flooded g0 g pushed -> s < length g0 ->
  isMaskSet g s VISITED = false -> Z.land mask VISITED <> 0%Z ->
  length g0 - length (concat (map snd pushed)) <= fuel ->
  exists g1 l,
    HalfEdgeGraphSearch.pushAndMaskAllNodesInFace fuel g s mask stack faces
    = Ok (g1, rev l ++ stack, faces ++ [s])
    /\ flooded g0 g1 (pushed ++ [(s, l)])
    /\ (forall n, n ∈ l -> n < length g0).
Proof.
  intros Hlinked Hflooded Hs Hunvisited Hmask Hfuel.
  destruct (linked_walk g0 s Hlinked Hs) as (l & Hw & _).
  assert (length (concat (map snd pushed)) + length l <= length g0) as Hroom.
  { pose proof (flooded_loops _ _ _ Hflooded) as [_ Hrange].
    destruct Hflooded as (_ & Hpushed & Hnd).
    rewrite <- length_app. apply bounded_NoDup_length.
    - apply NoDup_app. split; [done|]. split; [|by eapply walk_NoDup].
      intros n (lf & Hlf & Hn)%elem_of_concat Hnl.
      apply list_elem_of_fmap in Hlf as ([f lf'] & -> & Hin).
      rewrite Forall_forall in Hpushed. destruct (Hpushed _ Hin) as [Hwf Hvis]. simpl in *.
      apply (loops_disjoint g0 f lf' s l Hwf Hw) in Hnl; [done|].
      intros Hsf. destruct (Hvis s Hsf). congruence.
    - intros n [Hn|Hn]%elem_of_app; [by apply Hrange|].
      by apply (walk_in_range g0 s s l (linked_successorsInRange g0 Hlinked)). }
  destruct (maskAndPushAround_runs mask g0 s s l Hw fuel g stack) as [[g1 stack1] Hrun].
  { by destruct Hflooded. }
  { lia. }
  assert (HalfEdgeGraphSearch.pushAndMaskAllNodesInFace fuel g s mask stack faces
          = Ok (g1, stack1, faces ++ [s])) as Hpush.
  { unfold HalfEdgeGraphSearch.pushAndMaskAllNodesInFace. by rewrite Hrun. }
  destruct (flooded_push g0 g pushed fuel s mask stack faces g1 stack1 _
              (linked_successorsInRange g0 Hlinked) Hmask Hflooded Hs Hunvisited Hpush)
    as (l' & Hflooded1 & _ & -> & Hl').
  exists g1, l'. done.
Qed.

Lemma parityFloodLoop_runs g0 parityMask : linked g0 -> matesInRange g0 ->
  forall fuel g stack faces pushed,
    flooded g0 g pushed ->
    (forall p, p ∈ stack -> p < length g0) ->
    length stack + (length g0 - length (concat (map snd pushed))) < fuel ->
    exists r, HalfEdgeGraphSearch.parityFloodLoop fuel g VISITED parityMask stack faces
              = Ok r.
Proof.
  intros Hlinked Hmates.
  induction fuel as [|fuel IH]; intros g stack faces pushed Hflooded Hstack Hfuel; [lia|].
  simpl. destruct stack as [|p stack]; [eauto|].
  assert (forall q, q ∈ stack -> q < length g0) as Hstack'.
  { intros q Hq. apply Hstack. rewrite elem_of_cons. auto. }
  simpl in Hfuel.
  rewrite (geometry_edgeMate _ _ _ (proj1 Hflooded)).
  destruct (edgeMate g0 p) as [mate|] eqn:Hmate; [|apply (IH _ _ _ pushed); [done..|lia]].
  destruct (isMaskSet g mate VISITED) eqn:Hvisited; simpl;
    [apply (IH _ _ _ pushed); [done..|lia]|].
  destruct (pushAndMask_runs g0 g pushed (S fuel) mate
              (if negb (isMaskSet g p parityMask)
               then Z.lor parityMask VISITED else VISITED) stack faces)
    as (g1 & l & Hpush & Hflooded1 & Hl); try done.
  { eapply Hmates; [|exact Hmate]. apply Hstack. rewrite elem_of_cons. auto. }
  { destruct (negb (isMaskSet g p parityMask)); [by rewrite land_lor_same|done]. }
  { lia. }
  rewrite Hpush. simpl.
  pose proof (flooded_count _ _ _ Hflooded1) as Hcount.
  rewrite map_app, concat_app, length_app in Hcount. simpl in Hcount.
  rewrite app_nil_r in Hcount.
  apply (IH _ _ _ (pushed ++ [(mate, l)])); [done| |].
  - intros q [Hq|Hq]%elem_of_app; [apply Hl; by apply elem_of_rev|auto].
  - rewrite map_app, concat_app, !length_app, length_rev. simpl. rewrite app_nil_r. lia.
Qed.

Lemma parityFloodFromSeed_runs g0 parityMask fuel g seed pushed :
  linked g0 -> matesInRange g0 ->
  flooded g0 g pushed -> seed < length g0 -> isMaskSet g seed VISITED = false ->
  length g0 < fuel ->
  exists g' faces',
    HalfEdgeGraphSearch.parityFloodFromSeed fuel g seed VISITED parityMask
    = Ok (g', faces')
    /\ faces' <> [].
Proof.
  intros Hlinked Hmates Hflooded Hseed Hunvisited Hfuel.
  unfold HalfEdgeGraphSearch.parityFloodFromSeed. rewrite Hunvisited.
  destruct (pushAndMask_runs g0 g pushed fuel seed (Z.lor parityMask VISITED) [] [])
    as (g1 & l & Hpush & Hflooded1 & Hl); try done.
  { by rewrite land_lor_same. }
  { lia. }
  rewrite Hpush. simpl.
  pose proof (flooded_count _ _ _ Hflooded1) as Hcount.
  rewrite map_app, concat_app, length_app in Hcount. simpl in Hcount.
  rewrite app_nil_r in Hcount.
  destruct (parityFloodLoop_runs g0 parityMask Hlinked Hmates fuel g1 (rev l ++ []) [seed]
              (pushed ++ [(seed, l)])) as [[g' faces'] Hrun]; [done| |  |].
  { intros q [Hq|Hq]%elem_of_app; [apply Hl; by apply elem_of_rev|by apply elem_of_nil in Hq]. }
  { rewrite map_app, concat_app, !length_app, length_rev. simpl. rewrite app_nil_r. lia. }
  exists g', faces'. split; [done|].
  apply (parityFloodLoop_flooded g0 parityMask fuel
           (linked_successorsInRange g0 Hlinked) Hmates) with (pushed := pushed ++ [(seed, l)])
    in Hrun as (new & _ & ->).
  - done.
  - done.
  - intros q [Hq|Hq]%elem_of_app; [apply Hl; by apply elem_of_rev|by apply elem_of_nil in Hq].
Qed.

Lemma collectLoop_runs g0 parityMask fuel : linked g0 -> matesInRange g0 ->
  length g0 < fuel ->
  forall seeds g comps pushed,
    flooded g0 g pushed ->
    (forall s, s ∈ seeds -> s < length g0) ->
    Forall (fun c => c <> []) comps ->
    exists g' comps',
      HalfEdgeGraphSearch.collectLoop fuel g parityMask seeds comps = Ok (g', comps')
      /\ Forall (fun c => c <> []) comps'.
Proof.
  intros Hlinked Hmates Hfuel.
  induction seeds as [|s seeds IH]; intros g comps pushed Hflooded Hseeds Hcomps; simpl.
  { eauto. }
  assert (forall q, q ∈ seeds -> q < length g0) as Hseeds'.
  { intros q Hq. apply Hseeds. rewrite elem_of_cons. auto. }
  assert (s < length g0) as Hs by (apply Hseeds; rewrite elem_of_cons; auto).
  destruct (isMaskSet g s VISITED) eqn:Hvisited; simpl; [by apply (IH _ _ pushed)|].
  destruct (parityFloodFromSeed_runs g0 parityMask fuel g s pushed)
    as (g1 & newFaces & Hflood & Hne); try done.
  rewrite Hflood. simpl.
  destruct (parityFloodFromSeed_flooded g0 parityMask fuel g s pushed g1 newFaces
              (linked_successorsInRange g0 Hlinked) Hmates Hflooded Hs Hflood)
    as (new & Hflooded1 & _).
  apply (IH _ _ (pushed ++ new)); [done..|].
  apply Forall_app. split; [done|]. by constructor.
Qed.

Lemma findMinimumAreaLoop_runs fuel g : forall nodes best bestArea,
  (forall n, n ∈ nodes -> exists l, walk g n n l /\ length l <= fuel) ->
  exists e, HalfEdgeGraphSearch.findMinimumAreaLoop fuel g nodes best bestArea = Ok e.
Proof.
  induction nodes as [|n nodes IH]; intros best bestArea Hloops; simpl; [eauto|].
  destruct (Hloops n) as (l & Hw & Hlen); [rewrite elem_of_cons; auto|].
  rewrite (signedFaceArea_walk g n l fuel Hw Hlen). simpl.
  assert (forall m, m ∈ nodes -> exists l, walk g m m l /\ length l <= fuel) as Hrest.
  { intros m Hm. apply Hloops. rewrite elem_of_cons. auto. }
  match goal with |- context [if ?c then _ else _] => destruct c end; by apply IH.
Qed.

Lemma toggleFaces_runs fuel mask : forall faces loops g,
  Forall2 (fun f l => walk g f f l) faces loops ->
  Forall (fun l => length l <= fuel) loops ->
  exists g', HalfEdgeGraphSearch.toggleFaces fuel g mask faces = Ok g'.
Proof.
  induction faces as [|f faces IH]; intros loops g Hwalks Hlens; simpl; [eauto|].
  inversion Hwalks as [|? l ? loops' Hw Hwalks']; subst.
  inversion Hlens as [|? ? Hlen Hlens']; subst.
  assert (exists g1,
            (if isMaskSet g f mask
             then HalfEdge.clearMaskAroundFace fuel g f mask
             else HalfEdge.setMaskAroundFace fuel g f mask) = Ok g1
            /\ geometry g1 = geometry g) as (g1 & Hrun & Hgeo).
  { destruct (isMaskSet g f mask).
    - destruct (aroundFace_runs (fun g n => clearMask g n mask)
                  ltac:(intros; apply geometry_clearMask) g f f l Hw fuel g eq_refl Hlen)
        as [g1 Hrun].
      exists g1. split; [done|].
      apply aroundFace_Ok in Hrun as (l' & _ & _ & ->);
        [|intros; apply geometry_clearMask].
      apply geometry_foldl. intros. apply geometry_clearMask.
    - destruct (aroundFace_runs (fun g n => setMask g n mask)
                  ltac:(intros; apply geometry_setMask) g f f l Hw fuel g eq_refl Hlen)
        as [g1 Hrun].
      exists g1. split; [done|].
      apply aroundFace_Ok in Hrun as (l' & _ & _ & ->);
        [|intros; apply geometry_setMask].
      apply geometry_foldl. intros. apply geometry_setMask. }
  rewrite Hrun. simpl. apply (IH loops'); [|done].
  eapply Forall2_impl; [exact Hwalks'|]. intros f' l' Hw'.
  eapply geometry_walk; [|exact Hw']. done.
Qed.

Lemma correctParityInSingleComponent_runs fuel g mask faces loops :
  faces <> [] ->
  Forall2 (fun f l => walk g f f l) faces loops ->
  Forall (fun l => length l <= fuel) loops ->
  exists g', HalfEdgeGraphSearch.correctParityInSingleComponent fuel g mask faces = Ok g'.
Proof.
  intros Hne Hwalks Hlens.
  unfold HalfEdgeGraphSearch.correctParityInSingleComponent,
    HalfEdgeGraphSearch.findMinimumAreaFace.
  destruct faces as [|n0 faces]; [done|].
  destruct (findMinimumAreaLoop_runs fuel g (n0 :: faces) n0 HalfEdgeGraphSearch.MAX_VALUE)
    as [e Hfind].
  { intros n Hn. apply list_elem_of_lookup in Hn as [k Hk].
    destruct (Forall2_lookup_l _ _ _ _ _ Hwalks Hk) as (l & Hl & Hw).
    exists l. split; [done|]. rewrite Forall_forall in Hlens. apply Hlens.
    by eapply list_elem_of_lookup_2. }
  rewrite Hfind. cbn [bind deref]. destruct (isMaskSet g e mask); [eauto|].
  by apply (toggleFaces_runs fuel mask (n0 :: faces) loops).
Qed.

Lemma correctParityLoop_runs fuel mask : mask <> 0%Z ->
  forall comps loopss g,
    Forall2 (Forall2 (fun f l => walk g f f l)) comps loopss ->
    NoDup (concat (concat loopss)) ->
    (forall n, n ∈ concat (concat loopss) -> n < length g) ->
    Forall (fun c => c <> []) comps ->
    Forall (Forall (fun l => length l <= fuel)) loopss ->
    exists g', HalfEdgeGraphSearch.correctParityLoop fuel g mask comps = Ok g'.
Proof.
  intros Hmask. induction comps as [|c comps IH];
    intros loopss g Hwalks Hnodup Hrange Hne Hlens; simpl; [eauto|].
  inversion Hwalks as [|? ls ? lss Hc Hwalks']; subst.
  inversion Hne as [|? ? Hc_ne Hne']; subst.
  inversion Hlens as [|? ? Hls Hlens']; subst.
  assert (concat (concat (ls :: lss)) = concat ls ++ concat (concat lss)) as Hcc
    by (simpl; apply concat_app).
  rewrite Hcc in *. clear Hcc.
  apply NoDup_app in Hnodup as (Hnd_c & Hdisj & Hnd_rest).
  destruct (correctParityInSingleComponent_runs fuel g mask c ls Hc_ne Hc Hls)
    as [g1 Hfirst].
  rewrite Hfirst. simpl.
  apply (correctParityInSingleComponent_Ok _ _ _ _ ls) in Hfirst
    as (e & _ & _ & Hgeo1 & _); try done.
  2: { intros n Hn. apply Hrange. rewrite elem_of_app. auto. }
  apply (IH lss); try done.
  - eapply Forall2_impl; [exact Hwalks'|]. intros faces loops Hfl.
    eapply Forall2_impl; [exact Hfl|]. intros f l Hw.
    eapply geometry_walk; [|exact Hw]. done.
  - intros n Hn. rewrite (geometry_length _ _ Hgeo1). apply Hrange.
    rewrite elem_of_app. auto.
Qed.

(** ** The face of most negative area carries the parity *)

(** C5.  (1) On a component (not empty) whose seeds are distinct face
    loops, [correctParityInSingleComponent] returns, with fuel for the
    longest loop; it finds the face of most negative area; when that face
    does not carry the parity mask, the mask is toggled on every half-edge of
    every face of the component, each face getting the negation of the bit of
    its seed; and in the graph returned that face carries the mask.  (2) On
    a well-linked graph whose mates are nodes of the graph,
    [collectConnectedComponents] with a non-null parity mask returns, with
    more fuel than the graph has nodes, and in every component it returns the
    face of most negative area carries the parity mask. *)
Theorem most_negative_face_carries_parity :
  (forall fuel g mask faces loops,
      mask <> 0%Z -> faces <> [] ->
      distinctFaces g faces loops ->
      (forall n, n ∈ concat loops -> n < length g) ->
      Forall (fun l => length l <= fuel) loops ->
      exists g' e,
        HalfEdgeGraphSearch.correctParityInSingleComponent fuel g mask faces = Ok g'
        /\ HalfEdgeGraphSearch.findMinimumAreaFace fuel g faces = Ok (Some e)
        /\ mostNegativeFace fuel g faces e
        /\ (isMaskSet g e mask = true -> g' = g)
        /\ (isMaskSet g e mask = false ->
              Forall2 (fun f l => forall n, n ∈ l ->
                         isMaskSet g' n mask = negb (isMaskSet g f mask)) faces loops)
        /\ outerFaceMarked fuel g' mask faces)
  /\ (forall fuel g parityMask,
         parityMask <> 0%Z ->
         linked g -> matesInRange g -> length g < fuel ->
         exists g' components,
           HalfEdgeGraphSearch.collectConnectedComponents fuel g parityMask
           = Ok (g', components)
           /\ Forall (outerFaceMarked fuel g' parityMask) components).
Proof.
  split.
  - intros fuel g mask faces loops Hmask Hne Hdistinct Hrange Hlens.
    destruct (correctParityInSingleComponent_runs fuel g mask faces loops Hne
                (proj1 Hdistinct) Hlens) as [g' Hrun].
    destruct (correctParityInSingleComponent_Ok _ _ _ _ _ _ Hmask Hdistinct Hrange Hrun)
      as (e & Hfind & Hmost & Hgeo & Hset & Hsame & Htoggle & _).
    exists g', e. repeat (split; [done|]).
    exists e. rewrite (geometry_findMinimumAreaFace _ _ _ _ Hgeo).
    split; [done|]. split; [|done]. by eapply geometry_mostNegativeFace.
  - intros fuel g parityMask Hmask Hlinked Hmates Hfuel.
    pose proof (linked_successorsInRange g Hlinked) as Hsucc.
    unfold HalfEdgeGraphSearch.collectConnectedComponents.
    set (g1 := HalfEdgeGraph.clearMask g (Z.lor parityMask VISITED)).
    assert (geometry g1 = geometry g) as Hgeo1 by apply geometry_graph_clearMask.
    assert (flooded g g1 []) as Hstart by (split; [done|]; split; constructor).
    assert (forall s, s ∈ seq 0 (length g1) -> s < length g) as Hseeds.
    { intros s Hs. apply list_elem_of_In, in_seq in Hs.
      rewrite (geometry_length _ _ Hgeo1) in Hs. lia. }
    destruct (collectLoop_runs g parityMask fuel Hlinked Hmates Hfuel
                (seq 0 (length g1)) g1 [] [] Hstart Hseeds ltac:(constructor))
      as (g2 & comps & Hcollect & Hne).
    rewrite Hcollect. simpl.
    apply (collectLoop_flooded g _ _ Hsucc Hmates _ _ _ [] []) in Hcollect
      as (pushed & loopss & Hflooded & Hwalks & Hconcat);
      [|done|done|constructor|done].
    unfold HalfEdgeGraphSearch.correctParityInComponentArrays.
    destruct (Z.eqb_spec parityMask 0) as [|_]; [done|].
    destruct (flooded_loops _ _ _ Hflooded) as [_ Hrange].
    destruct Hflooded as (Hgeo2 & _ & Hnodup).
    assert (Forall2 (Forall2 (fun f l => walk g2 f f l)) comps loopss) as Hwalks2.
    { eapply Forall2_impl; [exact Hwalks|]. intros faces loops Hfl.
      eapply Forall2_impl; [exact Hfl|]. intros f l Hw.
      eapply geometry_walk; [|exact Hw]. done. }
    assert (forall n, n ∈ concat (concat loopss) -> n < length g2) as Hrange2.
    { intros n Hn. rewrite (geometry_length _ _ Hgeo2). apply Hrange.
      by rewrite <- Hconcat. }
    destruct (correctParityLoop_runs fuel parityMask Hmask comps loopss g2) as [g3 Hcorrect];
      try done.
    { by rewrite Hconcat. }
    { rewrite Forall_forall. intros ls Hls. rewrite Forall_forall. intros l Hl.
      assert (length l <= length g); [|lia].
      apply list_elem_of_lookup in Hls as [i Hi].
      destruct (Forall2_lookup_r _ _ _ _ _ Hwalks Hi) as (c & _ & Hc).
      apply list_elem_of_lookup in Hl as [k Hk].
      destruct (Forall2_lookup_r _ _ _ _ _ Hc Hk) as (f & _ & Hw).
      apply bounded_NoDup_length; [by eapply walk_NoDup|].
      intros n Hn. apply Hrange. rewrite <- Hconcat.
      apply elem_of_concat. exists l. split; [|done].
      apply elem_of_concat. exists ls.
      split; by eapply list_elem_of_lookup_2. }
    rewrite Hcorrect. simpl. exists g3, comps. split; [done|].
    apply (correctParityLoop_Ok _ _ Hmask _ loopss) in Hcorrect
      as (Hgeo3 & Hall & _); try done; [|by rewrite Hconcat].
    eapply Forall_impl; [exact Hall|]. intros faces (e & Hfind & Hmost & Hset).
    exists e. rewrite (geometry_findMinimumAreaFace _ _ _ _ Hgeo3).
    split; [done|]. split; [|done]. by eapply geometry_mostNegativeFace.
Qed.

(** The statement at the square with a square hole: on the component of
    the outer square no face carries the mask [VISITED], and it is toggled
    on; the search for components returns two components of two faces
    each. *)
Lemma parity_on_square_with_hole :
  (exists g' e,
      HalfEdgeGraphSearch.correctParityInSingleComponent 20 squareWithHole VISITED [0; 1]
      = Ok g'
      /\ HalfEdgeGraphSearch.findMinimumAreaFace 20 squareWithHole [0; 1] = Ok (Some e)
      /\ mostNegativeFace 20 squareWithHole [0; 1] e
      /\ (isMaskSet squareWithHole e VISITED = true -> g' = squareWithHole)
      /\ (isMaskSet squareWithHole e VISITED = false ->
            Forall2 (fun f l => forall n, n ∈ l ->
                       isMaskSet g' n VISITED = negb (isMaskSet squareWithHole f VISITED))
                    [0; 1] [[0; 2; 4; 6]; [1; 7; 5; 3]])
      /\ outerFaceMarked 20 g' VISITED [0; 1])
  /\ exists g' components,
       HalfEdgeGraphSearch.collectConnectedComponents 20 squareWithHole EXTERIOR
       = Ok (g', components)
       /\ Forall (outerFaceMarked 20 g' EXTERIOR) components.
Proof.
  split.
  - apply (proj1 most_negative_face_carries_parity 20 squareWithHole VISITED
             [0; 1] [[0; 2; 4; 6]; [1; 7; 5; 3]]).
    + discriminate.
    + discriminate.
    + split.
      * repeat (apply Forall2_cons; split;
                  [apply (collect_walk 10); vm_compute; reflexivity|]).
        apply Forall2_nil_2.
      * simpl. repeat (apply NoDup_cons; split;
                         [intros H; repeat (apply elem_of_cons in H as [H|H]; [lia|]);
                          by apply elem_of_nil in H|]).
        apply NoDup_nil_2.
    + intros n Hn. vm_compute in Hn.
      repeat (apply elem_of_cons in Hn as [->|Hn]; [vm_compute; lia|]).
      by apply elem_of_nil in Hn.
    + repeat (apply Forall_cons; split; [simpl; lia|]). apply Forall_nil_2.
  - apply (proj2 most_negative_face_carries_parity 20 squareWithHole EXTERIOR).
    + discriminate.
    + apply linkedb_linked. vm_compute. reflexivity.
    + apply matesInRangeb_ok. vm_compute. reflexivity.
    + vm_compute. lia.
Defined.

(** * Further properties of the triangulator *)

(** ** Convex polygons with and without the Z-order index *)

(** X1.  For every convex polygon of more than 80 vertices with integer
    coordinates of magnitude at most 2^20 (every three vertices, taken in the
    order of the array, make a strict turn to the same side; the array may
    run counter-clockwise or clockwise), [earcutSingleLoop], which then tests
    ears with [isEarHashed], and the triangulation that tests every ear with
    [isEar] both return when the fuel is at least twice the number of points
    plus six, and their graphs differ in the Z-order fields only: the same
    faces through the same points, hence the same triangles.  (On coordinates
    that are not exact in this way the corner areas of the code are rounded,
    and this statement says nothing.) *)
Theorem hashed_ear_search_agrees_on_convex_polygons (data : list XAndY) (fuel : nat) :
  80 < length data -> exactData data = true -> convexPolygon data ->
  2 * length data + 6 <= fuel ->
  exists gh gb,
    Triangulator.earcutSingleLoop fuel data = Ok gh
    /\ earcutBruteForce fuel data = Ok gb
    /\ forgetZ gh = forgetZ gb
    /\ trianglesOf gh = trianglesOf gb.
Proof.
  intros Hlen _ Hconvex Hfuel.
  destruct (createFaceLoop_built data fuel)
    as (g3 & start & L & area & Hcreate & Hfz & Hlinked & Hw & HlenL & Hrange
        & _ & _ & Hccw & Hcw & Hbits & _); [intros ->; simpl in Hlen; lia|lia|].
  pose proof (keptPoints_sublist data) as Hpts.
  assert (length (keptPoints data) <= length data) as Hlenp.
  { apply sublist_length in Hpts. unfold coordinates in Hpts.
    by rewrite length_map in Hpts. }
  assert (3 <= length L -> convexLoop (map (Triangulator.xy g3) L)) as Hcvx.
  { intros H3. rewrite HlenL in H3.
    assert (exists o, head (keptPoints data) = Some o /\ take 1 (keptPoints data) = [o])
      as (o & Ho & Ho').
    { destruct (keptPoints data) as [|o ?]; [simpl in H3; lia|]. by exists o. }
    destruct Hconvex as [Hc|Hc].
    - apply (convexLoop_sublist _ _ Hpts) in Hc. rewrite Hccw; [done|].
      rewrite Ho'. pose proof (pathSum_convex _ _ Ho H3 Hc). lra.
    - apply (convexLoop_sublist _ _ (sublist_reverse _ _ Hpts)) in Hc.
      rewrite Hcw by (rewrite Ho'; by apply pathSum_clockwise).
      rewrite reverse_app. apply convexLoop_rotate_app.
      by rewrite <- reverse_app, take_drop. }
  unfold Triangulator.earcutSingleLoop, earcutBruteForce.
  rewrite Hcreate. cbn [bind].
  destruct (if 80 <? length data then Triangulator.boundsOf data
            else (None, None, None)) as [[minX minY] size].
  destruct (earcutLinked_convex g3 start L fuel minX minY size)
    as (gh & gb & Hh & Hb & Heq); try done; [|lia|].
  { intros n Hn. unfold isMaskSet. by rewrite Hbits. }
  exists gh, gb. split; [done|]. split; [done|]. split; [done|].
  by apply trianglesOf_forgetZ.
Qed.

Lemma hashed_ear_search_agrees_on_parabola :
  80 < length parabola81 /\ exactData parabola81 = true /\ convexPolygon parabola81
  /\ exists gh gb,
       Triangulator.earcutSingleLoop 200 parabola81 = Ok gh
       /\ earcutBruteForce 200 parabola81 = Ok gb
       /\ forgetZ gh = forgetZ gb
       /\ trianglesOf gh = trianglesOf gb.
Proof.
  assert (80 < length parabola81) as Hlen by (vm_compute; lia).
  assert (exactData parabola81 = true) as Hexact by (vm_compute; reflexivity).
  assert (convexPolygon parabola81) as Hconvex.
  { left. apply convexLoopb_convexLoop. vm_compute. reflexivity. }
  split; [exact Hlen|]. split; [exact Hexact|]. split; [exact Hconvex|].
  apply (hashed_ear_search_agrees_on_convex_polygons parabola81 200 Hlen Hexact Hconvex).
  vm_compute. lia.
Defined.

(** The triangulation of the parabola polygon has 79 triangles. *)
Lemma parabola81_triangles :
  exists g, Triangulator.earcutSingleLoop 200 parabola81 = Ok g
            /\ length (triangularFaces g) = 79.
Proof. apply triangles_of_run. vm_compute. reflexivity. Qed.

(** ** The face loop of a point array *)

(** X2.  On a fresh graph and a non-empty array, with fuel for one walk
    around the loop, [createFaceLoopFromXAndYArray(data, true, true)]
    returns a node.  The points of its face loop are those that
    [directCreateFaceLoopFromXAndYArray] keeps (a point equal, within
    tolerance, to the point before it or to the first point is passed over):
    in the order of the array, from the first, when their shoelace sum is not
    negative; in the opposite order, from the second, when it is negative.
    In both cases [signedFaceArea] of the returned node is not negative. *)
Theorem createFaceLoop_runs_through_the_kept_points data fuel :
  data <> [] -> length data <= fuel ->
  exists g start L area,
    Triangulator.createFaceLoopFromXAndYArray fuel [] data true true
    = Ok (g, Some start)
    /\ linked g /\ walk g start start L
    /\ keptPoints data `sublist_of` coordinates data
    /\ HalfEdge.signedFaceArea fuel g start = Ok area /\ (0 <= area)%Q
    /\ ((0 <= pathSum (keptPoints data ++ take 1 (keptPoints data)))%Q ->
        map (Triangulator.xy g) L = keptPoints data)
    /\ ((pathSum (keptPoints data ++ take 1 (keptPoints data)) < 0)%Q ->
        map (Triangulator.xy g) L
        = reverse (drop 2 (keptPoints data) ++ take 2 (keptPoints data))).
Proof.
  intros Hdata Hfuel.
  destruct (createFaceLoop_built data fuel Hdata Hfuel)
    as (g & start & L & area & Hrun & _ & Hlinked & Hw & _ & _ & Harea & Hpos
        & Hccw & Hcw & _).
  exists g, start, L, area. repeat (split; [done|]).
  split; [apply keptPoints_sublist|]. by repeat (split; [done|]).
Qed.

Lemma createFaceLoop_runs_through_the_dented_square :
  exists g start L area,
    Triangulator.createFaceLoopFromXAndYArray 10 [] dentedSquare true true
    = Ok (g, Some start)
    /\ linked g /\ walk g start start L
    /\ keptPoints dentedSquare `sublist_of` coordinates dentedSquare
    /\ HalfEdge.signedFaceArea 10 g start = Ok area /\ (0 <= area)%Q
    /\ ((0 <= pathSum (keptPoints dentedSquare ++ take 1 (keptPoints dentedSquare)))%Q ->
        map (Triangulator.xy g) L = keptPoints dentedSquare)
    /\ ((pathSum (keptPoints dentedSquare ++ take 1 (keptPoints dentedSquare)) < 0)%Q ->
        map (Triangulator.xy g) L
        = reverse (drop 2 (keptPoints dentedSquare) ++ take 2 (keptPoints dentedSquare))).
Proof.
  apply (createFaceLoop_runs_through_the_kept_points dentedSquare 10).
  - discriminate.
  - simpl. lia.
Defined.

(** X3.  The graph that [createFaceLoopFromXAndYArray(data, true, true)]
    builds on a fresh graph has two nodes for every kept point.  The nodes
    of the returned loop carry the masks BOUNDARY and PRIMARY_EDGE and no
    other; all other nodes carry EXTERIOR as well.  Every node has a mate,
    which is on the other side (in the returned loop exactly when the node
    is not), has the node as its mate, and sits at the point where the edge
    of the node ends. *)
Theorem createFaceLoop_marks_the_outer_side data fuel :
  data <> [] -> length data <= fuel ->
  exists g start L,
    Triangulator.createFaceLoopFromXAndYArray fuel [] data true true
    = Ok (g, Some start)
    /\ walk g start start L
    /\ length g = 2 * length (keptPoints data)
    /\ length L = length (keptPoints data)
    /\ (forall n, n ∈ L -> n < length g /\ maskBits g n = Z.lor BOUNDARY PRIMARY_EDGE)
    /\ (forall n, n < length g -> n ∉ L ->
          maskBits g n = Z.lor (Z.lor BOUNDARY PRIMARY_EDGE) EXTERIOR)
    /\ (forall n, n < length g ->
          exists m, edgeMate g n = Some m /\ edgeMate g m = Some n
                    /\ Triangulator.xy g m = Triangulator.xy g (faceSuccessor g n)
                    /\ (n ∈ L <-> m ∉ L)).
Proof.
  intros Hdata Hfuel.
  destruct (createFaceLoop_built data fuel Hdata Hfuel)
    as (g & start & L & area & Hrun & _ & Hlinked & Hw & HlenL & Hrange & _ & _
        & _ & _ & Hbits & Hext & Hmates & Hsize).
  exists g, start, L. repeat (split; [done|]).
  split; [|by split]. intros n Hn. split; [by apply Hrange|by apply Hbits].
Qed.

Lemma createFaceLoop_marks_the_outer_side_of_the_dented_square :
  exists g start L,
    Triangulator.createFaceLoopFromXAndYArray 10 [] dentedSquare true true
    = Ok (g, Some start)
    /\ walk g start start L
    /\ length g = 2 * length (keptPoints dentedSquare)
    /\ length L = length (keptPoints dentedSquare)
    /\ (forall n, n ∈ L -> n < length g /\ maskBits g n = Z.lor BOUNDARY PRIMARY_EDGE)
    /\ (forall n, n < length g -> n ∉ L ->
          maskBits g n = Z.lor (Z.lor BOUNDARY PRIMARY_EDGE) EXTERIOR)
    /\ (forall n, n < length g ->
          exists m, edgeMate g n = Some m /\ edgeMate g m = Some n
                    /\ Triangulator.xy g m = Triangulator.xy g (faceSuccessor g n)
                    /\ (n ∈ L <-> m ∉ L)).
Proof.
  apply (createFaceLoop_marks_the_outer_side dentedSquare 10).
  - discriminate.
  - simpl. lia.
Defined.

(** ** Cutting an ear *)

(** X4.  On a linked graph, at a node [e] whose face loop has four nodes
    or more, [joinNeighborsOfEar] returns (fuel 3 suffices) with two new
    nodes: [alpha], at the point of the predecessor [a] of [e], and its mate
    [beta], at the point of the successor [c].  The ear, [beta] and the old
    predecessor [a] form a face loop of three nodes that all carry the
    triangulated mask; the rest of the loop runs on from the successor of
    [c] and closes through [alpha] and [c].  Old nodes keep their points,
    and the masks of the nodes outside the triangle are unchanged. *)
Theorem joinNeighborsOfEar_cuts_off_triangle g e c d M a fuel :
  linked g -> e < length g -> walk g e e (e :: c :: d :: M ++ [a]) -> 3 <= fuel ->
  exists g',
    Triangulator.joinNeighborsOfEar fuel g e = Ok g'
    /\ length g' = S (S (length g)) /\ linked g'
    /\ walk g' e e [e; S (length g); a]
    /\ walk g' d d (d :: M ++ [length g; c])
    /\ Triangulator.xy g' (length g) = Triangulator.xy g a
    /\ Triangulator.xy g' (S (length g)) = Triangulator.xy g c
    /\ (forall n, n < length g -> Triangulator.xy g' n = Triangulator.xy g n)
    /\ edgeMate g' (length g) = Some (S (length g))
    /\ edgeMate g' (S (length g)) = Some (length g)
    /\ (forall n, n ∈ [e; S (length g); a] ->
          isMaskSet g' n TRIANGULATED_NODE_MASK = true)
    /\ (forall n, n < length g -> n <> e -> n <> a -> maskBits g' n = maskBits g n)
    /\ maskBits g' (length g) = 0%Z.
Proof.
  intros Hlinked He Hw Hfuel.
  assert (a < length g) as Ha.
  { apply (walk_in_range g e e _ (linked_successorsInRange g Hlinked) He Hw). in_list. }
  destruct (join_links g e c d M a Hlinked Hw He)
    as (HwJ & HwT & HpJ & Hframe & Hsc & Hpa & HJe & HJalpha & HJc & HJa & Hsd).
  set (J := joinLinks g e) in *.
  assert (length J = S (S (length g))) as HlenJ by (by apply length_joinLinks).
  destruct (aroundFace_runs (fun g n => setMask g n TRIANGULATED_NODE_MASK)
              ltac:(intros; apply geometry_setMask) J e e _ HwT fuel J eq_refl)
    as [g' Hrun]; [simpl; lia|].
  destruct (setMaskAroundFace_Ok fuel J e TRIANGULATED_NODE_MASK g' _ ltac:(done) HwT)
    as (Hgeo & Hset & Hother); [|exact Hrun|].
  { intros n Hn. rewrite HlenJ.
    repeat (apply elem_of_cons in Hn as [->|Hn]; [lia|]). by apply elem_of_nil in Hn. }
  exists g'. split; [by rewrite joinNeighborsOfEar_unfold|].
  split; [by rewrite (geometry_length _ _ Hgeo)|].
  split; [apply (linked_geometry J); [done|by apply linked_joinLinks]|].
  split; [by apply (geometry_walk J)|]. split; [by apply (geometry_walk J)|].
  rewrite !(geometry_xy _ _ _ Hgeo), !(geometry_edgeMate _ _ _ Hgeo).
  split; [rewrite <- Hpa; by apply joinLinks_xy_alpha|].
  split; [rewrite <- Hsc; by apply joinLinks_xy_beta|].
  split; [intros n Hn; rewrite (geometry_xy _ _ _ Hgeo); by apply joinLinks_xy_old|].
  split.
  { unfold edgeMate, J. rewrite (joinLinks_field g e HE.edgeMate) by done.
    rewrite createEdgeXYZXYZ_eq. cbn [fst]. by rewrite lookup_total_app_first. }
  split; [apply joinLinks_mate_beta|]. split; [done|]. split.
  - intros n Hn Hne Hna. rewrite Hother.
    + unfold maskBits. by apply joinLinks_old.
    + intros H. repeat (apply elem_of_cons in H as [H|H]; [done || lia|]).
      by apply elem_of_nil in H.
  - rewrite Hother; [by destruct (joinLinks_maskBits_new g e)|].
    intros H. repeat (apply elem_of_cons in H as [H|H]; [lia|]). by apply elem_of_nil in H.
Qed.

Lemma joinNeighborsOfEar_cuts_off_triangle_on_dented_square :
  exists g',
    Triangulator.joinNeighborsOfEar 3 dentedSquareLoop 0 = Ok g'
    /\ length g' = S (S (length dentedSquareLoop)) /\ linked g'
    /\ walk g' 0 0 [0; S (length dentedSquareLoop); 8]
    /\ walk g' 4 4 (4 :: [6] ++ [length dentedSquareLoop; 2])
    /\ Triangulator.xy g' (length dentedSquareLoop) = Triangulator.xy dentedSquareLoop 8
    /\ Triangulator.xy g' (S (length dentedSquareLoop)) = Triangulator.xy dentedSquareLoop 2
    /\ (forall n, n < length dentedSquareLoop ->
          Triangulator.xy g' n = Triangulator.xy dentedSquareLoop n)
    /\ edgeMate g' (length dentedSquareLoop) = Some (S (length dentedSquareLoop))
    /\ edgeMate g' (S (length dentedSquareLoop)) = Some (length dentedSquareLoop)
    /\ (forall n, n ∈ [0; S (length dentedSquareLoop); 8] ->
          isMaskSet g' n TRIANGULATED_NODE_MASK = true)
    /\ (forall n, n < length dentedSquareLoop -> n <> 0 -> n <> 8 ->
          maskBits g' n = maskBits dentedSquareLoop n)
    /\ maskBits g' (length dentedSquareLoop) = 0%Z.
Proof.
  apply (joinNeighborsOfEar_cuts_off_triangle dentedSquareLoop 0 2 4 [6] 8 3).
  - apply linkedb_linked. vm_compute. reflexivity.
  - vm_compute. lia.
  - apply (collect_walk 10). vm_compute. reflexivity.
  - lia.
Defined.

(** ** Ears of a convex loop *)

(** X5.  On a linked graph, every node of a face loop of three nodes or
    more whose coordinates are integers of magnitude at most 2^20 and whose
    corners, taken three at a time in the order of the loop, all turn
    counter-clockwise is an ear: [isEar] returns [true] there.  (On
    coordinates that are not exact in this way the corner areas of the code
    are rounded, and this statement says nothing.) *)
Theorem isEar_accepts_every_corner_of_a_convex_loop g s L n fuel :
  linked g -> s < length g -> walk g s s L -> 3 <= length L ->
  forallb (fun m => exactPoint (Triangulator.xy g m)) L = true ->
  convexLoop (map (Triangulator.xy g) L) -> n ∈ L -> length L <= fuel ->
  Triangulator.isEar fuel g n = Ok true.
Proof.
  intros Hlinked Hs Hw Hlen _ Hconvex Hn Hfuel.
  assert (forall m, m ∈ L -> m < length g) as Hrange
    by (by apply (walk_in_range g s s L (linked_successorsInRange g Hlinked))).
  assert (forall m, m ∈ L -> (Triangulator.cornerArea g m < 0)%Q) as Hcorners
    by (intros m; by apply (loop_corner g L s)).
  apply list_elem_of_split in Hn as (l1 & l2 & ->).
  pose proof (walk_rotate g l1 n l2 s Hw) as Hw'.
  destruct (three_or_more (n :: l2 ++ l1)) as (e' & c & l & a & Heq).
  { rewrite length_app in Hlen. simpl in *. rewrite length_app. lia. }
  injection Heq as <- Heq. rewrite Heq in Hw'.
  assert (forall m, m ∈ n :: c :: l ++ [a] -> m ∈ l1 ++ n :: l2) as Hsame.
  { intros m. rewrite <- Heq. in_list. }
  destruct (walk_head_links g n c l a Hlinked) as [Hsc Hpa]; [apply Hrange; in_list|done|].
  unfold Triangulator.isEar.
  assert (Qleb 0 (Triangulator.cornerArea g n) = false) as ->.
  { apply Qleb_gt, Hcorners. in_list. }
  assert (walk g n (faceSuccessor g c) (l ++ [a])) as Hsuf.
  { inversion Hw' as [|? ? Hs1 Hw1]; subst.
    inversion Hw1 as [? Hs2 Hl|? ? Hs2 Hw2]; subst.
    { by destruct l. }
    done. }
  destruct (isEarScan_walk g n Hlinked) with (cur := faceSuccessor g c) (l := l ++ [a])
    as (front & Hfront & Hscan); [apply Hrange; in_list| |done|].
  { apply Hlinked, Hrange, Hsame. in_list. }
  rewrite Hsc, Hscan.
  - f_equal. apply forallb_forall. intros p Hp'. apply list_elem_of_In in Hp'.
    unfold scanBlocks.
    assert (Qleb 0 (Triangulator.cornerArea g p) = false) as ->;
      [|by rewrite andb_false_r].
    apply Qleb_gt, Hcorners, Hsame.
    do 2 right. rewrite Hfront. rewrite elem_of_app. by left.
  - apply (f_equal length) in Heq. rewrite !length_app in *. simpl in *.
    rewrite !length_app in *. simpl in *. lia.
Qed.

Lemma isEar_accepts_every_corner_of_the_square :
  Triangulator.isEar 4 squareLoop 4 = Ok true.
Proof.
  apply (isEar_accepts_every_corner_of_a_convex_loop squareLoop 0 [0; 2; 4; 6] 4 4).
  - apply linkedb_linked. vm_compute. reflexivity.
  - vm_compute. lia.
  - apply (collect_walk 10). vm_compute. reflexivity.
  - simpl. lia.
  - vm_compute. reflexivity.
  - apply convexLoopb_convexLoop. vm_compute. reflexivity.
  - in_list.
  - simpl. lia.
Defined.

(** ** Loops too small to triangulate *)

(** X6.  On a linked graph, [earcutLinked] at a node whose face loop has
    one or two nodes, none of them marked as triangulated, returns (fuel 6
    suffices) and cuts nothing: the graph comes back with at most its
    Z-order fields changed, and unchanged when no bounding-box size is
    given. *)
Theorem earcutLinked_cuts_nothing_from_a_small_loop g s L fuel minX minY size :
  linked g -> s < length g -> walk g s s L -> length L <= 2 ->
  (forall n, n ∈ L -> isMaskSet g n TRIANGULATED_NODE_MASK = false) ->
  6 <= fuel ->
  exists g',
    Triangulator.earcutLinked fuel g (Some s) minX minY size None = Ok g'
    /\ forgetZ g' = forgetZ g
    /\ (Triangulator.truthy size = false -> g' = g).
Proof.
  intros Hlinked Hs Hw Hsmall Hmasks Hfuel.
  destruct (walk_head _ _ _ _ Hw) as [Lt HL].
  unfold Triangulator.earcutLinked, Triangulator.earcutLinkedFrom.
  cbn [Triangulator.passFalsy andb].
  assert (exists g1,
            (if Triangulator.truthy size
             then Triangulator.indexCurve fuel g s (Triangulator.numberOr0 minX)
                    (Triangulator.numberOr0 minY) (Triangulator.numberOr0 size)
             else Ok g) = Ok g1
            /\ forgetZ g1 = forgetZ g
            /\ (Triangulator.truthy size = false -> g1 = g))
    as (g1 & -> & Hfz1 & Hsame).
  { destruct (Triangulator.truthy size).
    - destruct (indexCurve_spec fuel g s (Triangulator.numberOr0 minX)
                  (Triangulator.numberOr0 minY) (Triangulator.numberOr0 size) L)
        as (g1 & zl & Hrun & _ & _ & Hfz1 & _); [done|done|done|lia|].
      by exists g1.
    - by exists g. }
  cbn [bind]. exists g1. split; [|done].
  set (q := faceSuccessor g s).
  assert (faceSuccessor g q = s /\ facePredecessor g s = q
          /\ facePredecessor g q = s) as (Hqs & Hps & Hpq).
  { destruct (Hlinked s Hs) as (Hqr & _ & Hps & _). fold q in Hqr, Hps.
    assert (faceSuccessor g q = s) as Hqs.
    { rewrite HL in Hw.
      destruct Lt as [|q' [|]]; [| |rewrite HL in Hsmall; simpl in Hsmall; lia].
      - apply walk_chain in Hw.
        apply (chain_snoc_inv g [] s s s) in Hw as [Hs' _]. unfold q. by rewrite Hs'.
      - apply walk_chain in Hw. apply chain_cons_inv in Hw as [Hs' Hw].
        apply (chain_snoc_inv g [] q' q' s) in Hw as [Hs'' _]. unfold q. by rewrite Hs'. }
    split; [done|]. split; [|done].
    destruct (Hlinked q Hqr) as (_ & _ & Hps' & _). by rewrite Hqs in Hps'. }
  assert (s ∈ L) as HsL by (rewrite HL; by left).
  assert (q ∈ L) as HqL by (by apply (walk_closed_successor g s)).
  apply (earcutWhile_small g1 s q); [| | | | | |lia];
    rewrite ?(forgetZ_faceSuccessor _ _ _ Hfz1), ?(forgetZ_facePredecessor _ _ _ Hfz1),
      ?(forgetZ_isMaskSet _ _ _ _ Hfz1); auto.
Qed.

Lemma earcutLinked_cuts_nothing_from_one_point :
  exists g',
    Triangulator.earcutLinked 6 onePointGraph (Some 0) None None None None = Ok g'
    /\ forgetZ g' = forgetZ onePointGraph
    /\ (Triangulator.truthy None = false -> g' = onePointGraph).
Proof.
  apply (earcutLinked_cuts_nothing_from_a_small_loop onePointGraph 0 [0] 6 None None None).
  - apply linkedb_linked. vm_compute. reflexivity.
  - vm_compute. lia.
  - apply (collect_walk 10). vm_compute. reflexivity.
  - simpl. lia.
  - intros n Hn. apply list_elem_of_singleton in Hn as ->. vm_compute. reflexivity.
  - lia.
Defined.

(** ** The Z-order index *)

(** X7.  [sortLinked] sorts a [nextZ] list by Z-order.  When [list_] leads
    along [nextZ] through the distinct nodes [l] (not empty) and each of
    them has a Z-order, [sortLinked] returns (fuel twice the length
    suffices) the first node of a list [l'] that is a rearrangement of [l],
    is linked by [prevZ] and [nextZ] in both directions with [undefined] at
    both ends, and in which no node has a larger Z-order than a later one;
    nothing but the [prevZ] and [nextZ] fields is written. *)
Theorem sortLinked_sorts_by_zOrder g l list_ fuel :
  l <> [] -> NoDup l -> (forall n, n ∈ l -> n < length g) ->
  nextChain g list_ l ->
  (forall n, n ∈ l -> is_Some (zOrderOf g n)) ->
  2 * length l <= fuel ->
  exists g' l',
    Triangulator.sortLinked fuel g list_ = Ok (g', head l')
    /\ l' ≡ₚ l /\ zLinked g' l' /\ zSorted g' l'
    /\ forgetZ g' = forgetZ g
    /\ (forall n, zOrderOf g' n = zOrderOf g n).
Proof.
  intros Hne Hnd Hrange Hchain Hkeys Hfuel.
  assert (1 <= length l) as Hlen by (destruct l; [done|simpl; lia]).
  destruct (sortLinkedLoop_spec fuel g l list_ 1)
    as (g' & l' & list' & Hrun & Hperm & Hz & Hf & _ & Hzo & Hsorted & ->); try done.
  { lia. }
  exists g', l'. unfold Triangulator.sortLinked.
  repeat (split; [done|]). split; [|done].
  apply Hsorted; [done|]. apply chunksSorted_1.
Qed.

Lemma sortLinked_sorts_the_square_chain :
  exists g' l',
    Triangulator.sortLinked 8 squareChain (Some 0) = Ok (g', head l')
    /\ l' ≡ₚ [0; 2; 4; 6] /\ zLinked g' l' /\ zSorted g' l'
    /\ forgetZ g' = forgetZ squareChain
    /\ (forall n, zOrderOf g' n = zOrderOf squareChain n).
Proof.
  apply (sortLinked_sorts_by_zOrder squareChain [0; 2; 4; 6] (Some 0) 8).
  - discriminate.
  - repeat (apply NoDup_cons; split;
            [intros H; repeat (apply elem_of_cons in H as [H|H]; [discriminate|]);
             by apply elem_of_nil in H|]).
    apply NoDup_nil_2.
  - intros n Hn. apply (proj1 (Forall_forall (fun n => n < length squareChain) [0; 2; 4; 6])
                          ltac:(repeat (apply Forall_cons; split; [vm_compute; lia|]); apply Forall_nil_2) n Hn).
  - vm_compute. repeat split.
  - intros n Hn.
    apply (proj1 (Forall_forall (fun n => is_Some (zOrderOf squareChain n)) [0; 2; 4; 6])
             ltac:(repeat (apply Forall_cons; split; [vm_compute; eexists; reflexivity|]); apply Forall_nil_2) n Hn).
  - simpl. lia.
Defined.

(** X8.  [indexCurve] builds the sorted Z-order list of a face loop.  On a
    linked graph, for a node [start] whose face loop is [l], it returns
    (fuel twice the length suffices); afterwards the nodes of the loop,
    in some order [zl], are doubly linked by [prevZ] and [nextZ] with
    [undefined] at both ends, and no node of [zl] has a larger Z-order than
    a later one.  A loop node that had a Z-order keeps it (it is not
    recomputed for the new box), one that had none gets [zOrder] of its
    point; nodes off the loop keep theirs, and no other field of any node
    changes. *)
Theorem indexCurve_builds_the_sorted_list g start minX minY size l fuel :
  linked g -> start < length g -> walk g start start l ->
  2 * length l <= fuel ->
  exists g' zl,
    Triangulator.indexCurve fuel g start minX minY size = Ok g'
    /\ zl ≡ₚ l /\ zLinked g' zl /\ zSorted g' zl
    /\ forgetZ g' = forgetZ g
    /\ (forall n, n ∈ l ->
          zOrderOf g' n
          = Some (match zOrderOf g n with
                  | Some z => z
                  | None => Triangulator.zOrder (X g n) (Y g n) minX minY size
                  end))
    /\ (forall n, n ∉ l -> zOrderOf g' n = zOrderOf g n).
Proof.
  intros Hlinked Hstart Hw Hfuel.
  destruct (indexCurve_spec fuel g start minX minY size l Hlinked Hstart Hw Hfuel)
    as (g' & zl & Hrun & Hperm & Hz & Hf & Hs & Hin & Hout).
  by exists g', zl.
Qed.

Lemma indexCurve_builds_the_sorted_list_of_the_dented_square :
  exists g' zl,
    Triangulator.indexCurve 10 dentedSquareLoop 0 0 0 4 = Ok g'
    /\ zl ≡ₚ [0; 2; 4; 6; 8] /\ zLinked g' zl /\ zSorted g' zl
    /\ forgetZ g' = forgetZ dentedSquareLoop
    /\ (forall n, n ∈ [0; 2; 4; 6; 8] ->
          zOrderOf g' n
          = Some (match zOrderOf dentedSquareLoop n with
                  | Some z => z
                  | None => Triangulator.zOrder (X dentedSquareLoop n)
                              (Y dentedSquareLoop n) 0 0 4
                  end))
    /\ (forall n, n ∉ [0; 2; 4; 6; 8] -> zOrderOf g' n = zOrderOf dentedSquareLoop n).
Proof.
  apply (indexCurve_builds_the_sorted_list dentedSquareLoop 0 0 0 4 [0; 2; 4; 6; 8] 10).
  - apply linkedb_linked. vm_compute. reflexivity.
  - vm_compute. lia.
  - apply (collect_walk 10). vm_compute. reflexivity.
  - simpl. lia.
Defined.

(** ** Flips of the cleanup *)





(** ** The leftmost node of a loop *)

Lemma getLeftmostLoop_spec g start : forall p l,
  walk g start p l ->
  forall fuel leftmost, length l <= fuel ->
  exists m,
    Triangulator.getLeftmostLoop fuel g start p leftmost = Ok m
    /\ ((m = leftmost /\ forall n, n ∈ l -> (X g leftmost <= X g n)%Q)
        \/ exists pre post,
             l = pre ++ m :: post
             /\ (X g m < X g leftmost)%Q
             /\ (forall n, n ∈ pre -> (X g m < X g n)%Q)
             /\ (forall n, n ∈ post -> (X g m <= X g n)%Q)).
Proof.
  induction 1 as [p Hs|p l Hs Hw IH]; intros [|fuel] leftmost Hfuel;
    simpl in Hfuel; try lia; simpl.
  - rewrite Hs, Nat.eqb_refl. eexists. split; [done|].
    destruct (Qltb (X g p) (X g leftmost)) eqn:Hlt.
    + right. exists [], []. apply Qltb_lt in Hlt.
      repeat split; try done; intros n Hn; by apply elem_of_nil in Hn.
    + left. split; [done|]. intros n ->%list_elem_of_singleton. by apply Qltb_ge.
  - apply Nat.eqb_neq in Hs. rewrite Hs.
    destruct (Qltb (X g p) (X g leftmost)) eqn:Hlt.
    + apply Qltb_lt in Hlt.
      destruct (IH fuel p ltac:(lia)) as (m & Hrun & [[-> Hmin]|(pre & post & -> & Hm & Hpre & Hpost)]).
      * exists p. split; [done|]. right. exists [], l.
        repeat split; try done. intros n Hn. by apply elem_of_nil in Hn.
      * exists m. split; [done|]. right. exists (p :: pre), post.
        split; [done|]. split; [by eapply Qlt_trans|]. split; [|done].
        intros n [->|Hn]%elem_of_cons; [done|by apply Hpre].
    + apply Qltb_ge in Hlt.
      destruct (IH fuel leftmost ltac:(lia))
        as (m & Hrun & [[-> Hmin]|(pre & post & -> & Hm & Hpre & Hpost)]).
      * exists leftmost. split; [done|]. left. split; [done|].
        intros n [->|Hn]%elem_of_cons; [done|by apply Hmin].
      * exists m. split; [done|]. right. exists (p :: pre), post.
        split; [done|]. split; [done|]. split; [|done].
        intros n [->|Hn]%elem_of_cons; [by eapply Qlt_le_trans|by apply Hpre].
Qed.

(** X10.  On a closed face loop [getLeftmost] returns (fuel the length of
    the loop suffices) the first node of least [x] met from [start]: every
    node met before it lies strictly to its right, and none after it lies to
    its left. *)
Theorem getLeftmost_returns_the_first_node_of_least_x g start l fuel :
  walk g start start l -> length l <= fuel ->
  exists m pre post,
    Triangulator.getLeftmost fuel g (Some start) = Ok m
    /\ l = pre ++ m :: post
    /\ (forall n, n ∈ pre -> (X g m < X g n)%Q)
    /\ (forall n, n ∈ post -> (X g m <= X g n)%Q).
Proof.
  intros Hw Hfuel. unfold Triangulator.getLeftmost. cbn [deref bind].
  destruct (getLeftmostLoop_spec g start start l Hw fuel start Hfuel)
    as (m & Hrun & [[-> Hmin]|(pre & post & -> & Hm & Hpre & Hpost)]).
  - destruct (walk_head _ _ _ _ Hw) as [rest ->].
    exists start, [], rest. split; [done|]. split; [done|]. split.
    + intros n Hn. by apply elem_of_nil in Hn.
    + intros n Hn. apply Hmin. rewrite elem_of_cons. auto.
  - exists m, pre, post. done.
Qed.

Lemma getLeftmost_returns_the_first_node_of_least_x_of_the_dented_square :
  exists m pre post,
    Triangulator.getLeftmost 5 dentedSquareLoop (Some 4) = Ok m
    /\ [4; 6; 8; 0; 2] = pre ++ m :: post
    /\ (forall n, n ∈ pre -> (X dentedSquareLoop m < X dentedSquareLoop n)%Q)
    /\ (forall n, n ∈ post -> (X dentedSquareLoop m <= X dentedSquareLoop n)%Q).
Proof.
  apply (getLeftmost_returns_the_first_node_of_least_x dentedSquareLoop 4 [4; 6; 8; 0; 2] 5).
  - apply (collect_walk 10). vm_compute. reflexivity.
  - simpl. lia.
Defined.

(** ** The faces returned by the component search *)

Lemma visited_push g0 g pushed fuel s mask stack faces g1 stack1 faces1 l :
  flooded g0 g pushed ->
  HalfEdgeGraphSearch.pushAndMaskAllNodesInFace fuel g s mask stack faces
  = Ok (g1, stack1, faces1) ->
  flooded g0 g1 (pushed ++ [(s, l)]) ->
  (forall n, isMaskSet g n VISITED = true -> n ∈ concat (map snd pushed)) ->
  forall n, isMaskSet g1 n VISITED = true -> n ∈ concat (map snd (pushed ++ [(s, l)])).
Proof.
  intros Hflooded Hpush Hflooded1 Hvisited n Hn.
  rewrite map_app, concat_app. simpl. rewrite app_nil_r. apply elem_of_app.
  destruct (decide (n ∈ l)) as [Hin|Hout]; [by right|left].
  apply Hvisited. rewrite <- Hn. symmetry. apply isMaskSet_maskBits.
  unfold HalfEdgeGraphSearch.pushAndMaskAllNodesInFace in Hpush.
  destruct (HalfEdgeGraphSearch.maskAndPushAround _ _ _ _ _ _) as [[g2 stack2]| |] eqn:Hrun;
    simpl in Hpush; try discriminate.
  injection Hpush as <- _ _.
  apply maskAndPushAround_Ok in Hrun as (l2 & Hw2 & -> & _).
  assert (l2 = l) as ->.
  { destruct Hflooded1 as (_ & Hall & _). apply Forall_app in Hall as [_ Hlast].
    inversion Hlast as [|? ? [Hw _] _]; subst. simpl in Hw.
    eapply walk_deterministic; [|exact Hw].
    eapply geometry_walk; [|exact Hw2]. symmetry. by destruct Hflooded. }
  apply maskBits_foldl_other; [|done]. intros. by apply maskBits_setMask_other.
Qed.

Lemma parityFloodLoop_covers g0 parityMask fuel :
  successorsInRange g0 -> matesInRange g0 ->
  forall g stack faces pushed g' faces',
    flooded g0 g pushed ->
    (forall n, isMaskSet g n VISITED = true -> n ∈ concat (map snd pushed)) ->
    (forall p, p ∈ stack -> p < length g0) ->
    HalfEdgeGraphSearch.parityFloodLoop fuel g VISITED parityMask stack faces
    = Ok (g', faces') ->
    exists new,
      flooded g0 g' (pushed ++ new) /\ faces' = faces ++ map fst new
      /\ forall n, isMaskSet g' n VISITED = true -> n ∈ concat (map snd (pushed ++ new)).
Proof.
  intros Hsucc Hmates.
  induction fuel as [|fuel IH];
    intros g stack faces pushed g' faces' Hflooded Hvisited Hstack; simpl; [discriminate|].
  destruct stack as [|p stack].
  { intros [= <- <-]. exists []. by rewrite !app_nil_r. }
  assert (forall q, q ∈ stack -> q < length g0) as Hstack'.
  { intros q Hq. apply Hstack. rewrite elem_of_cons. auto. }
  rewrite (geometry_edgeMate _ _ _ (proj1 Hflooded)).
  destruct (edgeMate g0 p) as [mate|] eqn:Hmate; [|by apply IH].
  destruct (isMaskSet g mate VISITED) eqn:Hmv; simpl; [by apply IH|].
  destruct (HalfEdgeGraphSearch.pushAndMaskAllNodesInFace _ _ _ _ _ _)
    as [[[g1 stack1] faces1]| |] eqn:Hpush; simpl; try discriminate.
  intros Hrest.
  pose proof Hpush as Hpush'.
  eapply (flooded_push g0) in Hpush' as (l & Hflooded1 & -> & -> & Hl); try done.
  - pose proof (visited_push _ _ _ _ _ _ _ _ _ _ _ l Hflooded Hpush Hflooded1 Hvisited)
      as Hvisited1.
    apply (IH _ _ _ _ _ _ Hflooded1 Hvisited1) in Hrest as (new & Hflooded' & -> & Hv').
    + exists ((mate, l) :: new). rewrite <- !app_assoc in *. done.
    + intros q [Hq|Hq]%elem_of_app; [apply Hl; by apply elem_of_rev|auto].
  - destruct (negb (isMaskSet g p parityMask)).
    + rewrite land_lor_same. done.
    + done.
  - eapply Hmates; [|exact Hmate]. apply Hstack. rewrite elem_of_cons. auto.
Qed.

Lemma parityFloodFromSeed_covers g0 parityMask fuel g seed pushed g' faces' :
  successorsInRange g0 -> matesInRange g0 ->
  flooded g0 g pushed ->
  (forall n, isMaskSet g n VISITED = true -> n ∈ concat (map snd pushed)) ->
  seed < length g0 -> isMaskSet g seed VISITED = false ->
  HalfEdgeGraphSearch.parityFloodFromSeed fuel g seed VISITED parityMask = Ok (g', faces') ->
  exists new,
    flooded g0 g' (pushed ++ new) /\ faces' = map fst new
    /\ (forall n, isMaskSet g' n VISITED = true -> n ∈ concat (map snd (pushed ++ new)))
    /\ seed ∈ concat (map snd new).
Proof.
  intros Hsucc Hmates Hflooded Hvisited Hseed Hunvisited.
  unfold HalfEdgeGraphSearch.parityFloodFromSeed. rewrite Hunvisited.
  destruct (HalfEdgeGraphSearch.pushAndMaskAllNodesInFace _ _ _ _ _ _)
    as [[[g1 stack1] faces1]| |] eqn:Hpush; simpl; try discriminate.
  intros Hrest.
  pose proof Hpush as Hpush'.
  eapply (flooded_push g0) in Hpush' as (l & Hflooded1 & -> & -> & Hl); try done.
  - pose proof (visited_push _ _ _ _ _ _ _ _ _ _ _ l Hflooded Hpush Hflooded1 Hvisited)
      as Hvisited1.
    eapply parityFloodLoop_covers in Hrest as (new & Hflooded' & -> & Hv'); try done.
    + exists ((seed, l) :: new). rewrite <- !app_assoc in *. split; [done|].
      split; [done|]. split; [done|].
      simpl. apply elem_of_app. left.
      destruct Hflooded1 as (_ & Hall & _). apply Forall_app in Hall as [_ Hlast].
      inversion Hlast as [|? ? [Hw _] _]; subst. simpl in Hw.
      destruct (walk_head _ _ _ _ Hw) as [t ->]. by left.
    + intros q [Hq|Hq]%elem_of_app; [apply Hl; by apply elem_of_rev|by apply elem_of_nil in Hq].
  - rewrite land_lor_same. done.
Qed.

Lemma collectLoop_covers g0 parityMask fuel :
  successorsInRange g0 -> matesInRange g0 ->
  forall seeds g comps pushed loopss g' comps',
    flooded g0 g pushed ->
    (forall n, isMaskSet g n VISITED = true -> n ∈ concat (map snd pushed)) ->
    (forall s, s ∈ seeds -> s < length g0) ->
    Forall2 (Forall2 (fun f l => walk g0 f f l)) comps loopss ->
    concat loopss = map snd pushed ->
    HalfEdgeGraphSearch.collectLoop fuel g parityMask seeds comps = Ok (g', comps') ->
    exists pushed' loopss',
      flooded g0 g' pushed'
      /\ Forall2 (Forall2 (fun f l => walk g0 f f l)) comps' loopss'
      /\ concat loopss' = map snd pushed'
      /\ (forall n, n ∈ seeds -> n ∈ concat (map snd pushed'))
      /\ (forall n, n ∈ concat (map snd pushed) -> n ∈ concat (map snd pushed')).
Proof.
  intros Hsucc Hmates.
  induction seeds as [|s seeds IH];
    intros g comps pushed loopss g' comps' Hflooded Hvisited Hseeds Hcomps Hconcat; simpl.
  { intros [= <- <-]. exists pushed, loopss. do 3 (split; [done|]). split; [|done].
    intros n Hn. by apply elem_of_nil in Hn. }
  assert (forall q, q ∈ seeds -> q < length g0) as Hseeds'.
  { intros q Hq. apply Hseeds. rewrite elem_of_cons. auto. }
  destruct (isMaskSet g s VISITED) eqn:Hsv; simpl.
  - intros Hrun.
    destruct (IH _ _ _ _ _ _ Hflooded Hvisited Hseeds' Hcomps Hconcat Hrun)
      as (pushed' & loopss' & Hfl' & Hw' & Hc' & Hcov & Hmono).
    exists pushed', loopss'. do 3 (split; [done|]). split; [|done].
    intros n [->|Hn]%elem_of_cons; [|by apply Hcov].
    apply Hmono. by apply Hvisited.
  - destruct (HalfEdgeGraphSearch.parityFloodFromSeed _ _ _ _ _)
      as [[g1 newFaces]| |] eqn:Hflood; simpl; try discriminate.
    eapply parityFloodFromSeed_covers in Hflood as (new & Hflooded1 & -> & Hvisited1 & Hsin);
      try done; [|apply Hseeds; rewrite elem_of_cons; auto].
    intros Hrun.
    assert (Forall2 (Forall2 (fun f l => walk g0 f f l))
              (comps ++ [map fst new]) (loopss ++ [map snd new])) as Hc1.
    { apply Forall2_app; [done|]. constructor; [|constructor].
      destruct Hflooded1 as (_ & Hpushed & _). apply Forall_app in Hpushed as [_ Hnew].
      clear -Hnew. induction Hnew as [|[f l] new [Hw _] _ IH]; simpl; constructor; done. }
    assert (concat (loopss ++ [map snd new]) = map snd (pushed ++ new)) as Hc2.
    { rewrite concat_app, map_app, Hconcat. simpl. by rewrite app_nil_r. }
    destruct (IH _ _ _ _ _ _ Hflooded1 Hvisited1 Hseeds' Hc1 Hc2 Hrun)
      as (pushed' & loopss' & Hfl' & Hw' & Hc' & Hcov & Hmono).
    exists pushed', loopss'. do 3 (split; [done|]). split.
    + intros n [->|Hn]%elem_of_cons; [|by apply Hcov].
      apply Hmono. rewrite map_app, concat_app. apply elem_of_app. by right.
    + intros n Hn. apply Hmono. rewrite map_app, concat_app. apply elem_of_app. by left.
Qed.

Lemma isMaskSet_graph_clearMask g p n :
  isMaskSet (HalfEdgeGraph.clearMask g (Z.lor p VISITED)) n VISITED = false.
Proof.
  unfold isMaskSet, maskBits, HalfEdgeGraph.clearMask.
  apply negb_false_iff, Z.eqb_eq.
  rewrite list_lookup_total_alt, list_lookup_fmap.
  destruct (g !! n) as [e|]; simpl; [|done].
  apply Z.bits_inj'. intros k Hk.
  rewrite !Z.land_spec, Z.lnot_spec, Z.lor_spec, Z.bits_0 by done.
  destruct (Z.testbit (HE.maskBits e) k), (Z.testbit p k), (Z.testbit VISITED k); done.
Qed.

(** X11.  On a well-linked graph whose mates are nodes of the graph,
    [collectConnectedComponents] returns (with more fuel than the graph has
    half-edges) components none of which is empty, whose entries are seeds of
    face loops, and every half-edge of the graph lies on the face loop of
    exactly one returned seed: every face is reported once.  The graph
    differs from the one passed in by mask bits only. *)
Theorem collectConnectedComponents_returns_every_face_once fuel g parityMask :
  linked g -> matesInRange g -> length g < fuel ->
  exists g' components loopss,
    HalfEdgeGraphSearch.collectConnectedComponents fuel g parityMask = Ok (g', components)
    /\ Forall2 (Forall2 (fun f l => walk g f f l)) components loopss
    /\ concat (concat loopss) ≡ₚ seq 0 (length g)
    /\ Forall (fun c => c <> []) components
    /\ geometry g' = geometry g.
Proof.
  intros Hlinked Hmates Hfuel.
  pose proof (linked_successorsInRange g Hlinked) as Hsucc.
  unfold HalfEdgeGraphSearch.collectConnectedComponents.
  set (g1 := HalfEdgeGraph.clearMask g (Z.lor parityMask VISITED)).
  assert (geometry g1 = geometry g) as Hgeo1 by apply geometry_graph_clearMask.
  assert (flooded g g1 []) as Hstart by (split; [done|]; split; constructor).
  assert (length g1 = length g) as Hlen1 by (by apply geometry_length).
  assert (forall s, s ∈ seq 0 (length g1) -> s < length g) as Hseeds.
  { intros s Hs. apply list_elem_of_In, in_seq in Hs. lia. }
  destruct (collectLoop_runs g parityMask fuel Hlinked Hmates Hfuel
              (seq 0 (length g1)) g1 [] [] Hstart Hseeds ltac:(constructor))
    as (g2 & comps & Hcollect & Hne).
  rewrite Hcollect. cbn [bind].
  apply (collectLoop_covers g _ _ Hsucc Hmates _ _ _ [] []) in Hcollect
    as (pushed & loopss & Hflooded & Hwalks & Hconcat & Hcover & _);
    [|done| |done|constructor|done].
  2: { intros n Hn. unfold g1 in Hn. by rewrite isMaskSet_graph_clearMask in Hn. }
  destruct (flooded_loops _ _ _ Hflooded) as [_ Hrange].
  pose proof Hflooded as (Hgeo2 & _ & Hnodup).
  assert (concat (concat loopss) ≡ₚ seq 0 (length g)) as Hperm.
  { rewrite Hconcat. apply NoDup_Permutation; [done|apply NoDup_seq|].
    intros n. split.
    - intros Hn. apply list_elem_of_In, in_seq. specialize (Hrange n Hn). lia.
    - intros Hn. apply Hcover. by rewrite Hlen1. }
  unfold HalfEdgeGraphSearch.correctParityInComponentArrays.
  destruct (Z.eqb_spec parityMask 0) as [|Hmask].
  { cbn [bind]. exists g2, comps, loopss. done. }
  assert (Forall2 (Forall2 (fun f l => walk g2 f f l)) comps loopss) as Hwalks2.
  { eapply Forall2_impl; [exact Hwalks|]. intros faces loops Hfl.
    eapply Forall2_impl; [exact Hfl|]. intros f l Hw.
    eapply geometry_walk; [|exact Hw]. done. }
  assert (forall n, n ∈ concat (concat loopss) -> n < length g2) as Hrange2.
  { intros n Hn. rewrite (geometry_length _ _ Hgeo2). apply Hrange.
    by rewrite <- Hconcat. }
  destruct (correctParityLoop_runs fuel parityMask Hmask comps loopss g2) as [g3 Hcorrect];
    try done.
  { by rewrite Hconcat. }
  { rewrite Forall_forall. intros ls Hls. rewrite Forall_forall. intros l Hl.
    assert (length l <= length g); [|lia].
    apply list_elem_of_lookup in Hls as [i Hi].
    destruct (Forall2_lookup_r _ _ _ _ _ Hwalks Hi) as (c & _ & Hc).
    apply list_elem_of_lookup in Hl as [k Hk].
    destruct (Forall2_lookup_r _ _ _ _ _ Hc Hk) as (f & _ & Hw).
    apply bounded_NoDup_length; [by eapply walk_NoDup|].
    intros n Hn. apply Hrange. rewrite <- Hconcat.
    apply elem_of_concat. exists l. split; [|done].
    apply elem_of_concat. exists ls.
    split; by eapply list_elem_of_lookup_2. }
  rewrite Hcorrect. cbn [bind]. exists g3, comps, loopss.
  do 4 (split; [done|]).
  apply (correctParityLoop_Ok _ _ Hmask _ loopss) in Hcorrect as (Hgeo3 & _);
    try done; [congruence|by rewrite Hconcat].
Qed.

Lemma collectConnectedComponents_returns_every_face_of_the_square_with_hole :
  exists g' components loopss,
    HalfEdgeGraphSearch.collectConnectedComponents 20 squareWithHole EXTERIOR
    = Ok (g', components)
    /\ Forall2 (Forall2 (fun f l => walk squareWithHole f f l)) components loopss
    /\ concat (concat loopss) ≡ₚ seq 0 (length squareWithHole)
    /\ Forall (fun c => c <> []) components
    /\ geometry g' = geometry squareWithHole.
Proof.
  apply (collectConnectedComponents_returns_every_face_once 20 squareWithHole EXTERIOR).
  - apply linkedb_linked. vm_compute. reflexivity.
  - apply matesInRangeb_ok. vm_compute. reflexivity.
  - vm_compute. lia.
Defined.

(** ** When [filterPoints] returns *)

Lemma filterPointsLoop_clean g end_ : forall p l,
  walk g end_ p l -> (forall q, q ∈ l -> Triangulator.removable g q = false) ->
  forall fuel, length l <= fuel ->
  Triangulator.filterPointsLoop fuel g p end_ = Ok (g, Some end_).
Proof.
  induction 1 as [p Hs|p l Hs Hw IH]; intros Hclean [|fuel] Hfuel;
    simpl in Hfuel; try lia; simpl.
  - rewrite Hclean by (by apply list_elem_of_singleton).
    by rewrite Hs, Nat.eqb_refl.
  - rewrite Hclean by (rewrite elem_of_cons; auto).
    apply Nat.eqb_neq in Hs. rewrite Hs. apply IH; [|lia].
    intros q Hq. apply Hclean. rewrite elem_of_cons. auto.
Qed.

Lemma filterPointsLoop_caught g end_ : linked g -> forall p l,
  walk g end_ p l -> p < length g ->
  (exists q, q ∈ l /\ Triangulator.removable g q = true) ->
  forall fuel, Triangulator.filterPointsLoop fuel g p end_ = OutOfFuel.
Proof.
  intros Hlinked. induction 1 as [p Hs|p l Hs Hw IH]; intros Hp (q & Hq & Hrem) fuel.
  - apply list_elem_of_singleton in Hq as ->.
    apply filterPointsLoop_runs_on; auto.
  - destruct (Triangulator.removable g p) eqn:Hp_rem.
    { apply filterPointsLoop_runs_on; auto. }
    apply elem_of_cons in Hq as [->|Hq]; [congruence|].
    destruct fuel as [|fuel]; [done|]. simpl. rewrite Hp_rem.
    apply Nat.eqb_neq in Hs. rewrite Hs. apply IH; [by apply Hlinked|eauto].
Qed.

(** X12.  On a well-linked graph, let [l] be the nodes from [start] along
    the face loop up to the one before [end].  If none of them qualifies for
    removal, [filterPoints(start, end)] returns [end] and leaves the graph as
    it is (fuel the length of [l] suffices).  If one of them qualifies, the
    call returns for no amount of fuel: after [joinNeighborsOfEar(p)] it
    goes on from [p.facePredecessor], which lies on the cut-off triangle,
    where [p] is met again and again. *)
Theorem filterPoints_returns_only_if_nothing_is_removable g start end_ l :
  linked g -> start < length g -> walk g end_ start l ->
  ((forall p, p ∈ l -> Triangulator.removable g p = false) ->
   forall fuel, length l <= fuel ->
     Triangulator.filterPoints fuel g (Some start) (Some end_) = Ok (g, Some end_))
  /\ ((exists p, p ∈ l /\ Triangulator.removable g p = true) ->
      forall fuel,
        Triangulator.filterPoints fuel g (Some start) (Some end_) = OutOfFuel).
Proof.
  intros Hlinked Hstart Hw. unfold Triangulator.filterPoints. split.
  - intros Hclean fuel Hfuel. by apply (filterPointsLoop_clean g end_ start l).
  - intros Hcaught fuel. by apply (filterPointsLoop_caught g end_ Hlinked start l).
Qed.

Lemma filterPoints_returns_on_the_dented_square_but_not_on_a_collinear_start :
  Triangulator.filterPoints 5 dentedSquareLoop (Some 0) (Some 0)
  = Ok (dentedSquareLoop, Some 0)
  /\ forall fuel,
       Triangulator.filterPoints fuel collinearStartState (Some 0)
         (Some (faceSuccessor collinearStartState 0)) = OutOfFuel.
Proof.
  split.
  - apply (proj1 (filterPoints_returns_only_if_nothing_is_removable dentedSquareLoop 0 0
                    [0; 2; 4; 6; 8]
                    ltac:(apply linkedb_linked; vm_compute; reflexivity)
                    ltac:(vm_compute; lia)
                    ltac:(apply (collect_walk 10); vm_compute; reflexivity))).
    + intros p Hp.
      repeat (apply elem_of_cons in Hp as [->|Hp]; [vm_compute; reflexivity|]).
      by apply elem_of_nil in Hp.
    + simpl. lia.
  - apply (proj2 (filterPoints_returns_only_if_nothing_is_removable collinearStartState 0
                    (faceSuccessor collinearStartState 0) [0]
                    ltac:(apply linkedb_linked; vm_compute; reflexivity)
                    ltac:(vm_compute; lia)
                    ltac:(by apply walk_last))).
    exists 0. split; [by apply list_elem_of_singleton|]. vm_compute. reflexivity.
Defined.

(** ** A flip *)

Lemma pinch_links g x y :
  linked g -> x < length g -> y < length g -> x <> y ->
  linked (HalfEdge.pinch g x y)
  /\ length (HalfEdge.pinch g x y) = length g
  /\ (forall n, faceSuccessor (HalfEdge.pinch g x y) n
                = if decide (n = facePredecessor g x) then y
                  else if decide (n = facePredecessor g y) then x
                  else faceSuccessor g n)
  /\ (forall n, facePredecessor (HalfEdge.pinch g x y) n
                = if decide (n = x) then facePredecessor g y
                  else if decide (n = y) then facePredecessor g x
                  else facePredecessor g n).
Proof.
  intros Hlinked Hx Hy Hne.
  split; [by apply linked_pinch|]. split; [apply length_pinch|]. split.
  - intros n. rewrite faceSuccessor_pinch by (by apply Hlinked).
    by rewrite decide_False.
  - intros n. rewrite facePredecessor_pinch by done. by rewrite decide_False.
Qed.

Lemma triangle_links g s x y :
  linked g -> s < length g -> walk g s s [s; x; y] ->
  x < length g /\ y < length g
  /\ faceSuccessor g s = x /\ faceSuccessor g x = y /\ faceSuccessor g y = s
  /\ facePredecessor g s = y /\ facePredecessor g x = s /\ facePredecessor g y = x.
Proof.
  intros Hlinked Hs Hw.
  inversion Hw as [|? ? _ Hw1]; subst.
  inversion Hw1 as [|? ? _ Hw2]; subst.
  inversion Hw2 as [? Hlast|? ? ? Hbad]; subst; [|inversion Hbad].
  set (x := faceSuccessor g s) in *. set (y := faceSuccessor g x) in *.
  assert (x < length g) as Hx by (by apply Hlinked).
  assert (y < length g) as Hy by (by apply Hlinked).
  repeat (split; [done|]).
  split; [rewrite <- Hlast; by apply Hlinked|].
  split; [by apply Hlinked|by apply Hlinked].
Qed.

(** X13.  [flipTriangles] swaps the diagonal of two triangles.  On a linked
    graph, let [e; d; f] and [c; a; b] be face loops of six different nodes
    (in [cleanupTriangulation], [e] is the half-edge on the diagonal and [c]
    its mate).  After [flipTriangles(a, b, c, d, e, f)] the face loops are
    [e; f; a] and [c; b; d]; [e] has moved to the point of [b] and [c] to the
    point of [f], every other node is where it was; mates and masks are
    unchanged, as are the links of the nodes of other faces. *)
Theorem flipTriangles_swaps_the_diagonal g a b c d e f :
  linked g -> e < length g -> c < length g ->
  NoDup [a; b; c; d; e; f] ->
  walk g e e [e; d; f] -> walk g c c [c; a; b] ->
  let g' := Triangulator.flipTriangles g a b c d e f in
  linked g' /\ length g' = length g
  /\ walk g' e e [e; f; a] /\ walk g' c c [c; b; d]
  /\ Triangulator.xy g' e = Triangulator.xy g b
  /\ Triangulator.xy g' c = Triangulator.xy g f
  /\ (forall n, n <> e -> n <> c -> Triangulator.xy g' n = Triangulator.xy g n)
  /\ (forall n, edgeMate g' n = edgeMate g n)
  /\ (forall n, maskBits g' n = maskBits g n)
  /\ (forall n, n ∉ [a; b; c; d; e; f] ->
        faceSuccessor g' n = faceSuccessor g n
        /\ facePredecessor g' n = facePredecessor g n).
Proof.
  intros Hlinked He Hc Hnd Hw1 Hw2.
  destruct (triangle_links g e d f Hlinked He Hw1)
    as (Hd & Hf & Hse & Hsd & Hsf & Hpe & Hpd & Hpf).
  destruct (triangle_links g c a b Hlinked Hc Hw2)
    as (Ha & Hb & Hsc & Hsa & Hsb & Hpc & Hpa & Hpb).
  assert (a <> b /\ a <> c /\ a <> d /\ a <> e /\ a <> f /\ b <> c /\ b <> d /\ b <> e
          /\ b <> f /\ c <> d /\ c <> e /\ c <> f /\ d <> e /\ d <> f /\ e <> f)
    as (Hab & Hac & Had & Hae & Haf & Hbc & Hbd & Hbe & Hbf & Hcd & Hce & Hcf
        & Hde & Hdf & Hef).
  { repeat match goal with
           | H : NoDup (_ :: _) |- _ => apply NoDup_cons in H as [? H]
           end.
    repeat match goal with
           | H : _ ∉ _ :: _ |- _ => apply not_elem_of_cons in H as [? H]
           end.
    repeat split; congruence. }
  (* the four pinches *)
  destruct (pinch_links g a e Hlinked Ha He Hae) as (Hl1 & Hn1 & Hs1 & Hp1).
  remember (HalfEdge.pinch g a e) as g1 eqn:Eg1.
  assert (c < length g1 /\ d < length g1) as [Hc1 Hd1] by (rewrite Hn1; done).
  destruct (pinch_links g1 c d Hl1 Hc1 Hd1 Hcd) as (Hl2 & Hn2 & Hs2 & Hp2).
  remember (HalfEdge.pinch g1 c d) as g2 eqn:Eg2.
  assert (f < length g2 /\ c < length g2) as [Hf2 Hc2] by (rewrite Hn2, Hn1; done).
  destruct (pinch_links g2 f c Hl2 Hf2 Hc2 (not_eq_sym Hcf)) as (Hl3 & Hn3 & Hs3 & Hp3).
  remember (HalfEdge.pinch g2 f c) as g3 eqn:Eg3.
  assert (e < length g3 /\ b < length g3) as [He3 Hb3] by (rewrite Hn3, Hn2, Hn1; done).
  destruct (pinch_links g3 e b Hl3 He3 Hb3 (not_eq_sym Hbe)) as (Hl4 & Hn4 & Hs4 & Hp4).
  remember (HalfEdge.pinch g3 e b) as g4 eqn:Eg4.
  (* predecessors after each pinch *)
  assert (facePredecessor g1 a = f /\ facePredecessor g1 b = a /\ facePredecessor g1 c = b
          /\ facePredecessor g1 d = e /\ facePredecessor g1 e = c
          /\ facePredecessor g1 f = d) as (P1a & P1b & P1c & P1d & P1e & P1f).
  { repeat split; rewrite Hp1; repeat case_decide; congruence. }
  assert (facePredecessor g2 a = f /\ facePredecessor g2 b = a /\ facePredecessor g2 c = e
          /\ facePredecessor g2 d = b /\ facePredecessor g2 e = c
          /\ facePredecessor g2 f = d) as (P2a & P2b & P2c & P2d & P2e & P2f).
  { repeat split; rewrite Hp2; repeat case_decide; congruence. }
  assert (facePredecessor g3 a = f /\ facePredecessor g3 b = a /\ facePredecessor g3 c = d
          /\ facePredecessor g3 d = b /\ facePredecessor g3 e = c
          /\ facePredecessor g3 f = e) as (P3a & P3b & P3c & P3d & P3e & P3f).
  { repeat split; rewrite Hp3; repeat case_decide; congruence. }
  assert (faceSuccessor g4 e = f /\ faceSuccessor g4 f = a /\ faceSuccessor g4 a = e
          /\ faceSuccessor g4 c = b /\ faceSuccessor g4 b = d /\ faceSuccessor g4 d = c)
    as (S4e & S4f & S4a & S4c & S4b & S4d).
  { repeat split; rewrite Hs4, ?P3e, ?P3b; repeat case_decide; try congruence;
      rewrite Hs3, ?P2f, ?P2c; repeat case_decide; try congruence;
      rewrite Hs2, ?P1c, ?P1d; repeat case_decide; try congruence;
      rewrite Hs1, ?Hpa, ?Hpe; repeat case_decide; congruence. }
  assert (forall n, n ∉ [a; b; c; d; e; f] ->
            faceSuccessor g4 n = faceSuccessor g n
            /\ facePredecessor g4 n = facePredecessor g n) as Hframe.
  { intros n Hn.
    repeat match goal with
           | H : _ ∉ _ :: _ |- _ => apply not_elem_of_cons in H as [? H]
           end.
    split.
    - rewrite (Hs4 n), P3e, P3b, (Hs3 n), P2f, P2c, (Hs2 n), P1c, P1d, (Hs1 n), Hpa, Hpe.
      repeat case_decide; congruence.
    - rewrite (Hp4 n), (Hp3 n), (Hp2 n), (Hp1 n). repeat case_decide; congruence. }
  assert (length g4 = length g) as Hlen4 by congruence.
  (* the two writes of coordinates *)
  unfold Triangulator.flipTriangles. rewrite <- Eg1, <- Eg2, <- Eg3, <- Eg4.
  set (w1 := write g4 _ e). set (g' := write w1 _ c).
  assert (forall n, faceSuccessor g' n = faceSuccessor g4 n) as Hs'.
  { intros n. unfold g', w1, faceSuccessor. by rewrite !(lookup_write_keep HE.faceSuccessor). }
  assert (forall n, facePredecessor g' n = facePredecessor g4 n) as Hp'.
  { intros n. unfold g', w1, facePredecessor.
    by rewrite !(lookup_write_keep HE.facePredecessor). }
  assert (length g' = length g) as Hlen'.
  { unfold g', w1. rewrite !length_write. congruence. }
  assert (forall {A} (proj : HE.t -> A) n,
            (forall v e0, proj (HE.set_faceSuccessor v e0) = proj e0) ->
            (forall v e0, proj (HE.set_facePredecessor v e0) = proj e0) ->
            proj (g4 !!! n) = proj (g !!! n)) as Hfield.
  { intros A proj n H1 H2. rewrite Eg4, Eg3, Eg2, Eg1. by rewrite !(field_pinch proj). }
  split; [apply (linked_same_links g4); [congruence|done|done|done]|]. split; [done|].
  split.
  { apply walk_step; [rewrite Hs', S4e; congruence|]. rewrite Hs', S4e.
    apply walk_step; [rewrite Hs', S4f; congruence|]. rewrite Hs', S4f.
    apply walk_last. by rewrite Hs', S4a. }
  split.
  { apply walk_step; [rewrite Hs', S4c; congruence|]. rewrite Hs', S4c.
    apply walk_step; [rewrite Hs', S4b; congruence|]. rewrite Hs', S4b.
    apply walk_last. by rewrite Hs', S4d. }
  unfold Triangulator.xy, X, Y, edgeMate, maskBits.
  split.
  { unfold g'. rewrite lookup_write, decide_False by (intros [? _]; congruence).
    unfold w1. rewrite lookup_write_eq by (rewrite Hlen4; exact He). simpl.
    unfold X, Y. by rewrite !(Hfield _ _ b) by done. }
  split.
  { unfold g'. rewrite lookup_write_eq by (unfold w1; rewrite length_write, Hlen4; exact Hc). simpl.
    unfold X, Y, w1. rewrite lookup_write, decide_False by (intros [? _]; congruence).
    by rewrite !(Hfield _ _ f) by done. }
  split.
  { intros n Hne Hnc. unfold g', w1.
    rewrite lookup_write, decide_False by (intros [? _]; congruence).
    rewrite lookup_write, decide_False by (intros [? _]; congruence).
    by rewrite !(Hfield _ _ n) by done. }
  split.
  { intros n. unfold g', w1. rewrite !(lookup_write_keep HE.edgeMate) by done.
    by apply (Hfield _ HE.edgeMate). }
  split.
  { intros n. unfold g', w1. rewrite !(lookup_write_keep HE.maskBits) by done.
    by apply (Hfield _ HE.maskBits). }
  intros n Hn. rewrite Hs', Hp'. by apply Hframe.
Qed.

Lemma flipTriangles_swaps_the_diagonal_of_the_hexagon :
  let g' := Triangulator.flipTriangles hexagonGraph 10 0 13 17 12 8 in
  linked g' /\ length g' = length hexagonGraph
  /\ walk g' 12 12 [12; 8; 10] /\ walk g' 13 13 [13; 0; 17]
  /\ Triangulator.xy g' 12 = Triangulator.xy hexagonGraph 0
  /\ Triangulator.xy g' 13 = Triangulator.xy hexagonGraph 8
  /\ (forall n, n <> 12 -> n <> 13 -> Triangulator.xy g' n = Triangulator.xy hexagonGraph n)
  /\ (forall n, edgeMate g' n = edgeMate hexagonGraph n)
  /\ (forall n, maskBits g' n = maskBits hexagonGraph n)
  /\ (forall n, n ∉ [10; 0; 13; 17; 12; 8] ->
        faceSuccessor g' n = faceSuccessor hexagonGraph n
        /\ facePredecessor g' n = facePredecessor hexagonGraph n).
Proof.
  apply (flipTriangles_swaps_the_diagonal hexagonGraph 10 0 13 17 12 8).
  - apply linkedb_linked. vm_compute. reflexivity.
  - vm_compute. lia.
  - vm_compute. lia.
  - repeat (apply NoDup_cons; split;
              [intros H; repeat (apply elem_of_cons in H as [H|H]; [lia|]);
               by apply elem_of_nil in H|]).
    apply NoDup_nil_2.
  - apply (collect_walk 10). vm_compute. reflexivity.
  - apply (collect_walk 10). vm_compute. reflexivity.
Defined.

(** ** Bridges between loops *)

Lemma chain_retarget g g' : forall x l y y' t,
  chain g x l y -> last l = Some t -> NoDup l ->
  (forall n, n ∈ l -> n <> t -> faceSuccessor g' n = faceSuccessor g n) ->
  faceSuccessor g' t = y' -> chain g' x l y'.
Proof.
  intros x l y y' t Hc. revert t.
  induction Hc as [a b Hs|a l b Hc IH]; intros t Hlast Hnd Hsame Ht.
  - injection Hlast as <-. by constructor.
  - destruct (chain_head _ _ _ _ Hc) as [l' ->].
    apply NoDup_cons in Hnd as [Hnotin Hnd].
    assert (a <> t) as Hat.
    { intros ->. apply Hnotin. apply last_Some_elem_of. exact Hlast. }
    constructor. rewrite Hsame; [|by left|done].
    apply (IH t); try done.
    intros n Hn. apply Hsame. by right.
Qed.

Lemma chain_split g : forall l1 x y l2 z,
  chain g x (x :: l1 ++ y :: l2) z ->
  chain g x (x :: l1) y /\ chain g y (y :: l2) z.
Proof.
  induction l1 as [|w l1 IH]; intros x y l2 z Hc.
  - apply chain_cons_inv in Hc as [Hs Hc]. split; [by constructor|done].
  - simpl in Hc. apply chain_cons_inv in Hc as [Hs Hc].
    destruct (IH _ _ _ _ Hc) as [H1 H2]. split; [|done].
    constructor. by rewrite Hs.
Qed.

Lemma loop_last g s l :
  linked g -> s < length g -> walk g s s l -> last l = Some (facePredecessor g s).
Proof.
  intros Hlinked Hs Hw.
  destruct (walk_head _ _ _ _ Hw) as [l' ->].
  destruct (last (s :: l')) as [t|] eqn:Hlast.
  - f_equal. pose proof (chain_last_succ _ _ _ _ _ (walk_chain _ _ _ _ Hw) Hlast) as Hsucc.
    rewrite <- Hsucc. symmetry. apply Hlinked.
    apply (walk_in_range g s s _ (linked_successorsInRange g Hlinked) Hs Hw).
    by apply last_Some_elem_of.
  - by apply last_None in Hlast.
Qed.

Section SplitPolygon.

Variables (g : graph) (a b : node).
Hypothesis Hlinked : linked g.
Hypothesis Ha : a < length g.
Hypothesis Hb : b < length g.
Hypothesis Hab : a <> b.

Let a2 := length g.
Let b2 := S (length g).
Let g' := (Triangulator.splitPolygon g a b).1.

Lemma splitPolygon_node : (Triangulator.splitPolygon g a b).2 = a2.
Proof.
  unfold Triangulator.splitPolygon. rewrite createEdgeXYZXYZ_eq. done.
Qed.

Lemma splitPolygon_links :
  linked g' /\ length g' = S (S (length g))
  /\ (forall n, faceSuccessor g' n
                = if decide (n = facePredecessor g b) then b2
                  else if decide (n = a2) then b
                  else if decide (n = facePredecessor g a) then a2
                  else if decide (n = b2) then a
                  else faceSuccessor g n)
  /\ (forall {A} (proj : HE.t -> A) n,
        (forall v e0, proj (HE.set_faceSuccessor v e0) = proj e0) ->
        (forall v e0, proj (HE.set_facePredecessor v e0) = proj e0) ->
        proj (g' !!! n)
        = proj ((g ++ [HE.mk (X g a) (Y g a) (Zc g a) (I g a) 0 b2 b2 (Some b2)
                             false None None None;
                       HE.mk (X g b) (Y g b) (Zc g b) (I g b) 0 a2 a2 (Some a2)
                             false None None None]) !!! n)).
Proof.
  unfold g', Triangulator.splitPolygon, a2, b2.
  pose proof (linked_createEdge g (X g a) (Y g a) (Zc g a) (I g a)
                (X g b) (Y g b) (Zc g b) (I g b) Hlinked) as Hl0.
  rewrite createEdgeXYZXYZ_eq in *. cbn [fst snd] in *.
  set (G0 := g ++ _) in *.
  assert (length G0 = S (S (length g))) as Hn0.
  { unfold G0. rewrite length_app. simpl. lia. }
  assert (forall n, n < length g -> G0 !!! n = g !!! n) as Hold.
  { intros n Hn. unfold G0. by apply lookup_total_app_old. }
  assert (faceSuccessor G0 (length g) = S (length g)
          /\ facePredecessor G0 (length g) = S (length g)
          /\ faceSuccessor G0 (S (length g)) = length g
          /\ facePredecessor G0 (S (length g)) = length g)
    as (Hsa2 & Hpa2 & Hsb2 & Hpb2).
  { unfold faceSuccessor, facePredecessor, G0.
    by rewrite lookup_total_app_first, lookup_total_app_second. }
  rewrite Hsa2.
  assert (facePredecessor G0 a = facePredecessor g a) as Hpa0
    by (unfold facePredecessor; by rewrite Hold).
  assert (facePredecessor G0 b = facePredecessor g b) as Hpb0
    by (unfold facePredecessor; by rewrite Hold).
  assert (facePredecessor g a < length g /\ facePredecessor g b < length g) as [Hpa Hpb].
  { split; by apply Hlinked. }
  assert (facePredecessor g a <> facePredecessor g b) as Hpab.
  { intros Heq. apply Hab.
    destruct (Hlinked a Ha) as (_ & _ & _ & <-).
    destruct (Hlinked b Hb) as (_ & _ & _ & <-). by rewrite Heq. }
  destruct (pinch_links G0 a (length g) Hl0) as (Hl1 & Hn1 & Hs1 & Hp1);
    [rewrite Hn0; lia|rewrite Hn0; lia|lia|].
  remember (HalfEdge.pinch G0 a (length g)) as G1 eqn:EG1.
  destruct (pinch_links G1 b (S (length g)) Hl1) as (Hl2 & Hn2 & Hs2 & Hp2);
    [rewrite Hn1, Hn0; lia|rewrite Hn1, Hn0; lia|lia|].
  split; [done|]. split; [congruence|]. split.
  - intros n. rewrite (Hs2 n), (Hp1 b), (Hp1 (S (length g))), (Hs1 n), Hpa0, Hpb0, Hpa2, Hpb2.
    repeat case_decide; try congruence; try lia.
    unfold faceSuccessor.
    destruct (decide (n < length g)) as [|Hge]; [by rewrite Hold|].
    rewrite !list_lookup_total_alt.
    rewrite (proj2 (lookup_ge_None G0 n)) by (rewrite Hn0; lia).
    by rewrite (proj2 (lookup_ge_None g n)) by lia.
  - intros A proj n H1 H2. rewrite EG1. by rewrite !(field_pinch proj).
Qed.

End SplitPolygon.

(** X14.  [splitPolygon(a, b)] does what its comment says.  On a linked
    graph and for two different nodes it adds a mated pair, [a2] at the
    point of [a] and [b2] at the point of [b], and returns [a2]; old nodes
    keep their coordinates, mates, masks and steiner flags.  When [a] and
    [b] lie on one face loop, that loop is split in two: [a2] followed by
    the part from [b] on, and [b2] followed by the part from [a] up to [b].
    When they lie on two loops, the loops are joined into one through the
    bridge: [a2], the loop of [b] from [b], then [b2] and the loop of [a]
    from [a]. *)
Theorem splitPolygon_splits_or_joins g a b :
  linked g -> a < length g -> b < length g -> a <> b ->
  let g' := (Triangulator.splitPolygon g a b).1 in
  let a2 := length g in
  let b2 := S (length g) in
  (Triangulator.splitPolygon g a b).2 = a2
  /\ linked g' /\ length g' = S (S (length g))
  /\ Triangulator.xy g' a2 = Triangulator.xy g a
  /\ Triangulator.xy g' b2 = Triangulator.xy g b
  /\ edgeMate g' a2 = Some b2 /\ edgeMate g' b2 = Some a2
  /\ (forall n, n < length g ->
        Triangulator.xy g' n = Triangulator.xy g n /\ edgeMate g' n = edgeMate g n
        /\ maskBits g' n = maskBits g n /\ steiner g' n = steiner g n)
  /\ (forall l1 l2,
        walk g a a (a :: l1 ++ b :: l2) ->
        walk g' a2 a2 (a2 :: b :: l2) /\ walk g' b2 b2 (b2 :: a :: l1))
  /\ (forall la lb,
        walk g a a (a :: la) -> walk g b b (b :: lb) -> a ∉ b :: lb ->
        walk g' a2 a2 (a2 :: b :: lb ++ b2 :: a :: la)).
Proof.
  intros Hlinked Ha Hb Hab g' a2 b2.
  destruct (splitPolygon_links g a b Hlinked Ha Hb Hab) as (Hl' & Hn' & Hs' & Hfield).
  fold g' in Hl', Hn', Hs', Hfield. fold a2 b2 in Hs'.
  pose proof (linked_successorsInRange g Hlinked) as Hsucc.
  assert (facePredecessor g a < length g /\ facePredecessor g b < length g) as [Hpa Hpb].
  { split; by apply Hlinked. }
  assert (forall {A} (proj : HE.t -> A),
            (forall v e0, proj (HE.set_faceSuccessor v e0) = proj e0) ->
            (forall v e0, proj (HE.set_facePredecessor v e0) = proj e0) ->
            forall n, n < length g -> proj (g' !!! n) = proj (g !!! n)) as Hold.
  { intros A proj H1 H2 n Hn. rewrite (Hfield _ proj) by done.
    by rewrite lookup_total_app_old. }
  assert (faceSuccessor g' a2 = b) as Hsa2.
  { rewrite Hs'. unfold a2. repeat case_decide; try lia; done. }
  assert (faceSuccessor g' b2 = a) as Hsb2.
  { rewrite Hs'. unfold a2, b2. repeat case_decide; try lia; done. }
  assert (forall l x y t, chain g x l y -> last l = Some t -> NoDup l ->
            (forall n, n ∈ l -> n < length g) ->
            (forall n, n ∈ l -> n <> t ->
               n <> facePredecessor g a /\ n <> facePredecessor g b) ->
            forall y', faceSuccessor g' t = y' -> chain g' x l y') as Hre.
  { intros l x y t Hc Hlast Hnd Hrange Hother y' Ht.
    apply (chain_retarget g g' x l y y' t); try done.
    intros n Hn Hnt. destruct (Hother n Hn Hnt) as [H1 H2].
    specialize (Hrange n Hn). rewrite Hs'. unfold a2, b2.
    repeat case_decide; try lia; done. }
  split; [apply splitPolygon_node|]. split; [done|]. split; [done|].
  unfold Triangulator.xy, X, Y, edgeMate, maskBits, steiner.
  split.
  { rewrite !(Hfield _ _ a2) by done. unfold a2. by rewrite lookup_total_app_first. }
  split.
  { rewrite !(Hfield _ _ b2) by done. unfold b2. by rewrite lookup_total_app_second. }
  split.
  { rewrite (Hfield _ HE.edgeMate) by done. unfold a2. by rewrite lookup_total_app_first. }
  split.
  { rewrite (Hfield _ HE.edgeMate) by done. unfold b2. by rewrite lookup_total_app_second. }
  split.
  { intros n Hn. by rewrite !(Hold _ _) by done. }
  split.
  - intros l1 l2 Hw.
    pose proof (walk_NoDup _ _ _ _ Hw) as Hnd.
    pose proof (walk_in_range g a a _ Hsucc Ha Hw) as Hrange.
    pose proof (loop_last g a _ Hlinked Ha Hw) as Hlast.
    destruct (chain_split g l1 a b l2 a (walk_chain _ _ _ _ Hw)) as [Hc1 Hc2].
    assert (last (a :: l1) = Some (facePredecessor g b)) as Hlast1.
    { destruct (last (a :: l1)) as [t|] eqn:Ht; [|by apply last_None in Ht].
      f_equal. rewrite <- (chain_last_succ _ _ _ _ _ Hc1 Ht). symmetry. apply Hlinked.
      apply Hrange. apply last_Some_elem_of in Ht.
      change (a :: l1 ++ b :: l2) with ((a :: l1) ++ b :: l2).
      rewrite elem_of_app. by left. }
    assert (last (b :: l2) = Some (facePredecessor g a)) as Hlast2.
    { rewrite <- Hlast. change (a :: l1 ++ b :: l2) with ((a :: l1) ++ b :: l2).
      by rewrite last_app_cons. }
    change (a :: l1 ++ b :: l2) with ((a :: l1) ++ b :: l2) in Hnd, Hrange.
    apply NoDup_app in Hnd as (Hnd1 & Hdisj & Hnd2).
    assert (facePredecessor g b ∈ a :: l1) as Hpb1 by (by apply last_Some_elem_of).
    assert (facePredecessor g a ∈ b :: l2) as Hpa2 by (by apply last_Some_elem_of).
    assert (chain g' b (b :: l2) a2) as Hc2'.
    { apply (Hre _ _ _ _ Hc2 Hlast2 Hnd2).
      - intros n Hn. apply Hrange. rewrite elem_of_app. by right.
      - intros n Hn Hne. split; [done|]. intros ->. by apply (Hdisj _ Hpb1).
      - rewrite Hs'. unfold a2. repeat case_decide; try lia; try done.
        exfalso. apply (Hdisj (facePredecessor g b)); [done|congruence]. }
    assert (chain g' a (a :: l1) b2) as Hc1'.
    { apply (Hre _ _ _ _ Hc1 Hlast1 Hnd1).
      - intros n Hn. apply Hrange. rewrite elem_of_app. by left.
      - intros n Hn Hne. split; [|done]. intros ->. by apply (Hdisj _ Hn).
      - rewrite Hs'. by rewrite decide_True. }
    split.
    + apply chain_walk.
      * constructor. by rewrite Hsa2.
      * intros l' [= <-] Hin. assert (a2 < length g); [|unfold a2 in *; lia].
        apply Hrange. rewrite elem_of_app. by right.
    + apply chain_walk.
      * constructor. by rewrite Hsb2.
      * intros l' [= <-] Hin. assert (b2 < length g); [|unfold b2 in *; lia].
        apply Hrange. rewrite elem_of_app. by left.
  - intros la lb Hwa Hwb Hnot.
    pose proof (walk_in_range g a a _ Hsucc Ha Hwa) as Hra.
    pose proof (walk_in_range g b b _ Hsucc Hb Hwb) as Hrb.
    pose proof (loop_last g a _ Hlinked Ha Hwa) as Hlasta.
    pose proof (loop_last g b _ Hlinked Hb Hwb) as Hlastb.
    pose proof (loops_disjoint g b (b :: lb) a (a :: la) Hwb Hwa Hnot) as Hdisj.
    assert (facePredecessor g a ∈ a :: la) as Hpaa by (by apply last_Some_elem_of).
    assert (facePredecessor g b ∈ b :: lb) as Hpbb by (by apply last_Some_elem_of).
    assert (chain g' b (b :: lb) b2) as Hcb.
    { apply (Hre _ _ _ _ (walk_chain _ _ _ _ Hwb) Hlastb (walk_NoDup _ _ _ _ Hwb) Hrb).
      - intros n Hn Hne. split; [|done]. intros ->. by apply (Hdisj _ Hpaa).
      - rewrite Hs'. by rewrite decide_True. }
    assert (chain g' a (a :: la) a2) as Hca.
    { apply (Hre _ _ _ _ (walk_chain _ _ _ _ Hwa) Hlasta (walk_NoDup _ _ _ _ Hwa) Hra).
      - intros n Hn Hne. split; [done|]. intros ->. by apply (Hdisj _ Hn).
      - rewrite Hs'. unfold a2. repeat case_decide; try lia; try done.
        exfalso. apply (Hdisj _ Hpaa). congruence. }
    apply chain_walk.
    + constructor. rewrite Hsa2.
      change (b :: lb ++ b2 :: a :: la) with ((b :: lb) ++ b2 :: a :: la).
      apply (chain_app g' b (b :: lb) b2); [done|].
      constructor. by rewrite Hsb2.
    + intros l' [= <-] Hin.
      change (b :: lb ++ b2 :: a :: la) with ((b :: lb) ++ b2 :: a :: la) in Hin.
      apply elem_of_app in Hin as [Hin|Hin].
      * specialize (Hrb _ Hin). unfold a2 in *. lia.
      * apply elem_of_cons in Hin as [Hin|Hin]; [unfold a2, b2 in *; lia|].
        specialize (Hra _ Hin). unfold a2 in *. lia.
Qed.

Lemma splitPolygon_splits_the_square_and_joins_the_hole :
  (walk (Triangulator.splitPolygon squareLoop 0 4).1 8 8 [8; 4; 6]
   /\ walk (Triangulator.splitPolygon squareLoop 0 4).1 9 9 [9; 0; 2])
  /\ walk (Triangulator.splitPolygon squareWithHole 0 8).1 16 16
       [16; 8; 10; 12; 14; 17; 0; 2; 4; 6].
Proof.
  split.
  - apply (splitPolygon_splits_or_joins squareLoop 0 4
             ltac:(apply linkedb_linked; vm_compute; reflexivity)
             ltac:(vm_compute; lia) ltac:(vm_compute; lia) ltac:(lia)) with (l1 := [2]).
    apply (collect_walk 10). vm_compute. reflexivity.
  - apply (splitPolygon_splits_or_joins squareWithHole 0 8
             ltac:(apply linkedb_linked; vm_compute; reflexivity)
             ltac:(vm_compute; lia) ltac:(vm_compute; lia) ltac:(lia))
      with (la := [2; 4; 6]) (lb := [10; 12; 14]).
    + apply (collect_walk 10). vm_compute. reflexivity.
    + apply (collect_walk 10). vm_compute. reflexivity.
    + intros H. repeat (apply elem_of_cons in H as [H|H]; [lia|]). by apply elem_of_nil in H.
Defined.

(** ** The number of triangles cut from a convex polygon *)

Lemma triangularFaces_firstOfTriangle g :
  triangularFaces g = filter (fun n => firstOfTriangle g n) (seq 0 (length g)).
Proof. reflexivity. Qed.

Lemma filter_same (P P' : nat -> bool) : forall l : list nat,
  (forall n, n ∈ l -> P' n = P n) ->
  filter (fun n => P' n) l = filter (fun n => P n) l.
Proof.
  induction l as [|x l IH]; intros Hsame; [done|].
  rewrite !filter_cons, (Hsame x) by (by left).
  rewrite IH by (intros n Hn; apply Hsame; by right). done.
Qed.

Lemma filter_none (P : nat -> bool) : forall l : list nat,
  (forall n, n ∈ l -> P n = false) -> filter (fun n => P n) l = [].
Proof.
  induction l as [|x l IH]; intros Hnone; [done|].
  rewrite filter_cons, (Hnone x) by (by left).
  rewrite decide_False by (by intros []). apply IH. intros n Hn. apply Hnone. by right.
Qed.

Lemma filter_flip (P P' : nat -> bool) (m : nat) : forall l : list nat,
  NoDup l -> m ∈ l -> P m = false -> P' m = true ->
  (forall n, n ∈ l -> n <> m -> P' n = P n) ->
  length (filter (fun n => P' n) l) = S (length (filter (fun n => P n) l)).
Proof.
  induction l as [|x l IH]; intros Hnd Hm HP HP' Hsame; [by apply elem_of_nil in Hm|].
  apply NoDup_cons in Hnd as [Hx Hnd]. rewrite !filter_cons.
  destruct (decide (x = m)) as [->|Hne].
  - rewrite HP, HP'. rewrite decide_True by done. rewrite decide_False by (by intros []).
    simpl. f_equal.
    f_equal. apply filter_same. intros n Hn. apply Hsame; [by right|]. by intros ->.
  - apply elem_of_cons in Hm as [->|Hm]; [done|].
    rewrite (Hsame x) by (done || by left).
    assert (length (filter (fun n => P' n) l) = S (length (filter (fun n => P n) l)))
      as Hl.
    { apply IH; try done. intros n Hn. apply Hsame. by right. }
    destruct (decide (P x)); simpl; by rewrite Hl.
Qed.

(** The count goes up by one when one node below [N] becomes the first of
    a triangle, no node outside [T] changes and no other node of [T] is
    the first of a triangle before or after. *)
Lemma count_step (P P' : nat -> bool) (N N' m : nat) (T : list nat) :
  N <= N' -> m ∈ T -> m < N -> P' m = true ->
  (forall n, n ∈ T -> n <> m -> P' n = false) ->
  (forall n, n ∈ T -> n < N -> P n = false) ->
  (forall n, n < N' -> n ∉ T -> P' n = (n <? N) && P n) ->
  length (filter (fun n => P' n) (seq 0 N'))
  = S (length (filter (fun n => P n) (seq 0 N))).
Proof.
  intros HN HmT Hm HP' Hothers Hbefore Hframe.
  replace N' with (N + (N' - N)) by lia.
  rewrite seq_app, filter_app, length_app.
  rewrite (filter_none P' (seq (0 + N) (N' - N))).
  - simpl. rewrite Nat.add_0_r. apply (filter_flip P P' m).
    + apply NoDup_seq.
    + apply elem_of_seq. lia.
    + by apply Hbefore.
    + done.
    + intros n Hn%elem_of_seq Hne. destruct (decide (n ∈ T)) as [HT|HT].
      * rewrite Hothers, Hbefore by (done || lia). done.
      * rewrite Hframe by (done || lia).
        destruct (Nat.ltb_spec n N); [done|lia].
  - intros n Hn%elem_of_seq. destruct (decide (n ∈ T)) as [HT|HT].
    + apply Hothers; [done|lia].
    + rewrite Hframe by (done || lia). destruct (Nat.ltb_spec n N); [lia|done].
Qed.

Lemma walk_predecessor_inside g seed : forall cur l n,
  walk g seed cur l -> linked g -> cur < length g ->
  n ∈ l -> n <> cur -> (facePredecessor g n) ∈ l.
Proof.
  intros cur l n Hw Hlinked. revert n.
  induction Hw as [cur Hs|cur l Hs Hw IH]; intros n Hcur Hn Hne.
  - apply list_elem_of_singleton in Hn. done.
  - apply elem_of_cons in Hn as [->|Hn]; [done|].
    destruct (Hlinked cur Hcur) as (Hr & _ & Hps & _).
    destruct (decide (n = faceSuccessor g cur)) as [->|Hne'].
    + rewrite Hps. by left.
    + right. by apply IH.
Qed.

(** The nodes of a closed walk are closed under face-predecessor. *)
Lemma walk_closed_predecessor g s l n :
  linked g -> s < length g -> walk g s s l -> n ∈ l -> facePredecessor g n ∈ l.
Proof.
  intros Hlinked Hs Hw Hn. destruct (decide (n = s)) as [->|Hne].
  - destruct (exists_last (l := l)) as (l0 & z & ->).
    { intros ->. by apply elem_of_nil in Hn. }
    pose proof (chain_last_succ g s _ s z (walk_chain _ _ _ _ Hw) (last_snoc _ _)) as Hz.
    assert (z < length g) as Hzr.
    { apply (walk_in_range g s s _ (linked_successorsInRange g Hlinked) Hs Hw). in_list. }
    destruct (Hlinked z Hzr) as (_ & _ & Hps & _). rewrite Hz in Hps. rewrite Hps. in_list.
  - by apply (walk_predecessor_inside g s s).
Qed.

Lemma walk_outside_successor g s l n :
  linked g -> s < length g -> walk g s s l -> n < length g -> n ∉ l ->
  (faceSuccessor g n ∉ l) /\ faceSuccessor g n < length g.
Proof.
  intros Hlinked Hs Hw Hn Hnot. destruct (Hlinked n Hn) as (Hr & _ & Hps & _).
  split; [|done]. intros Hin. apply Hnot. rewrite <- Hps.
  by apply (walk_closed_predecessor g s).
Qed.

Lemma firstOfTriangle_unmarked g n :
  isMaskSet g n TRIANGULATED_NODE_MASK = false -> firstOfTriangle g n = false.
Proof.
  intros H. unfold firstOfTriangle, inTriangularFace. cbv zeta. rewrite H.
  by rewrite !andb_false_r.
Qed.

(** [firstOfTriangle] reads the links and masks of three nodes. *)
Lemma firstOfTriangle_frame g g' n :
  let s := faceSuccessor g n in
  let t := faceSuccessor g s in
  faceSuccessor g' n = s -> faceSuccessor g' s = t ->
  faceSuccessor g' t = faceSuccessor g t ->
  maskBits g' n = maskBits g n -> maskBits g' s = maskBits g s ->
  maskBits g' t = maskBits g t ->
  firstOfTriangle g' n = firstOfTriangle g n.
Proof.
  intros s t Hn Hs Ht Mn Ms Mt. unfold firstOfTriangle, inTriangularFace. cbv zeta.
  rewrite Hn. fold s. rewrite Hs. fold t. rewrite Ht.
  by rewrite !(isMaskSet_maskBits g g' n), !(isMaskSet_maskBits g g' s),
    !(isMaskSet_maskBits g g' t).
Qed.

Lemma firstOfTriangle_least g x y z :
  faceSuccessor g x = y -> faceSuccessor g y = z -> faceSuccessor g z = x ->
  x < y -> x < z -> y <> z ->
  isMaskSet g x TRIANGULATED_NODE_MASK = true ->
  isMaskSet g y TRIANGULATED_NODE_MASK = true ->
  isMaskSet g z TRIANGULATED_NODE_MASK = true ->
  isMaskSet g x EXTERIOR = false ->
  firstOfTriangle g x = true /\ firstOfTriangle g y = false
  /\ firstOfTriangle g z = false.
Proof.
  intros Hx Hy Hz Hxy Hxz Hyz Mx My Mz Ex.
  unfold firstOfTriangle, inTriangularFace. cbv zeta.
  rewrite !Hx, !Hy, !Hz, !Hx, Mx, My, Mz, Ex, !Nat.eqb_refl.
  assert ((y =? x) = false) as -> by (apply Nat.eqb_neq; lia).
  assert ((z =? x) = false) as -> by (apply Nat.eqb_neq; lia).
  assert ((z =? y) = false) as -> by (apply Nat.eqb_neq; lia).
  assert ((x <? y) = true) as -> by (apply Nat.ltb_lt; lia).
  assert ((x <? z) = true) as -> by (apply Nat.ltb_lt; lia).
  assert ((y <? x) = false) as -> by (apply Nat.ltb_ge; lia).
  assert ((z <? x) = false) as -> by (apply Nat.ltb_ge; lia).
  rewrite !andb_false_r. simpl. done.
Qed.

(** Of the three nodes of a marked interior triangle exactly the one of
    least index is its first. *)
Lemma triangle_first g x y z :
  faceSuccessor g x = y -> faceSuccessor g y = z -> faceSuccessor g z = x ->
  x <> y -> y <> z -> z <> x ->
  (forall n, n ∈ [x; y; z] ->
     isMaskSet g n TRIANGULATED_NODE_MASK = true /\ isMaskSet g n EXTERIOR = false) ->
  let m := Nat.min x (Nat.min y z) in
  m ∈ [x; y; z] /\ firstOfTriangle g m = true
  /\ (forall n, n ∈ [x; y; z] -> n <> m -> firstOfTriangle g n = false).
Proof.
  intros Hx Hy Hz Hxy Hyz Hzx Hmasks m.
  destruct (Hmasks x) as [Mx Ex]; [in_list|].
  destruct (Hmasks y) as [My Ey]; [in_list|].
  destruct (Hmasks z) as [Mz Ez]; [in_list|].
  destruct (decide (x < y /\ x < z)) as [[? ?]|Hnx].
  { destruct (firstOfTriangle_least g x y z) as (H1 & H2 & H3); try done.
    assert (m = x) as -> by (unfold m; lia). split; [in_list|]. split; [done|].
    intros n Hn Hne. in_list. }
  destruct (decide (y < z /\ y < x)) as [[? ?]|Hny].
  { destruct (firstOfTriangle_least g y z x) as (H1 & H2 & H3); try done.
    assert (m = y) as -> by (unfold m; lia). split; [in_list|]. split; [done|].
    intros n Hn Hne. in_list. }
  destruct (firstOfTriangle_least g z x y) as (H1 & H2 & H3); try done; try lia.
  assert (m = z) as -> by (unfold m; lia). split; [in_list|]. split; [done|].
  intros n Hn Hne. in_list.
Qed.

(** [joinNeighborsOfEar] at the first node of a convex loop adds one
    triangle and leaves the shorter loop interior. *)
Lemma join_count g e c d M a zl fuel g' :
  earLoop g (e :: c :: d :: M ++ [a]) zl ->
  (forall m, m ∈ e :: c :: d :: M ++ [a] -> isMaskSet g m EXTERIOR = false) ->
  Triangulator.joinNeighborsOfEar fuel g e = Ok g' ->
  length (triangularFaces g') = S (length (triangularFaces g))
  /\ (forall m, m ∈ d :: M ++ [length g; c] -> isMaskSet g' m EXTERIOR = false).
Proof.
  intros Hloop Hext Hrun.
  destruct Hloop as (Hlinked & (e' & He' & Hw) & Hlen & Hconvex & Hnodes & Hz & Hzl & Hlinks).
  injection He' as <-.
  assert (e < length g) as He by (apply Hnodes; by left).
  assert (a ∈ e :: c :: d :: M ++ [a]) as HaL by in_list.
  assert (c ∈ e :: c :: d :: M ++ [a]) as HcL by in_list.
  assert (a < length g) as Ha by (by apply Hnodes).
  pose proof (walk_NoDup _ _ _ _ Hw) as Hnd.
  assert (e <> a) as Hea.
  { intros ->. apply NoDup_cons in Hnd as [H1 _]. apply H1.
    change (a ∈ (c :: d :: M) ++ [a]). apply elem_of_app. right. by left. }
  destruct (join_links g e c d M a Hlinked Hw He)
    as (HwJ & HwT & HpJ & Hframe & Hsc & Hpa & HJe & HJalpha & HJc & HJa & Hsd).
  set (J := joinLinks g e) in *.
  assert (length J = S (S (length g))) as HlenJ by (by apply length_joinLinks).
  rewrite joinNeighborsOfEar_unfold in Hrun. fold J in Hrun.
  destruct (setMaskAroundFace_Ok fuel J e TRIANGULATED_NODE_MASK g' _ ltac:(done) HwT)
    as (Hgeo & Hset & Hother); [|exact Hrun|].
  { intros n Hn. rewrite HlenJ.
    apply elem_of_cons in Hn as [->|Hn]; [lia|].
    apply elem_of_cons in Hn as [->|Hn]; [lia|].
    apply elem_of_cons in Hn as [->|Hn]; [lia|by apply elem_of_nil in Hn]. }
  pose proof (setMaskAroundFace_other_bit fuel J e TRIANGULATED_NODE_MASK g' EXTERIOR
                eq_refl Hrun) as Hbit.
  assert (faceSuccessor J (S (length g)) = a) as HJbeta.
  { apply walk_chain in HwT. apply chain_cons_inv in HwT as [_ HwT].
    by apply chain_cons_inv in HwT as [? _]. }
  assert (forall n, faceSuccessor g' n = faceSuccessor J n) as Hs'
    by (intros; by apply geometry_faceSuccessor).
  assert (length g' = S (S (length g))) as Hlen'
    by (by rewrite (geometry_length _ _ Hgeo)).
  assert (forall n, n < length g -> maskBits J n = maskBits g n) as Hold.
  { intros n Hn. unfold maskBits. by apply joinLinks_old. }
  assert (forall n, n < length g -> n <> e -> n <> a -> maskBits g' n = maskBits g n)
    as Hkeep.
  { intros n Hn H1 H2. rewrite Hother, Hold; [done|done|].
    intros H. repeat (apply elem_of_cons in H as [H|H]; [done || lia|]).
    by apply elem_of_nil in H. }
  assert (maskBits g' (length g) = 0%Z) as Halpha.
  { rewrite Hother; [by destruct (joinLinks_maskBits_new g e)|].
    intros H. repeat (apply elem_of_cons in H as [H|H]; [lia|]).
    by apply elem_of_nil in H. }
  assert (forall n, n < length g -> isMaskSet g' n EXTERIOR = isMaskSet g n EXTERIOR)
    as Hextold.
  { intros n Hn. rewrite Hbit. by apply isMaskSet_maskBits, Hold. }
  assert (isMaskSet g' (S (length g)) EXTERIOR = false) as Hextbeta.
  { rewrite Hbit. apply isMaskSet_zero. by destruct (joinLinks_maskBits_new g e). }
  assert (forall n, n ∈ e :: c :: d :: M ++ [a] -> n < length g) as Hrange
    by (intros n Hn; by apply Hnodes).
  split.
  - destruct (triangle_first g' e (S (length g)) a) as (HmT & Hfirst & Hrest);
      rewrite ?Hs'; try done; try lia.
    { intros n Hn. split; [by apply Hset|].
      apply elem_of_cons in Hn as [->|Hn]; [rewrite Hextold by done; apply Hext; by left|].
      apply elem_of_cons in Hn as [->|Hn]; [done|].
      apply elem_of_cons in Hn as [->|Hn]; [|by apply elem_of_nil in Hn].
      rewrite Hextold by done. by apply Hext. }
    rewrite !triangularFaces_firstOfTriangle.
    apply (count_step (firstOfTriangle g) (firstOfTriangle g') (length g) (length g')
             (Nat.min e (Nat.min (S (length g)) a)) [e; S (length g); a]);
      try done; try lia.
    + intros n Hn Hlt. apply firstOfTriangle_unmarked.
      apply Hnodes.
      apply elem_of_cons in Hn as [->|Hn]; [by left|].
      apply elem_of_cons in Hn as [->|Hn]; [lia|].
      apply elem_of_cons in Hn as [->|Hn]; [done|by apply elem_of_nil in Hn].
    + intros n Hn Hnot.
      assert (n <> e /\ n <> a /\ n <> S (length g)) as (Hne & Hna & Hnb).
      { repeat split; intros ->; apply Hnot;
          [by left|right; right; by left|right; by left]. }
      destruct (Nat.ltb_spec n (length g)) as [Hlt|Hge]; cbn [andb].
      * destruct (decide (n ∈ e :: c :: d :: M ++ [a])) as [Hin|Hout].
        -- rewrite !firstOfTriangle_unmarked; [done|by apply Hnodes|].
           rewrite (isMaskSet_maskBits g g') by (by apply Hkeep). by apply Hnodes.
        -- destruct (walk_outside_successor g e _ n Hlinked He Hw Hlt Hout) as [Hout1 Hlt1].
           destruct (walk_outside_successor g e _ _ Hlinked He Hw Hlt1 Hout1)
             as [Hout2 Hlt2].
           assert (forall x, x ∉ e :: c :: d :: M ++ [a] -> x <> e /\ x <> a) as Hnot2.
           { intros x Hx. split; intros ->; apply Hx; [by left|done]. }
           destruct (Hnot2 _ Hout1), (Hnot2 _ Hout2).
           apply firstOfTriangle_frame; rewrite ?Hs'; try (by apply Hkeep).
           ++ by apply Hframe.
           ++ by apply Hframe.
           ++ by apply Hframe.
      * assert (n = length g) as -> by lia.
        apply firstOfTriangle_unmarked, isMaskSet_zero, Halpha.
  - intros m Hm. change (m ∈ (d :: M) ++ [length g; c]) in Hm.
    apply elem_of_app in Hm as [Hm|Hm].
    + assert (m ∈ e :: c :: d :: M ++ [a]) as HmL.
      { do 2 right. change (m ∈ (d :: M) ++ [a]). apply elem_of_app. by left. }
      rewrite Hextold by (by apply Hrange). by apply Hext.
    + apply elem_of_cons in Hm as [->|Hm]; [by apply isMaskSet_zero|].
      apply elem_of_cons in Hm as [->|Hm]; [|by apply elem_of_nil in Hm].
      rewrite Hextold by (by apply Hrange). by apply Hext.
Qed.

Lemma isMaskSet_foldl_setMask_other mask bit :
  Z.land mask bit = 0%Z ->
  forall (l : list node) g n,
    isMaskSet (foldl (fun g n => setMask g n mask) g l) n bit = isMaskSet g n bit.
Proof.
  intros Hd l. induction l as [|a l IH]; intros g n; simpl; [done|].
  rewrite IH. destruct (decide (a = n)) as [->|Hne].
  - by apply isMaskSet_setMask_other.
  - by apply isMaskSet_maskBits, maskBits_setMask_other.
Qed.

(** Marking the last three nodes of a convex loop adds one triangle. *)
Lemma triangle_count g e c a zl :
  earLoop g [e; c; a] zl ->
  (forall m, m ∈ [e; c; a] -> isMaskSet g m EXTERIOR = false) ->
  length (triangularFaces
            (setMask (setMask (setMask g e TRIANGULATED_NODE_MASK) c
                        TRIANGULATED_NODE_MASK) a TRIANGULATED_NODE_MASK))
  = S (length (triangularFaces g)).
Proof.
  intros Hloop Hext.
  destruct Hloop as (Hlinked & (e' & He' & Hw) & _ & _ & Hnodes & _).
  injection He' as <-.
  change (setMask (setMask (setMask g e TRIANGULATED_NODE_MASK) c
                     TRIANGULATED_NODE_MASK) a TRIANGULATED_NODE_MASK)
    with (foldl (fun g n => setMask g n TRIANGULATED_NODE_MASK) g [e; c; a]).
  set (g' := foldl (fun g n => setMask g n TRIANGULATED_NODE_MASK) g [e; c; a]).
  assert (geometry g' = geometry g) as Hgeo
    by (apply geometry_foldl; intros; apply geometry_setMask).
  assert (forall n, faceSuccessor g' n = faceSuccessor g n) as Hs'
    by (intros; by apply geometry_faceSuccessor).
  assert (length g' = length g) as Hlen' by (by apply geometry_length).
  assert (e < length g) as He by (apply Hnodes; by left).
  pose proof (walk_NoDup _ _ _ _ Hw) as Hnd.
  assert (e <> c /\ c <> a /\ a <> e) as (Hec & Hca & Hae).
  { apply NoDup_cons in Hnd as [H1 Hnd]. apply NoDup_cons in Hnd as [H2 _].
    split; [|split].
    - intros ->. apply H1. by left.
    - intros ->. apply H2. by left.
    - intros ->. apply H1. right. by left. }
  destruct (walk_head_links g e c [] a Hlinked He Hw) as [Hsc Hpa].
  assert (faceSuccessor g c = a /\ faceSuccessor g a = e) as [Hsa Hse].
  { apply walk_chain in Hw. apply chain_cons_inv in Hw as [_ Hw].
    apply chain_cons_inv in Hw as [? Hw]. split; [done|].
    by inversion Hw as [? ? Hs|? ? ? Hc]; subst; [|inversion Hc]. }
  destruct (triangle_first g' e c a) as (HmT & Hfirst & Hrest); rewrite ?Hs'; try done.
  { intros n Hn. split.
    - apply isMaskSet_foldl_setMask; [done|done|]. by apply Hnodes.
    - unfold g'. rewrite isMaskSet_foldl_setMask_other by done. by apply Hext. }
  rewrite !triangularFaces_firstOfTriangle.
  apply (count_step (firstOfTriangle g) (firstOfTriangle g') (length g) (length g')
           (Nat.min e (Nat.min c a)) [e; c; a]); try done; try lia.
  - intros n Hn _. apply firstOfTriangle_unmarked. by apply Hnodes.
  - intros n Hlt Hout. rewrite Hlen' in Hlt.
    destruct (Nat.ltb_spec n (length g)) as [_|?]; [|lia]. cbn [andb].
    destruct (walk_outside_successor g e _ n Hlinked He Hw Hlt Hout) as [Hout1 Hlt1].
    destruct (walk_outside_successor g e _ _ Hlinked He Hw Hlt1 Hout1) as [Hout2 Hlt2].
    apply firstOfTriangle_frame; rewrite ?Hs'; try done;
      (apply maskBits_foldl_other; [intros; by apply maskBits_setMask_other|done]).
Qed.

(** The loop on a convex loop of [3 + n] nodes adds [1 + n] triangles. *)
Lemma earcutWhile_convex_count : forall n g L zl e stop minX minY size fuel g',
  earLoop g L zl -> head L = Some e -> length L = 3 + n ->
  length L + length zl + 2 <= fuel ->
  (forall m, m ∈ L -> isMaskSet g m EXTERIOR = false) ->
  Triangulator.earcutWhile fuel g e stop minX minY size None = Ok g' ->
  length (triangularFaces g') = length (triangularFaces g) + S n.
Proof.
  induction n as [|n IH];
    intros g L zl e stop minX minY size fuel g' Hloop He Hlen Hfuel Hext Hrun.
  - destruct L as [|e' [|c [|a [|]]]]; try done. injection He as ->.
    pose proof (earLoop_isEarHashed g _ zl e fuel (Triangulator.numberOr0 minX)
                  (Triangulator.numberOr0 minY) (Triangulator.numberOr0 size)
                  Hloop eq_refl ltac:(simpl in Hfuel; lia)) as Hhashed.
    pose proof (earLoop_isEar g _ zl e fuel Hloop eq_refl ltac:(simpl in *; lia)) as Hbrute.
    pose proof (triangle_count g e c a zl Hloop Hext) as Hcount.
    destruct Hloop as (Hlinked & (e' & He' & Hw) & _ & _ & Hnodes & _).
    injection He' as <-.
    destruct (walk_head_links g e c [] a Hlinked) as [Hsc Hpa]; [apply Hnodes; by left|done|].
    assert (faceSuccessor g c = a) as Hsa.
    { apply walk_chain in Hw. apply chain_cons_inv in Hw as [_ Hw].
      by apply chain_cons_inv in Hw as [? _]. }
    destruct (Hnodes e) as [He Hme]; [by left|].
    destruct (Hnodes a) as [Ha _]; [repeat ((by left) || right)|].
    destruct fuel as [|[|fuel]]; [simpl in Hfuel; lia..|].
    rewrite earcutWhile_S, Hme, Hhashed, Hbrute in Hrun.
    replace (if Triangulator.truthy size then Ok true else Ok true)
      with (@Ok bool true) in Hrun by (by destruct (Triangulator.truthy size)).
    cbn [bind] in Hrun. rewrite Hsc, Hsa, Hpa, Nat.eqb_refl in Hrun. cbn [negb] in Hrun.
    cbv zeta in Hrun. rewrite !succ_setMask, !pred_setMask, Hsc, Hpa, Hsa in Hrun.
    rewrite earcutWhile_S in Hrun.
    rewrite isMaskSet_setMask in Hrun; [|done|by rewrite !length_setMask].
    injection Hrun as <-. rewrite Hcount. lia.
  - destruct (three_or_more L) as (e' & c & l & a & ->); [lia|].
    injection He as ->.
    destruct l as [|d M]; [simpl in Hlen; lia|].
    pose proof (earLoop_isEarHashed g _ zl e fuel (Triangulator.numberOr0 minX)
                  (Triangulator.numberOr0 minY) (Triangulator.numberOr0 size)
                  Hloop eq_refl ltac:(lia)) as Hhashed.
    pose proof (earLoop_isEar g _ zl e fuel Hloop eq_refl ltac:(lia)) as Hbrute.
    destruct (join_step g e c d M a zl fuel Hloop)
      as (g1 & zl' & Hjoin & Hloop' & Hlen' & Hse & Hmate & Hsalpha & Hsc' & Hsc & Hsd & Hpa & Hda);
      [simpl in Hfuel; lia|].
    destruct (join_count g e c d M a zl fuel g1 Hloop Hext Hjoin) as [Hcount Hext'].
    assert (isMaskSet g e TRIANGULATED_NODE_MASK = false) as Hme.
    { destruct Hloop as (_ & _ & _ & _ & Hnodes & _). apply Hnodes. by left. }
    destruct fuel as [|fuel]; [lia|].
    rewrite earcutWhile_S, Hme, Hhashed, Hbrute in Hrun.
    replace (if Triangulator.truthy size then Ok true else Ok true)
      with (@Ok bool true) in Hrun by (by destruct (Triangulator.truthy size)).
    cbn [bind] in Hrun. rewrite Hsc, Hsd, Hpa in Hrun.
    replace (d =? a) with false in Hrun by (symmetry; by apply Nat.eqb_neq).
    cbn [negb] in Hrun. rewrite Hjoin in Hrun. cbn [bind] in Hrun.
    rewrite Hse, Hmate in Hrun. cbn [deref bind] in Hrun.
    rewrite Hsalpha, Hsc' in Hrun.
    rewrite (IH g1 (d :: M ++ [length g; c]) zl' d d minX minY size fuel g'); try done.
    + lia.
    + simpl in *. rewrite length_app in *. simpl in *. lia.
    + simpl in *. rewrite length_app in *. simpl in *. lia.
Qed.

(** *** Points with exact coordinates *)

Lemma isSameCoordinate_exact x y :
  exactNumber x = true -> exactNumber y = true ->
  Geometry.isSameCoordinate x y = true -> (x == y)%Q.
Proof.
  destruct x as [a dx], y as [b dy]. unfold exactNumber. cbn [Qnum Qden].
  intros [Hdx _]%andb_prop [Hdy _]%andb_prop.
  apply Pos.eqb_eq in Hdx as ->. apply Pos.eqb_eq in Hdy as ->.
  unfold Geometry.isSameCoordinate. intros Hlt%Qltb_lt.
  unfold Geometry.smallMetricDistance in Hlt.
  unfold Qeq. cbn [Qnum Qden].
  unfold Qlt, Qabs, Qminus, Qplus, Qopp in Hlt. cbn [Qnum Qden] in Hlt.
  rewrite !Z.mul_1_r in Hlt.
  assert (Z.abs (a + - b) = 0 \/ 1 <= Z.abs (a + - b))%Z as [H0|H1] by lia; lia.
Qed.

Lemma equalXAndY_exact p q :
  exactPoint p = true -> exactPoint q = true ->
  Triangulator.equalXAndY p q = true -> (p.1 == q.1 /\ p.2 == q.2)%Q.
Proof.
  unfold exactPoint, Triangulator.equalXAndY.
  intros [? ?]%andb_prop [? ?]%andb_prop [? ?]%andb_prop.
  split; by apply isSameCoordinate_exact.
Qed.

Lemma signedTriangleArea_repeated a b c :
  (a.1 == b.1 /\ a.2 == b.2)%Q \/ (b.1 == c.1 /\ b.2 == c.2)%Q
  \/ (a.1 == c.1 /\ a.2 == c.2)%Q ->
  (Triangulator.signedTriangleArea a b c == 0)%Q.
Proof.
  unfold Triangulator.signedTriangleArea.
  intros [[H1 H2]|[[H1 H2]|[H1 H2]]]; rewrite H1, H2; ring.
Qed.

(** No two points of a convex loop of three points or more coincide. *)
Lemma convexLoop_pair l p q :
  3 <= length l -> convexLoop l -> [p; q] `sublist_of` l ->
  ~ (p.1 == q.1 /\ p.2 == q.2)%Q.
Proof.
  intros Hlen Hc Hs Heq.
  apply sublist_cons_l in Hs as (k1 & k2 & -> & Hs).
  apply sublist_cons_l in Hs as (k3 & k4 & -> & _).
  assert (exists a b c, [a; b; c] `sublist_of` k1 ++ p :: k3 ++ q :: k4
            /\ (Triangulator.signedTriangleArea a b c == 0)%Q) as (a & b & c & Hsub & H0).
  { destruct k1 as [|r k1]; [destruct k3 as [|r k3]; [destruct k4 as [|r k4]|]|].
    - simpl in Hlen. lia.
    - exists p, q, r. split; [do 3 apply sublist_skip; apply sublist_nil_l|].
      apply signedTriangleArea_repeated. by left.
    - exists p, r, q. split.
      + do 2 apply sublist_skip. apply sublist_inserts_l, sublist_skip, sublist_nil_l.
      + apply signedTriangleArea_repeated. right. by right.
    - exists r, p, q. split.
      + apply sublist_skip, sublist_inserts_l, sublist_skip, sublist_inserts_l,
          sublist_skip, sublist_nil_l.
      + apply signedTriangleArea_repeated. right. by left. }
  pose proof (Hc a b c Hsub) as Hneg. rewrite H0 in Hneg. by apply Qlt_irrefl in Hneg.
Qed.

(** Nothing is passed over when no point is identified with an earlier
    one. *)
Lemma keptAfter_all : forall data pre first last,
  (forall x q, [x; q] `sublist_of` pre ++ coordinates data ->
     Triangulator.equalXAndY x q = false) ->
  first ∈ pre -> last ∈ pre -> keptAfter first last data = coordinates data.
Proof.
  induction data as [|p data IH]; intros pre first last Hpairs Hfirst Hlast; [done|].
  cbn [keptAfter coordinates map].
  assert (forall x, x ∈ pre -> Triangulator.equalXAndY x (px p, py p) = false) as Hx.
  { intros x Hin. apply Hpairs.
    change [x; (px p, py p)] with ([x] ++ [(px p, py p)]).
    apply sublist_app; [by apply singleton_sublist_l|].
    apply sublist_skip, sublist_nil_l. }
  rewrite (Hx last), (Hx first) by done. cbn [orb]. f_equal.
  apply (IH (pre ++ [(px p, py p)])).
  - intros x q Hs. apply Hpairs. by rewrite <- app_assoc in Hs.
  - apply elem_of_app. by left.
  - apply elem_of_app. right. by left.
Qed.

Lemma exactData_coordinates data x :
  exactData data = true -> x ∈ coordinates data -> exactPoint x = true.
Proof.
  unfold exactData, coordinates. rewrite forallb_forall.
  intros Hall (p & -> & Hp)%list_elem_of_fmap. by apply Hall, list_elem_of_In.
Qed.

(** Every point of a convex polygon with exact coordinates is kept. *)
Lemma keptPoints_exact_convex data :
  3 <= length data -> exactData data = true -> convexPolygon data ->
  keptPoints data = coordinates data.
Proof.
  intros Hlen Hexact Hconvex.
  assert (length (coordinates data) = length data) as Hlenc
    by (unfold coordinates; by rewrite length_map).
  assert (forall x q, [x; q] `sublist_of` coordinates data ->
            Triangulator.equalXAndY x q = false) as Hpairs.
  { intros x q Hs. destruct (Triangulator.equalXAndY x q) eqn:Heq; [|done]. exfalso.
    assert (exactPoint x = true) as Hx.
    { apply (exactData_coordinates data); [done|].
      apply (elem_of_sublist [x; q]); [by left|done]. }
    assert (exactPoint q = true) as Hq.
    { apply (exactData_coordinates data); [done|].
      apply (elem_of_sublist [x; q]); [right; by left|done]. }
    destruct (equalXAndY_exact x q Hx Hq Heq) as [H1 H2].
    destruct Hconvex as [Hc|Hc].
    - apply (convexLoop_pair _ x q) in Hc; [by apply Hc|lia|done].
    - apply (convexLoop_pair _ q x) in Hc.
      + apply Hc. by split.
      + rewrite length_reverse. lia.
      + apply (sublist_reverse [x; q]). done. }
  destruct data as [|p data]; [done|].
  cbn [keptPoints coordinates map]. f_equal.
  apply (keptAfter_all data [(px p, py p)]); [done|by left|by left].
Qed.

Lemma firstOfTriangle_forgetZ g g' n :
  forgetZ g' = forgetZ g -> firstOfTriangle g' n = firstOfTriangle g n.
Proof.
  intros H. unfold firstOfTriangle, inTriangularFace.
  by rewrite !(forgetZ_faceSuccessor _ _ _ H), !(forgetZ_isMaskSet _ _ _ _ H).
Qed.

Lemma triangularFaces_forgetZ g g' :
  forgetZ g' = forgetZ g -> triangularFaces g' = triangularFaces g.
Proof.
  intros H. rewrite !triangularFaces_firstOfTriangle, (forgetZ_length _ _ H).
  apply filter_same. intros n _. by apply firstOfTriangle_forgetZ.
Qed.

(** X15.  For every convex polygon of three vertices or more with integer
    coordinates of magnitude at most 2^20 (every three vertices, taken in
    the order of the array, make a strict turn to the same side; the array
    may run counter-clockwise or clockwise), [earcutSingleLoop] returns when
    the fuel is at least twice the number of points plus six; no point of
    the array is passed over, and the graph returned has exactly two
    triangular faces fewer than the polygon has vertices, whether the ears
    are tested with [isEar] (up to 80 points) or with [isEarHashed]. *)
Theorem earcutSingleLoop_cuts_a_convex_polygon_into_triangles
    (data : list XAndY) (fuel : nat) :
  3 <= length data -> exactData data = true -> convexPolygon data ->
  2 * length data + 6 <= fuel ->
  keptPoints data = coordinates data
  /\ exists g,
       Triangulator.earcutSingleLoop fuel data = Ok g
       /\ length (triangularFaces g) = length data - 2.
Proof.
  intros Hlen Hexact Hconvex Hfuel.
  pose proof (keptPoints_exact_convex data Hlen Hexact Hconvex) as Hkept.
  split; [done|].
  destruct (createFaceLoop_built data fuel)
    as (g3 & start & L & area & Hcreate & Hfz & Hlinked & Hw & HlenL & Hrange
        & _ & _ & Hccw & Hcw & Hbits & Hbits' & _); [intros ->; simpl in Hlen; lia|lia|].
  rewrite Hkept in HlenL, Hccw, Hcw.
  assert (length (coordinates data) = length data) as Hlenc
    by (unfold coordinates; by rewrite length_map).
  rewrite Hlenc in HlenL.
  assert (convexLoop (map (Triangulator.xy g3) L)) as Hcvx.
  { assert (exists o, head (coordinates data) = Some o /\ take 1 (coordinates data) = [o])
      as (o & Ho & Ho').
    { destruct (coordinates data) as [|o ?]; [simpl in Hlenc; lia|]. by exists o. }
    destruct Hconvex as [Hc|Hc].
    - rewrite Hccw; [done|].
      rewrite Ho'. pose proof (pathSum_convex _ _ Ho ltac:(lia) Hc). lra.
    - rewrite Hcw by (rewrite Ho'; apply pathSum_clockwise; [done|lia|done]).
      rewrite reverse_app. apply convexLoop_rotate_app.
      by rewrite <- reverse_app, take_drop. }
  assert (forall n, isMaskSet g3 n TRIANGULATED_NODE_MASK = false) as Hplain.
  { intros n. destruct (decide (n < length g3)) as [Hn|Hn].
    - destruct (decide (n ∈ L)) as [HL|HL]; unfold isMaskSet.
      + by rewrite Hbits.
      + by rewrite Hbits'.
    - unfold isMaskSet, maskBits. rewrite list_lookup_total_alt.
      rewrite lookup_ge_None_2 by lia. done. }
  assert (triangularFaces g3 = []) as Hnone.
  { rewrite triangularFaces_firstOfTriangle. apply filter_none.
    intros n _. by apply firstOfTriangle_unmarked. }
  unfold Triangulator.earcutSingleLoop. rewrite Hcreate. cbn [bind].
  destruct (if 80 <? length data then Triangulator.boundsOf data
            else (None, None, None)) as [[minX minY] size].
  destruct (earcutLinked_convex g3 start L fuel minX minY size)
    as (gh & gb & Hh & Hb & Heq); try done; [lia|].
  exists gh. split; [done|].
  rewrite (triangularFaces_forgetZ gb gh Heq).
  unfold Triangulator.earcutLinked, Triangulator.earcutLinkedFrom in Hb.
  cbn [Triangulator.passFalsy Triangulator.truthy andb bind] in Hb.
  destruct (walk_head _ _ _ _ Hw) as [Lt HL].
  rewrite (earcutWhile_convex_count (length L - 3) g3 L [] start start None None None
             fuel gb); try done.
  - rewrite Hnone. simpl. lia.
  - split; [done|]. split; [exists start; split; [by rewrite HL|done]|].
    split; [lia|]. split; [done|]. split; [|split; [|split]].
    + intros n Hn. split; [by apply Hrange|done].
    + split; [constructor|done].
    + intros n Hn. by apply elem_of_nil in Hn.
    + intros n _. right. unfold prevZ, nextZ. rewrite <- Hfz, forgetZ_lookup. done.
  - by rewrite HL.
  - lia.
  - simpl. lia.
  - intros m Hm. unfold isMaskSet. by rewrite Hbits.
Qed.

Lemma earcutSingleLoop_cuts_the_parabola_polygon_into_triangles :
  3 <= length parabola81 /\ exactData parabola81 = true /\ convexPolygon parabola81
  /\ keptPoints parabola81 = coordinates parabola81
  /\ exists g,
       Triangulator.earcutSingleLoop 200 parabola81 = Ok g
       /\ length (triangularFaces g) = length parabola81 - 2.
Proof.
  assert (3 <= length parabola81) as Hlen by (vm_compute; lia).
  assert (exactData parabola81 = true) as Hexact by (vm_compute; reflexivity).
  assert (convexPolygon parabola81) as Hconvex.
  { left. apply convexLoopb_convexLoop. vm_compute. reflexivity. }
  split; [exact Hlen|]. split; [exact Hexact|]. split; [exact Hconvex|].
  apply (earcutSingleLoop_cuts_a_convex_polygon_into_triangles parabola81 200
           Hlen Hexact Hconvex).
  vm_compute. lia.
Defined.
